(** * xeogl.Object: the scene-graph node of xeogl, embedded in Rocq

    This development embeds [src/objects/object.js] (the class
    [xeogl.Object]): the parent/child hierarchy, the lazily rebuilt local and
    World matrices with their dirty flags, the boundary invalidation and the
    inherited render states.

    Objects are mutable and refer to each other (a child holds its parent, a
    parent lists its children), so the embedding is a store of objects
    addressed by references, with every method a function from store to
    store.  Methods that recurse through the hierarchy take a fuel argument:
    nothing in the source forbids a cyclic hierarchy, on which they would
    not return.  [None] stands for a call that does not return a value
    (fuel exhausted, or a JavaScript [TypeError] on a missing object). *)

From Stdlib Require Import ZArith Reals Lra Epsilon.
From stdpp Require Import gmap strings list fin_maps option.

Set Default Proof Using "Type".
Open Scope string_scope.

(** ** Numbers, vectors and matrices *)

(** The elements of a [Float32Array].  The source itself only writes the
    literals [0] and [1] and one product ([angle * DEGTORAD]); everything else
    is delegated to [xeogl.math]. *)
Class Number (T : Type) := {
  num0 : T;
  num1 : T;
  nmul : T -> T -> T
}.

(** Heap addresses of objects (object identity, as opposed to the [id]
    property, which is a string). *)
Definition ref := nat.

(** The value of [_entityType]: it is [undefined] until set, and a
    configuration may give [null] or a string.  The source compares it with
    [!==] and tests it for truthiness. *)
Inductive EType :=
| ETUndefined
| ETNull
| ETString (s : string).

Global Instance EType_eq_dec : EqDecision EType.
Proof. solve_decision. Defined.

Definition etruthy (e : EType) : option string :=
  match e with
  | ETString s => if decide (s = "") then None else Some s
  | _ => None
  end.

(** What a caller may pass to [addChild]. *)
Inductive Arg :=
| ArgId (i : string)          (* a numeric or string id *)
| ArgCfg                      (* a plain configuration object *)
| ArgObject (r : ref)         (* an instance of xeogl.Object *)
| ArgComponent (i : string).  (* a component that is not a xeogl.Object *)

(** A report on the diagnostic channel ([this.warn], [this.error]). *)
Inductive Diag :=
| Warn (reporter : ref) (msg : string)
| Error (reporter : ref) (msg : string).

(** The inherited boolean render states, one per property setter. *)
Inductive Flag :=
| Visible | Culled | Pickable | Clippable | Collidable | CastShadow
| ReceiveShadow | Outlined | Ghosted | Highlighted | Selected.

Section Object.

Context {T : Type} `{Number T}.

Definition vec3 : Type := T * T * T.
Definition vec4 : Type := T * T * T * T.
(** A 4x4 matrix, column by column: element [i] of the source's
    sixteen-element array is row [i mod 4] of column [i / 4], so the fourth
    column is the translation. *)
Definition mat4 : Type := vec4 * vec4 * vec4 * vec4.

(** Modelled from the spec: [xeogl.math.vec3()], [identityQuaternion()] and
    [identityMat4()] are not under src/; a fresh vector is all zeros (a new
    [Float32Array]), the quaternion default is the identity [0,0,0,1] and the
    matrix default is the identity matrix. *)
Definition math_vec3 : vec3 := (num0, num0, num0).
Definition identityQuaternion : vec4 := (num0, num0, num0, num1).
Definition identityMat4 : mat4 :=
  ((num1, num0, num0, num0), (num0, num1, num0, num0),
   (num0, num0, num1, num0), (num0, num0, num0, num1)).

(** ** Objects *)

(** The fields of a xeogl.Object: [id] and [scene] come from the Component
    base class, the others are assigned by [_init] and the property setters.
    [highlited] is the property which [addChild] writes (it does not exist
    until then). *)
Record Obj : Type := mkObj {
  id : string;
  scene : string;
  _parent : option ref;
  _childList : list ref;
  _childMap : gmap string ref;
  _childIDs : option (list string);
  _aabb : option (list T);
  _aabbDirty : bool;
  _obb : option (list T);
  _obbDirty : bool;
  _scale : vec3;
  _quaternion : vec4;
  _rotation : vec3;
  _position : vec3;
  _localMatrix : mat4;
  _worldMatrix : mat4;
  _worldNormalMatrix : mat4;
  _localMatrixDirty : bool;
  _worldMatrixDirty : bool;
  _worldNormalMatrixDirty : bool;
  _guid : option string;
  _entityType : EType;
  _visible : bool;
  _culled : bool;
  _pickable : bool;
  _clippable : bool;
  _collidable : bool;
  _castShadow : bool;
  _receiveShadow : bool;
  _outlined : bool;
  _ghosted : bool;
  _highlighted : bool;
  _selected : bool;
  layer : option Z;
  stationary : option Z;
  billboard : option Z;
  solid : option Z;
  _colorize : option vec4;
  highlited : option bool
}.


(** Field updates ([o.f = v]). *)

Definition with_parent (v : option ref) (o : Obj) : Obj :=
  mkObj (id o) (scene o) v (_childList o) (_childMap o) (_childIDs o)
    (_aabb o) (_aabbDirty o) (_obb o) (_obbDirty o) (_scale o) (_quaternion o)
    (_rotation o) (_position o) (_localMatrix o) (_worldMatrix o)
    (_worldNormalMatrix o) (_localMatrixDirty o) (_worldMatrixDirty o)
    (_worldNormalMatrixDirty o) (_guid o) (_entityType o) (_visible o)
    (_culled o) (_pickable o) (_clippable o) (_collidable o) (_castShadow o)
    (_receiveShadow o) (_outlined o) (_ghosted o) (_highlighted o)
    (_selected o) (layer o) (stationary o) (billboard o) (solid o)
    (_colorize o) (highlited o).

Definition with_childList (v : list ref) (o : Obj) : Obj :=
  mkObj (id o) (scene o) (_parent o) v (_childMap o) (_childIDs o) (_aabb o)
    (_aabbDirty o) (_obb o) (_obbDirty o) (_scale o) (_quaternion o)
    (_rotation o) (_position o) (_localMatrix o) (_worldMatrix o)
    (_worldNormalMatrix o) (_localMatrixDirty o) (_worldMatrixDirty o)
    (_worldNormalMatrixDirty o) (_guid o) (_entityType o) (_visible o)
    (_culled o) (_pickable o) (_clippable o) (_collidable o) (_castShadow o)
    (_receiveShadow o) (_outlined o) (_ghosted o) (_highlighted o)
    (_selected o) (layer o) (stationary o) (billboard o) (solid o)
    (_colorize o) (highlited o).

Definition with_childMap (v : gmap string ref) (o : Obj) : Obj :=
  mkObj (id o) (scene o) (_parent o) (_childList o) v (_childIDs o) (_aabb o)
    (_aabbDirty o) (_obb o) (_obbDirty o) (_scale o) (_quaternion o)
    (_rotation o) (_position o) (_localMatrix o) (_worldMatrix o)
    (_worldNormalMatrix o) (_localMatrixDirty o) (_worldMatrixDirty o)
    (_worldNormalMatrixDirty o) (_guid o) (_entityType o) (_visible o)
    (_culled o) (_pickable o) (_clippable o) (_collidable o) (_castShadow o)
    (_receiveShadow o) (_outlined o) (_ghosted o) (_highlighted o)
    (_selected o) (layer o) (stationary o) (billboard o) (solid o)
    (_colorize o) (highlited o).

Definition with_childIDs (v : option (list string)) (o : Obj) : Obj :=
  mkObj (id o) (scene o) (_parent o) (_childList o) (_childMap o) v (_aabb o)
    (_aabbDirty o) (_obb o) (_obbDirty o) (_scale o) (_quaternion o)
    (_rotation o) (_position o) (_localMatrix o) (_worldMatrix o)
    (_worldNormalMatrix o) (_localMatrixDirty o) (_worldMatrixDirty o)
    (_worldNormalMatrixDirty o) (_guid o) (_entityType o) (_visible o)
    (_culled o) (_pickable o) (_clippable o) (_collidable o) (_castShadow o)
    (_receiveShadow o) (_outlined o) (_ghosted o) (_highlighted o)
    (_selected o) (layer o) (stationary o) (billboard o) (solid o)
    (_colorize o) (highlited o).

Definition with_aabbDirty (v : bool) (o : Obj) : Obj :=
  mkObj (id o) (scene o) (_parent o) (_childList o) (_childMap o)
    (_childIDs o) (_aabb o) v (_obb o) (_obbDirty o) (_scale o)
    (_quaternion o) (_rotation o) (_position o) (_localMatrix o)
    (_worldMatrix o) (_worldNormalMatrix o) (_localMatrixDirty o)
    (_worldMatrixDirty o) (_worldNormalMatrixDirty o) (_guid o)
    (_entityType o) (_visible o) (_culled o) (_pickable o) (_clippable o)
    (_collidable o) (_castShadow o) (_receiveShadow o) (_outlined o)
    (_ghosted o) (_highlighted o) (_selected o) (layer o) (stationary o)
    (billboard o) (solid o) (_colorize o) (highlited o).

Definition with_obbDirty (v : bool) (o : Obj) : Obj :=
  mkObj (id o) (scene o) (_parent o) (_childList o) (_childMap o)
    (_childIDs o) (_aabb o) (_aabbDirty o) (_obb o) v (_scale o)
    (_quaternion o) (_rotation o) (_position o) (_localMatrix o)
    (_worldMatrix o) (_worldNormalMatrix o) (_localMatrixDirty o)
    (_worldMatrixDirty o) (_worldNormalMatrixDirty o) (_guid o)
    (_entityType o) (_visible o) (_culled o) (_pickable o) (_clippable o)
    (_collidable o) (_castShadow o) (_receiveShadow o) (_outlined o)
    (_ghosted o) (_highlighted o) (_selected o) (layer o) (stationary o)
    (billboard o) (solid o) (_colorize o) (highlited o).

Definition with_scale (v : vec3) (o : Obj) : Obj :=
  mkObj (id o) (scene o) (_parent o) (_childList o) (_childMap o)
    (_childIDs o) (_aabb o) (_aabbDirty o) (_obb o) (_obbDirty o) v
    (_quaternion o) (_rotation o) (_position o) (_localMatrix o)
    (_worldMatrix o) (_worldNormalMatrix o) (_localMatrixDirty o)
    (_worldMatrixDirty o) (_worldNormalMatrixDirty o) (_guid o)
    (_entityType o) (_visible o) (_culled o) (_pickable o) (_clippable o)
    (_collidable o) (_castShadow o) (_receiveShadow o) (_outlined o)
    (_ghosted o) (_highlighted o) (_selected o) (layer o) (stationary o)
    (billboard o) (solid o) (_colorize o) (highlited o).

Definition with_quaternion (v : vec4) (o : Obj) : Obj :=
  mkObj (id o) (scene o) (_parent o) (_childList o) (_childMap o)
    (_childIDs o) (_aabb o) (_aabbDirty o) (_obb o) (_obbDirty o) (_scale o) v
    (_rotation o) (_position o) (_localMatrix o) (_worldMatrix o)
    (_worldNormalMatrix o) (_localMatrixDirty o) (_worldMatrixDirty o)
    (_worldNormalMatrixDirty o) (_guid o) (_entityType o) (_visible o)
    (_culled o) (_pickable o) (_clippable o) (_collidable o) (_castShadow o)
    (_receiveShadow o) (_outlined o) (_ghosted o) (_highlighted o)
    (_selected o) (layer o) (stationary o) (billboard o) (solid o)
    (_colorize o) (highlited o).

Definition with_rotation (v : vec3) (o : Obj) : Obj :=
  mkObj (id o) (scene o) (_parent o) (_childList o) (_childMap o)
    (_childIDs o) (_aabb o) (_aabbDirty o) (_obb o) (_obbDirty o) (_scale o)
    (_quaternion o) v (_position o) (_localMatrix o) (_worldMatrix o)
    (_worldNormalMatrix o) (_localMatrixDirty o) (_worldMatrixDirty o)
    (_worldNormalMatrixDirty o) (_guid o) (_entityType o) (_visible o)
    (_culled o) (_pickable o) (_clippable o) (_collidable o) (_castShadow o)
    (_receiveShadow o) (_outlined o) (_ghosted o) (_highlighted o)
    (_selected o) (layer o) (stationary o) (billboard o) (solid o)
    (_colorize o) (highlited o).

Definition with_position (v : vec3) (o : Obj) : Obj :=
  mkObj (id o) (scene o) (_parent o) (_childList o) (_childMap o)
    (_childIDs o) (_aabb o) (_aabbDirty o) (_obb o) (_obbDirty o) (_scale o)
    (_quaternion o) (_rotation o) v (_localMatrix o) (_worldMatrix o)
    (_worldNormalMatrix o) (_localMatrixDirty o) (_worldMatrixDirty o)
    (_worldNormalMatrixDirty o) (_guid o) (_entityType o) (_visible o)
    (_culled o) (_pickable o) (_clippable o) (_collidable o) (_castShadow o)
    (_receiveShadow o) (_outlined o) (_ghosted o) (_highlighted o)
    (_selected o) (layer o) (stationary o) (billboard o) (solid o)
    (_colorize o) (highlited o).

Definition with_localMatrix (v : mat4) (o : Obj) : Obj :=
  mkObj (id o) (scene o) (_parent o) (_childList o) (_childMap o)
    (_childIDs o) (_aabb o) (_aabbDirty o) (_obb o) (_obbDirty o) (_scale o)
    (_quaternion o) (_rotation o) (_position o) v (_worldMatrix o)
    (_worldNormalMatrix o) (_localMatrixDirty o) (_worldMatrixDirty o)
    (_worldNormalMatrixDirty o) (_guid o) (_entityType o) (_visible o)
    (_culled o) (_pickable o) (_clippable o) (_collidable o) (_castShadow o)
    (_receiveShadow o) (_outlined o) (_ghosted o) (_highlighted o)
    (_selected o) (layer o) (stationary o) (billboard o) (solid o)
    (_colorize o) (highlited o).

Definition with_worldMatrix (v : mat4) (o : Obj) : Obj :=
  mkObj (id o) (scene o) (_parent o) (_childList o) (_childMap o)
    (_childIDs o) (_aabb o) (_aabbDirty o) (_obb o) (_obbDirty o) (_scale o)
    (_quaternion o) (_rotation o) (_position o) (_localMatrix o) v
    (_worldNormalMatrix o) (_localMatrixDirty o) (_worldMatrixDirty o)
    (_worldNormalMatrixDirty o) (_guid o) (_entityType o) (_visible o)
    (_culled o) (_pickable o) (_clippable o) (_collidable o) (_castShadow o)
    (_receiveShadow o) (_outlined o) (_ghosted o) (_highlighted o)
    (_selected o) (layer o) (stationary o) (billboard o) (solid o)
    (_colorize o) (highlited o).

Definition with_localMatrixDirty (v : bool) (o : Obj) : Obj :=
  mkObj (id o) (scene o) (_parent o) (_childList o) (_childMap o)
    (_childIDs o) (_aabb o) (_aabbDirty o) (_obb o) (_obbDirty o) (_scale o)
    (_quaternion o) (_rotation o) (_position o) (_localMatrix o)
    (_worldMatrix o) (_worldNormalMatrix o) v (_worldMatrixDirty o)
    (_worldNormalMatrixDirty o) (_guid o) (_entityType o) (_visible o)
    (_culled o) (_pickable o) (_clippable o) (_collidable o) (_castShadow o)
    (_receiveShadow o) (_outlined o) (_ghosted o) (_highlighted o)
    (_selected o) (layer o) (stationary o) (billboard o) (solid o)
    (_colorize o) (highlited o).

Definition with_worldMatrixDirty (v : bool) (o : Obj) : Obj :=
  mkObj (id o) (scene o) (_parent o) (_childList o) (_childMap o)
    (_childIDs o) (_aabb o) (_aabbDirty o) (_obb o) (_obbDirty o) (_scale o)
    (_quaternion o) (_rotation o) (_position o) (_localMatrix o)
    (_worldMatrix o) (_worldNormalMatrix o) (_localMatrixDirty o) v
    (_worldNormalMatrixDirty o) (_guid o) (_entityType o) (_visible o)
    (_culled o) (_pickable o) (_clippable o) (_collidable o) (_castShadow o)
    (_receiveShadow o) (_outlined o) (_ghosted o) (_highlighted o)
    (_selected o) (layer o) (stationary o) (billboard o) (solid o)
    (_colorize o) (highlited o).

Definition with_worldNormalMatrixDirty (v : bool) (o : Obj) : Obj :=
  mkObj (id o) (scene o) (_parent o) (_childList o) (_childMap o)
    (_childIDs o) (_aabb o) (_aabbDirty o) (_obb o) (_obbDirty o) (_scale o)
    (_quaternion o) (_rotation o) (_position o) (_localMatrix o)
    (_worldMatrix o) (_worldNormalMatrix o) (_localMatrixDirty o)
    (_worldMatrixDirty o) v (_guid o) (_entityType o) (_visible o) (_culled o)
    (_pickable o) (_clippable o) (_collidable o) (_castShadow o)
    (_receiveShadow o) (_outlined o) (_ghosted o) (_highlighted o)
    (_selected o) (layer o) (stationary o) (billboard o) (solid o)
    (_colorize o) (highlited o).

Definition with_entityType (v : EType) (o : Obj) : Obj :=
  mkObj (id o) (scene o) (_parent o) (_childList o) (_childMap o)
    (_childIDs o) (_aabb o) (_aabbDirty o) (_obb o) (_obbDirty o) (_scale o)
    (_quaternion o) (_rotation o) (_position o) (_localMatrix o)
    (_worldMatrix o) (_worldNormalMatrix o) (_localMatrixDirty o)
    (_worldMatrixDirty o) (_worldNormalMatrixDirty o) (_guid o) v (_visible o)
    (_culled o) (_pickable o) (_clippable o) (_collidable o) (_castShadow o)
    (_receiveShadow o) (_outlined o) (_ghosted o) (_highlighted o)
    (_selected o) (layer o) (stationary o) (billboard o) (solid o)
    (_colorize o) (highlited o).

Definition with_visible (v : bool) (o : Obj) : Obj :=
  mkObj (id o) (scene o) (_parent o) (_childList o) (_childMap o)
    (_childIDs o) (_aabb o) (_aabbDirty o) (_obb o) (_obbDirty o) (_scale o)
    (_quaternion o) (_rotation o) (_position o) (_localMatrix o)
    (_worldMatrix o) (_worldNormalMatrix o) (_localMatrixDirty o)
    (_worldMatrixDirty o) (_worldNormalMatrixDirty o) (_guid o)
    (_entityType o) v (_culled o) (_pickable o) (_clippable o) (_collidable o)
    (_castShadow o) (_receiveShadow o) (_outlined o) (_ghosted o)
    (_highlighted o) (_selected o) (layer o) (stationary o) (billboard o)
    (solid o) (_colorize o) (highlited o).

Definition with_culled (v : bool) (o : Obj) : Obj :=
  mkObj (id o) (scene o) (_parent o) (_childList o) (_childMap o)
    (_childIDs o) (_aabb o) (_aabbDirty o) (_obb o) (_obbDirty o) (_scale o)
    (_quaternion o) (_rotation o) (_position o) (_localMatrix o)
    (_worldMatrix o) (_worldNormalMatrix o) (_localMatrixDirty o)
    (_worldMatrixDirty o) (_worldNormalMatrixDirty o) (_guid o)
    (_entityType o) (_visible o) v (_pickable o) (_clippable o)
    (_collidable o) (_castShadow o) (_receiveShadow o) (_outlined o)
    (_ghosted o) (_highlighted o) (_selected o) (layer o) (stationary o)
    (billboard o) (solid o) (_colorize o) (highlited o).

Definition with_pickable (v : bool) (o : Obj) : Obj :=
  mkObj (id o) (scene o) (_parent o) (_childList o) (_childMap o)
    (_childIDs o) (_aabb o) (_aabbDirty o) (_obb o) (_obbDirty o) (_scale o)
    (_quaternion o) (_rotation o) (_position o) (_localMatrix o)
    (_worldMatrix o) (_worldNormalMatrix o) (_localMatrixDirty o)
    (_worldMatrixDirty o) (_worldNormalMatrixDirty o) (_guid o)
    (_entityType o) (_visible o) (_culled o) v (_clippable o) (_collidable o)
    (_castShadow o) (_receiveShadow o) (_outlined o) (_ghosted o)
    (_highlighted o) (_selected o) (layer o) (stationary o) (billboard o)
    (solid o) (_colorize o) (highlited o).

Definition with_clippable (v : bool) (o : Obj) : Obj :=
  mkObj (id o) (scene o) (_parent o) (_childList o) (_childMap o)
    (_childIDs o) (_aabb o) (_aabbDirty o) (_obb o) (_obbDirty o) (_scale o)
    (_quaternion o) (_rotation o) (_position o) (_localMatrix o)
    (_worldMatrix o) (_worldNormalMatrix o) (_localMatrixDirty o)
    (_worldMatrixDirty o) (_worldNormalMatrixDirty o) (_guid o)
    (_entityType o) (_visible o) (_culled o) (_pickable o) v (_collidable o)
    (_castShadow o) (_receiveShadow o) (_outlined o) (_ghosted o)
    (_highlighted o) (_selected o) (layer o) (stationary o) (billboard o)
    (solid o) (_colorize o) (highlited o).

Definition with_collidable (v : bool) (o : Obj) : Obj :=
  mkObj (id o) (scene o) (_parent o) (_childList o) (_childMap o)
    (_childIDs o) (_aabb o) (_aabbDirty o) (_obb o) (_obbDirty o) (_scale o)
    (_quaternion o) (_rotation o) (_position o) (_localMatrix o)
    (_worldMatrix o) (_worldNormalMatrix o) (_localMatrixDirty o)
    (_worldMatrixDirty o) (_worldNormalMatrixDirty o) (_guid o)
    (_entityType o) (_visible o) (_culled o) (_pickable o) (_clippable o) v
    (_castShadow o) (_receiveShadow o) (_outlined o) (_ghosted o)
    (_highlighted o) (_selected o) (layer o) (stationary o) (billboard o)
    (solid o) (_colorize o) (highlited o).

Definition with_castShadow (v : bool) (o : Obj) : Obj :=
  mkObj (id o) (scene o) (_parent o) (_childList o) (_childMap o)
    (_childIDs o) (_aabb o) (_aabbDirty o) (_obb o) (_obbDirty o) (_scale o)
    (_quaternion o) (_rotation o) (_position o) (_localMatrix o)
    (_worldMatrix o) (_worldNormalMatrix o) (_localMatrixDirty o)
    (_worldMatrixDirty o) (_worldNormalMatrixDirty o) (_guid o)
    (_entityType o) (_visible o) (_culled o) (_pickable o) (_clippable o)
    (_collidable o) v (_receiveShadow o) (_outlined o) (_ghosted o)
    (_highlighted o) (_selected o) (layer o) (stationary o) (billboard o)
    (solid o) (_colorize o) (highlited o).

Definition with_receiveShadow (v : bool) (o : Obj) : Obj :=
  mkObj (id o) (scene o) (_parent o) (_childList o) (_childMap o)
    (_childIDs o) (_aabb o) (_aabbDirty o) (_obb o) (_obbDirty o) (_scale o)
    (_quaternion o) (_rotation o) (_position o) (_localMatrix o)
    (_worldMatrix o) (_worldNormalMatrix o) (_localMatrixDirty o)
    (_worldMatrixDirty o) (_worldNormalMatrixDirty o) (_guid o)
    (_entityType o) (_visible o) (_culled o) (_pickable o) (_clippable o)
    (_collidable o) (_castShadow o) v (_outlined o) (_ghosted o)
    (_highlighted o) (_selected o) (layer o) (stationary o) (billboard o)
    (solid o) (_colorize o) (highlited o).

Definition with_outlined (v : bool) (o : Obj) : Obj :=
  mkObj (id o) (scene o) (_parent o) (_childList o) (_childMap o)
    (_childIDs o) (_aabb o) (_aabbDirty o) (_obb o) (_obbDirty o) (_scale o)
    (_quaternion o) (_rotation o) (_position o) (_localMatrix o)
    (_worldMatrix o) (_worldNormalMatrix o) (_localMatrixDirty o)
    (_worldMatrixDirty o) (_worldNormalMatrixDirty o) (_guid o)
    (_entityType o) (_visible o) (_culled o) (_pickable o) (_clippable o)
    (_collidable o) (_castShadow o) (_receiveShadow o) v (_ghosted o)
    (_highlighted o) (_selected o) (layer o) (stationary o) (billboard o)
    (solid o) (_colorize o) (highlited o).

Definition with_ghosted (v : bool) (o : Obj) : Obj :=
  mkObj (id o) (scene o) (_parent o) (_childList o) (_childMap o)
    (_childIDs o) (_aabb o) (_aabbDirty o) (_obb o) (_obbDirty o) (_scale o)
    (_quaternion o) (_rotation o) (_position o) (_localMatrix o)
    (_worldMatrix o) (_worldNormalMatrix o) (_localMatrixDirty o)
    (_worldMatrixDirty o) (_worldNormalMatrixDirty o) (_guid o)
    (_entityType o) (_visible o) (_culled o) (_pickable o) (_clippable o)
    (_collidable o) (_castShadow o) (_receiveShadow o) (_outlined o) v
    (_highlighted o) (_selected o) (layer o) (stationary o) (billboard o)
    (solid o) (_colorize o) (highlited o).

Definition with_highlighted (v : bool) (o : Obj) : Obj :=
  mkObj (id o) (scene o) (_parent o) (_childList o) (_childMap o)
    (_childIDs o) (_aabb o) (_aabbDirty o) (_obb o) (_obbDirty o) (_scale o)
    (_quaternion o) (_rotation o) (_position o) (_localMatrix o)
    (_worldMatrix o) (_worldNormalMatrix o) (_localMatrixDirty o)
    (_worldMatrixDirty o) (_worldNormalMatrixDirty o) (_guid o)
    (_entityType o) (_visible o) (_culled o) (_pickable o) (_clippable o)
    (_collidable o) (_castShadow o) (_receiveShadow o) (_outlined o)
    (_ghosted o) v (_selected o) (layer o) (stationary o) (billboard o)
    (solid o) (_colorize o) (highlited o).

Definition with_selected (v : bool) (o : Obj) : Obj :=
  mkObj (id o) (scene o) (_parent o) (_childList o) (_childMap o)
    (_childIDs o) (_aabb o) (_aabbDirty o) (_obb o) (_obbDirty o) (_scale o)
    (_quaternion o) (_rotation o) (_position o) (_localMatrix o)
    (_worldMatrix o) (_worldNormalMatrix o) (_localMatrixDirty o)
    (_worldMatrixDirty o) (_worldNormalMatrixDirty o) (_guid o)
    (_entityType o) (_visible o) (_culled o) (_pickable o) (_clippable o)
    (_collidable o) (_castShadow o) (_receiveShadow o) (_outlined o)
    (_ghosted o) (_highlighted o) v (layer o) (stationary o) (billboard o)
    (solid o) (_colorize o) (highlited o).

Definition with_colorize (v : option vec4) (o : Obj) : Obj :=
  mkObj (id o) (scene o) (_parent o) (_childList o) (_childMap o)
    (_childIDs o) (_aabb o) (_aabbDirty o) (_obb o) (_obbDirty o) (_scale o)
    (_quaternion o) (_rotation o) (_position o) (_localMatrix o)
    (_worldMatrix o) (_worldNormalMatrix o) (_localMatrixDirty o)
    (_worldMatrixDirty o) (_worldNormalMatrixDirty o) (_guid o)
    (_entityType o) (_visible o) (_culled o) (_pickable o) (_clippable o)
    (_collidable o) (_castShadow o) (_receiveShadow o) (_outlined o)
    (_ghosted o) (_highlighted o) (_selected o) (layer o) (stationary o)
    (billboard o) (solid o) v (highlited o).

Definition with_highlited (v : option bool) (o : Obj) : Obj :=
  mkObj (id o) (scene o) (_parent o) (_childList o) (_childMap o)
    (_childIDs o) (_aabb o) (_aabbDirty o) (_obb o) (_obbDirty o) (_scale o)
    (_quaternion o) (_rotation o) (_position o) (_localMatrix o)
    (_worldMatrix o) (_worldNormalMatrix o) (_localMatrixDirty o)
    (_worldMatrixDirty o) (_worldNormalMatrixDirty o) (_guid o)
    (_entityType o) (_visible o) (_culled o) (_pickable o) (_clippable o)
    (_collidable o) (_castShadow o) (_receiveShadow o) (_outlined o)
    (_ghosted o) (_highlighted o) (_selected o) (layer o) (stationary o)
    (billboard o) (solid o) (_colorize o) v.

Definition put_flag (fl : Flag) (b : bool) (o : Obj) : Obj :=
  match fl with
  | Visible => with_visible b o
  | Culled => with_culled b o
  | Pickable => with_pickable b o
  | Clippable => with_clippable b o
  | Collidable => with_collidable b o
  | CastShadow => with_castShadow b o
  | ReceiveShadow => with_receiveShadow b o
  | Outlined => with_outlined b o
  | Ghosted => with_ghosted b o
  | Highlighted => with_highlighted b o
  | Selected => with_selected b o
  end.

Definition get_flag (fl : Flag) (o : Obj) : bool :=
  match fl with
  | Visible => _visible o
  | Culled => _culled o
  | Pickable => _pickable o
  | Clippable => _clippable o
  | Collidable => _collidable o
  | CastShadow => _castShadow o
  | ReceiveShadow => _receiveShadow o
  | Outlined => _outlined o
  | Ghosted => _ghosted o
  | Highlighted => _highlighted o
  | Selected => _selected o
  end.

(** The assignments at the head of [_init]: hierarchy, boundary and transform
    fields get their initial values, the other fields are left alone. *)
Definition init_fields (guid : option string) (o : Obj) : Obj :=
  mkObj (id o) (scene o) None [] ∅ None None true None true
    math_vec3 identityQuaternion math_vec3 math_vec3
    identityMat4 identityMat4 identityMat4 true true true
    guid (_entityType o) (_visible o) (_culled o) (_pickable o)
    (_clippable o) (_collidable o) (_castShadow o) (_receiveShadow o)
    (_outlined o) (_ghosted o) (_highlighted o) (_selected o) (layer o)
    (stationary o) (billboard o) (solid o) (_colorize o) (highlited o).

(** [this.layer = cfg.layer] and the three assignments after it: plain
    properties of the base class. *)
Definition with_plain (l st b so : option Z) (o : Obj) : Obj :=
  mkObj (id o) (scene o) (_parent o) (_childList o) (_childMap o)
    (_childIDs o) (_aabb o) (_aabbDirty o) (_obb o) (_obbDirty o) (_scale o)
    (_quaternion o) (_rotation o) (_position o) (_localMatrix o)
    (_worldMatrix o) (_worldNormalMatrix o) (_localMatrixDirty o)
    (_worldMatrixDirty o) (_worldNormalMatrixDirty o) (_guid o)
    (_entityType o) (_visible o) (_culled o) (_pickable o) (_clippable o)
    (_collidable o) (_castShadow o) (_receiveShadow o) (_outlined o)
    (_ghosted o) (_highlighted o) (_selected o) l st b so
    (_colorize o) (highlited o).

(** An object on which no property has been assigned yet: what the
    Component constructor hands to [_init].  Undefined flags read as false. *)
Definition blank (i sc : string) : Obj :=
  mkObj i sc None [] ∅ None None false None false
    math_vec3 (num0, num0, num0, num0) math_vec3 math_vec3
    identityMat4 identityMat4 identityMat4 false false false
    None ETUndefined false false false false false false false false false
    false false None None None None None None.

(** ** Scenes *)

(** Modelled from the spec: the Scene (scene.js) is not under src/.  The
    source reads and writes its [objects] and [rootObjects] maps directly and
    calls its entity hooks and its renderer; following sections 3 (I6) and 6
    of the spec, the hooks keep the per-class map, the aggregate entity map and
    the visible / ghosted / selected / highlighted entity maps, all keyed by
    object id.  [imageDirty] is the renderer's repaint signal. *)
Record Scene : Type := mkScene {
  objects : gmap string ref;
  rootObjects : gmap string ref;
  entityTypes : gmap string (gmap string ref);
  entities : gmap string ref;
  visibleEntities : gmap string ref;
  ghostedEntities : gmap string ref;
  selectedEntities : gmap string ref;
  highlightedEntities : gmap string ref;
  imageDirty : bool
}.

Definition with_rootObjects (v : gmap string ref) (sc : Scene) : Scene :=
  mkScene (objects sc) v (entityTypes sc) (entities sc) (visibleEntities sc)
    (ghostedEntities sc) (selectedEntities sc) (highlightedEntities sc)
    (imageDirty sc).

Definition with_imageDirty (v : bool) (sc : Scene) : Scene :=
  mkScene (objects sc) (rootObjects sc) (entityTypes sc) (entities sc)
    (visibleEntities sc) (ghostedEntities sc) (selectedEntities sc)
    (highlightedEntities sc) v.

Definition track (b : bool) (i : string) (r : ref) (m : gmap string ref)
  : gmap string ref :=
  if b then <[i := r]> m else delete i m.

Definition _entityTypeAssigned (r : ref) (i ty : string) (sc : Scene) : Scene :=
  mkScene (objects sc) (rootObjects sc)
    (<[ty := <[i := r]> (default ∅ (entityTypes sc !! ty))]> (entityTypes sc))
    (<[i := r]> (entities sc)) (visibleEntities sc) (ghostedEntities sc)
    (selectedEntities sc) (highlightedEntities sc) (imageDirty sc).

Definition _entityTypeRemoved (r : ref) (i ty : string) (sc : Scene) : Scene :=
  mkScene (objects sc) (rootObjects sc)
    (alter (delete i) ty (entityTypes sc))
    (delete i (entities sc)) (visibleEntities sc) (ghostedEntities sc)
    (selectedEntities sc) (highlightedEntities sc) (imageDirty sc).

Definition _entityVisibilityUpdated (r : ref) (i : string) (b : bool)
    (sc : Scene) : Scene :=
  mkScene (objects sc) (rootObjects sc) (entityTypes sc) (entities sc)
    (track b i r (visibleEntities sc)) (ghostedEntities sc)
    (selectedEntities sc) (highlightedEntities sc) (imageDirty sc).

Definition _entityGhostedUpdated (r : ref) (i : string) (b : bool)
    (sc : Scene) : Scene :=
  mkScene (objects sc) (rootObjects sc) (entityTypes sc) (entities sc)
    (visibleEntities sc) (track b i r (ghostedEntities sc))
    (selectedEntities sc) (highlightedEntities sc) (imageDirty sc).

Definition _entitySelectedUpdated (r : ref) (i : string) (b : bool)
    (sc : Scene) : Scene :=
  mkScene (objects sc) (rootObjects sc) (entityTypes sc) (entities sc)
    (visibleEntities sc) (ghostedEntities sc)
    (track b i r (selectedEntities sc)) (highlightedEntities sc)
    (imageDirty sc).

Definition _entityHighlightedUpdated (r : ref) (i : string) (b : bool)
    (sc : Scene) : Scene :=
  mkScene (objects sc) (rootObjects sc) (entityTypes sc) (entities sc)
    (visibleEntities sc) (ghostedEntities sc) (selectedEntities sc)
    (track b i r (highlightedEntities sc)) (imageDirty sc).

(** ** The store *)

(** Everything a method can read or write: the objects, the scenes, the
    events fired and the diagnostics reported so far (oldest first), and the
    variables which the source keeps in closures: the notification buffer of
    [_setBoundaryDirty] and the scratch arrays of [rotate] and
    [rotateOnWorldAxis]. *)
Record State : Type := mkState {
  objs : gmap ref Obj;
  scenes : gmap string Scene;
  fired : list (ref * string);
  diag : list Diag;
  notifications : list (option ref);
  lenNotifications : nat;
  rotate_angleAxis : vec4;
  rotate_q1 : vec4;
  rotate_q2 : vec4;
  rotateOnWorldAxis_angleAxis : vec4;
  rotateOnWorldAxis_q1 : vec4
}.

Definition with_objs (v : gmap ref Obj) (s : State) : State :=
  mkState v (scenes s) (fired s) (diag s) (notifications s)
    (lenNotifications s) (rotate_angleAxis s) (rotate_q1 s) (rotate_q2 s)
    (rotateOnWorldAxis_angleAxis s) (rotateOnWorldAxis_q1 s).

Definition with_scenes (v : gmap string Scene) (s : State) : State :=
  mkState (objs s) v (fired s) (diag s) (notifications s)
    (lenNotifications s) (rotate_angleAxis s) (rotate_q1 s) (rotate_q2 s)
    (rotateOnWorldAxis_angleAxis s) (rotateOnWorldAxis_q1 s).

Definition with_fired (v : list (ref * string)) (s : State) : State :=
  mkState (objs s) (scenes s) v (diag s) (notifications s)
    (lenNotifications s) (rotate_angleAxis s) (rotate_q1 s) (rotate_q2 s)
    (rotateOnWorldAxis_angleAxis s) (rotateOnWorldAxis_q1 s).

Definition with_diag (v : list Diag) (s : State) : State :=
  mkState (objs s) (scenes s) (fired s) v (notifications s)
    (lenNotifications s) (rotate_angleAxis s) (rotate_q1 s) (rotate_q2 s)
    (rotateOnWorldAxis_angleAxis s) (rotateOnWorldAxis_q1 s).

Definition with_notifications (v : list (option ref)) (n : nat) (s : State)
  : State :=
  mkState (objs s) (scenes s) (fired s) (diag s) v n
    (rotate_angleAxis s) (rotate_q1 s) (rotate_q2 s)
    (rotateOnWorldAxis_angleAxis s) (rotateOnWorldAxis_q1 s).

Definition with_rotate_scratch (angleAxis q1 q2 : vec4) (s : State) : State :=
  mkState (objs s) (scenes s) (fired s) (diag s) (notifications s)
    (lenNotifications s) angleAxis q1 q2
    (rotateOnWorldAxis_angleAxis s) (rotateOnWorldAxis_q1 s).

Definition with_rotateOnWorldAxis_scratch (angleAxis q1 : vec4) (s : State)
  : State :=
  mkState (objs s) (scenes s) (fired s) (diag s) (notifications s)
    (lenNotifications s) (rotate_angleAxis s) (rotate_q1 s) (rotate_q2 s)
    angleAxis q1.

(** Reading and writing an object through its reference. *)
Definition deref (r : ref) (s : State) : option Obj := objs s !! r.

Definition store (r : ref) (o : Obj) (s : State) : State :=
  with_objs (<[r := o]> (objs s)) s.

Definition modify (r : ref) (f : Obj -> Obj) (s : State) : option State :=
  o ← deref r s; Some (store r (f o) s).

(** [this.scene], and an update of it. *)
Definition scene_of (this : ref) (s : State) : option Scene :=
  o ← deref this s; scenes s !! scene o.

Definition modify_scene (this : ref) (f : Scene -> Scene) (s : State)
  : option State :=
  o ← deref this s;
  sc ← scenes s !! scene o;
  Some (with_scenes (<[scene o := f sc]> (scenes s)) s).

Definition warn (this : ref) (msg : string) (s : State) : State :=
  with_diag (diag s ++ [Warn this msg]) s.

Definition error (this : ref) (msg : string) (s : State) : State :=
  with_diag (diag s ++ [Error this msg]) s.

(** [object.fire(event)]: the event is recorded; subscribers are outside the
    model. *)
Definition fire (object : ref) (event : string) (s : State) : State :=
  with_fired (fired s ++ [(object, event)]) s.

(** [this._renderer.imageDirty()]. *)
Definition renderer_imageDirty (this : ref) (s : State) : option State :=
  modify_scene this (with_imageDirty true) s.

(** A loop whose body is a store transformer. *)
Fixpoint for_each {A : Type} (body : A -> State -> option State)
    (l : list A) (s : State) : option State :=
  match l with
  | [] => Some s
  | x :: l' => s' ← body x s; for_each body l' s'
  end.

(** ** The functions of xeogl.math used by the source

    [xeogl.math] is not under src/.  Its functions are parameters of the
    embedding: what the source does with their results is proved for every
    choice of them.  Each takes its operands and returns what the source
    receives in the destination array. *)
Variable composeMat4 : vec3 -> vec4 -> vec3 -> mat4.
Variable mulMat4 : mat4 -> mat4 -> mat4.
Variable decomposeMat4 : mat4 -> vec3 * vec4 * vec3.
Variable eulerToQuaternion : vec3 -> vec4.       (* order "XYZ" *)
Variable quaternionToEuler : vec4 -> vec3.       (* order "XYZ" *)
Variable angleAxisToQuaternion : vec4 -> vec4.
Variable mulQuaternions : vec4 -> vec4 -> vec4.
Variable DEGTORAD : T.

(** ** Transform management *)

(** [_setWorldMatrixDirty]: the flags of this object, then the same on each
    child.  (The loop reads [this._childList] again at each turn; nothing in
    its body assigns a child list, so the list read on entry is the list it
    walks.) *)
Definition mark_world (o : Obj) : Obj :=
  with_obbDirty true (with_aabbDirty true
    (with_worldNormalMatrixDirty true (with_worldMatrixDirty true o))).

Fixpoint _setWorldMatrixDirty (fuel : nat) (this : ref) (s : State)
  : option State :=
  match fuel with
  | 0 => None
  | S fuel' =>
      o ← deref this s;
      for_each (_setWorldMatrixDirty fuel') (_childList o)
        (store this (mark_world o) s)
  end.

Definition _setLocalMatrixDirty (fuel : nat) (this : ref) (s : State)
  : option State :=
  s1 ← modify this (with_localMatrixDirty true) s;
  _setWorldMatrixDirty fuel this s1.

Definition _buildLocalMatrix (this : ref) (s : State) : option State :=
  modify this (fun o =>
    with_localMatrixDirty false
      (with_localMatrix
         (composeMat4 (_position o) (_quaternion o) (_scale o)) o)) s.

(** [_buildWorldMatrix], with the [worldMatrix] getter it calls on the parent
    written in place (the getter is [worldMatrix] below). *)
Fixpoint _buildWorldMatrix (fuel : nat) (this : ref) (s : State)
  : option State :=
  match fuel with
  | 0 => None
  | S fuel' =>
      o ← deref this s;
      s1 ← (if _localMatrixDirty o then _buildLocalMatrix this s else Some s);
      o1 ← deref this s1;
      match _parent o1 with
      | None =>
          Some (store this
                  (with_worldMatrixDirty false
                     (with_worldMatrix (_localMatrix o1) o1)) s1)
      | Some p =>
          po ← deref p s1;
          s2 ← (if _worldMatrixDirty po then _buildWorldMatrix fuel' p s1
                else Some s1);
          po2 ← deref p s2;
          o2 ← deref this s2;
          Some (store this
                  (with_worldMatrixDirty false
                     (with_worldMatrix
                        (mulMat4 (_worldMatrix po2) (_localMatrix o2)) o2))
                  s2)
      end
  end.

(** The [matrix] and [worldMatrix] getters. *)
Definition matrix (this : ref) (s : State) : option (mat4 * State) :=
  o ← deref this s;
  s1 ← (if _localMatrixDirty o then _buildLocalMatrix this s else Some s);
  o1 ← deref this s1;
  Some (_localMatrix o1, s1).

Definition worldMatrix (fuel : nat) (this : ref) (s : State)
  : option (mat4 * State) :=
  o ← deref this s;
  s1 ← (if _worldMatrixDirty o then _buildWorldMatrix fuel this s
        else Some s);
  o1 ← deref this s1;
  Some (_worldMatrix o1, s1).

(** ** Boundary methods *)

(** [a[i] = x] on a JavaScript array: in range it overwrites, past the end it
    extends the array, leaving holes. *)
Definition array_put {A : Type} (i : nat) (x : A) (l : list (option A))
  : list (option A) :=
  if decide (i < length l) then <[i := Some x]> l
  else l ++ replicate (i - length l) None ++ [Some x].

(** The body shared by the two walks of [_setBoundaryDirty]:
    [if (object._aabbDirty) { ...; notifications[lenNotifications++] = object }]. *)
Definition mark_boundary (object : ref) (s : State) : option State :=
  o ← deref object s;
  if _aabbDirty o then
    let s1 := store object (with_obbDirty true (with_aabbDirty true o)) s in
    Some (with_notifications
            (array_put (lenNotifications s1) object (notifications s1))
            (S (lenNotifications s1)) s1)
  else Some s.

Fixpoint setParentBoundariesDirty (fuel : nat) (object : option ref)
    (s : State) : option State :=
  match object with
  | None => Some s
  | Some r =>
      match fuel with
      | 0 => None
      | S fuel' =>
          s1 ← mark_boundary r s;
          o ← deref r s1;
          setParentBoundariesDirty fuel' (_parent o) s1
      end
  end.

Fixpoint setSubtreeBoundariesDirty (fuel : nat) (object : ref) (s : State)
  : option State :=
  match fuel with
  | 0 => None
  | S fuel' =>
      o ← deref object s;
      s1 ← for_each (setSubtreeBoundariesDirty fuel') (_childList o) s;
      mark_boundary object s1
  end.

Definition fire_notification (i : nat) (s : State) : option State :=
  match notifications s !! i with
  | Some (Some r) => Some (fire r "boundary" s)
  | _ => None
  end.

Definition _setBoundaryDirty (fuel : nat) (this : ref) (s : State)
  : option State :=
  let s0 := with_notifications (notifications s) 0 s in
  s1 ← setSubtreeBoundariesDirty fuel this s0;
  s2 ← setParentBoundariesDirty fuel (Some this) s1;
  for_each fire_notification (seq 0 (lenNotifications s2)) s2.

(** ** Property setters *)

(** The value which a boolean setter stores: [v !== false] for [visible],
    [clippable], [collidable] and [pickable], [!!v] for the others.  [None]
    is an argument that is [undefined] or [null]. *)
Definition flag_value (fl : Flag) (v : option bool) : bool :=
  match fl with
  | Visible | Clippable | Collidable | Pickable =>
      negb (bool_decide (v = Some false))
  | _ => bool_decide (v = Some true)
  end.

(** The scene hook at the end of the setters of [visible], [highlighted],
    [ghosted] and [selected]. *)
Definition flag_hook (fl : Flag)
  : option (ref -> string -> bool -> Scene -> Scene) :=
  match fl with
  | Visible => Some _entityVisibilityUpdated
  | Highlighted => Some _entityHighlightedUpdated
  | Ghosted => Some _entityGhostedUpdated
  | Selected => Some _entitySelectedUpdated
  | _ => None
  end.

(** The eleven boolean setters share one body: store the value, assign it to
    every child through the child's own setter, then tell the scene. *)
Fixpoint set_flag (fuel : nat) (fl : Flag) (v : option bool) (this : ref)
    (s : State) : option State :=
  match fuel with
  | 0 => None
  | S fuel' =>
      let b := flag_value fl v in
      o ← deref this s;
      s1 ← for_each (set_flag fuel' fl (Some b)) (_childList o)
             (store this (put_flag fl b o) s);
      match flag_hook fl with
      | Some hook =>
          o1 ← deref this s1;
          match etruthy (_entityType o1) with
          | Some _ => modify_scene this (hook this (id o1) b) s1
          | None => Some s1
          end
      | None => Some s1
      end
  end.

Definition set_visible fuel := set_flag fuel Visible.
Definition set_culled fuel := set_flag fuel Culled.
Definition set_pickable fuel := set_flag fuel Pickable.
Definition set_clippable fuel := set_flag fuel Clippable.
Definition set_collidable fuel := set_flag fuel Collidable.
Definition set_castShadow fuel := set_flag fuel CastShadow.
Definition set_receiveShadow fuel := set_flag fuel ReceiveShadow.
Definition set_outlined fuel := set_flag fuel Outlined.
Definition set_ghosted fuel := set_flag fuel Ghosted.
Definition set_highlighted fuel := set_flag fuel Highlighted.
Definition set_selected fuel := set_flag fuel Selected.

(** [colorize] and [opacity] share the four-element [_colorize]. *)
Fixpoint set_colorize (fuel : nat) (rgb : option vec3) (this : ref)
    (s : State) : option State :=
  match fuel with
  | 0 => None
  | S fuel' =>
      o ← deref this s;
      let '(_, _, _, a) := default (num0, num0, num0, num1) (_colorize o) in
      let '(r, g, b) := default (num1, num1, num1) rgb in
      for_each (set_colorize fuel' (Some (r, g, b))) (_childList o)
        (store this (with_colorize (Some (r, g, b, a)) o) s)
  end.

Fixpoint set_opacity (fuel : nat) (opacity : option T) (this : ref)
    (s : State) : option State :=
  match fuel with
  | 0 => None
  | S fuel' =>
      o ← deref this s;
      let '(r, g, b, _) := default (num1, num1, num1, num0) (_colorize o) in
      for_each (set_opacity fuel' opacity) (_childList o)
        (store this (with_colorize (Some (r, g, b, default num1 opacity)) o) s)
  end.

Definition colorize (o : Obj) : option vec3 :=
  c ← _colorize o; let '(r, g, b, _) := c in Some (r, g, b).

Definition opacity (o : Obj) : option T :=
  c ← _colorize o; let '(_, _, _, a) := c in Some a.

(** The [entityType] setter. *)
Definition set_entityType (newEntityType : EType) (this : ref) (s : State)
  : option State :=
  o ← deref this s;
  if decide (_entityType o = newEntityType) then Some s
  else
    s1 ← match etruthy (_entityType o) with
          | Some old => modify_scene this (_entityTypeRemoved this (id o) old) s
          | None => Some s
          end;
    s2 ← modify this (with_entityType newEntityType) s1;
    match etruthy newEntityType with
    | Some ty =>
        modify_scene this (fun sc =>
          let sc1 := _entityTypeAssigned this (id o) ty sc in
          let sc2 := if _visible o
                     then _entityVisibilityUpdated this (id o) true sc1
                     else sc1 in
          let sc3 := if _ghosted o
                     then _entityGhostedUpdated this (id o) true sc2
                     else sc2 in
          let sc4 := if _selected o
                     then _entitySelectedUpdated this (id o) true sc3
                     else sc3 in
          if _highlighted o
          then _entityHighlightedUpdated this (id o) true sc4
          else sc4) s2
    | None =>
        modify_scene this (fun sc =>
          _entityHighlightedUpdated this (id o) false
            (_entitySelectedUpdated this (id o) false
               (_entityGhostedUpdated this (id o) false
                  (_entityVisibilityUpdated this (id o) false sc)))) s2
    end.

(** The transform setters.  [value || d] is [default d value]. *)
Definition transform_changed (fuel : nat) (this : ref) (s : State)
  : option State :=
  s1 ← _setLocalMatrixDirty fuel this s;
  s2 ← _setBoundaryDirty fuel this s1;
  renderer_imageDirty this s2.

Definition set_position (fuel : nat) (value : option vec3) (this : ref)
    (s : State) : option State :=
  s1 ← modify this (with_position (default (num0, num0, num0) value)) s;
  transform_changed fuel this s1.

Definition set_rotation (fuel : nat) (value : option vec3) (this : ref)
    (s : State) : option State :=
  s1 ← modify this (fun o =>
         let r := default (num0, num0, num0) value in
         with_quaternion (eulerToQuaternion r) (with_rotation r o)) s;
  transform_changed fuel this s1.

Definition set_quaternion (fuel : nat) (value : option vec4) (this : ref)
    (s : State) : option State :=
  s1 ← modify this (fun o =>
         let q := default (num0, num0, num0, num1) value in
         with_rotation (quaternionToEuler q) (with_quaternion q o)) s;
  transform_changed fuel this s1.

Definition set_scale (fuel : nat) (value : option vec3) (this : ref)
    (s : State) : option State :=
  s1 ← modify this (with_scale (default (num1, num1, num1) value)) s;
  transform_changed fuel this s1.

Definition set_matrix (fuel : nat) (value : option mat4) (this : ref)
    (s : State) : option State :=
  s1 ← modify this (fun o =>
         let m := default identityMat4 value in
         let '(p, q, sc) := decomposeMat4 m in
         with_localMatrixDirty false
           (with_scale sc (with_quaternion q (with_position p
              (with_localMatrix m o))))) s;
  s2 ← _setWorldMatrixDirty fuel this s1;
  s3 ← _setBoundaryDirty fuel this s2;
  renderer_imageDirty this s3.

(** ** Child management methods *)

(** The scan of [removeChild]: the first element of the child list whose id
    is [i], if any.  Stopping at the first match, it never looks at the
    elements after it. *)
Fixpoint find_child (i : string) (l : list ref) (s : State)
  : option (option ref) :=
  match l with
  | [] => Some None
  | c :: l' =>
      oc ← deref c s;
      if decide (id oc = i) then Some (Some c) else find_child i l' s
  end.

(** [removeChild].  [this._childList.splice(i, 1)] returns the array of the
    elements it removed, and that array is what the source assigns to
    [this._childList]. *)
Definition removeChild (fuel : nat) (this : ref) (object : ref) (s : State)
  : option State :=
  o ← deref object s;
  me ← deref this s;
  found ← find_child (id o) (_childList me) s;
  match found with
  | None => Some s
  | Some c =>
      s1 ← modify object (with_parent None) s;
      s2 ← modify this (fun me =>
             with_childIDs None
               (with_childMap (delete (id o) (_childMap me))
                  (with_childList [c] me))) s1;
      s3 ← modify_scene this (fun sc =>
             with_rootObjects (<[id o := object]> (rootObjects sc)) sc) s2;
      s4 ← _setWorldMatrixDirty fuel object s3;
      s5 ← _setBoundaryDirty fuel object s4;
      _setBoundaryDirty fuel this s5
  end.

(** The thirteen assignments of [addChild] under [inheritStates !== false],
    in the order of the source; each reads the parent's property when it
    runs.  The fourth writes the property [highlited]. *)
Definition inherit_flag (fuel : nat) (fl : Flag) (this object : ref)
    (s : State) : option State :=
  me ← deref this s; set_flag fuel fl (Some (get_flag fl me)) object s.

Definition inherit_states (fuel : nat) (this object : ref) (s : State)
  : option State :=
  s ← inherit_flag fuel Visible this object s;
  s ← inherit_flag fuel Culled this object s;
  s ← inherit_flag fuel Ghosted this object s;
  s ← (me ← deref this s;
       modify object (with_highlited (Some (_highlighted me))) s);
  s ← inherit_flag fuel Selected this object s;
  s ← inherit_flag fuel Outlined this object s;
  s ← inherit_flag fuel Clippable this object s;
  s ← inherit_flag fuel Pickable this object s;
  s ← inherit_flag fuel Collidable this object s;
  s ← inherit_flag fuel CastShadow this object s;
  s ← inherit_flag fuel ReceiveShadow this object s;
  s ← (me ← deref this s; c ← colorize me;
       set_colorize fuel (Some c) object s);
  me ← deref this s; a ← opacity me; set_opacity fuel (Some a) object s.

(** [addChild] from [var id = object.id] on, once the argument has been
    resolved to an object. *)
Definition attach (fuel : nat) (this object : ref)
    (inheritStates : option bool) (s : State) : option (option ref * State) :=
  o ← deref object s;
  me ← deref this s;
  if decide (scene o = scene me) then
    s1 ← modify_scene this (fun sc =>
           with_rootObjects (delete (id o) (rootObjects sc)) sc) s;
    s2 ← modify this (fun me =>
           with_childIDs None
             (with_childMap (<[id o := object]> (_childMap me))
                (with_childList (_childList me ++ [object]) me))) s1;
    s3 ← modify object (with_parent (Some this)) s2;
    s4 ← (if decide (inheritStates = Some false) then Some s3
          else inherit_states fuel this object s3);
    s5 ← _setWorldMatrixDirty fuel object s4;
    s6 ← _setBoundaryDirty fuel object s5;
    Some (Some object, s6)
  else
    Some (None, error this ("Object not in same Scene: " ++ id o) s).

(** [addChild].  The result is the child, or [undefined] ([None]) when the
    call gives up.  A plain configuration object passes the second test of
    the source and then has no [scene] to read: that call throws. *)
Definition addChild (fuel : nat) (this : ref) (object : Arg)
    (inheritStates : option bool) (s : State) : option (option ref * State) :=
  match object with
  | ArgId objectId =>
      sc ← scene_of this s;
      match objects sc !! objectId with
      | None =>
          Some (None, warn this ("Object not found: '" ++ objectId ++ "'") s)
      | Some r => attach fuel this r inheritStates s
      end
  | ArgCfg => None
  | ArgComponent i => Some (None, error this ("Not a xeogl.Object: " ++ i) s)
  | ArgObject r =>
      o ← deref r s;
      match _parent o with
      | None => attach fuel this r inheritStates s
      | Some p =>
          po ← deref p s;
          me ← deref this s;
          if decide (id po = id me) then
            Some (None, warn this ("Already a child object: " ++ id o) s)
          else
            s1 ← removeChild fuel p r s;
            attach fuel this r inheritStates s1
      end
  end.

(** [removeChildren]. *)
Definition removeChildren (fuel : nat) (this : ref) (s : State)
  : option State :=
  me ← deref this s;
  s1 ← for_each (fun object s =>
         o ← deref object s;
         s1 ← modify object (with_parent None) s;
         s2 ← modify_scene this (fun sc =>
                with_rootObjects (<[id o := object]> (rootObjects sc)) sc) s1;
         s3 ← _setWorldMatrixDirty fuel object s2;
         _setBoundaryDirty fuel object s3) (_childList me) s;
  s2 ← modify this (fun me =>
         with_childIDs None (with_childMap ∅ (with_childList [] me))) s1;
  _setBoundaryDirty fuel this s2.

(** The [parent] setter, given an object or an id. *)
Definition set_parent (fuel : nat) (object : ref + string) (this : ref)
    (s : State) : option State :=
  me ← deref this s;
  let resolved :=
    match object with
    | inl r => Some (Some r)
    | inr objectId => sc ← scene_of this s; Some (objects sc !! objectId)
    end in
  r ← resolved;
  match r with
  | None =>
      match object with
      | inr objectId =>
          Some (warn this ("Group not found: '" ++ objectId ++ "'") s)
      | inl _ => Some s
      end
  | Some g =>
      go ← deref g s;
      if decide (scene go = scene me) then
        match _parent me with
        | Some p =>
            po ← deref p s;
            if decide (id po = id go) then
              Some (warn this ("Already a child of Group: " ++ id go) s)
            else snd <$> addChild fuel g (ArgObject this) None s
        | None => snd <$> addChild fuel g (ArgObject this) None s
        end
      else Some (error this ("Group not in same Scene: " ++ id go) s)
  end.

(** ** Rotation methods *)

(** [rotate]: the three scratch arrays of its closure are written, then the
    [quaternion] setter is called with the last of them. *)
Definition rotate (fuel : nat) (this : ref) (axis : vec3) (angle : T)
    (s : State) : option (ref * State) :=
  let '(a0, a1, a2) := axis in
  let angleAxis := (a0, a1, a2, nmul angle DEGTORAD) in
  let q1 := angleAxisToQuaternion angleAxis in
  o ← deref this s;
  let q2 := mulQuaternions (_quaternion o) q1 in
  let s1 := with_rotate_scratch angleAxis q1 q2 s in
  s2 ← set_quaternion fuel (Some q2) this s1;
  s3 ← transform_changed fuel this s2;
  Some (this, s3).

(** [rotateOnWorldAxis]: the product goes to the scratch array [q1]. *)
Definition rotateOnWorldAxis (this : ref) (axis : vec3) (angle : T)
    (s : State) : option (ref * State) :=
  let '(a0, a1, a2) := axis in
  let angleAxis := (a0, a1, a2, nmul angle DEGTORAD) in
  let q1 := angleAxisToQuaternion angleAxis in
  o ← deref this s;
  let q1' := mulQuaternions q1 (_quaternion o) in
  Some (this, with_rotateOnWorldAxis_scratch angleAxis q1' s).

(** ** Construction *)

(** The configuration given to the constructor.  [aabbVisible] and
    [obbVisible] are left out: their setters build helper Meshes, which are
    outside the model, and return at once when the configuration does not ask
    for them. *)
Record Cfg : Type := mkCfg {
  cfg_guid : option string;
  cfg_entityType : EType;
  cfg_matrix : option mat4;
  cfg_scale : option vec3;
  cfg_position : option vec3;
  cfg_quaternion : option vec4;
  cfg_rotation : option vec3;
  cfg_visible : option bool;
  cfg_culled : option bool;
  cfg_pickable : option bool;
  cfg_clippable : option bool;
  cfg_collidable : option bool;
  cfg_castShadow : option bool;
  cfg_receiveShadow : option bool;
  cfg_outlined : option bool;
  cfg_layer : option Z;
  cfg_stationary : option Z;
  cfg_billboard : option Z;
  cfg_solid : option Z;
  cfg_ghosted : option bool;
  cfg_highlighted : option bool;
  cfg_selected : option bool;
  cfg_colorize : option vec3;
  cfg_opacity : option T;
  cfg_children : option (list Arg);
  cfg_inheritStates : option bool;
  cfg_parent : option ref
}.

(** The transform part of [_init]. *)
Definition init_transform (fuel : nat) (this : ref) (cfg : Cfg) (s : State)
  : option State :=
  match cfg_matrix cfg with
  | Some m => set_matrix fuel (Some m) this s
  | None =>
      s ← set_scale fuel (cfg_scale cfg) this s;
      s ← set_position fuel (cfg_position cfg) this s;
      match cfg_quaternion cfg with
      | Some _ => Some s
      | None => set_rotation fuel (cfg_rotation cfg) this s
      end
  end.

(** The property part of [_init]. *)
Definition init_properties (fuel : nat) (this : ref) (cfg : Cfg) (s : State)
  : option State :=
  s ← set_visible fuel (cfg_visible cfg) this s;
  s ← set_culled fuel (cfg_culled cfg) this s;
  s ← set_pickable fuel (cfg_pickable cfg) this s;
  s ← set_clippable fuel (cfg_clippable cfg) this s;
  s ← set_collidable fuel (cfg_collidable cfg) this s;
  s ← set_castShadow fuel (cfg_castShadow cfg) this s;
  s ← set_receiveShadow fuel (cfg_receiveShadow cfg) this s;
  s ← set_outlined fuel (cfg_outlined cfg) this s;
  s ← modify this (with_plain (cfg_layer cfg) (cfg_stationary cfg)
                     (cfg_billboard cfg) (cfg_solid cfg)) s;
  s ← set_ghosted fuel (cfg_ghosted cfg) this s;
  s ← set_highlighted fuel (cfg_highlighted cfg) this s;
  s ← set_selected fuel (cfg_selected cfg) this s;
  s ← set_colorize fuel (cfg_colorize cfg) this s;
  set_opacity fuel (cfg_opacity cfg) this s.

Definition _init (fuel : nat) (this : ref) (cfg : Cfg) (s : State)
  : option State :=
  s ← modify this (init_fields (cfg_guid cfg)) s;
  s ← set_entityType (cfg_entityType cfg) this s;
  s ← init_transform fuel this cfg s;
  s ← init_properties fuel this cfg s;
  s ← match cfg_children cfg with
      | Some children =>
          for_each (fun c s =>
            snd <$> addChild fuel this c (cfg_inheritStates cfg) s) children s
      | None => Some s
      end;
  match cfg_parent cfg with
  | Some p => snd <$> addChild fuel p (ArgObject this) None s
  | None => Some s
  end.

(** ** Vocabulary of the statements *)

(** The subtree below [n] (through the child lists) exists in the store and
    is at most [k] levels deep: on it the recursive methods return with fuel
    [k]. *)
Fixpoint subtree_ok (k : nat) (n : ref) (s : State) : bool :=
  match k with
  | 0 => false
  | S k' =>
      match deref n s with
      | None => false
      | Some o => forallb (fun c => subtree_ok k' c s) (_childList o)
      end
  end.

(** The chain of parents from [n] reaches a root in at most [k] steps. *)
Fixpoint chain_ok (k : nat) (n : option ref) (s : State) : bool :=
  match n with
  | None => true
  | Some r =>
      match k with
      | 0 => false
      | S k' =>
          match deref r s with
          | None => false
          | Some o => chain_ok k' (_parent o) s
          end
      end
  end.

(** [m] is [n] or below it. *)
Inductive descendant (s : State) (n : ref) : ref -> Prop :=
| descendant_self : descendant s n n
| descendant_child m o c :
    descendant s n m -> deref m s = Some o -> c ∈ _childList o ->
    descendant s n c.

(** [anc] lists the strict ancestors of [n], nearest first, up to a root. *)
Fixpoint has_ancestors (s : State) (n : ref) (anc : list ref) : bool :=
  match deref n s with
  | None => false
  | Some o =>
      match anc with
      | [] => bool_decide (_parent o = None)
      | p :: anc' => bool_decide (_parent o = Some p) && has_ancestors s p anc'
      end
  end.

(** The same, each node being moreover listed among its parent's children. *)
Fixpoint lineage (s : State) (n : ref) (anc : list ref) : bool :=
  match deref n s with
  | None => false
  | Some o =>
      match anc with
      | [] => bool_decide (_parent o = None)
      | p :: anc' =>
          bool_decide (_parent o = Some p)
          && match deref p s with
             | Some po => bool_decide (n ∈ _childList po)
             | None => false
             end
          && lineage s p anc'
      end
  end.

(** The Local matrix an object stands for: the stored one, or the one to be
    composed from its position, quaternion and scale when it is dirty. *)
Definition localOf (o : Obj) : mat4 :=
  if _localMatrixDirty o
  then composeMat4 (_position o) (_quaternion o) (_scale o)
  else _localMatrix o.

(** The product of the Local matrices from the root down to [n]. *)
Fixpoint worldOfChain (s : State) (n : ref) (anc : list ref) : option mat4 :=
  o ← deref n s;
  match anc with
  | [] => Some (localOf o)
  | p :: anc' => w ← worldOfChain s p anc'; Some (mulMat4 w (localOf o))
  end.

Definition translation (m : mat4) : vec3 :=
  let '(_, _, _, (x, y, z, _)) := m in (x, y, z).

(** A change of one component of the local transform, through its setter,
    and what it leaves in the object. *)
Inductive Change :=
| Rotation (value : option vec3)
| Position (value : option vec3)
| Scale (value : option vec3).

Definition change (fuel : nat) (c : Change) (this : ref) (s : State)
  : option State :=
  match c with
  | Rotation v => set_rotation fuel v this s
  | Position v => set_position fuel v this s
  | Scale v => set_scale fuel v this s
  end.

Definition changed (c : Change) (o : Obj) : Obj :=
  with_localMatrixDirty true
    match c with
    | Rotation v =>
        let r := default (num0, num0, num0) v in
        with_quaternion (eulerToQuaternion r) (with_rotation r o)
    | Position v => with_position (default (num0, num0, num0) v) o
    | Scale v => with_scale (default (num1, num1, num1) v) o
    end.

(** What [_setBoundaryDirty] can alter in an object: nothing if its AABB is
    clean, the OBB flag otherwise. *)
Definition boundary_view (o : Obj) : Obj :=
  if _aabbDirty o then with_obbDirty true o else o.

(** Two stores hold the same objects up to a view of them. *)
Definition keeps {A : Type} (view : Obj -> A) (s s' : State) : Prop :=
  forall n, view <$> deref n s' = view <$> deref n s.

(** The parts of the store other than the objects and the closure variables of
    [_setBoundaryDirty]. *)
Definition outside (s : State) :=
  (scenes s, diag s, rotate_angleAxis s, rotate_q1 s, rotate_q2 s,
   rotateOnWorldAxis_angleAxis s, rotateOnWorldAxis_q1 s).

(** ** Vocabulary of the proofs *)

(** The four flags which [_setWorldMatrixDirty] raises. *)
Definition all_dirty (o : Obj) : bool :=
  _worldMatrixDirty o && _worldNormalMatrixDirty o && _aabbDirty o
  && _obbDirty o.

(** No object on which the four flags are raised loses one of them. *)
Definition stays_dirty (s s' : State) : Prop :=
  forall m o, deref m s = Some o -> all_dirty o = true ->
    exists o', deref m s' = Some o' /\ all_dirty o' = true.

(** Only the objects differ. *)
Definition only_objs (s s' : State) : Prop := s' = with_objs (objs s') s.

(** The first [lenNotifications] slots of the notification buffer are
    filled. *)
Definition notifications_ok (s : State) : Prop :=
  lenNotifications s <= length (notifications s) /\
  forall i, i < lenNotifications s ->
    exists r, notifications s !! i = Some (Some r).

(** What the two walks of [_setBoundaryDirty] leave alone. *)
Definition walk_frame (s s' : State) : Prop :=
  keeps boundary_view s s' /\ stays_dirty s s' /\
  outside s' = outside s /\ fired s' = fired s.

(** The store after the renderer of scene [i] was told to repaint. *)
Definition image_dirtied (i : string) (sc : Scene) (s : State) : State :=
  with_scenes (<[i := with_imageDirty true sc]> (scenes s)) s.

(** Where an object hangs in the hierarchy. *)
Definition shape (o : Obj) := (_parent o, _childList o, scene o).

(** The two representations of the local rotation. *)
Definition rotation_view (o : Obj) := (_quaternion o, _rotation o).

(** An object without children or parent, in a scene that exists. *)
Definition leaf_root (this : ref) (s : State) : Prop :=
  exists o sc, deref this s = Some o /\ scenes s !! scene o = Some sc /\
    _childList o = [] /\ _parent o = None.

End Object.

(** * Reference arithmetic

    Modelled from the spec: the functions of [xeogl.math] (math.js is not
    under src/), over the real numbers.  Section 4.1 of the spec fixes what
    they compute: a Local matrix is translate-rotate-scale composed into one
    4x4 matrix, the World matrix is the matrix product parent-world by local,
    a quaternion is composed from an angle-axis pair with the axis taken as
    given, rotations are Euler angles in degrees in the order XYZ kept
    consistent with a quaternion, and quaternions are multiplied.  Vectors are
    [x, y, z(, w)]; the product of quaternions is Hamilton's, first operand on
    the left, as the product of matrices is.  The two conversions back
    ([quaternionToEuler], [decomposeMat4]) are any inverse of the conversion
    forth. *)

Global Instance R_Number : Number R :=
  {| num0 := 0%R; num1 := 1%R; nmul := Rmult |}.

Section Reference.
Local Open Scope R_scope.

Definition composeMat4R (p : vec3) (q : vec4) (sc : vec3) : mat4 (T:=R) :=
  let '(px, py, pz) := p in
  let '(x, y, z, w) := q in
  let '(sx, sy, sz) := sc in
  (((1 - 2 * (y * y + z * z)) * sx, 2 * (x * y + w * z) * sx,
    2 * (x * z - w * y) * sx, 0),
   (2 * (x * y - w * z) * sy, (1 - 2 * (x * x + z * z)) * sy,
    2 * (y * z + w * x) * sy, 0),
   (2 * (x * z + w * y) * sz, 2 * (y * z - w * x) * sz,
    (1 - 2 * (x * x + y * y)) * sz, 0),
   (px, py, pz, 1)).

Definition mulMat4Vec4R (a : mat4) (v : vec4) : vec4 (T:=R) :=
  let '((a00, a01, a02, a03), (a10, a11, a12, a13),
        (a20, a21, a22, a23), (a30, a31, a32, a33)) := a in
  let '(v0, v1, v2, v3) := v in
  (a00 * v0 + a10 * v1 + a20 * v2 + a30 * v3,
   a01 * v0 + a11 * v1 + a21 * v2 + a31 * v3,
   a02 * v0 + a12 * v1 + a22 * v2 + a32 * v3,
   a03 * v0 + a13 * v1 + a23 * v2 + a33 * v3).

Definition mulMat4R (a b : mat4) : mat4 (T:=R) :=
  let '(b0, b1, b2, b3) := b in
  (mulMat4Vec4R a b0, mulMat4Vec4R a b1, mulMat4Vec4R a b2, mulMat4Vec4R a b3).

Definition mulQuaternionsR (p q : vec4) : vec4 (T:=R) :=
  let '(p0, p1, p2, p3) := p in
  let '(q0, q1, q2, q3) := q in
  (p3 * q0 + p0 * q3 + p1 * q2 - p2 * q1,
   p3 * q1 + p1 * q3 + p2 * q0 - p0 * q2,
   p3 * q2 + p2 * q3 + p0 * q1 - p1 * q0,
   p3 * q3 - p0 * q0 - p1 * q1 - p2 * q2).

Definition DEGTORAD_R : R := PI / 180.

Definition angleAxisToQuaternionR (angleAxis : vec4) : vec4 (T:=R) :=
  let '(x, y, z, a) := angleAxis in
  (x * sin (a / 2), y * sin (a / 2), z * sin (a / 2), cos (a / 2)).

Definition eulerToQuaternionR (euler : vec3) : vec4 (T:=R) :=
  let '(a, b, c) := euler in
  mulQuaternionsR
    (mulQuaternionsR (angleAxisToQuaternionR (1, 0, 0, a * DEGTORAD_R))
                     (angleAxisToQuaternionR (0, 1, 0, b * DEGTORAD_R)))
    (angleAxisToQuaternionR (0, 0, 1, c * DEGTORAD_R)).

Definition quaternionToEulerR (q : vec4 (T:=R)) : vec3 (T:=R) :=
  epsilon (inhabits (0, 0, 0)) (fun e => eulerToQuaternionR e = q).

Definition decomposeMat4R (m : mat4 (T:=R))
  : vec3 (T:=R) * vec4 (T:=R) * vec3 (T:=R) :=
  epsilon (inhabits ((0, 0, 0), (0, 0, 0, 1), (1, 1, 1)))
    (fun '(p, q, sc) => composeMat4R p q sc = m).

End Reference.


(** * Example stores

    [node] is an object as [_init] leaves it (see [node_is_initialised]
    below), with the hierarchy links, the local position and scale, the
    boundary last read and the highlighted and selected states as given.  A
    child carries the [highlited] property written when it was attached. *)

Section Examples.
Local Open Scope R_scope.

Definition node (i sc : string) (parent : option ref)
    (children : list (string * ref)) (position scale : vec3)
    (aabb : option (list R)) (lit : bool) : Obj (T:=R) :=
  {| id := i; scene := sc;
     _parent := parent; _childList := children.*2;
     _childMap := list_to_map children; _childIDs := None;
     _aabb := aabb;
     _aabbDirty := match aabb with Some _ => false | None => true end;
     _obb := None; _obbDirty := true;
     _scale := scale; _quaternion := (0, 0, 0, 1); _rotation := (0, 0, 0);
     _position := position;
     _localMatrix := identityMat4; _worldMatrix := identityMat4;
     _worldNormalMatrix := identityMat4;
     _localMatrixDirty := true; _worldMatrixDirty := true;
     _worldNormalMatrixDirty := true;
     _guid := None; _entityType := ETUndefined;
     _visible := true; _culled := false; _pickable := true;
     _clippable := true; _collidable := true; _castShadow := false;
     _receiveShadow := false; _outlined := false; _ghosted := false;
     _highlighted := lit; _selected := lit;
     layer := None; stationary := None; billboard := None; solid := None;
     _colorize := Some (1, 1, 1, 1);
     highlited := match parent with Some _ => Some false | None => None end
  |}.

Definition registry (l : list (string * ref)) (roots : list (string * ref))
  : Scene :=
  mkScene (list_to_map l) (list_to_map roots) ∅ ∅ ∅ ∅ ∅ ∅ false.

Definition table : ref := 0%nat.
Definition redLeg : ref := 1%nat.
Definition greenLeg : ref := 2%nat.
Definition chair : ref := 3%nat.
Definition shelf : ref := 4%nat.
Definition book : ref := 5%nat.

Definition zero4 : vec4 (T:=R) := (0, 0, 0, 0).

Definition showroom : State (T:=R) :=
  {| objs := list_to_map
       [(table, node "table" "showroom" None
                  [("redLeg", redLeg); ("greenLeg", greenLeg)]
                  (0, 0, 0) (1, 1, 1) (Some [-5; -9; -5; 5; -3; -3]) true);
        (redLeg, node "redLeg" "showroom" (Some table) []
                   (-4, -6, -4) (1, 3, 1) (Some [-5; -9; -5; -3; -3; -3]) true);
        (greenLeg, node "greenLeg" "showroom" (Some table) []
                     (4, -6, -4) (1, 3, 1) (Some [3; -9; -5; 5; -3; -3]) true);
        (chair, node "chair" "showroom" None [] (8, 0, 0) (1, 1, 1) None false);
        (shelf, node "shelf" "library" None [("book", book)]
                  (0, 0, 0) (1, 1, 1) None false);
        (book, node "book" "library" (Some shelf) []
                 (0, 1, 0) (1, 1, 1) None false)];
     scenes := list_to_map
       [("showroom",
         registry [("table", table); ("redLeg", redLeg);
                   ("greenLeg", greenLeg); ("chair", chair)]
                  [("table", table); ("chair", chair)]);
        ("library",
         registry [("shelf", shelf); ("book", book)] [("shelf", shelf)])];
     fired := []; diag := []; notifications := []; lenNotifications := 0;
     rotate_angleAxis := zero4; rotate_q1 := zero4; rotate_q2 := zero4;
     rotateOnWorldAxis_angleAxis := zero4; rotateOnWorldAxis_q1 := zero4 |}.


Definition root : ref := 0%nat.
Definition child : ref := 1%nat.
Definition grandchild : ref := 2%nat.

Definition root_node : Obj (T:=R) :=
  node "root" "scene" None [("child", child)] (1, 0, 0) (1, 1, 1) None false.
Definition child_node : Obj (T:=R) :=
  node "child" "scene" (Some root) [("grandchild", grandchild)]
    (0, 2, 0) (1, 1, 1) None false.
Definition grandchild_node : Obj (T:=R) :=
  node "grandchild" "scene" (Some child) [] (0, 0, 3) (1, 1, 1) None false.

Definition scene_registry : Scene :=
  registry [("root", root); ("child", child); ("grandchild", grandchild)]
           [("root", root)].

Definition lineup : State (T:=R) :=
  {| objs := list_to_map
       [(root, root_node); (child, child_node); (grandchild, grandchild_node)];
     scenes := list_to_map [("scene", scene_registry)];
     fired := []; diag := []; notifications := []; lenNotifications := 0;
     rotate_angleAxis := zero4; rotate_q1 := zero4; rotate_q2 := zero4;
     rotateOnWorldAxis_angleAxis := zero4; rotateOnWorldAxis_q1 := zero4 |}.

(** An object turned a quarter round its Y axis. *)
Definition turned_node : Obj (T:=R) :=
  with_quaternion (0, sqrt 2 / 2, 0, sqrt 2 / 2)
    (with_rotation (0, 90, 0)
       (node "top" "scene" None [] (0, 0, 0) (1, 1, 1) None false)).

Definition top : ref := 0%nat.

Definition top_registry : Scene := registry [("top", top)] [("top", top)].

Definition spinning : State (T:=R) :=
  {| objs := list_to_map [(top, turned_node)];
     scenes := list_to_map [("scene", top_registry)];
     fired := []; diag := []; notifications := []; lenNotifications := 0;
     rotate_angleAxis := zero4; rotate_q1 := zero4; rotate_q2 := zero4;
     rotateOnWorldAxis_angleAxis := zero4; rotateOnWorldAxis_q1 := zero4 |}.

(** A configuration that gives at most a quaternion, and a store holding the
    object about to be initialised. *)
Definition cfg_with (quaternion : option vec4) : Cfg (T:=R) :=
  {| cfg_guid := None; cfg_entityType := ETUndefined; cfg_matrix := None;
     cfg_scale := None; cfg_position := None;
     cfg_quaternion := quaternion; cfg_rotation := None;
     cfg_visible := None; cfg_culled := None; cfg_pickable := None;
     cfg_clippable := None; cfg_collidable := None; cfg_castShadow := None;
     cfg_receiveShadow := None; cfg_outlined := None; cfg_layer := None;
     cfg_stationary := None; cfg_billboard := None; cfg_solid := None;
     cfg_ghosted := None; cfg_highlighted := None; cfg_selected := None;
     cfg_colorize := None; cfg_opacity := None; cfg_children := None;
     cfg_inheritStates := None; cfg_parent := None |}.

Definition empty_cfg : Cfg (T:=R) := cfg_with None.
Definition quaternion_cfg : Cfg (T:=R) := cfg_with (Some (0, 1, 0, 0)).

Definition unborn : State (T:=R) :=
  {| objs := list_to_map [(top, blank "top" "scene")];
     scenes := list_to_map [("scene", top_registry)];
     fired := []; diag := []; notifications := []; lenNotifications := 0;
     rotate_angleAxis := zero4; rotate_q1 := zero4; rotate_q2 := zero4;
     rotateOnWorldAxis_angleAxis := zero4; rotateOnWorldAxis_q1 := zero4 |}.

(** Three initialised objects, not yet linked. *)
Definition loose : State (T:=R) :=
  {| objs := list_to_map
       [(root, node "root" "scene" None [] (0, 0, 0) (1, 1, 1) None false);
        (child, node "child" "scene" None [] (0, 0, 0) (1, 1, 1) None false);
        (grandchild,
         node "grandchild" "scene" None [] (0, 0, 0) (1, 1, 1) None false)];
     scenes := list_to_map
       [("scene",
         registry [("root", root); ("child", child); ("grandchild", grandchild)]
                  [("root", root); ("child", child);
                   ("grandchild", grandchild)])];
     fired := []; diag := []; notifications := []; lenNotifications := 0;
     rotate_angleAxis := zero4; rotate_q1 := zero4; rotate_q2 := zero4;
     rotateOnWorldAxis_angleAxis := zero4; rotateOnWorldAxis_q1 := zero4 |}.

End Examples.


(** * The other methods of xeogl.Object *)

Section Movement.

Context {T : Type} `{Number T}.

(** More of [xeogl.math], parameters as before. *)
Variable composeMat4 : vec3 (T:=T) -> vec4 (T:=T) -> vec3 (T:=T) -> mat4 (T:=T).
Variable mulMat4 : mat4 (T:=T) -> mat4 (T:=T) -> mat4 (T:=T).
Variable decomposeMat4 : mat4 (T:=T) -> vec3 (T:=T) * vec4 (T:=T) * vec3 (T:=T).
Variable eulerToQuaternion : vec3 (T:=T) -> vec4 (T:=T).
Variable inverseMat4 : mat4 (T:=T) -> mat4 (T:=T).
Variable transposeMat4 : mat4 (T:=T) -> mat4 (T:=T).
Variable quaternionToEuler : vec4 (T:=T) -> vec3 (T:=T).
Variable angleAxisToQuaternion : vec4 (T:=T) -> vec4 (T:=T).
Variable mulQuaternions : vec4 (T:=T) -> vec4 (T:=T) -> vec4 (T:=T).
Variable DEGTORAD : T.
Variable vec3ApplyQuaternion : vec4 (T:=T) -> vec3 (T:=T) -> vec3 (T:=T).
Variable mulVec3Scalar : vec3 (T:=T) -> T -> vec3 (T:=T).
Variable addVec3 : vec3 (T:=T) -> vec3 (T:=T) -> vec3 (T:=T).

Definition with_worldNormalMatrix (v : mat4) (o : Obj (T:=T)) : Obj :=
  mkObj (id o) (scene o) (_parent o) (_childList o) (_childMap o)
    (_childIDs o) (_aabb o) (_aabbDirty o) (_obb o) (_obbDirty o) (_scale o)
    (_quaternion o) (_rotation o) (_position o) (_localMatrix o)
    (_worldMatrix o) v (_localMatrixDirty o)
    (_worldMatrixDirty o) (_worldNormalMatrixDirty o) (_guid o)
    (_entityType o) (_visible o) (_culled o) (_pickable o) (_clippable o)
    (_collidable o) (_castShadow o) (_receiveShadow o) (_outlined o)
    (_ghosted o) (_highlighted o) (_selected o) (layer o) (stationary o)
    (billboard o) (solid o) (_colorize o) (highlited o).

(** [_buildWorldNormalMatrix]: the World matrix is rebuilt first when it is
    dirty; [inverseMat4] writes into [_worldNormalMatrix] (which [_init] has
    allocated), [transposeMat4] transposes it in place. *)
Definition _buildWorldNormalMatrix (fuel : nat) (this : ref)
    (s : State (T:=T)) : option State :=
  o ← deref this s;
  s1 ← (if _worldMatrixDirty o
        then _buildWorldMatrix composeMat4 mulMat4 fuel this s else Some s);
  modify this (fun o =>
    with_worldNormalMatrixDirty false
      (with_worldNormalMatrix (transposeMat4 (inverseMat4 (_worldMatrix o))) o))
    s1.

(** The [worldNormalMatrix] getter. *)
Definition worldNormalMatrix (fuel : nat) (this : ref) (s : State (T:=T))
  : option (mat4 * State) :=
  o ← deref this s;
  s1 ← (if _worldNormalMatrixDirty o
        then _buildWorldNormalMatrix fuel this s else Some s);
  o1 ← deref this s1;
  Some (_worldNormalMatrix o1, s1).

(** [rotateX], [rotateY], [rotateZ]: [rotate] about a unit axis kept in the
    closure. *)
Definition rotateX (fuel : nat) (this : ref) (angle : T) (s : State (T:=T))
  : option (ref * State) :=
  rotate quaternionToEuler angleAxisToQuaternion mulQuaternions DEGTORAD
    fuel this (num1, num0, num0) angle s.

Definition rotateY (fuel : nat) (this : ref) (angle : T) (s : State (T:=T))
  : option (ref * State) :=
  rotate quaternionToEuler angleAxisToQuaternion mulQuaternions DEGTORAD
    fuel this (num0, num1, num0) angle s.

Definition rotateZ (fuel : nat) (this : ref) (angle : T) (s : State (T:=T))
  : option (ref * State) :=
  rotate quaternionToEuler angleAxisToQuaternion mulQuaternions DEGTORAD
    fuel this (num0, num0, num1) angle s.

(** [translate]: the sum is written into the array which the [position]
    getter returns, [_position] itself; the setter is not called.  ([veca] and
    [vecb], the scratch arrays of the closure, are written before they are
    read in every call.) *)
Definition translate (fuel : nat) (this : ref) (axis : vec3) (distance : T)
    (s : State (T:=T)) : option (ref * State) :=
  o ← deref this s;
  let veca := vec3ApplyQuaternion (_quaternion o) axis in
  let vecb := mulVec3Scalar veca distance in
  s1 ← modify this (with_position (addVec3 (_position o) vecb)) s;
  s2 ← transform_changed fuel this s1;
  Some (this, s2).

Definition translateX (fuel : nat) (this : ref) (distance : T)
    (s : State (T:=T)) : option (ref * State) :=
  translate fuel this (num1, num0, num0) distance s.

Definition translateY (fuel : nat) (this : ref) (distance : T)
    (s : State (T:=T)) : option (ref * State) :=
  translate fuel this (num0, num1, num0) distance s.

Definition translateZ (fuel : nat) (this : ref) (distance : T)
    (s : State (T:=T)) : option (ref * State) :=
  translate fuel this (num0, num0, num1) distance s.

(** ** More vocabulary *)

(** The ways of changing the local transform of an object: the five setters,
    [rotate] and [translate]. *)
Inductive Move :=
| SetPosition (value : option (vec3 (T:=T)))
| SetRotation (value : option (vec3 (T:=T)))
| SetQuaternion (value : option (vec4 (T:=T)))
| SetScale (value : option (vec3 (T:=T)))
| SetMatrix (value : option (mat4 (T:=T)))
| Rotate (axis : vec3 (T:=T)) (angle : T)
| Translate (axis : vec3 (T:=T)) (distance : T).

Definition move (fuel : nat) (mv : Move) (this : ref) (s : State (T:=T))
  : option State :=
  match mv with
  | SetPosition v => set_position fuel v this s
  | SetRotation v => set_rotation eulerToQuaternion fuel v this s
  | SetQuaternion v => set_quaternion quaternionToEuler fuel v this s
  | SetScale v => set_scale fuel v this s
  | SetMatrix v => set_matrix decomposeMat4 fuel v this s
  | Rotate axis angle =>
      snd <$> rotate quaternionToEuler angleAxisToQuaternion mulQuaternions
                DEGTORAD fuel this axis angle s
  | Translate axis distance => snd <$> translate fuel this axis distance s
  end.

(** Every object that names a parent is listed among that parent's
    children. *)
Definition linked (s : State (T:=T)) (m : ref) (om : Obj (T:=T)) : bool :=
  match _parent om with
  | None => true
  | Some p =>
      match deref p s with
      | Some po => bool_decide (m ∈ _childList po)
      | None => false
      end
  end.

Definition listed (s : State (T:=T)) : Prop :=
  map_Forall (fun m om => linked s m om = true) (objs s).

(** The scene of every object exists. *)
Definition housed (s : State (T:=T)) : Prop :=
  map_Forall (fun _ o => is_Some (scenes s !! scene o)) (objs s).

(** What the setters of the render states leave alone outside the objects:
    the registers of every scene, the events, the diagnostics and the
    closure variables. *)
Definition registers (sc : Scene) := (objects sc, rootObjects sc).

Definition rest (s : State (T:=T)) :=
  (fired s, diag s, notifications s, lenNotifications s, rotate_angleAxis s,
   rotate_q1 s, rotate_q2 s, rotateOnWorldAxis_angleAxis s,
   rotateOnWorldAxis_q1 s).

Definition outer (s s' : State (T:=T)) : Prop :=
  (forall i, registers <$> scenes s' !! i = registers <$> scenes s !! i) /\
  rest s' = rest s.

(** Every object is as it was, or as [f] makes it: what a setter that
    descends the hierarchy does to a store. *)
Definition applied (f : Obj (T:=T) -> Obj (T:=T)) (s s' : State (T:=T))
  : Prop :=
  (forall m, deref m s' = deref m s \/
     exists om, deref m s = Some om /\ deref m s' = Some (f om)) /\
  outer s s'.

(** An object without its render states: what the setters of the render
    states leave alone in it. *)
Definition bare (o : Obj (T:=T)) : Obj :=
  mkObj (id o) (scene o) (_parent o) (_childList o) (_childMap o)
    (_childIDs o) (_aabb o) (_aabbDirty o) (_obb o) (_obbDirty o) (_scale o)
    (_quaternion o) (_rotation o) (_position o) (_localMatrix o)
    (_worldMatrix o) (_worldNormalMatrix o) (_localMatrixDirty o)
    (_worldMatrixDirty o) (_worldNormalMatrixDirty o) (_guid o)
    (_entityType o) false false false false false false false false false
    false false (layer o) (stationary o) (billboard o) (solid o) None None.

(** An object taken off its parent, its dirty flags raised: what
    [removeChildren] makes of a child. *)
Definition orphaned (o : Obj (T:=T)) : Obj := mark_world (with_parent None o).

(** The root objects after the objects of [l] were entered under their
    ids. *)
Definition enrolled (s : State (T:=T)) (l : list ref)
    (roots : gmap string ref) : gmap string ref :=
  foldl (fun roots c =>
           match deref c s with
           | Some oc => <[id oc := c]> roots
           | None => roots
           end) roots l.



(** The parent after the child was pushed on its list. *)
Definition with_child (i : string) (c : ref) (me : Obj (T:=T)) : Obj :=
  with_childIDs None
    (with_childMap (<[i := c]> (_childMap me))
       (with_childList (_childList me ++ [c]) me)).

(** The child [c] is taking the render states of its new parent [this]:
    [si] is a store on the way from [s0], where the parent holds [me] and
    the child [oc]. *)
Definition inheriting (fuel : nat) (this c : ref) (me oc : Obj (T:=T))
    (s0 si : State (T:=T)) : Prop :=
  deref this si = Some me /\ deref c si = Some oc /\
  subtree_ok fuel c si = true /\ housed si /\ ~ descendant si c this /\
  keeps bare s0 si /\ outer s0 si /\
  forall m, ~ descendant s0 c m -> deref m si = deref m s0.

(** No World matrix is marked clean, as it is before the first read. *)
Definition unread (s : State (T:=T)) : Prop :=
  map_Forall (fun _ o => _worldMatrixDirty o = true) (objs s).

(** The cached World matrices are right: a World matrix that is marked clean
    is the Local matrix of a root, or the product of the parent's World
    matrix, itself marked clean, and the Local matrix. *)
Definition coherent (s : State (T:=T)) : Prop :=
  forall n o, deref n s = Some o -> _worldMatrixDirty o = false ->
    match _parent o with
    | None => _worldMatrix o = localOf composeMat4 o
    | Some p =>
        exists po, deref p s = Some po /\ _worldMatrixDirty po = false /\
          _worldMatrix o = mulMat4 (_worldMatrix po) (localOf composeMat4 o)
    end.

(** [this] holds [o], an object without parent or children; the scene of
    every object exists; and the other objects are what they were in [s0],
    up to the dirty flags of their boundaries. *)
Definition single (this : ref) (o : Obj (T:=T)) (s0 s : State (T:=T))
  : Prop :=
  deref this s = Some o /\ _parent o = None /\ _childList o = [] /\
  housed s /\
  forall m, m <> this ->
    boundary_view <$> deref m s = boundary_view <$> deref m s0.

(** An object after one of its transform components was assigned. *)
Definition touched (o : Obj (T:=T)) : Obj :=
  mark_world (with_localMatrixDirty true o).

(** An object after [colorize = rgb], and after [opacity = a]. *)
Definition tinted (rgb : option (vec3 (T:=T))) (o : Obj (T:=T)) : Obj :=
  let '(_, _, _, a) := default (num0, num0, num0, num1) (_colorize o) in
  let '(r, g, b) := default (num1, num1, num1) rgb in
  with_colorize (Some (r, g, b, a)) o.

Definition faded (a : option T) (o : Obj (T:=T)) : Obj :=
  let '(r, g, b, _) := default (num1, num1, num1, num0) (_colorize o) in
  with_colorize (Some (r, g, b, default num1 a)) o.

(** The value which a configuration gives for a boolean state. *)
Definition cfg_flag (fl : Flag) (cfg : Cfg (T:=T)) : option bool :=
  match fl with
  | Visible => cfg_visible cfg
  | Culled => cfg_culled cfg
  | Pickable => cfg_pickable cfg
  | Clippable => cfg_clippable cfg
  | Collidable => cfg_collidable cfg
  | CastShadow => cfg_castShadow cfg
  | ReceiveShadow => cfg_receiveShadow cfg
  | Outlined => cfg_outlined cfg
  | Ghosted => cfg_ghosted cfg
  | Highlighted => cfg_highlighted cfg
  | Selected => cfg_selected cfg
  end.

(** An object without children as the transform part of [_init] leaves it,
    and as the property part does. *)
Definition init_moved (cfg : Cfg (T:=T)) (o : Obj (T:=T)) : Obj :=
  match cfg_matrix cfg with
  | Some m =>
      mark_world
        (let '(p, q, sc) := decomposeMat4 m in
         with_localMatrixDirty false
           (with_scale sc (with_quaternion q (with_position p
              (with_localMatrix m o)))))
  | None =>
      let o1 :=
        touched (with_scale (default (num1, num1, num1) (cfg_scale cfg)) o) in
      let o2 :=
        touched (with_position (default (num0, num0, num0) (cfg_position cfg))
                   o1) in
      match cfg_quaternion cfg with
      | Some _ => o2
      | None =>
          touched
            (let r := default (num0, num0, num0) (cfg_rotation cfg) in
             with_quaternion (eulerToQuaternion r) (with_rotation r o2))
      end
  end.

Definition init_flag (fl : Flag) (cfg : Cfg (T:=T)) (o : Obj (T:=T)) : Obj :=
  put_flag fl (flag_value fl (cfg_flag fl cfg)) o.

Definition init_dressed (cfg : Cfg (T:=T)) (o : Obj (T:=T)) : Obj :=
  faded (cfg_opacity cfg)
    (tinted (cfg_colorize cfg)
       (init_flag Selected cfg
          (init_flag Highlighted cfg
             (init_flag Ghosted cfg
                (with_plain (cfg_layer cfg) (cfg_stationary cfg)
                   (cfg_billboard cfg) (cfg_solid cfg)
                   (init_flag Outlined cfg
                      (init_flag ReceiveShadow cfg
                         (init_flag CastShadow cfg
                            (init_flag Collidable cfg
                               (init_flag Clippable cfg
                                  (init_flag Pickable cfg
                                     (init_flag Culled cfg
                                        (init_flag Visible cfg o))))))))))))).

(** What the property part of [_init] does not touch. *)
Definition undressed (o : Obj (T:=T)) :=
  (shape o, id o, all_dirty o,
   (_position o, _quaternion o, _scale o, _rotation o),
   (_localMatrix o, _localMatrixDirty o)).

(** What coherence is about. *)
Definition cached (o : Obj (T:=T)) :=
  (_parent o, _worldMatrixDirty o, _worldMatrix o, localOf composeMat4 o).

(** What the matrices of an object are computed from, and where it hangs. *)
Definition placement (o : Obj (T:=T)) := (shape o, localOf composeMat4 o).

End Movement.

(** ** More reference arithmetic

    Further functions of [xeogl.math] over the real numbers, for the
    examples: the sum of two vectors, a vector scaled, a vector turned by a
    quaternion ([q v q*]), the transpose of a matrix and its inverse (the
    transposed matrix of cofactors over the determinant). *)

Section MoreReference.
Local Open Scope R_scope.

Definition addVec3R (u v : vec3) : vec3 (T:=R) :=
  let '(u0, u1, u2) := u in
  let '(v0, v1, v2) := v in
  (u0 + v0, u1 + v1, u2 + v2).

Definition mulVec3ScalarR (v : vec3) (k : R) : vec3 (T:=R) :=
  let '(v0, v1, v2) := v in (v0 * k, v1 * k, v2 * k).

Definition vec3ApplyQuaternionR (q : vec4) (v : vec3) : vec3 (T:=R) :=
  let '(x, y, z) := v in
  let '(qx, qy, qz, qw) := q in
  let ix := qw * x + qy * z - qz * y in
  let iy := qw * y + qz * x - qx * z in
  let iz := qw * z + qx * y - qy * x in
  let iw := - qx * x - qy * y - qz * z in
  (ix * qw + iw * - qx + iy * - qz - iz * - qy,
   iy * qw + iw * - qy + iz * - qx - ix * - qz,
   iz * qw + iw * - qz + ix * - qy - iy * - qx).

(** Element [r] of column [c], and the matrix of given elements. *)
Definition entryR (m : mat4 (T:=R)) (c r : nat) : R :=
  let '(c0, c1, c2, c3) := m in
  let '(x, y, z, w) :=
    match c with 0%nat => c0 | 1%nat => c1 | 2%nat => c2 | _ => c3 end in
  match r with 0%nat => x | 1%nat => y | 2%nat => z | _ => w end.

Definition tabulateR (f : nat -> nat -> R) : mat4 (T:=R) :=
  ((f 0 0, f 0 1, f 0 2, f 0 3), (f 1 0, f 1 1, f 1 2, f 1 3),
   (f 2 0, f 2 1, f 2 2, f 2 3), (f 3 0, f 3 1, f 3 2, f 3 3))%nat.

Definition transposeMat4R (m : mat4 (T:=R)) : mat4 (T:=R) :=
  tabulateR (fun c r => entryR m r c).

Definition skip (k i : nat) : nat := if (i <? k)%nat then i else S i.

Definition det3R (f : nat -> nat -> R) : R :=
  let '(i, j, k) := (0, 1, 2)%nat in
  f i i * (f j j * f k k - f j k * f k j)
  - f i j * (f j i * f k k - f j k * f k i)
  + f i k * (f j i * f k j - f j j * f k i).

Definition cofactorR (m : mat4 (T:=R)) (c r : nat) : R :=
  (if Nat.even (c + r) then 1 else -1)
  * det3R (fun a b => entryR m (skip c a) (skip r b)).

Definition detMat4R (m : mat4 (T:=R)) : R :=
  let '(i, j, k, l) := (0, 1, 2, 3)%nat in
  entryR m i i * cofactorR m i i + entryR m i j * cofactorR m i j
  + entryR m i k * cofactorR m i k + entryR m i l * cofactorR m i l.

Definition inverseMat4R (m : mat4 (T:=R)) : mat4 (T:=R) :=
  tabulateR (fun c r => cofactorR m r c / detMat4R m).

End MoreReference.

(** ** More examples *)

Section MoreExamples.
Local Open Scope R_scope.

(** A configuration that gives at most a matrix, a visibility and a
    parent. *)
Definition cfg_at (matrix : option mat4) (visible : option bool)
    (parent : option ref) : Cfg (T:=R) :=
  {| cfg_guid := None; cfg_entityType := ETUndefined; cfg_matrix := matrix;
     cfg_scale := None; cfg_position := None;
     cfg_quaternion := None; cfg_rotation := None;
     cfg_visible := visible; cfg_culled := None; cfg_pickable := None;
     cfg_clippable := None; cfg_collidable := None; cfg_castShadow := None;
     cfg_receiveShadow := None; cfg_outlined := None; cfg_layer := None;
     cfg_stationary := None; cfg_billboard := None; cfg_solid := None;
     cfg_ghosted := None; cfg_highlighted := None; cfg_selected := None;
     cfg_colorize := None; cfg_opacity := None; cfg_children := None;
     cfg_inheritStates := None; cfg_parent := parent |}.

(** The matrix of a move by [1, 2, 3]. *)
Definition shifted : mat4 (T:=R) :=
  ((1, 0, 0, 0), (0, 1, 0, 0), (0, 0, 1, 0), (1, 2, 3, 1)).

(** The showroom with a stool about to be initialised. *)
Definition stool : ref := 6%nat.

Definition expecting : State (T:=R) :=
  with_scenes
    (<["showroom" :=
         registry [("table", table); ("redLeg", redLeg);
                   ("greenLeg", greenLeg); ("chair", chair);
                   ("stool", stool)]
                  [("table", table); ("chair", chair); ("stool", stool)]]>
       (scenes showroom))
    (store stool (blank "stool" "showroom") showroom).

End MoreExamples.



(** * Properties of the methods *)

Section Properties.
Context {T : Type} `{Number T}.
Implicit Types (s : State (T:=T)) (o po me : Obj (T:=T)) (n m r p c this : ref).

(** The functions of [xeogl.math] the methods call: any functions will do. *)
Variable composeMat4 : vec3 (T:=T) -> vec4 (T:=T) -> vec3 (T:=T) -> mat4 (T:=T).
Variable mulMat4 : mat4 (T:=T) -> mat4 (T:=T) -> mat4 (T:=T).
Variable decomposeMat4 : mat4 (T:=T) -> vec3 (T:=T) * vec4 (T:=T) * vec3 (T:=T).
Variable eulerToQuaternion : vec3 (T:=T) -> vec4 (T:=T).
Variable quaternionToEuler : vec4 (T:=T) -> vec3 (T:=T).
Variable angleAxisToQuaternion : vec4 (T:=T) -> vec4 (T:=T).
Variable mulQuaternions : vec4 (T:=T) -> vec4 (T:=T) -> vec4 (T:=T).
Variable DEGTORAD : T.


Lemma deref_store_eq r (o : Obj (T:=T)) s : deref r (store r o s) = Some o.
Proof. unfold deref, store. simpl. apply lookup_insert_eq. Qed.

Lemma deref_store_ne r n (o : Obj (T:=T)) s :
  r <> n -> deref n (store r o s) = deref n s.
Proof. intros Hne. unfold deref, store. simpl. by apply lookup_insert_ne. Qed.

Lemma deref_store r n (o : Obj (T:=T)) s :
  deref n (store r o s) = if decide (r = n) then Some o else deref n s.
Proof.
  destruct (decide (r = n)) as [->|Hne].
  - apply deref_store_eq.
  - by apply deref_store_ne.
Qed.

Section Keeps.
Context {A : Type} (view : Obj (T:=T) -> A).

Lemma keeps_refl s : keeps view s s.
Proof. by intros n. Qed.

Lemma keeps_trans s1 s2 s3 :
  keeps view s1 s2 -> keeps view s2 s3 -> keeps view s1 s3.
Proof. intros H12 H23 n. by rewrite H23, H12. Qed.

Lemma keeps_objs s s' : objs s' = objs s -> keeps view s s'.
Proof. intros Heq n. unfold deref. by rewrite Heq. Qed.

Lemma keeps_store r o o' s :
  deref r s = Some o -> view o' = view o -> keeps view s (store r o' s).
Proof.
  intros Hr Hv n. rewrite deref_store.
  destruct (decide (r = n)) as [->|]; [|done].
  rewrite Hr. simpl. by rewrite Hv.
Qed.

Lemma keeps_modify r f s s' :
  (forall o, view (f o) = view o) ->
  modify r f s = Some s' -> keeps view s s'.
Proof.
  unfold modify. intros Hf Hm.
  destruct (deref r s) as [o|] eqn:Hr; simplify_eq/=.
  by apply (keeps_store r o).
Qed.

Lemma keeps_for_each {B : Type} (body : B -> State -> option State) l :
  (forall x s s', body x s = Some s' -> keeps view s s') ->
  forall s s', for_each body l s = Some s' -> keeps view s s'.
Proof.
  intros Hbody. induction l as [|x l IH]; intros s s' Hl; simplify_eq/=.
  - apply keeps_refl.
  - destruct (body x s) as [s1|] eqn:Hx; simplify_eq/=.
    eapply keeps_trans; eauto.
Qed.

Lemma keeps_weaken {B : Type} (view' : Obj -> B) (g : A -> B) s s' :
  (forall o, view' o = g (view o)) -> keeps view s s' -> keeps view' s s'.
Proof.
  intros Hg Hk n. specialize (Hk n).
  destruct (deref n s'), (deref n s); simplify_eq/=; try done.
  by rewrite !Hg, Hk.
Qed.

Lemma keeps_lookup s s' n o :
  keeps view s s' -> deref n s = Some o ->
  exists o', deref n s' = Some o' /\ view o' = view o.
Proof.
  intros Hk Hn. specialize (Hk n). rewrite Hn in Hk.
  destruct (deref n s') as [o'|]; simplify_eq/=. eauto.
Qed.

End Keeps.

Lemma keeps_sym {A} (view : Obj (T:=T) -> A) s s' : keeps view s s' -> keeps view s' s.
Proof. intros Hk n. by rewrite Hk. Qed.

Lemma keeps_childList s s' :
  keeps mark_world s s' -> keeps _childList s s'.
Proof. by apply (keeps_weaken mark_world _childList _childList). Qed.

Lemma subtree_ok_keeps k : forall n (s s' : State (T:=T)),
  keeps _childList s s' -> subtree_ok k n s' = subtree_ok k n s.
Proof.
  induction k as [|k IH]; intros n s s' Hk; [done|]. simpl.
  pose proof (Hk n) as Hn.
  destruct (deref n s') as [o'|], (deref n s) as [o|]; simplify_eq/=; try done.
  rewrite Hn. clear Hn.
  induction (_childList o) as [|c l IHl]; [done|]. simpl.
  by rewrite (IH c s s' Hk), IHl.
Qed.

Lemma descendant_keeps (s s' : State (T:=T)) n m :
  keeps _childList s s' -> descendant s n m -> descendant s' n m.
Proof.
  intros Hk. induction 1 as [|m o c _ IH Hm Hc]; [constructor|].
  destruct (keeps_lookup _ _ _ _ _ Hk Hm) as (o' & Hm' & Ho').
  eapply descendant_child; eauto. by rewrite Ho'.
Qed.

Lemma descendant_inv (s : State (T:=T)) n m :
  descendant s n m ->
  m = n \/ exists o c, deref n s = Some o /\ c ∈ _childList o /\ descendant s c m.
Proof.
  induction 1 as [|m o c Hd IH Hm Hc]; [by left|]. right.
  destruct IH as [->|(o0 & c0 & Hn & Hc0 & Hd0)].
  - exists o, c. split_and!; [done..|constructor].
  - exists o0, c0. split_and!; [done..|]. eapply descendant_child; eauto.
Qed.

Lemma stays_dirty_refl s : stays_dirty s s.
Proof. intros m o Hm Hd. eauto. Qed.

Lemma stays_dirty_trans s1 s2 s3 :
  stays_dirty s1 s2 -> stays_dirty s2 s3 -> stays_dirty s1 s3.
Proof.
  intros H12 H23 m o Hm Hd.
  destruct (H12 m o Hm Hd) as (o2 & Hm2 & Hd2). eauto.
Qed.


(** *** [_setWorldMatrixDirty] *)


Lemma only_objs_refl s : only_objs s s.
Proof. by destruct s. Qed.

Lemma only_objs_trans s1 s2 s3 :
  only_objs s1 s2 -> only_objs s2 s3 -> only_objs s1 s3.
Proof. unfold only_objs. intros H12 H23. rewrite H23, H12. done. Qed.

Lemma only_objs_store r o s : only_objs s (store r o s).
Proof. done. Qed.

Lemma all_dirty_mark_world o : all_dirty (mark_world o) = true.
Proof. done. Qed.

Lemma stays_dirty_store r o o' s :
  deref r s = Some o -> (all_dirty o = true -> all_dirty o' = true) ->
  stays_dirty s (store r o' s).
Proof.
  intros Hr Hd m om Hm Hdm. rewrite deref_store.
  destruct (decide (r = m)) as [->|]; [|eauto].
  rewrite Hr in Hm. simplify_eq. eauto.
Qed.

Lemma _setWorldMatrixDirty_children fuel
    (IH : forall n s, subtree_ok fuel n s = true ->
       exists s', _setWorldMatrixDirty fuel n s = Some s' /\
         keeps mark_world s s' /\ stays_dirty s s' /\ only_objs s s' /\
         forall m, descendant s n m ->
           exists o, deref m s' = Some o /\ all_dirty o = true) :
  forall l s, forallb (fun c => subtree_ok fuel c s) l = true ->
    exists s', for_each (_setWorldMatrixDirty fuel) l s = Some s' /\
      keeps mark_world s s' /\ stays_dirty s s' /\ only_objs s s' /\
      forall c m, c ∈ l -> descendant s c m ->
        exists o, deref m s' = Some o /\ all_dirty o = true.
Proof.
  induction l as [|c l IHl]; intros s Hl; simpl in *.
  - exists s. split_and!; auto using keeps_refl, stays_dirty_refl, only_objs_refl.
    intros c m Hc. by apply elem_of_nil in Hc.
  - apply andb_prop in Hl as [Hc Hl].
    destruct (IH c s Hc) as (s1 & -> & Hk1 & Hd1 & Ho1 & Hdesc1). simpl.
    destruct (IHl s1) as (s2 & -> & Hk2 & Hd2 & Ho2 & Hdesc2).
    { rewrite <- Hl. clear -Hk1. induction l as [|x l IHl]; [done|]. simpl.
      by rewrite (subtree_ok_keeps fuel x s s1 (keeps_childList _ _ Hk1)), IHl. }
    exists s2. split_and!; eauto using keeps_trans, stays_dirty_trans, only_objs_trans.
    intros c' m Hc' Hm. apply elem_of_cons in Hc' as [->|Hc'].
    + destruct (Hdesc1 m Hm) as (o & Ho & Hdo). eauto.
    + apply (Hdesc2 c' m Hc').
      eapply descendant_keeps; [|done]. by apply keeps_childList.
Qed.

Lemma _setWorldMatrixDirty_spec fuel : forall n s,
  subtree_ok fuel n s = true ->
  exists s', _setWorldMatrixDirty fuel n s = Some s' /\
    keeps mark_world s s' /\ stays_dirty s s' /\ only_objs s s' /\
    forall m, descendant s n m ->
      exists o, deref m s' = Some o /\ all_dirty o = true.
Proof.
  induction fuel as [|fuel IH]; intros n s Hok; [done|]. simpl in *.
  destruct (deref n s) as [o|] eqn:Hn; [|done]. simpl.
  set (s0 := store n (mark_world o) s).
  assert (Hk0 : keeps mark_world s s0) by by apply (keeps_store _ n o).
  destruct (_setWorldMatrixDirty_children fuel IH (_childList o) s0)
    as (s' & Hs' & Hk & Hd & Ho & Hdesc).
  { rewrite <- Hok. clear -Hk0. induction (_childList o) as [|x l IHl]; [done|].
    simpl. by rewrite (subtree_ok_keeps fuel x s s0 (keeps_childList _ _ Hk0)), IHl. }
  exists s'. split_and!; [done|by eapply keeps_trans|..].
  - eapply stays_dirty_trans; [|done]. by apply (stays_dirty_store n o).
  - eapply only_objs_trans; [|done]. apply only_objs_store.
  - intros m Hm. apply descendant_inv in Hm as [->|(o1 & c & Hn1 & Hc & Hm)].
    + apply (Hd n (mark_world o)); [apply deref_store_eq|done].
    + rewrite Hn in Hn1. simplify_eq. apply (Hdesc c m Hc).
      eapply descendant_keeps; [|done]. by apply keeps_childList.
Qed.


(** *** [_setBoundaryDirty] *)



Lemma walk_frame_refl s : walk_frame s s.
Proof. split_and!; auto using keeps_refl, stays_dirty_refl. Qed.

Lemma walk_frame_trans s1 s2 s3 :
  walk_frame s1 s2 -> walk_frame s2 s3 -> walk_frame s1 s3.
Proof.
  intros (Hk1 & Hd1 & Ho1 & Hf1) (Hk2 & Hd2 & Ho2 & Hf2).
  split_and!; eauto using keeps_trans, stays_dirty_trans; congruence.
Qed.

Lemma boundary_view_childList o : _childList (boundary_view o) = _childList o.
Proof. unfold boundary_view. by destruct (_aabbDirty o). Qed.

Lemma boundary_view_parent o : _parent (boundary_view o) = _parent o.
Proof. unfold boundary_view. by destruct (_aabbDirty o). Qed.

Lemma walk_frame_childList s s' : walk_frame s s' -> keeps _childList s s'.
Proof.
  intros (Hk & _). apply (keeps_weaken boundary_view _childList _childList); [|done].
  intros o. by rewrite boundary_view_childList.
Qed.

Lemma walk_frame_parent s s' : walk_frame s s' -> keeps _parent s s'.
Proof.
  intros (Hk & _). apply (keeps_weaken boundary_view _parent _parent); [|done].
  intros o. by rewrite boundary_view_parent.
Qed.

Lemma array_put_lookup_eq {A} (l : list (option A)) i x :
  i <= length l -> array_put i x l !! i = Some (Some x).
Proof.
  intros Hi. unfold array_put. case_decide.
  - by apply list_lookup_insert_eq.
  - replace (i - length l) with 0 by lia. simpl.
    apply list_lookup_middle. lia.
Qed.

Lemma array_put_lookup_lt {A} (l : list (option A)) i j x :
  j < i -> i <= length l -> array_put i x l !! j = l !! j.
Proof.
  intros Hj Hi. unfold array_put. case_decide.
  - apply list_lookup_insert_ne. lia.
  - apply lookup_app_l. lia.
Qed.

Lemma array_put_length {A} (l : list (option A)) i x :
  i <= length l -> S i <= length (array_put i x l).
Proof.
  intros Hi. unfold array_put. case_decide.
  - rewrite length_insert. lia.
  - rewrite !length_app, length_replicate. simpl. lia.
Qed.

Lemma mark_boundary_spec object o s :
  deref object s = Some o ->
  exists s', mark_boundary object s = Some s' /\ walk_frame s s' /\
    (notifications_ok s -> notifications_ok s').
Proof.
  intros Hobj. unfold mark_boundary. rewrite Hobj. simpl.
  destruct (_aabbDirty o) eqn:Haabb.
  - eexists. split; [done|]. split; [split_and!|].
    + intros n. change (deref n (with_notifications ?a ?b ?s1)) with (deref n s1).
      apply (keeps_store _ object o); [done|].
      unfold boundary_view. simpl. rewrite Haabb.
      destruct o; unfold with_obbDirty, with_aabbDirty; simpl in *; by subst.
    + intros m om Hm Hd.
      change (deref m (with_notifications ?a ?b ?s1)) with (deref m s1).
      eapply (stays_dirty_store object o); [done| |done..].
      unfold all_dirty. simpl.
      by destruct (_worldMatrixDirty o), (_worldNormalMatrixDirty o).
    + done.
    + done.
    + intros [Hlen Hall]. split; simpl.
      * by apply array_put_length.
      * intros i Hi. destruct (decide (i = lenNotifications s)) as [->|].
        -- exists object. by apply array_put_lookup_eq.
        -- rewrite array_put_lookup_lt by (done || lia). apply Hall. lia.
  - exists s. split_and!; auto using walk_frame_refl.
Qed.

Lemma chain_ok_keeps k : forall (q : option ref) s s',
  keeps _parent s s' -> chain_ok k q s' = chain_ok k q s.
Proof.
  induction k as [|k IH]; intros [r|] s s' Hk; try done. simpl.
  pose proof (Hk r) as Hr.
  destruct (deref r s') as [o'|], (deref r s) as [o|]; simplify_eq/=; try done.
  rewrite Hr. by apply IH.
Qed.

Lemma setParentBoundariesDirty_spec fuel : forall (object : option ref) s,
  chain_ok fuel object s = true ->
  exists s', setParentBoundariesDirty fuel object s = Some s' /\
    walk_frame s s' /\ (notifications_ok s -> notifications_ok s').
Proof.
  induction fuel as [|fuel IH]; intros [r|] s Hok; simpl in *; try done;
    try (by exists s; split_and!; auto using walk_frame_refl).
  destruct (deref r s) as [o|] eqn:Hr; [|done].
  destruct (mark_boundary_spec r o s Hr) as (s1 & -> & Hf1 & Hn1). simpl.
  destruct (keeps_lookup _ _ _ _ _ (walk_frame_parent _ _ Hf1) Hr) as (o1 & -> & Hp).
  simpl. rewrite Hp.
  destruct (IH (_parent o) s1) as (s2 & -> & Hf2 & Hn2).
  { by rewrite (chain_ok_keeps fuel _ s s1 (walk_frame_parent _ _ Hf1)). }
  exists s2. split_and!; eauto using walk_frame_trans.
Qed.

Lemma setSubtreeBoundariesDirty_spec fuel : forall object s,
  subtree_ok fuel object s = true ->
  exists s', setSubtreeBoundariesDirty fuel object s = Some s' /\
    walk_frame s s' /\ (notifications_ok s -> notifications_ok s').
Proof.
  induction fuel as [|fuel IH]; intros object s Hok; [done|]. simpl in *.
  destruct (deref object s) as [o|] eqn:Hobj; [|done]. simpl.
  assert (Hch : forall l s0, forallb (fun c => subtree_ok fuel c s0) l = true ->
    exists s', for_each (setSubtreeBoundariesDirty fuel) l s0 = Some s' /\
      walk_frame s0 s' /\ (notifications_ok s0 -> notifications_ok s')).
  { clear -IH. induction l as [|c l IHl]; intros s0 Hl; simpl in *.
    - exists s0. split_and!; auto using walk_frame_refl.
    - apply andb_prop in Hl as [Hc Hl].
      destruct (IH c s0 Hc) as (s1 & -> & Hf1 & Hn1). simpl.
      destruct (IHl s1) as (s2 & -> & Hf2 & Hn2).
      { rewrite <- Hl. pose proof (walk_frame_childList _ _ Hf1) as Hk.
        clear -Hk. induction l as [|x l IHl]; [done|]. simpl.
        by rewrite (subtree_ok_keeps fuel x s0 s1 Hk), IHl. }
      exists s2. split_and!; eauto using walk_frame_trans. }
  destruct (Hch _ _ Hok) as (s1 & -> & Hf1 & Hn1). simpl.
  destruct (keeps_lookup _ _ _ _ _ (walk_frame_childList _ _ Hf1) Hobj)
    as (o1 & Hobj1 & _).
  destruct (mark_boundary_spec object o1 s1 Hobj1) as (s2 & -> & Hf2 & Hn2).
  exists s2. split_and!; eauto using walk_frame_trans.
Qed.

Lemma fire_notifications_spec k : forall i s,
  (forall j, i <= j < i + k -> exists r, notifications s !! j = Some (Some r)) ->
  exists s', for_each fire_notification (seq i k) s = Some s' /\
    objs s' = objs s /\ outside s' = outside s.
Proof.
  induction k as [|k IH]; intros i s Hall.
  - by exists s.
  - cbn [seq for_each].
    destruct (Hall i) as (r & Hr); [lia|].
    assert (fire_notification i s = Some (fire r "boundary" s)) as ->
      by (unfold fire_notification; by rewrite Hr).
    simpl.
    destruct (IH (S i) (fire r "boundary" s)) as (s' & -> & Hobjs & Hout).
    { intros j Hj. apply Hall. lia. }
    by exists s'.
Qed.

Lemma _setBoundaryDirty_spec fuel this s :
  subtree_ok fuel this s = true -> chain_ok fuel (Some this) s = true ->
  exists s', _setBoundaryDirty fuel this s = Some s' /\
    keeps boundary_view s s' /\ stays_dirty s s' /\ outside s' = outside s.
Proof.
  intros Hsub Hchain. unfold _setBoundaryDirty.
  set (s0 := with_notifications (notifications s) 0 s).
  assert (Hf0 : walk_frame s s0).
  { split_and!; [by apply keeps_objs| |done..]. intros m o Hm Hd. by exists o. }
  assert (Hn0 : notifications_ok s0) by (split; simpl; [lia|intros; lia]).
  destruct (setSubtreeBoundariesDirty_spec fuel this s0) as (s1 & -> & Hf1 & Hn1).
  { by rewrite (subtree_ok_keeps fuel this s s0 (walk_frame_childList _ _ Hf0)). }
  simpl.
  destruct (setParentBoundariesDirty_spec fuel (Some this) s1)
    as (s2 & -> & Hf2 & Hn2).
  { rewrite <- Hchain.
    apply (chain_ok_keeps fuel (Some this) s s1), walk_frame_parent.
    exact (walk_frame_trans _ _ _ Hf0 Hf1). }
  simpl.
  destruct (Hn2 (Hn1 Hn0)) as [_ Hall].
  destruct (fire_notifications_spec (lenNotifications s2) 0 s2)
    as (s3 & -> & Hobjs & Hout).
  { intros j Hj. apply Hall. lia. }
  destruct (walk_frame_trans _ _ _ Hf0 (walk_frame_trans _ _ _ Hf1 Hf2))
    as (Hk & Hd & Ho & _).
  exists s3. split_and!; [done|..].
  - eapply keeps_trans; [done|]. by apply keeps_objs.
  - intros m o Hm Hdm. unfold deref. rewrite Hobjs. by apply (Hd m o).
  - congruence.
Qed.


(** *** The transform setters *)

Lemma keeps_boundary_world s s' :
  keeps boundary_view s s' -> keeps mark_world s s'.
Proof.
  apply (keeps_weaken boundary_view mark_world mark_world).
  intros o. unfold boundary_view. by destruct (_aabbDirty o).
Qed.

Lemma only_objs_outside s s' : only_objs s s' -> outside s' = outside s.
Proof. intros ->. done. Qed.



Lemma keeps_world_shape s s' : keeps mark_world s s' -> keeps shape s s'.
Proof. by apply (keeps_weaken mark_world shape shape). Qed.

Lemma keeps_shape_childList s s' : keeps shape s s' -> keeps _childList s s'.
Proof. by apply (keeps_weaken shape _childList (fun x => x.1.2)). Qed.

Lemma keeps_shape_parent s s' : keeps shape s s' -> keeps _parent s s'.
Proof. by apply (keeps_weaken shape _parent (fun x => x.1.1)). Qed.

Lemma keeps_shape_scene s s' : keeps shape s s' -> keeps scene s s'.
Proof. by apply (keeps_weaken shape scene (fun x => x.2)). Qed.

Lemma transform_changed_spec fuel this o sc s :
  deref this s = Some o -> scenes s !! scene o = Some sc ->
  subtree_ok fuel this s = true -> chain_ok fuel (Some this) s = true ->
  exists s', transform_changed fuel this s = Some s' /\
    keeps mark_world (store this (with_localMatrixDirty true o) s) s' /\
    (forall m, descendant s this m ->
       exists om, deref m s' = Some om /\ all_dirty om = true) /\
    outside s' = outside (image_dirtied (scene o) sc s).
Proof.
  intros Hthis Hsc Hsub Hchain.
  unfold transform_changed, _setLocalMatrixDirty, modify. rewrite Hthis. simpl.
  set (s1 := store this (with_localMatrixDirty true o) s).
  assert (Hk1 : keeps shape s s1) by by apply (keeps_store _ this o).
  destruct (_setWorldMatrixDirty_spec fuel this s1)
    as (s2 & -> & Hk2 & Hd2 & Ho2 & Hdesc2).
  { by rewrite (subtree_ok_keeps fuel this s s1 (keeps_shape_childList _ _ Hk1)). }
  simpl.
  assert (Hk02 : keeps shape s s2)
    by exact (keeps_trans _ _ _ _ Hk1 (keeps_world_shape _ _ Hk2)).
  destruct (_setBoundaryDirty_spec fuel this s2) as (s3 & -> & Hk3 & Hd3 & Ho3).
  { by rewrite (subtree_ok_keeps fuel this s s2 (keeps_shape_childList _ _ Hk02)). }
  { rewrite <- Hchain. apply (chain_ok_keeps fuel (Some this) s s2).
    by apply keeps_shape_parent. }
  simpl.
  assert (Hk13 : keeps mark_world s1 s3)
    by exact (keeps_trans _ _ _ _ Hk2 (keeps_boundary_world _ _ Hk3)).
  assert (Hk03 : keeps shape s s3)
    by exact (keeps_trans _ _ _ _ Hk1 (keeps_world_shape _ _ Hk13)).
  destruct (keeps_lookup _ _ _ _ _ (keeps_shape_scene _ _ Hk03) Hthis)
    as (o3 & Hthis3 & Hscene3).
  apply only_objs_outside in Ho2.
  assert (outside s3 = outside s) as Hout by (rewrite Ho3, Ho2; done).
  assert (Hscenes : scenes s3 = scenes s)
    by (unfold outside in Hout; by simplify_eq).
  unfold renderer_imageDirty, modify_scene.
  rewrite Hthis3. simpl. rewrite Hscene3, Hscenes, Hsc. simpl.
  eexists. split; [done|]. split_and!.
  - intros n. change (deref n (with_scenes ?a ?s0)) with (deref n s0).
    apply Hk13.
  - intros m Hm.
    change (deref m (with_scenes ?a ?s0)) with (deref m s0).
    destruct (Hdesc2 m) as (o2 & Hm2 & Hdo2).
    { eapply descendant_keeps; [|done]. by apply keeps_shape_childList. }
    by apply (Hd3 m o2).
  - unfold outside in *. simpl. injection Hout as ? ? ? ? ? ? ?. congruence.
Qed.


(** *** Reading the World matrix *)


Lemma has_ancestors_keeps anc : forall n s s',
  keeps _parent s s' -> has_ancestors s' n anc = has_ancestors s n anc.
Proof.
  induction anc as [|p anc IH]; intros n s s' Hk; simpl;
    pose proof (Hk n) as Hn;
    destruct (deref n s') as [o'|], (deref n s) as [o|]; simplify_eq/=; try done.
  - by rewrite Hn.
  - rewrite Hn. by rewrite (IH p s s' Hk).
Qed.

Lemma has_ancestors_unique l1 : forall n s l2,
  has_ancestors s n l1 = true -> has_ancestors s n l2 = true -> l1 = l2.
Proof.
  induction l1 as [|p l1 IH]; intros n s [|q l2] H1 H2; simpl in *;
    destruct (deref n s) as [o|]; try done;
    repeat match goal with
    | Hb : _ && _ = true |- _ => apply andb_prop in Hb as [? ?]
    | Hb : bool_decide _ = true |- _ => apply bool_decide_eq_true in Hb
    end; try congruence.
  assert (p = q) as -> by congruence. f_equal. by eapply IH.
Qed.

Lemma has_ancestors_suffix l1 : forall n s m l2,
  has_ancestors s n (l1 ++ m :: l2) = true -> has_ancestors s m l2 = true.
Proof.
  induction l1 as [|p l1 IH]; intros n s m l2 Hn; simpl in *;
    destruct (deref n s) as [o|]; try done;
    apply andb_prop in Hn as [_ Hn]; [done|by eapply IH].
Qed.

Lemma has_ancestors_not_in s n anc :
  has_ancestors s n anc = true -> n ∉ anc.
Proof.
  intros Hn Hin. apply list_elem_of_split in Hin as (l1 & l2 & ->).
  pose proof (has_ancestors_suffix _ _ _ _ _ Hn) as Hn2.
  pose proof (has_ancestors_unique _ _ _ _ Hn Hn2) as Heq.
  apply (f_equal length) in Heq. rewrite length_app in Heq. simpl in Heq. lia.
Qed.

Lemma localOf_built o :
  localOf composeMat4
    (with_localMatrixDirty false
       (with_localMatrix
          (composeMat4 (_position o) (_quaternion o) (_scale o)) o))
  = localOf composeMat4 o \/ _localMatrixDirty o = false.
Proof.
  unfold localOf. simpl. destruct (_localMatrixDirty o); auto.
Qed.

Lemma worldOfChain_keeps anc : forall n s s',
  keeps (localOf composeMat4) s s' ->
  worldOfChain composeMat4 mulMat4 s' n anc
  = worldOfChain composeMat4 mulMat4 s n anc.
Proof.
  induction anc as [|p anc IH]; intros n s s' Hk; simpl;
    pose proof (Hk n) as Hn;
    destruct (deref n s') as [o'|], (deref n s) as [o|]; simplify_eq/=; try done.
  - by rewrite Hn.
  - rewrite Hn. by rewrite (IH p s s' Hk).
Qed.

(** The first step of [_buildWorldMatrix]: the Local matrix is in place. *)
Lemma local_built n o s :
  deref n s = Some o ->
  exists s1 o1,
    (if _localMatrixDirty o then _buildLocalMatrix composeMat4 n s else Some s)
      = Some s1 /\
    deref n s1 = Some o1 /\ (forall m, m <> n -> deref m s1 = deref m s) /\
    only_objs s s1 /\
    _localMatrix o1 = localOf composeMat4 o /\ _localMatrixDirty o1 = false /\
    _parent o1 = _parent o /\ localOf composeMat4 o1 = localOf composeMat4 o.
Proof.
  intros Hn. destruct (_localMatrixDirty o) eqn:Hdirty.
  - unfold _buildLocalMatrix, modify. rewrite Hn. simpl.
    eexists _, _. split; [done|]. split; [apply deref_store_eq|].
    split; [intros m Hm; by apply deref_store_ne|].
    split; [apply only_objs_store|].
    unfold localOf. simpl. by rewrite Hdirty.
  - exists s, o. split_and!; auto using only_objs_refl.
    unfold localOf. by rewrite Hdirty.
Qed.

Lemma _buildWorldMatrix_spec anc : forall n s fuel o,
  has_ancestors s n anc = true -> length anc < fuel -> deref n s = Some o ->
  exists s' W o',
    _buildWorldMatrix composeMat4 mulMat4 fuel n s = Some s' /\
    deref n s' = Some o' /\ _worldMatrix o' = W /\
    _worldMatrixDirty o' = false /\
    _localMatrix o' = localOf composeMat4 o /\
    (forall m, m ∉ n :: anc -> deref m s' = deref m s) /\
    only_objs s s' /\
    match anc with
    | [] => W = localOf composeMat4 o
    | p :: _ => exists po', deref p s' = Some po' /\
                  W = mulMat4 (_worldMatrix po') (localOf composeMat4 o)
    end /\
    (Forall (fun m => exists om, deref m s = Some om /\
                        _worldMatrixDirty om = true) anc ->
     worldOfChain composeMat4 mulMat4 s n anc = Some W).
Proof.
  induction anc as [|p anc IH]; intros n s fuel o Hanc Hfuel Hn;
    (destruct fuel as [|fuel]; [simpl in Hfuel; lia|]);
    pose proof (has_ancestors_not_in _ _ _ Hanc) as Hnotin;
    simpl in Hanc; rewrite Hn in Hanc; cbn [_buildWorldMatrix];
    rewrite Hn; cbn [mbind option_bind];
    destruct (local_built n o s Hn)
      as (s1 & o1 & -> & Hn1 & Hframe1 & Hobjs1 & Hloc1 & Hld1 & Hpar1 & Hlo1);
    cbn [mbind option_bind]; rewrite Hn1; cbn [mbind option_bind]; rewrite Hpar1.
  - apply bool_decide_eq_true in Hanc. rewrite Hanc.
    eexists _, _, _. split; [done|]. split; [apply deref_store_eq|].
    simpl. split_and!; try done.
    + intros m Hm. apply not_elem_of_cons in Hm as [Hm _].
      rewrite deref_store_ne by done. by apply Hframe1.
    + eapply only_objs_trans; [done|apply only_objs_store].
    + intros _. by rewrite Hn.
  - apply andb_prop in Hanc as [Hp Hanc]. apply bool_decide_eq_true in Hp.
    rewrite Hp. pose proof Hnotin as Hnotin'.
    apply not_elem_of_cons in Hnotin' as [Hnp Hnanc].
    destruct (deref p s) as [po|] eqn:Hps;
      [|by destruct anc; simpl in Hanc; rewrite Hps in Hanc].
    rewrite (Hframe1 p) by done. rewrite Hps. cbn [mbind option_bind].
    assert (Hpar : keeps _parent s s1).
    { intros m. destruct (decide (m = n)) as [->|Hm]; [|by rewrite Hframe1].
      rewrite Hn1, Hn. simpl. by rewrite Hpar1. }
    assert (Hloc : keeps (localOf composeMat4) s s1).
    { intros m. destruct (decide (m = n)) as [->|Hm]; [|by rewrite Hframe1].
      rewrite Hn1, Hn. simpl. by rewrite Hlo1. }
    assert (exists s2 po2,
      (if _worldMatrixDirty po
       then _buildWorldMatrix composeMat4 mulMat4 fuel p s1 else Some s1)
        = Some s2 /\
      deref p s2 = Some po2 /\ deref n s2 = Some o1 /\
      (forall m, m ∉ n :: p :: anc -> deref m s2 = deref m s) /\
      only_objs s s2 /\
      (Forall (fun m => exists om, deref m s = Some om /\
                          _worldMatrixDirty om = true) (p :: anc) ->
       worldOfChain composeMat4 mulMat4 s p anc = Some (_worldMatrix po2)))
      as (s2 & po2 & -> & Hp2 & Hn2 & Hframe2 & Hobjs2 & Hclosed).
    { destruct (_worldMatrixDirty po) eqn:Hpd.
      - destruct (IH p s1 fuel po) as
          (s2 & Wp & po2 & -> & Hp2 & HW & _ & _ & Hframe2 & Hobjs2 & _ & Hcl).
        + rewrite <- Hanc. by apply has_ancestors_keeps.
        + simpl in Hfuel. lia.
        + by rewrite Hframe1.
        + exists s2, po2. split_and!; try done.
          * by rewrite Hframe2.
          * intros m Hm. apply not_elem_of_cons in Hm as [Hmn Hm].
            rewrite Hframe2 by done. by apply Hframe1.
          * by eapply only_objs_trans.
          * intros Hall. inversion_clear Hall as [|? ? _ Hall'].
            rewrite HW, <- Hcl.
            -- symmetry. by apply worldOfChain_keeps.
            -- apply Forall_forall. intros m Hm.
               rewrite Forall_forall in Hall'.
               destruct (Hall' m Hm) as (om & Hom & Hd). exists om.
               split; [|done]. rewrite Hframe1; [done|].
               intros ->. by apply Hnanc, list_elem_of_In.
      - exists s1, po. split_and!; try done.
        + by rewrite Hframe1.
        + intros m Hm. apply not_elem_of_cons in Hm as [Hmn Hm].
          by apply Hframe1.
        + intros Hall. inversion_clear Hall as [|? ? (om & Hom & Hd) _].
          congruence. }
    cbn [mbind option_bind]. rewrite Hp2, Hn2. cbn [mbind option_bind].
    eexists _, _, _. split; [done|]. split; [apply deref_store_eq|].
    simpl. split_and!; try done.
    + intros m Hm. pose proof Hm as Hm'.
      apply not_elem_of_cons in Hm' as [Hmn _].
      rewrite deref_store_ne by done. by apply Hframe2.
    + eapply only_objs_trans; [done|apply only_objs_store].
    + exists po2. split; [by rewrite deref_store_ne|]. by rewrite Hloc1.
    + intros Hall. rewrite (Hclosed Hall), Hn. simpl. by rewrite Hloc1.
Qed.


(** *** What no method other than the rotation setters touches *)


(** The runs below are chains of steps; each step is covered by a lemma of
    the hint database, and [frame] follows the chain. *)
Create HintDb frame discriminated.

Ltac unbind H :=
  repeat lazymatch type of H with
  | mbind _ _ = Some _ => apply bind_Some in H as (? & ? & H); cbv beta in H
  end.

Ltac frame :=
  repeat match goal with
  | H : _ ?s = Some ?s1 |- keeps ?v ?s ?s' =>
      tryif constr_eq s1 s' then fail
      else (apply (keeps_trans v s s1 s'); [solve [eauto with frame]|clear H])
  | H : _ ?s = Some (_, ?s1) |- keeps ?v ?s ?s' =>
      tryif constr_eq s1 s' then fail
      else (apply (keeps_trans v s s1 s'); [solve [eauto with frame]|clear H])
  end;
  solve [eauto with frame | apply keeps_refl].

Lemma keeps_modify_scene {A} (view : Obj -> A) this f s s' :
  modify_scene this f s = Some s' -> keeps view s s'.
Proof.
  unfold modify_scene. intros Hrun. unbind Hrun. simplify_eq.
  by apply keeps_objs.
Qed.

Local Hint Resolve keeps_modify_scene : frame.
Local Hint Extern 1 (keeps _ _ _) =>
  eapply keeps_modify; cycle 1; [eassumption|by intros] : frame.

Lemma _setWorldMatrixDirty_keeps fuel : forall n s s',
  _setWorldMatrixDirty fuel n s = Some s' -> keeps mark_world s s'.
Proof.
  induction fuel as [|fuel IH]; intros n s s' Hrun; [by simpl in Hrun|].
  simpl in Hrun. unbind Hrun.
  eapply keeps_trans; [by apply (keeps_store _ n x (mark_world x))|].
  eapply keeps_for_each; [|done]. intros c s1 s2. apply IH.
Qed.

Lemma mark_boundary_keeps object s s' :
  mark_boundary object s = Some s' -> keeps boundary_view s s'.
Proof.
  intros Hrun. pose proof Hrun as Hrun'.
  apply bind_Some in Hrun' as (o & Hobj & _).
  destruct (mark_boundary_spec object o s Hobj) as (s1 & Hs1 & (Hk & _) & _).
  congruence.
Qed.

Local Hint Resolve mark_boundary_keeps : frame.

Lemma setParentBoundariesDirty_keeps fuel : forall (object : option ref) s s',
  setParentBoundariesDirty fuel object s = Some s' -> keeps boundary_view s s'.
Proof.
  induction fuel as [|fuel IH]; intros [r|] s s' Hrun; simplify_eq/=;
    try apply keeps_refl.
  unbind Hrun. eapply keeps_trans; [|by eapply IH]. frame.
Qed.

Lemma setSubtreeBoundariesDirty_keeps fuel : forall object s s',
  setSubtreeBoundariesDirty fuel object s = Some s' -> keeps boundary_view s s'.
Proof.
  induction fuel as [|fuel IH]; intros object s s' Hrun; [by simpl in Hrun|].
  simpl in Hrun. unbind Hrun.
  eapply keeps_trans; [|by eapply mark_boundary_keeps].
  eapply keeps_for_each; [|done]. intros c s2 s3. apply IH.
Qed.

Lemma fire_notification_objs i s s' :
  fire_notification i s = Some s' -> objs s' = objs s.
Proof.
  unfold fire_notification. intros Hrun.
  destruct (notifications s !! i) as [[r|]|]; by simplify_eq.
Qed.

Lemma _setBoundaryDirty_keeps fuel this s s' :
  _setBoundaryDirty fuel this s = Some s' -> keeps boundary_view s s'.
Proof.
  unfold _setBoundaryDirty. intros Hrun.
  apply bind_Some in Hrun as (s1 & Hs1 & Hrun).
  apply bind_Some in Hrun as (s2 & Hs2 & Hrun).
  apply setSubtreeBoundariesDirty_keeps in Hs1.
  apply setParentBoundariesDirty_keeps in Hs2.
  eapply keeps_trans; [|eapply keeps_trans]; [exact Hs1|exact Hs2|].
  eapply keeps_for_each; [|done]. intros i s3 s4 Hfire.
  by apply keeps_objs, (fire_notification_objs i).
Qed.

Lemma keeps_world_rotation s s' :
  keeps mark_world s s' -> keeps rotation_view s s'.
Proof. by apply (keeps_weaken mark_world rotation_view rotation_view). Qed.

Lemma _setWorldMatrixDirty_rotation fuel n s s' :
  _setWorldMatrixDirty fuel n s = Some s' -> keeps rotation_view s s'.
Proof. intros. by eapply keeps_world_rotation, _setWorldMatrixDirty_keeps. Qed.

Lemma _setBoundaryDirty_rotation fuel n s s' :
  _setBoundaryDirty fuel n s = Some s' -> keeps rotation_view s s'.
Proof.
  intros.
  by eapply keeps_world_rotation, keeps_boundary_world, _setBoundaryDirty_keeps.
Qed.

Local Hint Resolve _setWorldMatrixDirty_rotation _setBoundaryDirty_rotation
  : frame.

Lemma transform_changed_keeps fuel this s s' :
  transform_changed fuel this s = Some s' -> keeps rotation_view s s'.
Proof.
  unfold transform_changed, _setLocalMatrixDirty, renderer_imageDirty.
  intros Hrun. unbind Hrun.
  match goal with Hm : mbind _ _ = Some _ |- _ => unbind Hm end.
  frame.
Qed.

Lemma set_flag_keeps fuel fl : forall v this s s',
  set_flag fuel fl v this s = Some s' -> keeps rotation_view s s'.
Proof.
  induction fuel as [|fuel IH]; intros v this s s' Hrun; [by simpl in Hrun|].
  simpl in Hrun. unbind Hrun.
  eapply keeps_trans;
    [apply (keeps_store _ this x (put_flag fl (flag_value fl v) x));
     [done|by destruct fl]|].
  eapply keeps_trans; [eapply keeps_for_each; [|done]; intros c s2 s3; apply IH|].
  destruct (flag_hook fl); [|simplify_eq; apply keeps_refl].
  unbind Hrun.
  destruct (etruthy (_entityType _)); [|simplify_eq; apply keeps_refl].
  frame.
Qed.

Lemma set_colorize_keeps fuel : forall rgb this s s',
  set_colorize fuel rgb this s = Some s' -> keeps rotation_view s s'.
Proof.
  induction fuel as [|fuel IH]; intros rgb this s s' Hrun; [by simpl in Hrun|].
  simpl in Hrun. apply bind_Some in Hrun as (o & Ho & Hrun).
  destruct (default (num0, num0, num0, num1) (_colorize o)) as [[[? ?] ?] a].
  destruct (default (num1, num1, num1) rgb) as [[r g] b].
  eapply keeps_trans;
    [by apply (keeps_store _ this o (with_colorize (Some (r, g, b, a)) o))|].
  eapply keeps_for_each; [|done]. intros c s2 s3. apply IH.
Qed.

Lemma set_opacity_keeps fuel : forall a this s s',
  set_opacity fuel a this s = Some s' -> keeps rotation_view s s'.
Proof.
  induction fuel as [|fuel IH]; intros a this s s' Hrun; [by simpl in Hrun|].
  simpl in Hrun. apply bind_Some in Hrun as (o & Ho & Hrun).
  destruct (default (num1, num1, num1, num0) (_colorize o)) as [[[r g] b] ?].
  eapply keeps_trans;
    [by apply (keeps_store _ this o
                 (with_colorize (Some (r, g, b, default num1 a)) o))|].
  eapply keeps_for_each; [|done]. intros c s2 s3. apply IH.
Qed.

Lemma set_entityType_keeps e this s s' :
  set_entityType e this s = Some s' -> keeps rotation_view s s'.
Proof.
  unfold set_entityType. intros Hrun.
  apply bind_Some in Hrun as (o & Ho & Hrun).
  case_decide; [simplify_eq; apply keeps_refl|].
  unbind Hrun.
  destruct (etruthy (_entityType o)), (etruthy e); simplify_eq; frame.
Qed.

Local Hint Resolve transform_changed_keeps set_flag_keeps set_colorize_keeps
  set_opacity_keeps set_entityType_keeps : frame.

Lemma removeChild_keeps fuel this object s s' :
  removeChild fuel this object s = Some s' -> keeps rotation_view s s'.
Proof.
  unfold removeChild. intros Hrun.
  apply bind_Some in Hrun as (o & Ho & Hrun).
  apply bind_Some in Hrun as (me & Hme & Hrun).
  apply bind_Some in Hrun as ([c|] & Hfound & Hrun);
    [|simplify_eq; apply keeps_refl].
  unbind Hrun. frame.
Qed.

Lemma inherit_flag_keeps fuel fl this object s s' :
  inherit_flag fuel fl this object s = Some s' -> keeps rotation_view s s'.
Proof. unfold inherit_flag. intros Hrun. unbind Hrun. frame. Qed.

Local Hint Resolve removeChild_keeps inherit_flag_keeps : frame.

Lemma inherit_states_keeps fuel this object s s' :
  inherit_states fuel this object s = Some s' -> keeps rotation_view s s'.
Proof.
  unfold inherit_states. intros Hrun. unbind Hrun.
  repeat match goal with Hm : mbind _ _ = Some _ |- _ => unbind Hm end.
  frame.
Qed.

Local Hint Resolve inherit_states_keeps : frame.

Lemma attach_keeps fuel this object inheritStates s res s' :
  attach fuel this object inheritStates s = Some (res, s') ->
  keeps rotation_view s s'.
Proof.
  unfold attach. intros Hrun.
  apply bind_Some in Hrun as (o & Ho & Hrun).
  apply bind_Some in Hrun as (me & Hme & Hrun).
  case_decide; [|simplify_eq; by apply keeps_objs].
  unbind Hrun. simplify_eq.
  repeat case_decide; simplify_eq; frame.
Qed.

Local Hint Resolve attach_keeps : frame.

Lemma addChild_keeps fuel this object inheritStates s res s' :
  addChild fuel this object inheritStates s = Some (res, s') ->
  keeps rotation_view s s'.
Proof.
  unfold addChild. intros Hrun. destruct object as [i| |c|i]; simplify_eq/=.
  - apply bind_Some in Hrun as (sc & Hsc & Hrun).
    destruct (objects sc !! i); [frame|].
    simplify_eq. by apply keeps_objs.
  - apply bind_Some in Hrun as (o & Ho & Hrun).
    destruct (_parent o) as [p|]; [|frame].
    apply bind_Some in Hrun as (po & Hpo & Hrun).
    apply bind_Some in Hrun as (me & Hme & Hrun).
    case_decide; [simplify_eq; by apply keeps_objs|].
    unbind Hrun. frame.
  - by apply keeps_objs.
Qed.

Local Hint Resolve addChild_keeps : frame.


(** *** Construction *)


Lemma set_scale_keeps fuel v this s s' :
  set_scale fuel v this s = Some s' -> keeps rotation_view s s'.
Proof. unfold set_scale. intros Hrun. unbind Hrun. frame. Qed.

Lemma set_position_keeps fuel v this s s' :
  set_position fuel v this s = Some s' -> keeps rotation_view s s'.
Proof. unfold set_position. intros Hrun. unbind Hrun. frame. Qed.

Local Hint Resolve set_scale_keeps set_position_keeps : frame.

Lemma init_properties_keeps fuel this (cfg : Cfg (T:=T)) s s' :
  init_properties fuel this cfg s = Some s' -> keeps rotation_view s s'.
Proof.
  unfold init_properties, set_visible, set_culled, set_pickable, set_clippable,
    set_collidable, set_castShadow, set_receiveShadow, set_outlined,
    set_ghosted, set_highlighted, set_selected.
  intros Hrun. unbind Hrun. frame.
Qed.

Lemma init_children_keeps fuel this (inherit : option bool) l : forall s s',
  for_each (fun (a : Arg) s => snd <$> addChild fuel this a inherit s) l s
    = Some s' ->
  keeps rotation_view s s'.
Proof.
  apply keeps_for_each. intros a s s' Hrun.
  apply fmap_Some in Hrun as ([res s1] & Hrun & ->). by eapply addChild_keeps.
Qed.

(** A quaternion in the configuration, and no matrix: whatever else the
    configuration holds, the object ends with the initial rotation. *)
Lemma _init_rotation fuel this (cfg : Cfg (T:=T)) q s s' :
  cfg_matrix cfg = None -> cfg_quaternion cfg = Some q ->
  _init decomposeMat4 eulerToQuaternion fuel this cfg s = Some s' ->
  exists o', deref this s' = Some o' /\
    _quaternion o' = identityQuaternion /\ _rotation o' = math_vec3.
Proof.
  intros Hmatrix Hquat. unfold _init, init_transform.
  rewrite Hmatrix, Hquat. intros Hrun.
  apply bind_Some in Hrun as (s0 & Hs0 & Hrun).
  assert (Hk : keeps rotation_view s0 s').
  { unbind Hrun.
    repeat match goal with Hm : mbind _ _ = Some _ |- _ => unbind Hm end.
    simplify_eq.
    assert (forall sa sb sc, keeps rotation_view sa sb ->
              keeps rotation_view sb sc -> keeps rotation_view sa sc) as Htrans
      by apply keeps_trans.
    repeat match goal with
    | Hx : init_properties _ _ _ ?sa = Some ?sb |- keeps _ ?sa _ =>
        apply (Htrans sa sb); [by eapply init_properties_keeps|clear Hx]
    | Hx : _ ?sa = Some ?sb |- keeps _ ?sa _ =>
        apply (Htrans sa sb); [solve [eauto with frame]|clear Hx]
    end.
    match goal with
    | Hc : match cfg_children cfg with _ => _ end = Some ?sb
      |- keeps _ ?sa _ =>
        apply (Htrans sa sb);
        [destruct (cfg_children cfg);
         [by eapply init_children_keeps|simplify_eq; apply keeps_refl]|]
    end.
    destruct (cfg_parent cfg); [|simplify_eq; apply keeps_refl].
    apply fmap_Some in Hrun as ([res s1] & Hrun & ->).
    by eapply addChild_keeps. }
  unfold modify in Hs0. apply bind_Some in Hs0 as (o & Ho & Hs0). simplify_eq.
  destruct (keeps_lookup _ _ _ this _ Hk (deref_store_eq _ _ _))
    as (o' & Ho' & Hview).
  exists o'. injection Hview as Hq Hr. by split_and!.
Qed.



Lemma leaf_root_store this o o' sc s :
  deref this s = Some o -> scenes s !! scene o = Some sc ->
  scene o' = scene o -> _childList o' = [] -> _parent o' = None ->
  leaf_root this (store this o' s).
Proof.
  intros Ho Hsc Hscene Hch Hpar. exists o', sc.
  rewrite deref_store_eq, Hscene. by split_and!.
Qed.

Lemma modify_scene_leaf this f s :
  leaf_root this s ->
  exists s', modify_scene this f s = Some s' /\ leaf_root this s'.
Proof.
  intros (o & sc & Ho & Hsc & Hch & Hpar). unfold modify_scene.
  rewrite Ho. simpl. rewrite Hsc. simpl. eexists. split; [done|].
  exists o, (f sc). split_and!; try done. simpl. apply lookup_insert_eq.
Qed.

Lemma modify_leaf this f s :
  (forall o, shape (f o) = shape o) -> leaf_root this s ->
  exists s', modify this f s = Some s' /\ leaf_root this s'.
Proof.
  intros Hf (o & sc & Ho & Hsc & Hch & Hpar). unfold modify.
  rewrite Ho. simpl. eexists. split; [done|].
  specialize (Hf o). unfold shape in Hf. injection Hf as Hp Hc Hs.
  apply (leaf_root_store this o _ sc); congruence.
Qed.

Lemma transform_changed_leaf fuel this s :
  leaf_root this s ->
  exists s', transform_changed (S fuel) this s = Some s' /\ leaf_root this s'.
Proof.
  intros (o & sc & Ho & Hsc & Hch & Hpar).
  destruct (transform_changed_spec (S fuel) this o sc s) as (s' & -> & Hk & _ & Hout);
    try done.
  { simpl. by rewrite Ho, Hch. }
  { simpl. rewrite Ho, Hpar. by destruct fuel. }
  exists s'. split; [done|].
  destruct (keeps_lookup _ _ _ this _ (keeps_world_shape _ _ Hk)
              (deref_store_eq _ _ _)) as (o' & Ho' & Hshape).
  unfold shape in Hshape. simpl in Hshape. injection Hshape as Hp Hc Hs.
  exists o', (with_imageDirty true sc). split_and!; try congruence.
  unfold outside in Hout. simpl in Hout. injection Hout as -> _ _ _ _ _ _.
  rewrite Hs. apply lookup_insert_eq.
Qed.

Lemma set_flag_leaf fuel fl v this s :
  leaf_root this s ->
  exists s', set_flag (S fuel) fl v this s = Some s' /\ leaf_root this s'.
Proof.
  intros (o & sc & Ho & Hsc & Hch & Hpar). simpl. rewrite Ho. simpl.
  rewrite Hch. simpl.
  assert (Hleaf : leaf_root this (store this (put_flag fl (flag_value fl v) o) s))
    by (apply (leaf_root_store this o _ sc); by destruct fl).
  destruct (flag_hook fl) as [hook|]; [|by eexists].
  rewrite deref_store_eq. simpl.
  destruct (etruthy _); [|by eexists]. by apply modify_scene_leaf.
Qed.

Lemma set_colorize_leaf fuel rgb this s :
  leaf_root this s ->
  exists s', set_colorize (S fuel) rgb this s = Some s' /\ leaf_root this s'.
Proof.
  intros (o & sc & Ho & Hsc & Hch & Hpar). simpl. rewrite Ho. simpl.
  destruct (default (num0, num0, num0, num1) (_colorize o)) as [[[? ?] ?] a].
  destruct (default (num1, num1, num1) rgb) as [[r g] b].
  rewrite Hch. simpl. eexists. split; [done|].
  by apply (leaf_root_store this o _ sc).
Qed.

Lemma set_opacity_leaf fuel a this s :
  leaf_root this s ->
  exists s', set_opacity (S fuel) a this s = Some s' /\ leaf_root this s'.
Proof.
  intros (o & sc & Ho & Hsc & Hch & Hpar). simpl. rewrite Ho. simpl.
  destruct (default (num1, num1, num1, num0) (_colorize o)) as [[[r g] b] ?].
  rewrite Hch. simpl. eexists. split; [done|].
  by apply (leaf_root_store this o _ sc).
Qed.

Lemma set_entityType_leaf e this s :
  leaf_root this s ->
  exists s', set_entityType e this s = Some s' /\ leaf_root this s'.
Proof.
  intros Hleaf. pose proof Hleaf as (o & sc & Ho & Hsc & Hch & Hpar).
  unfold set_entityType. rewrite Ho. simpl.
  case_decide; [by eexists|].
  assert (exists s1,
    match etruthy (_entityType o) with
    | Some old => modify_scene this (_entityTypeRemoved this (id o) old) s
    | None => Some s
    end = Some s1 /\ leaf_root this s1) as (s1 & -> & Hleaf1).
  { destruct (etruthy (_entityType o)); [by apply modify_scene_leaf|by eexists]. }
  simpl.
  destruct (modify_leaf this (with_entityType e) s1) as (s2 & -> & Hleaf2);
    [done..|].
  simpl. destruct (etruthy e); by apply modify_scene_leaf.
Qed.

Lemma _init_leaf fuel this (cfg : Cfg (T:=T)) q o sc s :
  cfg_matrix cfg = None -> cfg_quaternion cfg = Some q ->
  cfg_children cfg = None -> cfg_parent cfg = None ->
  deref this s = Some o -> scenes s !! scene o = Some sc ->
  exists s', _init decomposeMat4 eulerToQuaternion (S fuel) this cfg s = Some s'.
Proof.
  intros Hmatrix Hquat Hchildren Hparent Ho Hsc.
  unfold _init, init_transform, init_properties, set_scale, set_position,
    set_visible, set_culled, set_pickable, set_clippable,
    set_collidable, set_castShadow, set_receiveShadow, set_outlined,
    set_ghosted, set_highlighted, set_selected.
  rewrite Hmatrix, Hquat, Hchildren, Hparent.
  assert (exists s0, modify this (init_fields (cfg_guid cfg)) s = Some s0 /\
            leaf_root this s0) as (s0 & -> & Hleaf).
  { unfold modify. rewrite Ho. simpl. eexists. split; [done|].
    by apply (leaf_root_store this o _ sc). }
  cbn [mbind option_bind].
  repeat match goal with
  | Hl : leaf_root this ?s0 |- context [set_entityType ?e this ?s0] =>
      destruct (set_entityType_leaf e this s0 Hl) as (? & -> & ?); clear Hl
  | Hl : leaf_root this ?s0 |- context [modify this ?f ?s0] =>
      destruct (modify_leaf this f s0 (fun _ => eq_refl) Hl) as (? & -> & ?);
      clear Hl
  | Hl : leaf_root this ?s0 |- context [transform_changed (S fuel) this ?s0] =>
      destruct (transform_changed_leaf fuel this s0 Hl) as (? & -> & ?); clear Hl
  | Hl : leaf_root this ?s0 |- context [set_flag (S fuel) ?fl ?v this ?s0] =>
      destruct (set_flag_leaf fuel fl v this s0 Hl) as (? & -> & ?); clear Hl
  | Hl : leaf_root this ?s0 |- context [set_colorize (S fuel) ?v this ?s0] =>
      destruct (set_colorize_leaf fuel v this s0 Hl) as (? & -> & ?); clear Hl
  | Hl : leaf_root this ?s0 |- context [set_opacity (S fuel) ?v this ?s0] =>
      destruct (set_opacity_leaf fuel v this s0 Hl) as (? & -> & ?); clear Hl
  | |- _ => progress cbn [mbind option_bind]
  end.
  by eexists.
Qed.


(** *** A change high in the hierarchy, read from below *)

Lemma store_store r o o' s : store r o' (store r o s) = store r o' s.
Proof. unfold store, with_objs. simpl. by rewrite insert_insert_eq. Qed.

Lemma all_dirty_world o :
  all_dirty o = true ->
  _worldMatrixDirty o = true /\ _worldNormalMatrixDirty o = true /\
  _aabbDirty o = true /\ _obbDirty o = true.
Proof.
  unfold all_dirty. intros Hd.
  repeat (apply andb_prop in Hd as [Hd ?]). by split_and!.
Qed.

Lemma lineage_has_ancestors anc : forall g s,
  lineage s g anc = true -> has_ancestors s g anc = true.
Proof.
  induction anc as [|p anc IH]; intros g s Hl; simpl in *;
    destruct (deref g s) as [o|]; try done.
  apply andb_prop in Hl as [Hl Hrest]. apply andb_prop in Hl as [Hp _].
  rewrite Hp. simpl. by apply IH.
Qed.

Lemma lineage_root anc : forall g n s,
  lineage s g (anc ++ [n]) = true ->
  exists o, deref n s = Some o /\ _parent o = None.
Proof.
  induction anc as [|p anc IH]; intros g n s Hl; simpl in Hl;
    destruct (deref g s) as [og|]; try done;
    apply andb_prop in Hl as [_ Hl]; [|by eapply IH].
  simpl in Hl. destruct (deref n s) as [o|]; [|done].
  apply bool_decide_eq_true in Hl. eauto.
Qed.

Lemma lineage_descendant anc : forall g n s,
  lineage s g (anc ++ [n]) = true ->
  forall m, m ∈ g :: anc ++ [n] -> descendant s n m.
Proof.
  induction anc as [|p anc IH]; intros g n s Hl m Hm; simpl in Hl;
    destruct (deref g s) as [og|] eqn:Hg; try done;
    apply andb_prop in Hl as [Hl Hrest]; apply andb_prop in Hl as [_ Hchild].
  - destruct (deref n s) as [o|] eqn:Hn; [|done].
    apply bool_decide_eq_true in Hchild.
    apply elem_of_cons in Hm as [->|Hm].
    + eapply descendant_child; [constructor|done..].
    + apply list_elem_of_singleton in Hm as ->. constructor.
  - destruct (deref p s) as [po|] eqn:Hp; [|done].
    apply bool_decide_eq_true in Hchild.
    apply elem_of_cons in Hm as [->|Hm]; [|by eapply IH].
    eapply descendant_child; [|done..]. eapply IH; [done|]. by left.
Qed.

Lemma change_spec fuel (c : Change (T:=T)) n o sc s :
  deref n s = Some o -> scenes s !! scene o = Some sc ->
  subtree_ok fuel n s = true -> chain_ok fuel (Some n) s = true ->
  exists s1, change eulerToQuaternion fuel c n s = Some s1 /\
    keeps mark_world (store n (changed eulerToQuaternion c o) s) s1 /\
    forall m, descendant s n m ->
      exists om, deref m s1 = Some om /\ all_dirty om = true.
Proof.
  intros Hn Hsc Hsub Hchain.
  assert (forall f : Obj -> Obj,
    (forall o, shape (f o) = shape o) ->
    exists s1, (s0 ← modify n f s; transform_changed fuel n s0) = Some s1 /\
      keeps mark_world (store n (with_localMatrixDirty true (f o)) s) s1 /\
      forall m, descendant s n m ->
        exists om, deref m s1 = Some om /\ all_dirty om = true) as Hstep.
  { intros f Hf. unfold modify. rewrite Hn. simpl.
    assert (Hk : keeps shape s (store n (f o) s)) by by apply (keeps_store _ n o).
    pose proof (Hf o) as Hfo. unfold shape in Hfo. injection Hfo as _ _ Hscene.
    destruct (transform_changed_spec fuel n (f o) sc (store n (f o) s))
      as (s1 & -> & Hk1 & Hd1 & _).
    - apply deref_store_eq.
    - by rewrite Hscene.
    - by rewrite (subtree_ok_keeps fuel n _ _ (keeps_shape_childList _ _ Hk)).
    - by rewrite (chain_ok_keeps fuel (Some n) _ _ (keeps_shape_parent _ _ Hk)).
    - exists s1. split; [done|]. rewrite store_store in Hk1. split; [done|].
      intros m Hm. apply Hd1.
      eapply descendant_keeps; [|done]. by apply keeps_shape_childList. }
  destruct c as [v|v|v]; simpl; by apply Hstep.
Qed.

Lemma worldMatrix_spec anc n s fuel o :
  has_ancestors s n anc = true -> length anc < fuel ->
  deref n s = Some o -> _worldMatrixDirty o = true ->
  exists W s' o',
    worldMatrix composeMat4 mulMat4 fuel n s = Some (W, s') /\
    deref n s' = Some o' /\ _worldMatrix o' = W /\
    _worldMatrixDirty o' = false /\
    _localMatrix o' = localOf composeMat4 o /\
    match anc with
    | [] => W = localOf composeMat4 o
    | p :: _ => exists po', deref p s' = Some po' /\
                  W = mulMat4 (_worldMatrix po') (localOf composeMat4 o)
    end /\
    (Forall (fun m => exists om, deref m s = Some om /\
                        _worldMatrixDirty om = true) anc ->
     worldOfChain composeMat4 mulMat4 s n anc = Some W).
Proof.
  intros Hanc Hfuel Hn Hdirty.
  destruct (_buildWorldMatrix_spec anc n s fuel o Hanc Hfuel Hn)
    as (s' & W & o' & Hrun & Hn' & HW & Hclean & Hloc & _ & _ & Hmul & Hclosed).
  exists W, s', o'. unfold worldMatrix. rewrite Hn. simpl.
  rewrite Hdirty, Hrun. simpl. rewrite Hn'. simpl. rewrite HW.
  by split_and!.
Qed.


Lemma keeps_world_localOf s s' :
  keeps mark_world s s' -> keeps (localOf composeMat4) s s'.
Proof.
  by apply (keeps_weaken mark_world (localOf composeMat4) (localOf composeMat4)).
Qed.

(** C4.  [_setWorldMatrixDirty] on a node of a hierarchy of bounded depth
    returns, and leaves [_worldMatrixDirty] and [_worldNormalMatrixDirty]
    raised on every node of the subtree.  Consequently, after an assignment to
    [rotation], [position] or [scale] of a root [n], reading [worldMatrix] on
    a node [g] any number of levels below, and nothing else, returns the
    product of the Local matrices down the lineage from [n] to [g], that of
    [n] composed from its new transform. *)
Theorem worldMatrixDirty_reaches_subtree fuel s n :
  subtree_ok fuel n s = true ->
  (exists s1, _setWorldMatrixDirty fuel n s = Some s1 /\
     forall m, descendant s n m ->
       exists om, deref m s1 = Some om /\
         _worldMatrixDirty om = true /\ _worldNormalMatrixDirty om = true)
  /\
  (forall (c : Change (T:=T)) g anc o sc fuel',
     deref n s = Some o -> scenes s !! scene o = Some sc ->
     lineage s g (anc ++ [n]) = true -> length anc + 1 < fuel' ->
     exists s1 W s2,
       change eulerToQuaternion fuel c n s = Some s1 /\
       worldMatrix composeMat4 mulMat4 fuel' g s1 = Some (W, s2) /\
       worldOfChain composeMat4 mulMat4
         (store n (changed eulerToQuaternion c o) s) g (anc ++ [n]) = Some W).
Proof.
  intros Hsub. split.
  - destruct (_setWorldMatrixDirty_spec fuel n s Hsub)
      as (s1 & Hrun & _ & _ & _ & Hdirty).
    exists s1. split; [done|]. intros m Hm.
    destruct (Hdirty m Hm) as (om & Hom & Hd).
    apply all_dirty_world in Hd as (? & ? & _). eauto.
  - intros c g anc o sc fuel' Hn Hsc Hlin Hfuel.
    destruct (lineage_root _ _ _ _ Hlin) as (o0 & Hn0 & Hroot).
    assert (o0 = o) as -> by congruence. clear Hn0.
    destruct (change_spec fuel c n o sc s Hn Hsc Hsub) as (s1 & Hrun & Hk & Hdirty).
    { destruct fuel; [done|]. simpl. rewrite Hn, Hroot. by destruct fuel. }
    set (s0 := store n (changed eulerToQuaternion c o) s) in *.
    assert (Hk0 : keeps _parent s s0).
    { apply (keeps_store _ n o); [done|]. by destruct c. }
    assert (Hpar : keeps _parent s s1).
    { eapply keeps_trans; [done|].
      by apply keeps_shape_parent, keeps_world_shape. }
    assert (Hall : forall m, m ∈ g :: anc ++ [n] ->
      exists om, deref m s1 = Some om /\ _worldMatrixDirty om = true).
    { intros m Hm.
      destruct (Hdirty m (lineage_descendant _ _ _ _ Hlin m Hm)) as (om & Hom & Hd).
      apply all_dirty_world in Hd as (? & _). eauto. }
    destruct (Hall g) as (og & Hg & Hgd); [by left|].
    destruct (worldMatrix_spec (anc ++ [n]) g s1 fuel' og)
      as (W & s2 & o' & Hread & _ & _ & _ & _ & _ & Hclosed); try done.
    { rewrite (has_ancestors_keeps _ _ _ _ Hpar).
      by apply lineage_has_ancestors. }
    { rewrite length_app. simpl. lia. }
    exists s1, W, s2. split_and!; [done..|].
    rewrite <- (worldOfChain_keeps _ _ _ _ (keeps_world_localOf _ _ Hk)).
    apply Hclosed, Forall_forall. intros m Hm.
    apply Hall. right. by apply list_elem_of_In.
Qed.


(** *** Rotation *)


Lemma transform_changed_this fuel this o sc s :
  deref this s = Some o -> scenes s !! scene o = Some sc ->
  subtree_ok fuel this s = true -> chain_ok fuel (Some this) s = true ->
  exists s' o', transform_changed fuel this s = Some s' /\
    deref this s' = Some o' /\
    mark_world o' = mark_world (with_localMatrixDirty true o) /\
    all_dirty o' = true /\
    scenes s' !! scene o' = Some (with_imageDirty true sc) /\
    subtree_ok fuel this s' = true /\ chain_ok fuel (Some this) s' = true.
Proof.
  intros Ho Hsc Hsub Hchain.
  destruct (transform_changed_spec fuel this o sc s Ho Hsc Hsub Hchain)
    as (s' & Hrun & Hk & Hd & Hout).
  destruct (Hd this) as (o' & Ho' & Hdirty); [constructor|].
  pose proof (Hk this) as Hview. rewrite Ho', deref_store_eq in Hview.
  simpl in Hview. apply (inj Some) in Hview.
  assert (Hshape : keeps shape s s').
  { eapply keeps_trans; [|by apply keeps_world_shape].
    by apply (keeps_store _ this o). }
  exists s', o'. split_and!; try done.
  - unfold outside in Hout. simpl in Hout.
    injection Hout as Hscenes _ _ _ _ _ _. rewrite Hscenes.
    apply (f_equal scene) in Hview. simpl in Hview. rewrite Hview.
    apply lookup_insert_eq.
  - by rewrite (subtree_ok_keeps fuel this _ _ (keeps_shape_childList _ _ Hshape)).
  - by rewrite (chain_ok_keeps fuel (Some this) _ _ (keeps_shape_parent _ _ Hshape)).
Qed.

Lemma rotate_spec fuel this o sc (axis : vec3 (T:=T)) (angle : T) s :
  deref this s = Some o -> scenes s !! scene o = Some sc ->
  subtree_ok fuel this s = true -> chain_ok fuel (Some this) s = true ->
  exists s' o',
    rotate quaternionToEuler angleAxisToQuaternion mulQuaternions DEGTORAD
      fuel this axis angle s = Some (this, s') /\
    deref this s' = Some o' /\
    _quaternion o' =
      mulQuaternions (_quaternion o)
        (angleAxisToQuaternion
           (axis.1.1, axis.1.2, axis.2, nmul angle DEGTORAD)) /\
    _localMatrixDirty o' = true /\ _worldMatrixDirty o' = true /\
    _aabbDirty o' = true /\ _obbDirty o' = true.
Proof.
  intros Ho Hsc Hsub Hchain. destruct axis as [[a0 a1] a2].
  unfold rotate. rewrite Ho. cbn [mbind option_bind fst snd].
  set (q1 := angleAxisToQuaternion (a0, a1, a2, nmul angle DEGTORAD)).
  set (q2 := mulQuaternions (_quaternion o) q1).
  set (s1 := with_rotate_scratch _ q1 q2 s).
  unfold set_quaternion, modify.
  change (deref this s1) with (deref this s). rewrite Ho.
  cbn [mbind option_bind default from_option Datatypes.id].
  set (o1 := with_rotation (quaternionToEuler q2) (with_quaternion q2 o)).
  assert (Hshape : keeps shape s (store this o1 s1)).
  { intros m. change (deref m (store this o1 s1)) with (deref m (store this o1 s)).
    by apply (keeps_store _ this o). }
  destruct (transform_changed_this fuel this o1 sc (store this o1 s1))
    as (s2 & o2 & -> & Ho2 & Hview2 & _ & Hsc2 & Hsub2 & Hchain2).
  { apply deref_store_eq. }
  { done. }
  { by rewrite (subtree_ok_keeps fuel this _ _ (keeps_shape_childList _ _ Hshape)). }
  { by rewrite (chain_ok_keeps fuel (Some this) _ _ (keeps_shape_parent _ _ Hshape)). }
  cbn [mbind option_bind].
  destruct (transform_changed_this fuel this o2 _ s2 Ho2 Hsc2 Hsub2 Hchain2)
    as (s3 & o3 & -> & Ho3 & Hview3 & Hdirty3 & _).
  cbn [mbind option_bind]. exists s3, o3.
  apply all_dirty_world in Hdirty3 as (? & _ & ? & ?).
  split_and!; try done.
  - apply (f_equal _quaternion) in Hview3, Hview2. simpl in *. congruence.
  - by apply (f_equal _localMatrixDirty) in Hview3.
Qed.

(** C8, as the code has it.  [rotate(axis, angle)] makes a quaternion [q] of
    the axis as given and the angle in degrees, and stores
    [mulQuaternions(current, q)]: the current quaternion is the first operand
    and [q] is multiplied onto it on the right.  It returns [this], and leaves
    the Local matrix, the World matrix and the boundary of the node marked
    dirty. *)
Theorem rotate_multiplies_on_the_right fuel this o sc
    (axis : vec3 (T:=T)) (angle : T) s :
  deref this s = Some o -> scenes s !! scene o = Some sc ->
  subtree_ok fuel this s = true -> chain_ok fuel (Some this) s = true ->
  exists s' o',
    rotate quaternionToEuler angleAxisToQuaternion mulQuaternions DEGTORAD
      fuel this axis angle s = Some (this, s') /\
    deref this s' = Some o' /\
    _quaternion o' =
      mulQuaternions (_quaternion o)
        (angleAxisToQuaternion
           (axis.1.1, axis.1.2, axis.2, nmul angle DEGTORAD)) /\
    _localMatrixDirty o' = true /\ _worldMatrixDirty o' = true /\
    _aabbDirty o' = true /\ _obbDirty o' = true.
Proof. apply rotate_spec. Qed.

(** C10.  [rotateOnWorldAxis] returns [this] and changes no object and no
    scene: quaternion, rotation, matrices, dirty flags and boundaries are as
    before, no event is fired and nothing is reported.  The product it
    computes goes to [q1], the scratch array of its own closure, and is never
    assigned to the object. *)
Theorem rotateOnWorldAxis_changes_nothing this o
    (axis : vec3 (T:=T)) (angle : T) s :
  deref this s = Some o ->
  exists s',
    rotateOnWorldAxis angleAxisToQuaternion mulQuaternions DEGTORAD
      this axis angle s = Some (this, s') /\
    objs s' = objs s /\ scenes s' = scenes s /\
    fired s' = fired s /\ diag s' = diag s /\
    notifications s' = notifications s /\
    lenNotifications s' = lenNotifications s /\
    rotate_angleAxis s' = rotate_angleAxis s /\
    rotate_q1 s' = rotate_q1 s /\ rotate_q2 s' = rotate_q2 s /\
    rotateOnWorldAxis_q1 s' =
      mulQuaternions
        (angleAxisToQuaternion
           (axis.1.1, axis.1.2, axis.2, nmul angle DEGTORAD))
        (_quaternion o).
Proof.
  intros Ho. destruct axis as [[a0 a1] a2]. unfold rotateOnWorldAxis.
  rewrite Ho. simpl. eexists. by split_and!.
Qed.

(** C9.  Constructed with a configuration that gives a quaternion and no
    matrix, the object keeps the identity quaternion and the zero Euler
    angles: the branch of [cfg.quaternion] is empty, and being taken it skips
    the assignment of [rotation]; nothing later in [_init] writes them.  With
    neither children nor parent in the configuration, [_init] returns. *)
Theorem init_ignores_quaternion this (cfg : Cfg (T:=T)) q s :
  cfg_matrix cfg = None -> cfg_quaternion cfg = Some q ->
  (forall fuel s',
     _init decomposeMat4 eulerToQuaternion fuel this cfg s = Some s' ->
     exists o', deref this s' = Some o' /\
       _quaternion o' = identityQuaternion /\ _rotation o' = math_vec3)
  /\
  (forall fuel o sc,
     cfg_children cfg = None -> cfg_parent cfg = None ->
     deref this s = Some o -> scenes s !! scene o = Some sc ->
     exists s',
       _init decomposeMat4 eulerToQuaternion (S fuel) this cfg s = Some s').
Proof.
  intros Hmatrix Hquat. split.
  - intros fuel s'. by apply (_init_rotation fuel this cfg q).
  - intros fuel o sc. by apply (_init_leaf fuel this cfg q).
Qed.

End Properties.

Lemma half_turn_X :
  angleAxisToQuaternionR (1, 0, 0, nmul 180 DEGTORAD_R)%R = (1, 0, 0, 0)%R.
Proof.
  unfold angleAxisToQuaternionR, DEGTORAD_R. simpl.
  replace (180 * (PI / 180) / 2)%R with (PI / 2)%R by field.
  rewrite sin_PI2, cos_PI2. repeat f_equal; lra.
Qed.

Lemma identity_rotation :
  eulerToQuaternionR (0, 0, 0)%R = (0, 0, 0, 1)%R.
Proof.
  unfold eulerToQuaternionR, angleAxisToQuaternionR, mulQuaternionsR.
  replace (0 * DEGTORAD_R / 2)%R with 0%R by (unfold DEGTORAD_R; field).
  rewrite sin_0, cos_0. repeat f_equal; lra.
Qed.


(** * The methods on the examples *)

(** A run that is observed through [f] returned, and [f] tells what it left. *)
Lemma observe {X B : Type} (run : option X) (f : X -> B) (v : B) :
  f <$> run = Some v -> exists x, run = Some x /\ f x = v.
Proof. destruct run as [x|]; intros Hv; simplify_eq/=. eauto. Qed.

(** [node] with no parent, no children and the default transform is what
    [_init] makes of a blank object under an empty configuration, for any
    [eulerToQuaternion] that sends no rotation to the identity. *)
Lemma node_is_initialised d (e2q : vec3 (T:=R) -> vec4 (T:=R)) :
  e2q (0, 0, 0)%R = (0, 0, 0, 1)%R ->
  (s ← _init d e2q 1 top empty_cfg unborn; deref top s)
  = Some (node "top" "scene" None [] (0, 0, 0)%R (1, 1, 1)%R None false).
Proof. intros He. vm_compute. vm_compute in He. rewrite He. reflexivity. Qed.

(** The objects of [lineup] are those of three initialised objects after
    [root.addChild(child)], [child.addChild(grandchild)] and the three
    assignments of [position]. *)
Lemma lineup_is_built :
  objs <$> (s ← snd <$> addChild 3 root (ArgObject child) None loose;
            s ← snd <$> addChild 3 child (ArgObject grandchild) None s;
            s ← set_position 3 (Some (1, 0, 0)%R) root s;
            s ← set_position 3 (Some (0, 2, 0)%R) child s;
            set_position 3 (Some (0, 0, 3)%R) grandchild s)
  = Some (objs lineup).
Proof. vm_compute. reflexivity. Qed.

(** C1.  The claim: [_setBoundaryDirty] marks the AABB and OBB dirty on the
    subtree of the node and on every strict ancestor, and fires "boundary"
    once per node.  The code tests [if (object._aabbDirty)] before marking, so
    it marks only what is dirty already.  In the showroom, where the
    boundaries of the table and its legs have been read (they are clean),
    [redLeg._setBoundaryDirty()] marks nothing and fires nothing; and after
    [redLeg.position = [-4,-6,-3]], whose setter first dirties the leg through
    [_setWorldMatrixDirty], the table's AABB is still marked clean, no event
    is fired on the table, and the event of the leg is fired twice. *)
Theorem setBoundaryDirty_leaves_clean_boundaries_clean :
  (exists s',
     _setBoundaryDirty 3 redLeg showroom = Some s' /\
     objs s' = objs showroom /\ fired s' = [])
  /\
  (exists s',
     set_position 3 (Some (-4, -6, -3)%R) redLeg showroom = Some s' /\
     (_aabbDirty <$> deref redLeg s') = Some true /\
     (_aabbDirty <$> deref table s') = Some false /\
     fired s' = [(redLeg, "boundary"); (redLeg, "boundary")]).
Proof.
  split.
  - destruct (observe (_setBoundaryDirty 3 redLeg showroom)
                (fun s' => (objs s', fired s')) (objs showroom, []))
      as (s' & Hrun & Hobs); [vm_compute; reflexivity|].
    exists s'. injection Hobs as Hobjs Hfired. by split_and!.
  - destruct (observe (set_position 3 (Some (-4, -6, -3)%R) redLeg showroom)
                (fun s' => (_aabbDirty <$> deref redLeg s',
                            _aabbDirty <$> deref table s', fired s'))
                (Some true, Some false,
                 [(redLeg, "boundary"); (redLeg, "boundary")]))
      as (s' & Hrun & Hobs); [vm_compute; reflexivity|].
    exists s'. injection Hobs as Hleg Htable Hfired. by split_and!.
Qed.

(** C2.  The claim: [removeChild(ci)] leaves the child list without [ci],
    the other children in order.  The code assigns to [_childList] what
    [splice] returns, the removed elements: [table.removeChild(redLeg)] on a
    table with children [redLeg, greenLeg] leaves the list [redLeg]; the
    removed leg has no parent any more, and the green leg, whose parent is
    still the table, is not in the list. *)
Theorem removeChild_leaves_the_removed_child :
  exists s',
    removeChild 3 table redLeg showroom = Some s' /\
    (_childList <$> deref table s') = Some [redLeg] /\
    (_parent <$> deref redLeg s') = Some None /\
    (_parent <$> deref greenLeg s') = Some (Some table).
Proof.
  destruct (observe (removeChild 3 table redLeg showroom)
              (fun s' => (_childList <$> deref table s',
                          _parent <$> deref redLeg s',
                          _parent <$> deref greenLeg s'))
              (Some [redLeg], Some None, Some (Some table)))
    as (s' & Hrun & Hobs); [vm_compute; reflexivity|].
  exists s'. injection Hobs as Hlist Hred Hgreen. by split_and!.
Qed.

(** C5.  The claim: [addChild] of a node that is a child already does
    nothing but warn, whether the node is given or its id.  Given the node,
    the code warns and returns, the store unchanged.  Given the id, the test
    for the parent is skipped (it is in the branch for objects): the leg is
    pushed on the child list again, and nothing is reported. *)
Theorem addChild_by_id_adds_a_child_again :
  addChild 3 table (ArgObject redLeg) None showroom
    = Some (None, warn table "Already a child object: redLeg" showroom)
  /\
  (exists s',
     addChild 3 table (ArgId "redLeg") None showroom = Some (Some redLeg, s') /\
     (_childList <$> deref table s') = Some [redLeg; greenLeg; redLeg] /\
     diag s' = []).
Proof.
  split; [vm_compute; reflexivity|].
  destruct (observe (addChild 3 table (ArgId "redLeg") None showroom)
              (fun x => (x.1, _childList <$> deref table x.2, diag x.2))
              (Some redLeg, Some [redLeg; greenLeg; redLeg], []))
    as ([res s'] & Hrun & Hobs); [vm_compute; reflexivity|].
  exists s'. injection Hobs as -> Hlist Hdiag. by split_and!.
Qed.

(** C6.  The claim: [addChild] of a node of another scene reports an error
    and changes nothing.  The code tests the scene after it has removed the
    node from its parent: [table.addChild(book)] reports the error, and the
    book has lost its shelf (no parent, off the shelf's child map, among the
    roots of the library).  The [parent] setter, which tests the scene first,
    reports and changes nothing. *)
Theorem addChild_across_scenes_detaches_first :
  (_parent <$> deref book showroom) = Some (Some shelf) /\
  (exists s',
     addChild 3 table (ArgObject book) None showroom = Some (None, s') /\
     diag s' = [Error table "Object not in same Scene: book"] /\
     (_parent <$> deref book s') = Some None /\
     (_childMap <$> deref shelf s') = Some ∅ /\
     (rootObjects <$> scenes s' !! "library")
       = Some (list_to_map [("shelf", shelf); ("book", book)]))
  /\
  set_parent 3 (inl table) book showroom
    = Some (error book "Group not in same Scene: table" showroom).
Proof.
  split; [vm_compute; reflexivity|]. split; [|vm_compute; reflexivity].
  destruct (observe (addChild 3 table (ArgObject book) None showroom)
              (fun x => (x.1, diag x.2, _parent <$> deref book x.2,
                         _childMap <$> deref shelf x.2,
                         rootObjects <$> scenes x.2 !! "library"))
              (None, [Error table "Object not in same Scene: book"],
               Some None, Some ∅,
               Some (list_to_map [("shelf", shelf); ("book", book)])))
    as ([res s'] & Hrun & Hobs); [vm_compute; reflexivity|].
  exists s'. injection Hobs as -> Hdiag Hparent Hmap Hroots. by split_and!.
Qed.

(** C7.  The claim: a successful [addChild] with [inheritStates] copies the
    parent's states, [highlighted] among them, onto the child.  The code
    assigns the parent's [highlighted] to [object.highlited]: after
    [table.addChild(chair)] with the table highlighted and selected, the chair
    is selected and not highlighted, and has a property [highlited]. *)
Theorem addChild_does_not_copy_highlighted :
  (_highlighted <$> deref table showroom) = Some true /\
  (exists s',
     addChild 3 table (ArgObject chair) None showroom = Some (Some chair, s') /\
     (_highlighted <$> deref table s') = Some true /\
     (_highlighted <$> deref chair s') = Some false /\
     (highlited <$> deref chair s') = Some (Some true) /\
     (_selected <$> deref chair s') = Some true).
Proof.
  split; [vm_compute; reflexivity|].
  destruct (observe (addChild 3 table (ArgObject chair) None showroom)
              (fun x => (x.1, _highlighted <$> deref table x.2,
                         _highlighted <$> deref chair x.2,
                         highlited <$> deref chair x.2,
                         _selected <$> deref chair x.2))
              (Some chair, Some true, Some false, Some (Some true), Some true))
    as ([res s'] & Hrun & Hobs); [vm_compute; reflexivity|].
  exists s'. injection Hobs as -> Htable Hchair Hexpando Hselected.
  by split_and!.
Qed.

(** C3.  Read on a node that is marked dirty, in a hierarchy whose parent
    links lead to a root, [worldMatrix] returns
    [mulMat4(parent._worldMatrix, _localMatrix)], the World matrix of the
    parent on the left, and the Local matrix alone on a root; this for any
    [composeMat4] and [mulMat4].  With the arithmetic of the reference
    functions: for a root at (1,0,0) and its child at (0,2,0), both with the
    identity rotation and unit scale, the translation column of the child's
    World matrix is (1,2,0). *)
Theorem worldMatrix_is_parent_world_times_local :
  (forall (T : Type) (H : Number T)
      (composeMat4 : vec3 -> vec4 -> vec3 -> mat4) (mulMat4 : mat4 -> mat4 -> mat4)
      (anc : list ref) (n : ref) (s : State (T:=T)) (fuel : nat) (o : Obj),
     has_ancestors s n anc = true -> length anc < fuel ->
     deref n s = Some o -> _worldMatrixDirty o = true ->
     exists W s' o',
       worldMatrix composeMat4 mulMat4 fuel n s = Some (W, s') /\
       deref n s' = Some o' /\ _worldMatrix o' = W /\
       _localMatrix o' = localOf composeMat4 o /\
       match anc with
       | [] => W = _localMatrix o'
       | p :: _ => exists po', deref p s' = Some po' /\
                     W = mulMat4 (_worldMatrix po') (_localMatrix o')
       end)
  /\
  (forall (s : State (T:=R)) (r c : ref) (ro co : Obj),
     deref r s = Some ro -> deref c s = Some co ->
     _parent ro = None -> _parent co = Some r ->
     _position ro = (1, 0, 0)%R -> _position co = (0, 2, 0)%R ->
     _quaternion ro = (0, 0, 0, 1)%R -> _quaternion co = (0, 0, 0, 1)%R ->
     _scale ro = (1, 1, 1)%R -> _scale co = (1, 1, 1)%R ->
     _localMatrixDirty ro = true -> _localMatrixDirty co = true ->
     _worldMatrixDirty ro = true -> _worldMatrixDirty co = true ->
     exists W s',
       worldMatrix composeMat4R mulMat4R 2 c s = Some (W, s') /\
       translation W = (1, 2, 0)%R).
Proof.
  split.
  - intros T H composeMat4 mulMat4 anc n s fuel o Hanc Hfuel Hn Hdirty.
    destruct (worldMatrix_spec composeMat4 mulMat4 anc n s fuel o
                Hanc Hfuel Hn Hdirty)
      as (W & s' & o' & Hread & Hn' & HW & _ & Hloc & Hmul & _).
    exists W, s', o'. rewrite Hloc. by split_and!.
  - intros s r c ro co Hr Hc Hpr Hpc Hposr Hposc Hqr Hqc Hsr Hsc
      Hlr Hlc Hwr Hwc.
    destruct (worldMatrix_spec composeMat4R mulMat4R [r] c s 2 co)
      as (W & s' & o' & Hread & _ & _ & _ & _ & _ & Hclosed); try done.
    { simpl. rewrite Hc, Hr, Hpc, Hpr. simpl.
      by rewrite !bool_decide_eq_true_2. }
    { simpl. lia. }
    exists W, s'. split; [done|].
    assert (Some W = Some (mulMat4R (localOf composeMat4R ro)
                                    (localOf composeMat4R co))) as HW.
    { rewrite <- Hclosed; [by simpl; rewrite Hc, Hr|].
      constructor; [eauto|constructor]. }
    injection HW as ->. unfold localOf.
    rewrite Hlr, Hlc, Hposr, Hposc, Hqr, Hqc, Hsr, Hsc.
    unfold translation, mulMat4R, mulMat4Vec4R, composeMat4R.
    repeat f_equal; lra.
Qed.

(** The chain of C3 in [lineup]: [child] under [root]. *)
Lemma worldMatrix_is_parent_world_times_local_witness :
  exists W s',
    worldMatrix composeMat4R mulMat4R 2 child lineup = Some (W, s') /\
    translation W = (1, 2, 0)%R.
Proof.
  apply (proj2 worldMatrix_is_parent_world_times_local
           lineup root child root_node child_node); reflexivity.
Defined.

(** C4 in [lineup]: the root is turned a quarter round Y, and the World
    matrix is read on the grandchild. *)
Lemma worldMatrixDirty_reaches_subtree_witness :
  exists s1 W s2,
    change eulerToQuaternionR 3 (Rotation (Some (0, 90, 0)%R)) root lineup
      = Some s1 /\
    worldMatrix composeMat4R mulMat4R 3 grandchild s1 = Some (W, s2) /\
    worldOfChain composeMat4R mulMat4R
      (store root
         (changed eulerToQuaternionR (Rotation (Some (0, 90, 0)%R)) root_node)
         lineup)
      grandchild [child; root] = Some W.
Proof.
  apply (proj2 (worldMatrixDirty_reaches_subtree composeMat4R mulMat4R
                  eulerToQuaternionR 3 lineup root eq_refl)
           (Rotation (Some (0, 90, 0)%R)) grandchild [child] root_node
           scene_registry 3); [reflexivity..|simpl; lia].
Defined.

(** C8 as the claim states it, that the stored quaternion becomes
    [q × current], fails.  On an object turned a quarter round Y,
    [rotate([1,0,0], 180)] has [q = (1,0,0,0)] and stores
    [current × q = (h, 0, -h, 0)], with [h] half the square root of 2, whereas
    [q × current = (h, 0, h, 0)]: another rotation. *)
Lemma rotate_does_not_multiply_on_the_left :
  exists s' o',
    rotate quaternionToEulerR angleAxisToQuaternionR mulQuaternionsR DEGTORAD_R
      1 top (1, 0, 0)%R 180%R spinning = Some (top, s') /\
    deref top s' = Some o' /\
    _quaternion o' = (sqrt 2 / 2, 0, - (sqrt 2 / 2), 0)%R /\
    mulQuaternionsR (angleAxisToQuaternionR (1, 0, 0, nmul 180 DEGTORAD_R)%R)
      (_quaternion turned_node) = (sqrt 2 / 2, 0, sqrt 2 / 2, 0)%R /\
    _quaternion o' <>
      mulQuaternionsR (angleAxisToQuaternionR (1, 0, 0, nmul 180 DEGTORAD_R)%R)
        (_quaternion turned_node).
Proof.
  destruct (rotate_spec quaternionToEulerR angleAxisToQuaternionR
              mulQuaternionsR DEGTORAD_R 1 top turned_node top_registry
              (1, 0, 0)%R 180%R spinning)
    as (s' & o' & Hrun & Ho' & Hq & _); [reflexivity..|].
  assert (Hstored : _quaternion o' = (sqrt 2 / 2, 0, - (sqrt 2 / 2), 0)%R).
  { rewrite Hq. cbn [fst snd]. rewrite half_turn_X.
    unfold mulQuaternionsR. simpl. repeat f_equal; lra. }
  assert (Hleft :
    mulQuaternionsR (angleAxisToQuaternionR (1, 0, 0, nmul 180 DEGTORAD_R)%R)
      (_quaternion turned_node) = (sqrt 2 / 2, 0, sqrt 2 / 2, 0)%R).
  { rewrite half_turn_X. unfold mulQuaternionsR. simpl. repeat f_equal; lra. }
  exists s', o'. split_and!; [done..|].
  rewrite Hstored, Hleft. intros Heq.
  assert (Hz : (- (sqrt 2 / 2) = sqrt 2 / 2)%R) by congruence.
  pose proof (sqrt_lt_R0 2 ltac:(lra)). lra.
Qed.

(** The amended C8 on the same object. *)
Lemma rotate_multiplies_on_the_right_witness :
  exists s' o',
    rotate quaternionToEulerR angleAxisToQuaternionR mulQuaternionsR DEGTORAD_R
      1 top (1, 0, 0)%R 180%R spinning = Some (top, s') /\
    deref top s' = Some o' /\
    _quaternion o' =
      mulQuaternionsR (_quaternion turned_node)
        (angleAxisToQuaternionR (1, 0, 0, nmul 180 DEGTORAD_R)%R) /\
    _localMatrixDirty o' = true /\ _worldMatrixDirty o' = true /\
    _aabbDirty o' = true /\ _obbDirty o' = true.
Proof.
  apply (rotate_multiplies_on_the_right quaternionToEulerR
           angleAxisToQuaternionR mulQuaternionsR DEGTORAD_R 1 top turned_node
           top_registry (1, 0, 0)%R 180%R spinning); reflexivity.
Defined.

(** C9 on a fresh object, constructed with the quaternion (0,1,0,0). *)
Lemma init_ignores_quaternion_witness :
  (forall fuel s',
     _init decomposeMat4R eulerToQuaternionR fuel top quaternion_cfg unborn
       = Some s' ->
     exists o', deref top s' = Some o' /\
       _quaternion o' = identityQuaternion /\ _rotation o' = math_vec3)
  /\
  exists s',
    _init decomposeMat4R eulerToQuaternionR 1 top quaternion_cfg unborn
      = Some s'.
Proof.
  destruct (init_ignores_quaternion decomposeMat4R eulerToQuaternionR top
              quaternion_cfg (0, 1, 0, 0)%R unborn eq_refl eq_refl)
    as [Hrot Hruns].
  split; [exact Hrot|].
  exact (Hruns 0%nat (blank "top" "scene") top_registry
           eq_refl eq_refl eq_refl eq_refl).
Defined.

(** C10 on the turned object of [spinning]. *)
Lemma rotateOnWorldAxis_changes_nothing_witness :
  exists s',
    rotateOnWorldAxis angleAxisToQuaternionR mulQuaternionsR DEGTORAD_R
      top (1, 0, 0)%R 180%R spinning = Some (top, s') /\
    objs s' = objs spinning /\ scenes s' = scenes spinning /\
    fired s' = fired spinning /\ diag s' = diag spinning /\
    notifications s' = notifications spinning /\
    lenNotifications s' = lenNotifications spinning /\
    rotate_angleAxis s' = rotate_angleAxis spinning /\
    rotate_q1 s' = rotate_q1 spinning /\ rotate_q2 s' = rotate_q2 spinning /\
    rotateOnWorldAxis_q1 s' =
      mulQuaternionsR
        (angleAxisToQuaternionR (1, 0, 0, nmul 180 DEGTORAD_R)%R)
        (_quaternion turned_node).
Proof.
  apply (rotateOnWorldAxis_changes_nothing angleAxisToQuaternionR
           mulQuaternionsR DEGTORAD_R top turned_node (1, 0, 0)%R 180%R spinning).
  reflexivity.
Defined.


(** * Properties of the other methods *)

Section MoreProperties.
Context {T : Type} `{Number T}.
Implicit Types (s : State (T:=T)) (o po me : Obj (T:=T)) (n m r p c this : ref).

Variable composeMat4 : vec3 (T:=T) -> vec4 (T:=T) -> vec3 (T:=T) -> mat4 (T:=T).
Variable mulMat4 : mat4 (T:=T) -> mat4 (T:=T) -> mat4 (T:=T).
Variable decomposeMat4 : mat4 (T:=T) -> vec3 (T:=T) * vec4 (T:=T) * vec3 (T:=T).
Variable eulerToQuaternion : vec3 (T:=T) -> vec4 (T:=T).
Variable inverseMat4 : mat4 (T:=T) -> mat4 (T:=T).
Variable transposeMat4 : mat4 (T:=T) -> mat4 (T:=T).
Variable quaternionToEuler : vec4 (T:=T) -> vec3 (T:=T).
Variable angleAxisToQuaternion : vec4 (T:=T) -> vec4 (T:=T).
Variable mulQuaternions : vec4 (T:=T) -> vec4 (T:=T) -> vec4 (T:=T).
Variable DEGTORAD : T.
Variable vec3ApplyQuaternion : vec4 (T:=T) -> vec3 (T:=T) -> vec3 (T:=T).
Variable mulVec3Scalar : vec3 (T:=T) -> T -> vec3 (T:=T).
Variable addVec3 : vec3 (T:=T) -> vec3 (T:=T) -> vec3 (T:=T).

Ltac unbind H :=
  repeat lazymatch type of H with
  | mbind _ _ = Some _ => apply bind_Some in H as (? & ? & H); cbv beta in H
  end.

(** *** The subtree and the rest *)

Lemma descendant_trans s n m c :
  descendant s n m -> descendant s m c -> descendant s n c.
Proof.
  intros Hnm Hmc. induction Hmc as [|x o c Hmx IH Hx Hc]; [done|].
  by eapply descendant_child.
Qed.

Lemma descendant_step s n o c m :
  deref n s = Some o -> c ∈ _childList o -> descendant s c m ->
  descendant s n m.
Proof.
  intros Hn Hc Hcm. eapply descendant_trans; [|done].
  eapply descendant_child; [constructor|done..].
Qed.

Lemma not_descendant_keeps s s' n m :
  keeps _childList s s' -> ~ descendant s n m -> ~ descendant s' n m.
Proof.
  intros Hk Hnot Hd. apply Hnot.
  by apply (descendant_keeps s' s), Hd; apply keeps_sym.
Qed.

Lemma _setWorldMatrixDirty_outside fuel : forall n s s' m,
  _setWorldMatrixDirty fuel n s = Some s' -> ~ descendant s n m ->
  deref m s' = deref m s.
Proof.
  induction fuel as [|fuel IH]; intros n s s' m Hrun Hm; [done|].
  simpl in Hrun. unbind Hrun. rename x into o, H0 into Hn.
  assert (m <> n) as Hmn by (intros ->; apply Hm; constructor).
  set (s0 := store n (mark_world o) s) in *.
  assert (Hk0 : keeps _childList s s0).
  { by apply (keeps_store _ n o). }
  assert (Hkids : forall c, c ∈ _childList o -> ~ descendant s0 c m).
  { intros c Hc. apply (not_descendant_keeps s); [done|].
    intros Hd. apply Hm. by eapply descendant_step. }
  rewrite <- (deref_store_ne n m (mark_world o) s) by done.
  fold s0. clearbody s0. clear Hk0 Hn Hm.
  revert s0 Hrun Hkids. induction (_childList o) as [|c l IHl];
    intros s0 Hrun Hkids; simpl in Hrun; [by simplify_eq|].
  unbind Hrun. rename x into s1, H0 into Hc.
  rewrite (IHl s1 Hrun).
  - eapply IH; [done|]. apply Hkids. by left.
  - intros c' Hc'. apply (not_descendant_keeps s0).
    + by eapply keeps_childList, _setWorldMatrixDirty_keeps.
    + apply Hkids. by right.
Qed.

(** *** The cached World matrices *)

Local Abbreviation cached' := (cached composeMat4).

Lemma coherent_keeps s s' :
  keeps cached' s s' -> coherent composeMat4 mulMat4 s ->
  coherent composeMat4 mulMat4 s'.
Proof.
  intros Hk Hco n o' Hn' Hclean.
  pose proof (Hk n) as Hv. rewrite Hn' in Hv.
  destruct (deref n s) as [o|] eqn:Hn; [|done].
  apply (inj Some) in Hv. injection Hv as Hpar Hd HW Hloc.
  specialize (Hco n o Hn). rewrite <- Hd, <- Hpar, <- HW, <- Hloc in Hco.
  specialize (Hco Hclean). destruct (_parent o') as [p|]; [|done].
  destruct Hco as (po & Hp & Hpd & Heq).
  pose proof (Hk p) as Hvp. rewrite Hp in Hvp.
  destruct (deref p s') as [po'|]; [|done].
  apply (inj Some) in Hvp. injection Hvp as _ Hd' HW' _.
  exists po'. split_and!; congruence.
Qed.

Lemma listed_parent s m om p :
  listed s -> deref m s = Some om -> _parent om = Some p ->
  exists po, deref p s = Some po /\ m ∈ _childList po.
Proof.
  intros Hl Hm Hp. specialize (Hl m om Hm). unfold linked in Hl.
  rewrite Hp in Hl. destruct (deref p s) as [po|]; [|done].
  apply bool_decide_eq_true in Hl. eauto.
Qed.

Lemma listed_keeps s s' :
  keeps shape s s' -> listed s -> listed s'.
Proof.
  intros Hk Hl m om' Hm'. change (deref m s' = Some om') in Hm'.
  pose proof (Hk m) as Hv. rewrite Hm' in Hv.
  destruct (deref m s) as [om|] eqn:Hm; [|done].
  apply (inj Some) in Hv. injection Hv as Hp _ _.
  unfold linked. rewrite Hp. destruct (_parent om) as [p|] eqn:Hpar; [|done].
  destruct (listed_parent s m om p Hl Hm Hpar) as (po & Hp0 & Hin).
  pose proof (Hk p) as Hvp. rewrite Hp0 in Hvp.
  destruct (deref p s') as [po'|]; [|done].
  apply (inj Some) in Hvp. injection Hvp as _ Hl' _.
  apply bool_decide_eq_true. by rewrite Hl'.
Qed.

Lemma unread_coherent s : unread s -> coherent composeMat4 mulMat4 s.
Proof. intros Hu n o Hn Hclean. specialize (Hu n o Hn). congruence. Qed.

Lemma keeps_placement_shape s s' :
  keeps (placement composeMat4) s s' -> keeps shape s s'.
Proof. by apply (keeps_weaken (placement composeMat4) shape fst). Qed.

Lemma keeps_placement_localOf s s' :
  keeps (placement composeMat4) s s' -> keeps (localOf composeMat4) s s'.
Proof.
  by apply (keeps_weaken (placement composeMat4) (localOf composeMat4) snd).
Qed.

(** A World matrix that is marked clean in a coherent store is the product
    down the chain. *)
Lemma coherent_clean anc : forall n s o,
  coherent composeMat4 mulMat4 s -> has_ancestors s n anc = true ->
  deref n s = Some o -> _worldMatrixDirty o = false ->
  worldOfChain composeMat4 mulMat4 s n anc = Some (_worldMatrix o).
Proof.
  induction anc as [|p anc IH]; intros n s o Hco Hanc Hn Hclean;
    simpl in *; rewrite Hn in *; simpl;
    pose proof (Hco n o Hn Hclean) as Heq.
  - apply bool_decide_eq_true in Hanc. rewrite Hanc in Heq. by rewrite Heq.
  - apply andb_prop in Hanc as [Hp Hanc]. apply bool_decide_eq_true in Hp.
    rewrite Hp in Heq. destruct Heq as (po & Hpo & Hpd & Heq).
    rewrite (IH p s po Hco Hanc Hpo Hpd). simpl. by rewrite Heq.
Qed.

Lemma local_built_cached n o s :
  deref n s = Some o ->
  exists s1 o1,
    (if _localMatrixDirty o then _buildLocalMatrix composeMat4 n s else Some s)
      = Some s1 /\
    deref n s1 = Some o1 /\ (forall m, m <> n -> deref m s1 = deref m s) /\
    only_objs s s1 /\
    _localMatrix o1 = localOf composeMat4 o /\ _localMatrixDirty o1 = false /\
    cached' o1 = cached' o /\
    placement composeMat4 o1 = placement composeMat4 o.
Proof.
  intros Hn. destruct (_localMatrixDirty o) eqn:Hdirty.
  - unfold _buildLocalMatrix, modify. rewrite Hn. simpl.
    eexists _, _. split; [done|]. split; [apply deref_store_eq|].
    split; [intros m Hm; by apply deref_store_ne|].
    split; [apply only_objs_store|].
    unfold cached, placement, shape, localOf. simpl. by rewrite Hdirty.
  - exists s, o. split_and!; auto using only_objs_refl.
    unfold localOf. by rewrite Hdirty.
Qed.

Lemma _buildWorldMatrix_coherent anc : forall n s fuel o,
  coherent composeMat4 mulMat4 s ->
  has_ancestors s n anc = true -> length anc < fuel ->
  deref n s = Some o -> _worldMatrixDirty o = true ->
  exists s' o',
    _buildWorldMatrix composeMat4 mulMat4 fuel n s = Some s' /\
    deref n s' = Some o' /\ _worldMatrixDirty o' = false /\
    worldOfChain composeMat4 mulMat4 s n anc = Some (_worldMatrix o') /\
    coherent composeMat4 mulMat4 s' /\
    keeps (placement composeMat4) s s' /\
    (forall m om, deref m s = Some om -> _worldMatrixDirty om = false ->
       deref m s' = Some om) /\
    (forall m, m ∉ n :: anc -> deref m s' = deref m s) /\
    only_objs s s'.
Proof.
  induction anc as [|p anc IH]; intros n s fuel o Hco Hanc Hfuel Hn Hdirty;
    (destruct fuel as [|fuel]; [simpl in Hfuel; lia|]);
    pose proof (has_ancestors_not_in _ _ _ Hanc) as Hnotin;
    simpl in Hanc; rewrite Hn in Hanc; cbn [_buildWorldMatrix];
    rewrite Hn; cbn [mbind option_bind];
    destruct (local_built_cached n o s Hn)
      as (s1 & o1 & -> & Hn1 & Hframe1 & Hobjs1 & Hloc1 & Hld1 & Hc1 & Hpl1);
    cbn [mbind option_bind]; rewrite Hn1; cbn [mbind option_bind];
    pose proof Hc1 as Hc1'; injection Hc1' as Hpar1 Hd1 HW1 Hlo1;
    rewrite Hpar1;
    assert (Hcached1 : keeps cached' s s1) by
      (intros m; destruct (decide (m = n)) as [->|Hm]; [|by rewrite Hframe1];
       rewrite Hn1, Hn; simpl; by rewrite Hc1);
    assert (Hplace1 : keeps (placement composeMat4) s s1) by
      (intros m; destruct (decide (m = n)) as [->|Hm]; [|by rewrite Hframe1];
       rewrite Hn1, Hn; simpl; by rewrite Hpl1);
    pose proof (coherent_keeps _ _ Hcached1 Hco) as Hco1.
  - apply bool_decide_eq_true in Hanc. rewrite Hanc.
    eexists _, _. split; [done|]. split; [apply deref_store_eq|].
    simpl. split_and!; try done.
    + rewrite Hn. simpl. by rewrite Hloc1.
    + intros m om Hm Hclean. destruct (decide (m = n)) as [->|Hmn].
      * rewrite deref_store_eq in Hm. simplify_eq/=.
        rewrite Hpar1, Hanc. unfold localOf. simpl. by rewrite Hld1.
      * rewrite deref_store_ne in Hm by done.
        pose proof (Hco1 m om Hm Hclean) as Heq.
        destruct (_parent om) as [q|]; [|done].
        destruct Heq as (qo & Hq & Hqd & Heq).
        destruct (decide (q = n)) as [->|Hqn]; [congruence|].
        exists qo. by rewrite deref_store_ne.
    + eapply keeps_trans; [done|]. apply (keeps_store _ n o1); [done|].
      unfold placement, localOf. by simpl.
    + intros m om Hm Hclean. destruct (decide (m = n)) as [->|Hmn];
        [congruence|]. rewrite deref_store_ne by done. by rewrite Hframe1.
    + intros m Hm. apply not_elem_of_cons in Hm as [Hm _].
      rewrite deref_store_ne by done. by apply Hframe1.
    + eapply only_objs_trans; [done|apply only_objs_store].
  - apply andb_prop in Hanc as [Hp Hanc]. apply bool_decide_eq_true in Hp.
    rewrite Hp. pose proof Hnotin as Hnotin'.
    apply not_elem_of_cons in Hnotin' as [Hnp Hnanc].
    destruct (deref p s) as [po|] eqn:Hps;
      [|by destruct anc; simpl in Hanc; rewrite Hps in Hanc].
    rewrite (Hframe1 p) by done. rewrite Hps. cbn [mbind option_bind].
    assert (Hpar : keeps _parent s s1).
    { by apply (keeps_weaken cached' _parent (fun v => v.1.1.1)). }
    assert (Hloc : keeps (localOf composeMat4) s s1).
    { by apply (keeps_weaken cached' (localOf composeMat4) snd). }
    assert (exists s2 po2,
      (if _worldMatrixDirty po
       then _buildWorldMatrix composeMat4 mulMat4 fuel p s1 else Some s1)
        = Some s2 /\
      deref p s2 = Some po2 /\ deref n s2 = Some o1 /\
      _worldMatrixDirty po2 = false /\
      worldOfChain composeMat4 mulMat4 s p anc = Some (_worldMatrix po2) /\
      coherent composeMat4 mulMat4 s2 /\
      keeps (placement composeMat4) s1 s2 /\
      (forall m om, deref m s1 = Some om -> _worldMatrixDirty om = false ->
         deref m s2 = Some om) /\
      (forall m, m ∉ n :: p :: anc -> deref m s2 = deref m s) /\
      only_objs s s2)
      as (s2 & po2 & -> & Hp2 & Hn2 & Hpd2 & HWp & Hco2 & Hplace2 & Hclean2
          & Hframe2 & Hobjs2).
    { destruct (_worldMatrixDirty po) eqn:Hpd.
      - destruct (IH p s1 fuel po) as
          (s2 & po2 & -> & Hp2 & Hpd2 & HWp & Hco2 & Hplace2 & Hclean2
           & Hframe2 & Hobjs2); try done.
        + rewrite <- Hanc. by apply has_ancestors_keeps.
        + simpl in Hfuel. lia.
        + by rewrite Hframe1.
        + exists s2, po2. split_and!; try done.
          * by rewrite Hframe2.
          * rewrite <- HWp. symmetry. by apply worldOfChain_keeps.
          * intros m Hm. apply not_elem_of_cons in Hm as [Hmn Hm].
            rewrite Hframe2 by done. by apply Hframe1.
          * by eapply only_objs_trans.
      - exists s1, po. split_and!; try done.
        + by rewrite Hframe1.
        + by apply (coherent_clean anc p s po).
        + intros m Hm. apply not_elem_of_cons in Hm as [Hmn Hm].
          by apply Hframe1. }
    cbn [mbind option_bind]. rewrite Hp2, Hn2. cbn [mbind option_bind].
    eexists _, _. split; [done|]. split; [apply deref_store_eq|].
    simpl. split_and!; try done.
    + rewrite HWp, Hn. simpl. by rewrite Hloc1.
    + intros m om Hm Hclean. destruct (decide (m = n)) as [->|Hmn].
      * rewrite deref_store_eq in Hm. simplify_eq/=.
        rewrite Hpar1, Hp. exists po2. rewrite deref_store_ne by done.
        split_and!; try done. unfold localOf. simpl. by rewrite Hld1.
      * rewrite deref_store_ne in Hm by done.
        pose proof (Hco2 m om Hm Hclean) as Heq.
        destruct (_parent om) as [q|]; [|done].
        destruct Heq as (qo & Hq & Hqd & Heq).
        destruct (decide (q = n)) as [->|Hqn]; [congruence|].
        exists qo. by rewrite deref_store_ne.
    + eapply keeps_trans; [done|]. eapply keeps_trans; [done|].
      apply (keeps_store _ n o1); [done|].
      unfold placement, localOf. by simpl.
    + intros m om Hm Hclean. destruct (decide (m = n)) as [->|Hmn];
        [congruence|]. rewrite deref_store_ne by done.
      apply Hclean2; [|done]. by rewrite Hframe1.
    + intros m Hm. pose proof Hm as Hm'.
      apply not_elem_of_cons in Hm' as [Hmn _].
      rewrite deref_store_ne by done. by apply Hframe2.
    + eapply only_objs_trans; [done|apply only_objs_store].
Qed.

Lemma cached_boundary o : cached' (boundary_view o) = cached' o.
Proof. unfold boundary_view. by destruct (_aabbDirty o). Qed.

Lemma cached_mark_world o o' :
  mark_world o' = mark_world o ->
  _worldMatrixDirty o' = _worldMatrixDirty o -> cached' o' = cached' o.
Proof.
  intros Hm Hd. unfold cached, localOf. rewrite Hd.
  assert (_parent o' = _parent o) as -> by exact (f_equal _parent Hm).
  assert (_worldMatrix o' = _worldMatrix o) as ->
    by exact (f_equal _worldMatrix Hm).
  assert (_localMatrixDirty o' = _localMatrixDirty o) as ->
    by exact (f_equal _localMatrixDirty Hm).
  assert (_localMatrix o' = _localMatrix o) as ->
    by exact (f_equal _localMatrix Hm).
  assert (_position o' = _position o) as -> by exact (f_equal _position Hm).
  assert (_quaternion o' = _quaternion o) as ->
    by exact (f_equal _quaternion Hm).
  by assert (_scale o' = _scale o) as -> by exact (f_equal _scale Hm).
Qed.

(** After the subtree of [n] was marked dirty, the rest being as before, a
    coherent store is coherent again, whatever happened to [n] itself. *)
Lemma coherent_after_cached s s' n :
  listed s -> coherent composeMat4 mulMat4 s ->
  (forall m, descendant s n m ->
     exists om, deref m s' = Some om /\ _worldMatrixDirty om = true) ->
  (forall m, ~ descendant s n m ->
     cached' <$> deref m s' = cached' <$> deref m s) ->
  coherent composeMat4 mulMat4 s'.
Proof.
  intros Hl Hco Hin Hout' m om' Hm' Hclean.
  assert (Hnd : ~ descendant s n m).
  { intros Hd. destruct (Hin m Hd) as (om & Hom & Hdirty). congruence. }
  pose proof (Hout' m Hnd) as Hv. rewrite Hm' in Hv.
  destruct (deref m s) as [om|] eqn:Hm; [|done].
  apply (inj Some) in Hv. injection Hv as Hpar Hd HW Hloc.
  specialize (Hco m om Hm). rewrite <- Hd, <- Hpar, <- HW, <- Hloc in Hco.
  specialize (Hco Hclean). destruct (_parent om') as [p|] eqn:Hp; [|done].
  destruct Hco as (po & Hpo & Hpd & Heq).
  assert (Hnp : ~ descendant s n p).
  { intros Hd'. apply Hnd.
    destruct (listed_parent s m om p Hl Hm) as (po0 & Hpo0 & Hin0);
      [congruence|].
    by eapply descendant_child. }
  pose proof (Hout' p Hnp) as Hvp. rewrite Hpo in Hvp.
  destruct (deref p s') as [po'|]; [|done].
  apply (inj Some) in Hvp. injection Hvp as _ Hd' HW' _.
  exists po'. split_and!; congruence.
Qed.

Lemma boundary_cached (a b : option (Obj (T:=T))) :
  boundary_view <$> a = boundary_view <$> b -> cached' <$> a = cached' <$> b.
Proof.
  intros Heq. destruct a as [a|], b as [b|]; simplify_eq/=; try done.
  f_equal. rewrite <- (cached_boundary a), <- (cached_boundary b).
  by f_equal.
Qed.

Lemma coherent_after s s' n :
  listed s -> coherent composeMat4 mulMat4 s ->
  (forall m, descendant s n m ->
     exists om, deref m s' = Some om /\ _worldMatrixDirty om = true) ->
  (forall m, ~ descendant s n m ->
     boundary_view <$> deref m s' = boundary_view <$> deref m s) ->
  coherent composeMat4 mulMat4 s'.
Proof.
  intros Hl Hco Hin Hout. apply (coherent_after_cached s s' n); try done.
  intros m Hm. by apply boundary_cached, Hout.
Qed.

(** The tail shared by the transform setters, on a store [s0] that differs
    from [s] in the object [n] only, which hangs where it hung. *)
Lemma dirtied fuel n s s0 o o1 sc :
  deref n s = Some o -> deref n s0 = Some o1 -> shape o1 = shape o ->
  (forall m, m <> n -> deref m s0 = deref m s) ->
  scenes s0 !! scene o = Some sc ->
  subtree_ok fuel n s = true -> chain_ok fuel (Some n) s = true ->
  exists s1 s2 s3,
    _setWorldMatrixDirty fuel n s0 = Some s1 /\
    _setBoundaryDirty fuel n s1 = Some s2 /\
    renderer_imageDirty n s2 = Some s3 /\
    keeps mark_world s0 s3 /\ keeps shape s s3 /\
    (forall m, descendant s n m ->
       exists om, deref m s3 = Some om /\ all_dirty om = true) /\
    (forall m, ~ descendant s n m ->
       boundary_view <$> deref m s3 = boundary_view <$> deref m s) /\
    outside s3 = outside (image_dirtied (scene o) sc s0).
Proof.
  intros Hn Hn0 Hshape Hrest Hsc Hsub Hchain.
  assert (Hk0 : keeps shape s s0).
  { intros m. destruct (decide (m = n)) as [->|Hm]; [|by rewrite Hrest].
    rewrite Hn, Hn0. simpl. by rewrite Hshape. }
  destruct (_setWorldMatrixDirty_spec fuel n s0)
    as (s1 & Hrun1 & Hk1 & Hd1 & Ho1 & Hdesc1).
  { by rewrite (subtree_ok_keeps fuel n s s0 (keeps_shape_childList _ _ Hk0)). }
  assert (Hk01 : keeps shape s s1)
    by exact (keeps_trans _ _ _ _ Hk0 (keeps_world_shape _ _ Hk1)).
  destruct (_setBoundaryDirty_spec fuel n s1) as (s2 & Hrun2 & Hk2 & Hd2 & Ho2).
  { by rewrite (subtree_ok_keeps fuel n s s1 (keeps_shape_childList _ _ Hk01)). }
  { rewrite <- Hchain. apply (chain_ok_keeps fuel (Some n) s s1).
    by apply keeps_shape_parent. }
  assert (Hk02 : keeps mark_world s0 s2)
    by exact (keeps_trans _ _ _ _ Hk1 (keeps_boundary_world _ _ Hk2)).
  assert (Hks2 : keeps shape s s2)
    by exact (keeps_trans _ _ _ _ Hk0 (keeps_world_shape _ _ Hk02)).
  destruct (keeps_lookup _ _ _ _ _ (keeps_shape_scene _ _ Hks2) Hn)
    as (o2 & Hn2 & Hscene2).
  apply only_objs_outside in Ho1.
  assert (outside s2 = outside s0) as Hout by (rewrite Ho2, Ho1; done).
  assert (Hscenes : scenes s2 = scenes s0)
    by (unfold outside in Hout; by simplify_eq).
  exists s1, s2. eexists. split; [done|]. split; [done|].
  unfold renderer_imageDirty, modify_scene.
  rewrite Hn2. simpl. rewrite Hscene2, Hscenes, Hsc. simpl.
  split; [done|]. split_and!.
  - intros m. change (deref m (with_scenes ?a ?s')) with (deref m s'). apply Hk02.
  - intros m. change (deref m (with_scenes ?a ?s')) with (deref m s'). apply Hks2.
  - intros m Hm. change (deref m (with_scenes ?a ?s')) with (deref m s').
    destruct (Hdesc1 m) as (om & Hom & Hdo).
    { eapply descendant_keeps; [|done]. by apply keeps_shape_childList. }
    by apply (Hd2 m om).
  - intros m Hm. change (deref m (with_scenes ?a ?s')) with (deref m s').
    assert (m <> n) as Hmn by (intros ->; apply Hm; constructor).
    rewrite (Hk2 m).
    rewrite (_setWorldMatrixDirty_outside fuel n s0 s1 m Hrun1).
    + by rewrite Hrest.
    + apply (not_descendant_keeps s); [|done].
      by apply keeps_shape_childList.
  - unfold outside in *. simpl. injection Hout as ? ? ? ? ? ? ?. congruence.
Qed.

Lemma transform_changed_touch fuel n s s0 o o1 sc :
  deref n s = Some o -> deref n s0 = Some o1 -> shape o1 = shape o ->
  (forall m, m <> n -> deref m s0 = deref m s) ->
  scenes s0 !! scene o = Some sc ->
  subtree_ok fuel n s = true -> chain_ok fuel (Some n) s = true ->
  exists s3,
    transform_changed fuel n s0 = Some s3 /\
    keeps mark_world (store n (with_localMatrixDirty true o1) s0) s3 /\
    keeps shape s s3 /\
    (forall m, descendant s n m ->
       exists om, deref m s3 = Some om /\ all_dirty om = true) /\
    (forall m, ~ descendant s n m ->
       boundary_view <$> deref m s3 = boundary_view <$> deref m s) /\
    outside s3 = outside (image_dirtied (scene o) sc s0).
Proof.
  intros Hn Hn0 Hshape Hrest Hsc Hsub Hchain.
  unfold transform_changed, _setLocalMatrixDirty, modify. rewrite Hn0. simpl.
  destruct (dirtied fuel n s (store n (with_localMatrixDirty true o1) s0)
              o (with_localMatrixDirty true o1) sc)
    as (s1 & s2 & s3 & -> & Hrun2 & Hrun3 & Hk & Hks & Hin & Hout & Ho);
    try done.
  { apply deref_store_eq. }
  { intros m Hm. rewrite deref_store_ne by done. by apply Hrest. }
  simpl. rewrite Hrun2. simpl. rewrite Hrun3. by exists s3.
Qed.

(** A transform has changed on [n]: the caches are coherent as before. *)
Lemma touch fuel n s s0 o o1 sc :
  listed s -> coherent composeMat4 mulMat4 s ->
  deref n s = Some o -> deref n s0 = Some o1 -> shape o1 = shape o ->
  (forall m, m <> n -> deref m s0 = deref m s) ->
  scenes s0 !! scene o = Some sc ->
  subtree_ok fuel n s = true -> chain_ok fuel (Some n) s = true ->
  exists s3 o3,
    transform_changed fuel n s0 = Some s3 /\
    coherent composeMat4 mulMat4 s3 /\ listed s3 /\ keeps shape s s3 /\
    deref n s3 = Some o3 /\
    mark_world o3 = mark_world (with_localMatrixDirty true o1) /\
    scenes s3 !! scene o3 = Some (with_imageDirty true sc) /\
    subtree_ok fuel n s3 = true /\ chain_ok fuel (Some n) s3 = true /\
    (forall m, descendant s n m ->
       exists om, deref m s3 = Some om /\ all_dirty om = true).
Proof.
  intros Hl Hco Hn Hn0 Hshape Hrest Hsc Hsub Hchain.
  destruct (transform_changed_touch fuel n s s0 o o1 sc)
    as (s3 & Hrun & Hk & Hks & Hin & Hout & Ho); try done.
  pose proof (Hk n) as Hv. rewrite deref_store_eq in Hv.
  destruct (deref n s3) as [o3|] eqn:Hn3; [|done].
  simpl in Hv. apply (inj Some) in Hv.
  exists s3, o3. split_and!; try done.
  - apply (coherent_after s s3 n); try done.
    intros m Hm. destruct (Hin m Hm) as (om & Hom & Hd).
    apply all_dirty_world in Hd as (? & _). eauto.
  - by apply (listed_keeps s).
  - unfold outside in Ho. simpl in Ho.
    injection Ho as Hscenes _ _ _ _ _ _. rewrite Hscenes.
    assert (scene o3 = scene o) as ->.
    { transitivity (scene o1); [exact (f_equal scene Hv)|].
      by injection Hshape. }
    apply lookup_insert_eq.
  - by rewrite (subtree_ok_keeps fuel n _ _ (keeps_shape_childList _ _ Hks)).
  - by rewrite (chain_ok_keeps fuel (Some n) _ _ (keeps_shape_parent _ _ Hks)).
Qed.

Local Abbreviation move' :=
  (move decomposeMat4 eulerToQuaternion quaternionToEuler
     angleAxisToQuaternion mulQuaternions DEGTORAD vec3ApplyQuaternion
     mulVec3Scalar addVec3).

Ltac touched s3 Hall :=
  lazymatch goal with
  | Hl : listed ?s, Hn : deref ?n ?s = Some ?o,
    Hsc : scenes ?s !! scene ?o = Some ?sc
    |- context [transform_changed ?fuel ?n (store ?n ?o1 ?s1)] =>
      let o3 := fresh "o3" in
      destruct (touch fuel n s (store n o1 s1) o o1 sc) as
        (s3 & o3 & -> & ? & ? & ? & _ & _ & _ & _ & _ & Hall);
      [done|done|done|apply deref_store_eq|done
      |by intros; apply deref_store_ne|done..|]
  end.

Lemma move_coherent fuel (mv : Move (T:=T)) n o sc s :
  listed s -> coherent composeMat4 mulMat4 s ->
  deref n s = Some o -> scenes s !! scene o = Some sc ->
  subtree_ok fuel n s = true -> chain_ok fuel (Some n) s = true ->
  exists s',
    move' fuel mv n s = Some s' /\
    coherent composeMat4 mulMat4 s' /\ listed s' /\ keeps shape s s' /\
    forall m, descendant s n m ->
      exists om, deref m s' = Some om /\ _worldMatrixDirty om = true.
Proof.
  intros Hl Hco Hn Hsc Hsub Hchain.
  assert (Hstore : forall o1 m, m <> n ->
            deref m (store n o1 s) = deref m s).
  { intros o1 m Hm. by apply deref_store_ne. }
  assert (Hdirty : forall s',
    (forall m, descendant s n m ->
       exists om, deref m s' = Some om /\ all_dirty om = true) ->
    forall m, descendant s n m ->
      exists om, deref m s' = Some om /\ _worldMatrixDirty om = true).
  { intros s' Hall m Hm. destruct (Hall m Hm) as (om & Hom & Hd).
    apply all_dirty_world in Hd as (? & _). eauto. }
  destruct mv as [v|v|v|v|v|axis angle|axis distance]; simpl.
  - unfold set_position, modify. rewrite Hn. simpl.
    touched s3 Hall. exists s3. split_and!; try done. by apply Hdirty.
  - unfold set_rotation, modify. rewrite Hn. simpl.
    touched s3 Hall. exists s3. split_and!; try done. by apply Hdirty.
  - unfold set_quaternion, modify. rewrite Hn. simpl.
    touched s3 Hall. exists s3. split_and!; try done. by apply Hdirty.
  - unfold set_scale, modify. rewrite Hn. simpl.
    touched s3 Hall. exists s3. split_and!; try done. by apply Hdirty.
  - unfold set_matrix, modify. rewrite Hn. simpl.
    destruct (decomposeMat4 (default identityMat4 v)) as [[p q] sc'].
    lazymatch goal with
    | |- context [_setWorldMatrixDirty fuel n (store n ?o1 s)] =>
        destruct (dirtied fuel n s (store n o1 s) o o1 sc) as
          (s1 & s2 & s3 & -> & Hrun2 & Hrun3 & Hk & Hks & Hall & Hout & _);
        [done|apply deref_store_eq|done|by apply Hstore|done..|]
    end.
    simpl. rewrite Hrun2. simpl. rewrite Hrun3.
    exists s3. split_and!; try done.
    + apply (coherent_after s s3 n); try done. by apply Hdirty.
    + by apply (listed_keeps s).
    + by apply Hdirty.
  - unfold rotate. destruct axis as [[a0 a1] a2]. rewrite Hn. simpl.
    unfold set_quaternion, modify.
    match goal with
    | |- context [deref n (with_rotate_scratch ?a ?b ?c s)] =>
        change (deref n (with_rotate_scratch a b c s)) with (deref n s);
        set (s1 := with_rotate_scratch a b c s)
    end.
    rewrite Hn. simpl.
    lazymatch goal with
    | |- context [transform_changed fuel n (store n ?o1 s1)] =>
        destruct (touch fuel n s (store n o1 s1) o o1 sc) as
          (s3 & o3 & -> & Hco3 & Hl3 & Hks3 & Hn3 & Hv3 & Hsc3 & Hsub3
           & Hchain3 & Hall3);
        [done|done|done|apply deref_store_eq|done
        |by intros ? ?; rewrite deref_store_ne|done..|]
    end. simpl.
    edestruct (touch fuel n s3 s3 o3 o3) as
      (s4 & o4 & -> & ? & ? & Hks4 & _ & _ & _ & _ & _ & Hall4); try done.
    simpl. exists s4. split_and!; try done.
    + by eapply keeps_trans.
    + intros m Hm. apply Hdirty with (s' := s4); [|done].
      intros m' Hm'. apply Hall4.
      eapply descendant_keeps; [|done]. by apply keeps_shape_childList.
  - unfold translate. rewrite Hn. simpl. unfold modify. rewrite Hn. simpl.
    touched s3 Hall. exists s3. split_and!; try done. by apply Hdirty.
Qed.

(** X1.  [_setWorldMatrixDirty] stays in the subtree: on a hierarchy of
    bounded depth it returns, having changed no object that is not the node
    or below it, nothing in any object but the four dirty flags, and nothing
    else in the store. *)
Theorem setWorldMatrixDirty_stays_in_the_subtree fuel n s :
  subtree_ok fuel n s = true ->
  exists s', _setWorldMatrixDirty fuel n s = Some s' /\
    (forall m, ~ descendant s n m -> deref m s' = deref m s) /\
    keeps mark_world s s' /\ only_objs s s'.
Proof.
  intros Hsub.
  destruct (_setWorldMatrixDirty_spec fuel n s Hsub)
    as (s' & Hrun & Hk & _ & Ho & _).
  exists s'. split_and!; try done.
  intros m Hm. by apply (_setWorldMatrixDirty_outside fuel n s s' m).
Qed.

(** X2.  The World matrix is cached: once [worldMatrix] has been read on
    a node, reading it again returns the same matrix and leaves the store as
    it is; and a read changes no object other than the node and its
    ancestors, and nothing in the store but objects. *)
Theorem worldMatrix_is_read_once anc n s fuel :
  has_ancestors s n anc = true -> length anc < fuel ->
  exists W s', worldMatrix composeMat4 mulMat4 fuel n s = Some (W, s') /\
    (forall fuel', worldMatrix composeMat4 mulMat4 fuel' n s' = Some (W, s')) /\
    (forall m, m ∉ n :: anc -> deref m s' = deref m s) /\
    only_objs s s'.
Proof.
  intros Hanc Hfuel.
  destruct (deref n s) as [o|] eqn:Hn; [|by destruct anc; simpl in Hanc;
                                          rewrite Hn in Hanc].
  unfold worldMatrix at 1. rewrite Hn. simpl.
  destruct (_worldMatrixDirty o) eqn:Hd.
  - destruct (_buildWorldMatrix_spec composeMat4 mulMat4 anc n s fuel o)
      as (s' & W & o' & -> & Hn' & HW & Hclean & _ & Hframe & Ho & _);
      try done.
    simpl. rewrite Hn'. simpl. exists W, s'. rewrite HW.
    split_and!; try done.
    intros fuel'. unfold worldMatrix. rewrite Hn'. simpl. rewrite Hclean.
    simpl. rewrite Hn'. simpl. by rewrite HW.
  - simpl. rewrite Hn. simpl. exists (_worldMatrix o), s.
    split_and!; try done; [|apply only_objs_refl].
    intros fuel'. unfold worldMatrix. rewrite Hn. simpl. rewrite Hd.
    simpl. by rewrite Hn.
Qed.

(** X3.  In a store whose cached World matrices are coherent, whatever
    is marked dirty or clean, [worldMatrix] read on a node returns the
    product of the Local matrices from the root of its chain down to it; the
    store is coherent afterwards, and every object hangs where it hung and
    stands for the Local matrix it stood for. *)
Theorem worldMatrix_is_the_product_down_the_chain anc n s fuel :
  coherent composeMat4 mulMat4 s ->
  has_ancestors s n anc = true -> length anc < fuel ->
  exists W s', worldMatrix composeMat4 mulMat4 fuel n s = Some (W, s') /\
    worldOfChain composeMat4 mulMat4 s n anc = Some W /\
    coherent composeMat4 mulMat4 s' /\
    keeps (placement composeMat4) s s' /\ only_objs s s'.
Proof.
  intros Hco Hanc Hfuel.
  destruct (deref n s) as [o|] eqn:Hn; [|by destruct anc; simpl in Hanc;
                                          rewrite Hn in Hanc].
  unfold worldMatrix. rewrite Hn. simpl.
  destruct (_worldMatrixDirty o) eqn:Hd.
  - destruct (_buildWorldMatrix_coherent anc n s fuel o)
      as (s' & o' & -> & Hn' & Hclean & HW & Hco' & Hk & _ & _ & Ho);
      try done.
    simpl. rewrite Hn'. simpl. by exists (_worldMatrix o'), s'.
  - simpl. rewrite Hn. simpl. exists (_worldMatrix o), s.
    split_and!; try done; [|apply only_objs_refl].
    by apply (coherent_clean anc n s o).
Qed.

(** X4.  The transform setters ([position], [rotation], [quaternion],
    [scale], [matrix]), [rotate] and [translate] keep the cached World
    matrices coherent: called on a node of a coherent store in which every
    child is listed by its parent, each returns, the store is coherent and
    listed as before, the hierarchy is as it was, and the World matrix of
    every node of the subtree is marked dirty. *)
Theorem moves_keep_the_world_matrices_coherent fuel (mv : Move (T:=T))
    n o sc s :
  listed s -> coherent composeMat4 mulMat4 s ->
  deref n s = Some o -> scenes s !! scene o = Some sc ->
  subtree_ok fuel n s = true -> chain_ok fuel (Some n) s = true ->
  exists s',
    move' fuel mv n s = Some s' /\
    coherent composeMat4 mulMat4 s' /\ listed s' /\ keeps shape s s' /\
    forall m, descendant s n m ->
      exists om, deref m s' = Some om /\ _worldMatrixDirty om = true.
Proof. apply move_coherent. Qed.

(** *** The transform setters, seen from the object *)

Lemma all_dirty_fix o : all_dirty o = true -> mark_world o = o.
Proof.
  intros Hd. apply all_dirty_world in Hd as (H1 & H2 & H3 & H4).
  destruct o. simpl in *. by subst.
Qed.

(** The object on which a transform has changed is as it was left by the
    caller, with the five flags raised. *)
Lemma changed_here fuel n s s0 o o1 sc :
  deref n s = Some o -> deref n s0 = Some o1 -> shape o1 = shape o ->
  (forall m, m <> n -> deref m s0 = deref m s) ->
  scenes s0 !! scene o = Some sc ->
  subtree_ok fuel n s = true -> chain_ok fuel (Some n) s = true ->
  exists s',
    transform_changed fuel n s0 = Some s' /\
    deref n s' = Some (mark_world (with_localMatrixDirty true o1)) /\
    keeps shape s s' /\
    scenes s' = <[scene o := with_imageDirty true sc]> (scenes s0).
Proof.
  intros Hn Hn0 Hshape Hrest Hsc Hsub Hchain.
  destruct (transform_changed_touch fuel n s s0 o o1 sc)
    as (s3 & Hrun & Hk & Hks & Hin & Hout & Ho); try done.
  exists s3. split_and!; try done.
  - destruct (Hin n) as (o3 & Hn3 & Hd3); [constructor|].
    pose proof (Hk n) as Hv. rewrite deref_store_eq, Hn3 in Hv.
    apply (inj Some) in Hv. rewrite (all_dirty_fix _ Hd3) in Hv.
    by rewrite Hn3, Hv.
  - unfold outside in Ho. simpl in Ho. by injection Ho as Hscenes _ _ _ _ _ _.
Qed.

Ltac changed s' Hn' :=
  lazymatch goal with
  | Hn : deref ?n ?s = Some ?o, Hsc : scenes ?s !! scene ?o = Some ?sc
    |- context [transform_changed ?fuel ?n (store ?n ?o1 ?s1)] =>
      destruct (changed_here fuel n s (store n o1 s1) o o1 sc) as
        (s' & -> & Hn' & ? & ?);
      [done|apply deref_store_eq|done
      |by intros ? ?; rewrite deref_store_ne|done..|]
  end.

(** X6.  The two representations of the local rotation stay in step
    through their setters: [rotation = e] stores the Euler angles [e] and
    the quaternion [eulerToQuaternion(e)]; [quaternion = q] stores [q] and
    the Euler angles [quaternionToEuler(q)].  An undefined value stands for
    no rotation ([0,0,0] and [0,0,0,1]).  Position and scale are untouched,
    and the Local matrix is marked dirty. *)
Theorem rotation_and_quaternion_stay_in_step fuel n o sc s :
  deref n s = Some o -> scenes s !! scene o = Some sc ->
  subtree_ok fuel n s = true -> chain_ok fuel (Some n) s = true ->
  (forall e, exists s' o',
     set_rotation eulerToQuaternion fuel e n s = Some s' /\
     deref n s' = Some o' /\
     _rotation o' = default (num0, num0, num0) e /\
     _quaternion o' = eulerToQuaternion (default (num0, num0, num0) e) /\
     _position o' = _position o /\ _scale o' = _scale o /\
     _localMatrixDirty o' = true)
  /\
  (forall q, exists s' o',
     set_quaternion quaternionToEuler fuel q n s = Some s' /\
     deref n s' = Some o' /\
     _quaternion o' = default (num0, num0, num0, num1) q /\
     _rotation o' = quaternionToEuler (default (num0, num0, num0, num1) q) /\
     _position o' = _position o /\ _scale o' = _scale o /\
     _localMatrixDirty o' = true).
Proof.
  intros Hn Hsc Hsub Hchain. split.
  - intros e. unfold set_rotation, modify. rewrite Hn. simpl.
    changed s' Hn'. by eexists _, _.
  - intros q. unfold set_quaternion, modify. rewrite Hn. simpl.
    changed s' Hn'. by eexists _, _.
Qed.

(** X7.  [matrix = m] stores [m] itself as the Local matrix and marks
    it clean, so that reading [matrix] returns [m] (the identity matrix for
    an undefined value) without composing anything; position, quaternion
    and scale become what [decomposeMat4] makes of [m], while the Euler
    angles [rotation] are left as they were.  The World matrix is marked
    dirty. *)
Theorem matrix_is_stored_as_given fuel n o sc v s :
  deref n s = Some o -> scenes s !! scene o = Some sc ->
  subtree_ok fuel n s = true -> chain_ok fuel (Some n) s = true ->
  exists s' o',
    set_matrix decomposeMat4 fuel v n s = Some s' /\
    deref n s' = Some o' /\
    matrix composeMat4 n s' = Some (default identityMat4 v, s') /\
    (_position o', _quaternion o', _scale o')
      = decomposeMat4 (default identityMat4 v) /\
    _rotation o' = _rotation o /\
    _localMatrixDirty o' = false /\ _worldMatrixDirty o' = true.
Proof.
  intros Hn Hsc Hsub Hchain. unfold set_matrix, modify. rewrite Hn. simpl.
  destruct (decomposeMat4 (default identityMat4 v)) as [[p q] sc'] eqn:Hdec.
  lazymatch goal with
  | |- context [_setWorldMatrixDirty fuel n (store n ?o1 s)] =>
      destruct (dirtied fuel n s (store n o1 s) o o1 sc) as
        (s1 & s2 & s3 & -> & Hrun2 & Hrun3 & Hk & Hks & Hall & Hout & _);
      [done|apply deref_store_eq|done
      |by intros ? ?; rewrite deref_store_ne|done..|]
  end.
  simpl. rewrite Hrun2. simpl. rewrite Hrun3.
  destruct (Hall n) as (o3 & Hn3 & Hd3); [constructor|].
  pose proof (Hk n) as Hv. rewrite deref_store_eq, Hn3 in Hv.
  apply (inj Some) in Hv. rewrite (all_dirty_fix _ Hd3) in Hv. subst o3.
  eexists _, _. split; [done|]. split; [exact Hn3|].
  split_and!; try done.
  unfold matrix. rewrite Hn3. simpl. by rewrite Hn3.
Qed.

Local Abbreviation translate' :=
  (translate vec3ApplyQuaternion mulVec3Scalar addVec3).

(** X9.  [translate(axis, distance)] adds to the position the axis,
    turned by the current quaternion and scaled by the distance; rotation,
    quaternion and scale are untouched, the Local matrix is marked dirty,
    and the object itself is returned.  [translateX], [translateY] and
    [translateZ] do so along the unit axes. *)
Theorem translate_moves_along_the_turned_axis fuel n o sc s :
  deref n s = Some o -> scenes s !! scene o = Some sc ->
  subtree_ok fuel n s = true -> chain_ok fuel (Some n) s = true ->
  (forall axis distance, exists s' o',
     translate' fuel n axis distance s = Some (n, s') /\
     deref n s' = Some o' /\
     _position o' =
       addVec3 (_position o)
         (mulVec3Scalar (vec3ApplyQuaternion (_quaternion o) axis) distance) /\
     _quaternion o' = _quaternion o /\ _rotation o' = _rotation o /\
     _scale o' = _scale o /\ _localMatrixDirty o' = true)
  /\
  (forall distance,
     translateX vec3ApplyQuaternion mulVec3Scalar addVec3 fuel n distance s
       = translate' fuel n (num1, num0, num0) distance s /\
     translateY vec3ApplyQuaternion mulVec3Scalar addVec3 fuel n distance s
       = translate' fuel n (num0, num1, num0) distance s /\
     translateZ vec3ApplyQuaternion mulVec3Scalar addVec3 fuel n distance s
       = translate' fuel n (num0, num0, num1) distance s).
Proof.
  intros Hn Hsc Hsub Hchain. split; [|done].
  intros axis distance. unfold translate, modify. rewrite Hn. simpl.
  changed s' Hn'. by eexists _, _.
Qed.

(** X8.  The Local matrix follows the position and the scale: after
    [position = v] (or [scale = v]) the other components are as before, the
    first read of [matrix] composes the Local matrix from the new position
    (scale), the quaternion and the scale (position), and a second read
    returns the same matrix and changes nothing.  An undefined position is
    [0,0,0], an undefined scale [1,1,1]. *)
Theorem matrix_follows_position_and_scale fuel n o sc s :
  deref n s = Some o -> scenes s !! scene o = Some sc ->
  subtree_ok fuel n s = true -> chain_ok fuel (Some n) s = true ->
  (forall v, exists s' o' s'',
     set_position fuel v n s = Some s' /\ deref n s' = Some o' /\
     _position o' = default (num0, num0, num0) v /\
     _quaternion o' = _quaternion o /\ _rotation o' = _rotation o /\
     _scale o' = _scale o /\
     matrix composeMat4 n s'
       = Some (composeMat4 (default (num0, num0, num0) v) (_quaternion o)
                 (_scale o), s'') /\
     matrix composeMat4 n s''
       = Some (composeMat4 (default (num0, num0, num0) v) (_quaternion o)
                 (_scale o), s''))
  /\
  (forall v, exists s' o' s'',
     set_scale fuel v n s = Some s' /\ deref n s' = Some o' /\
     _scale o' = default (num1, num1, num1) v /\
     _quaternion o' = _quaternion o /\ _rotation o' = _rotation o /\
     _position o' = _position o /\
     matrix composeMat4 n s'
       = Some (composeMat4 (_position o) (_quaternion o)
                 (default (num1, num1, num1) v), s'') /\
     matrix composeMat4 n s''
       = Some (composeMat4 (_position o) (_quaternion o)
                 (default (num1, num1, num1) v), s'')).
Proof.
  intros Hn Hsc Hsub Hchain. split; intros v.
  - unfold set_position, modify. rewrite Hn. simpl. changed s' Hn'.
    match type of Hn' with _ = Some ?x => set (o1 := x) in * end.
    exists s', o1,
      (store n (with_localMatrixDirty false
                  (with_localMatrix
                     (composeMat4 (_position o1) (_quaternion o1) (_scale o1))
                     o1)) s').
    split; [done|]. split; [exact Hn'|].
    split; [done|]. split; [done|]. split; [done|]. split; [done|]. split.
    + unfold matrix, _buildLocalMatrix, modify. rewrite Hn'.
      cbn [mbind option_bind]. change (_localMatrixDirty o1) with true.
      cbn [mbind option_bind]. rewrite deref_store_eq. reflexivity.
    + unfold matrix. rewrite deref_store_eq. cbn [mbind option_bind].
      change (_localMatrixDirty (with_localMatrixDirty false ?x)) with false.
      cbn [mbind option_bind]. rewrite deref_store_eq. reflexivity.
  - unfold set_scale, modify. rewrite Hn. simpl. changed s' Hn'.
    match type of Hn' with _ = Some ?x => set (o1 := x) in * end.
    exists s', o1,
      (store n (with_localMatrixDirty false
                  (with_localMatrix
                     (composeMat4 (_position o1) (_quaternion o1) (_scale o1))
                     o1)) s').
    split; [done|]. split; [exact Hn'|].
    split; [done|]. split; [done|]. split; [done|]. split; [done|]. split.
    + unfold matrix, _buildLocalMatrix, modify. rewrite Hn'.
      cbn [mbind option_bind]. change (_localMatrixDirty o1) with true.
      cbn [mbind option_bind]. rewrite deref_store_eq. reflexivity.
    + unfold matrix. rewrite deref_store_eq. cbn [mbind option_bind].
      change (_localMatrixDirty (with_localMatrixDirty false ?x)) with false.
      cbn [mbind option_bind]. rewrite deref_store_eq. reflexivity.
Qed.

Local Abbreviation rotate' :=
  (rotate quaternionToEuler angleAxisToQuaternion mulQuaternions DEGTORAD).

Lemma scene_mark_world o : scene (mark_world o) = scene o.
Proof. done. Qed.

Lemma scene_localMatrixDirty b o : scene (with_localMatrixDirty b o) = scene o.
Proof. done. Qed.

(** The object after [rotate]. *)
Lemma rotate_here fuel n o sc (axis : vec3 (T:=T)) (angle : T) s :
  deref n s = Some o -> scenes s !! scene o = Some sc ->
  subtree_ok fuel n s = true -> chain_ok fuel (Some n) s = true ->
  exists s' o' sc',
    rotate' fuel n axis angle s = Some (n, s') /\
    deref n s' = Some o' /\
    _quaternion o' =
      mulQuaternions (_quaternion o)
        (angleAxisToQuaternion
           (axis.1.1, axis.1.2, axis.2, nmul angle DEGTORAD)) /\
    _rotation o' = quaternionToEuler (_quaternion o') /\
    _position o' = _position o /\ _scale o' = _scale o /\
    scenes s' !! scene o' = Some sc' /\
    subtree_ok fuel n s' = true /\ chain_ok fuel (Some n) s' = true.
Proof.
  intros Hn Hsc Hsub Hchain. destruct axis as [[a0 a1] a2].
  unfold rotate. rewrite Hn. simpl. unfold set_quaternion, modify.
  match goal with
  | |- context [deref n (with_rotate_scratch ?a ?b ?c s)] =>
      change (deref n (with_rotate_scratch a b c s)) with (deref n s);
      set (s1 := with_rotate_scratch a b c s)
  end.
  rewrite Hn. simpl.
  lazymatch goal with
  | |- context [transform_changed fuel n (store n ?o1 s1)] =>
      destruct (changed_here fuel n s (store n o1 s1) o o1 sc) as
        (s2 & -> & Hn2 & Hks2 & Hsc2);
      [done|apply deref_store_eq|done
      |by intros ? ?; rewrite deref_store_ne|done..|]
  end.
  simpl.
  assert (Hsub2 : subtree_ok fuel n s2 = true)
    by by rewrite (subtree_ok_keeps fuel n _ _ (keeps_shape_childList _ _ Hks2)).
  assert (Hchain2 : chain_ok fuel (Some n) s2 = true)
    by by rewrite (chain_ok_keeps fuel (Some n) _ _
                     (keeps_shape_parent _ _ Hks2)).
  match type of Hn2 with _ = Some ?x => set (o2 := x) in * end.
  assert (Hsc2' : scenes s2 !! scene o2 = Some (with_imageDirty true sc)).
  { rewrite Hsc2. change (scene o2) with (scene o). apply lookup_insert_eq. }
  destruct (changed_here fuel n s2 s2 o2 o2 (with_imageDirty true sc))
    as (s3 & -> & Hn3 & Hks3 & Hsc3); try done.
  simpl.
  exists s3, (mark_world (with_localMatrixDirty true o2)),
    (with_imageDirty true (with_imageDirty true sc)).
  split; [done|]. split; [exact Hn3|].
  split; [done|]. split; [done|]. split; [done|]. split; [done|]. split_and!.
  - rewrite Hsc3.
    rewrite scene_mark_world, scene_localMatrixDirty.
    apply lookup_insert_eq.
  - by rewrite (subtree_ok_keeps fuel n _ _ (keeps_shape_childList _ _ Hks3)).
  - by rewrite (chain_ok_keeps fuel (Some n) _ _
                  (keeps_shape_parent _ _ Hks3)).
Qed.

(** X10.  [rotateX], [rotateY] and [rotateZ] are [rotate] about the
    unit axes, and successive rotations pile up on the right of the
    quaternion: after [rotateX(a)], [rotateY(b)] and [rotateZ(c)] the
    quaternion is [((q × qx) × qy) × qz], where [q] is the quaternion before
    and [qx], [qy], [qz] are made of the unit axes and the angles in
    radians; the Euler angles are those of that quaternion. *)
Theorem rotations_pile_up_on_the_right fuel n o sc (a b c : T) s :
  deref n s = Some o -> scenes s !! scene o = Some sc ->
  subtree_ok fuel n s = true -> chain_ok fuel (Some n) s = true ->
  exists s1 s2 s3 o3,
    rotateX quaternionToEuler angleAxisToQuaternion mulQuaternions DEGTORAD
      fuel n a s = Some (n, s1) /\
    rotateY quaternionToEuler angleAxisToQuaternion mulQuaternions DEGTORAD
      fuel n b s1 = Some (n, s2) /\
    rotateZ quaternionToEuler angleAxisToQuaternion mulQuaternions DEGTORAD
      fuel n c s2 = Some (n, s3) /\
    deref n s3 = Some o3 /\
    _quaternion o3 =
      mulQuaternions
        (mulQuaternions
           (mulQuaternions (_quaternion o)
              (angleAxisToQuaternion (num1, num0, num0, nmul a DEGTORAD)))
           (angleAxisToQuaternion (num0, num1, num0, nmul b DEGTORAD)))
        (angleAxisToQuaternion (num0, num0, num1, nmul c DEGTORAD)) /\
    _rotation o3 = quaternionToEuler (_quaternion o3).
Proof.
  intros Hn Hsc Hsub Hchain. unfold rotateX, rotateY, rotateZ.
  destruct (rotate_here fuel n o sc (num1, num0, num0) a s)
    as (s1 & o1 & sc1 & Hr1 & Hn1 & Hq1 & _ & _ & _ & Hsc1 & Hsub1 & Hchain1);
    try done.
  destruct (rotate_here fuel n o1 sc1 (num0, num1, num0) b s1)
    as (s2 & o2 & sc2 & Hr2 & Hn2 & Hq2 & _ & _ & _ & Hsc2 & Hsub2 & Hchain2);
    try done.
  destruct (rotate_here fuel n o2 sc2 (num0, num0, num1) c s2)
    as (s3 & o3 & sc3 & Hr3 & Hn3 & Hq3 & He3 & _); try done.
  exists s1, s2, s3, o3. split_and!; try done.
  rewrite Hq3, Hq2, Hq1. done.
Qed.

Local Abbreviation worldNormalMatrix' :=
  (worldNormalMatrix composeMat4 mulMat4 inverseMat4 transposeMat4).

(** X5.  The World normal matrix is the transpose of the inverse of the
    World matrix: read on a node on which it is marked dirty, in a coherent
    store, [worldNormalMatrix] returns
    [transposeMat4(inverseMat4(W))] for [W] the product of the Local matrices
    down the chain, leaves the World matrix and the World normal matrix of
    the node marked clean and the store coherent, and a second read returns
    the same matrix and changes nothing. *)
Theorem worldNormalMatrix_is_the_inverse_transposed anc n s fuel o :
  coherent composeMat4 mulMat4 s ->
  has_ancestors s n anc = true -> length anc < fuel ->
  deref n s = Some o -> _worldNormalMatrixDirty o = true ->
  exists W s' o',
    worldOfChain composeMat4 mulMat4 s n anc = Some W /\
    worldNormalMatrix' fuel n s
      = Some (transposeMat4 (inverseMat4 W), s') /\
    worldNormalMatrix' fuel n s'
      = Some (transposeMat4 (inverseMat4 W), s') /\
    deref n s' = Some o' /\ _worldMatrix o' = W /\
    _worldMatrixDirty o' = false /\ _worldNormalMatrixDirty o' = false /\
    coherent composeMat4 mulMat4 s'.
Proof.
  intros Hco Hanc Hfuel Hn Hnd.
  assert (exists s1 o1,
    (if _worldMatrixDirty o
     then _buildWorldMatrix composeMat4 mulMat4 fuel n s else Some s)
      = Some s1 /\
    deref n s1 = Some o1 /\ _worldMatrixDirty o1 = false /\
    worldOfChain composeMat4 mulMat4 s n anc = Some (_worldMatrix o1) /\
    coherent composeMat4 mulMat4 s1) as (s1 & o1 & Hrun & Hn1 & Hd1 & HW & Hco1).
  { destruct (_worldMatrixDirty o) eqn:Hd.
    - destruct (_buildWorldMatrix_coherent anc n s fuel o)
        as (s1 & o1 & Hrun & Hn1 & Hclean & HW & Hco1 & _); try done.
      by exists s1, o1.
    - exists s, o. split_and!; try done.
      by apply (coherent_clean anc n s o). }
  set (o' := with_worldNormalMatrixDirty false
               (with_worldNormalMatrix
                  (transposeMat4 (inverseMat4 (_worldMatrix o1))) o1)).
  exists (_worldMatrix o1), (store n o' s1), o'.
  split; [done|].
  assert (Hread : worldNormalMatrix' fuel n (store n o' s1)
            = Some (transposeMat4 (inverseMat4 (_worldMatrix o1)),
                    store n o' s1)).
  { unfold worldNormalMatrix. rewrite deref_store_eq. simpl.
    by rewrite deref_store_eq. }
  split_and!; try done.
  - unfold worldNormalMatrix, _buildWorldNormalMatrix, modify.
    rewrite Hn. cbn [mbind option_bind]. rewrite Hnd.
    cbn [mbind option_bind]. rewrite Hrun. cbn [mbind option_bind].
    rewrite Hn1. cbn [mbind option_bind]. rewrite deref_store_eq.
    reflexivity.
  - apply deref_store_eq.
  - apply (coherent_keeps s1); [|done].
    by apply (keeps_store _ n o1).
Qed.

(** *** Setters that descend the hierarchy *)

Lemma subtree_ok_children k n o s :
  deref n s = Some o -> subtree_ok (S k) n s = true ->
  forallb (fun c => subtree_ok k c s) (_childList o) = true.
Proof. intros Hn Hok. simpl in Hok. by rewrite Hn in Hok. Qed.

Lemma forallb_subtree_ok_keeps k l s s' :
  keeps _childList s s' ->
  forallb (fun c => subtree_ok k c s') l = forallb (fun c => subtree_ok k c s) l.
Proof.
  intros Hk. induction l as [|x l IHl]; [done|]. simpl.
  by rewrite (subtree_ok_keeps k x s s' Hk), IHl.
Qed.

Lemma housed_lookup s n o : housed s -> deref n s = Some o ->
  is_Some (scenes s !! scene o).
Proof. intros Hh Hn. by apply (Hh n o). Qed.

Lemma outer_refl s : outer s s.
Proof. by split. Qed.

Lemma outer_trans s1 s2 s3 : outer s1 s2 -> outer s2 s3 -> outer s1 s3.
Proof. intros [H1 R1] [H2 R2]. split; [intros i|]; congruence. Qed.

Lemma outer_is_Some s s' i :
  outer s s' -> is_Some (scenes s !! i) -> is_Some (scenes s' !! i).
Proof.
  intros [Hr _] Hi. specialize (Hr i). destruct Hi as [sc Hsc].
  rewrite Hsc in Hr. by destruct (scenes s' !! i).
Qed.

Lemma housed_keeps s s' :
  keeps scene s s' -> outer s s' -> housed s -> housed s'.
Proof.
  intros Hk Hsc Hh n o' Hn'. change (deref n s' = Some o') in Hn'.
  pose proof (Hk n) as Hv. rewrite Hn' in Hv.
  destruct (deref n s) as [o|] eqn:Hn; [|done].
  apply (inj Some) in Hv. rewrite Hv.
  apply (outer_is_Some s); [done|]. by apply (Hh n o).
Qed.

Section Cascade.

(** A setter that stores something in the object ([f]), calls itself on
    every child, and ends with a call that leaves the objects alone
    ([post]). *)
Variable f : Obj (T:=T) -> Obj (T:=T).
Variable rec : nat -> ref -> State (T:=T) -> option (State (T:=T)).
Variable post : ref -> State (T:=T) -> option (State (T:=T)).
Variable Inv : State (T:=T) -> Prop.

Hypothesis rec_0 : forall n s, rec 0 n s = None.
Hypothesis rec_S : forall k n s,
  rec (S k) n s =
    (o ← deref n s;
     s1 ← for_each (rec k) (_childList o) (store n (f o) s);
     post n s1).
Hypothesis f_shape : forall o, shape (f o) = shape o.
Hypothesis f_twice : forall o, f (f o) = f o.
Hypothesis Inv_applied : forall s s', applied f s s' -> Inv s -> Inv s'.
Hypothesis post_spec : forall n s o,
  Inv s -> deref n s = Some o ->
  exists s', post n s = Some s' /\ objs s' = objs s /\ outer s s'.

Local Abbreviation applied := (applied f).

Lemma applied_refl s : applied s s.
Proof using Type. split; auto using outer_refl. Qed.

Lemma applied_trans s1 s2 s3 :
  applied s1 s2 -> applied s2 s3 -> applied s1 s3.
Proof using f_twice.
  intros [H12 Hs12] [H23 Hs23]. split; [|by eapply outer_trans]. intros m.
  destruct (H12 m) as [E12|(o1 & Ho1 & E12)],
    (H23 m) as [E23|(o2 & Ho2 & E23)].
  - left. congruence.
  - right. exists o2. split; congruence.
  - right. exists o1. split; congruence.
  - right. exists o1. split; [done|]. rewrite E23.
    assert (o2 = f o1) as -> by congruence. by rewrite f_twice.
Qed.

Lemma applied_keeps s s' : applied s s' -> keeps shape s s'.
Proof using f_shape.
  intros [Ha _] m. destruct (Ha m) as [->|(om & -> & ->)]; [done|].
  simpl. by rewrite f_shape.
Qed.

Lemma applied_done s s' m om :
  applied s s' -> deref m s = Some (f om) -> deref m s' = Some (f om).
Proof using f_twice.
  intros [Ha _] Hm. destruct (Ha m) as [->|(o1 & Ho1 & ->)]; [done|].
  assert (o1 = f om) as -> by congruence. by rewrite f_twice.
Qed.

Lemma applied_to s s' m om :
  applied s s' -> deref m s = Some om ->
  deref m s' = Some om \/ deref m s' = Some (f om).
Proof using Type.
  intros [Ha _] Hm. destruct (Ha m) as [->|(o1 & Ho1 & ->)]; [by left|].
  right. congruence.
Qed.

Lemma cascade_spec k : forall n s,
  subtree_ok k n s = true -> Inv s ->
  exists s', rec k n s = Some s' /\ applied s s' /\
    (forall m, descendant s n m ->
       exists om, deref m s = Some om /\ deref m s' = Some (f om)) /\
    (forall m, ~ descendant s n m -> deref m s' = deref m s).
Proof using rec_0 rec_S f_shape f_twice Inv_applied post_spec.
  induction k as [|k IH]; intros n s Hok Hh; [done|].
  rewrite rec_S. destruct (deref n s) as [o|] eqn:Hn; [|by simpl in Hok;
                                                        rewrite Hn in Hok].
  apply (subtree_ok_children k n o s Hn) in Hok. simpl.
  set (s0 := store n (f o) s).
  assert (Ha0 : applied s s0).
  { split; [|by split]. intros m.
    destruct (decide (m = n)) as [->|Hm].
    - right. exists o. split; [done|]. apply deref_store_eq.
    - left. by apply deref_store_ne. }
  assert (exists s1, for_each (rec k) (_childList o) s0 = Some s1 /\
            applied s0 s1 /\
            (forall c m, c ∈ _childList o -> descendant s0 c m ->
               exists om, deref m s0 = Some om /\
                 (deref m s1 = Some (f om) \/
                  exists om0, om = f om0 /\ deref m s1 = Some om)) /\
            (forall m, (forall c, c ∈ _childList o -> ~ descendant s0 c m) ->
               deref m s1 = deref m s0))
    as (s1 & Hrun & Ha1 & Hin & Hout).
  { assert (Hok0 : forallb (fun c => subtree_ok k c s0) (_childList o) = true).
    { rewrite <- Hok. apply forallb_subtree_ok_keeps.
      by apply keeps_shape_childList, applied_keeps. }
    assert (Hh0 : Inv s0) by by apply (Inv_applied s).
    clear Hok Ha0 Hn. clearbody s0.
    revert s0 Hok0 Hh0. induction (_childList o) as [|c l IHl];
      intros s0 Hok0 Hh0; simpl in *.
    - exists s0. split_and!; auto using applied_refl.
      intros c m Hc. by apply elem_of_nil in Hc.
    - apply andb_prop in Hok0 as [Hc Hl].
      destruct (IH c s0 Hc Hh0) as (s1 & -> & Ha1 & Hin1 & Hout1). simpl.
      pose proof (applied_keeps _ _ Ha1) as Hk1.
      destruct (IHl s1) as (s2 & -> & Ha2 & Hin2 & Hout2).
      { rewrite <- Hl. apply forallb_subtree_ok_keeps.
        by apply keeps_shape_childList. }
      { by apply (Inv_applied s0). }
      exists s2. split; [done|]. split; [by eapply applied_trans|]. split.
      + intros c' m Hc' Hm. apply elem_of_cons in Hc' as [->|Hc'].
        * destruct (Hin1 m Hm) as (om & Hom & Hom1). exists om.
          split; [done|]. left. by apply (applied_done s1).
        * assert (Hm1 : descendant s1 c' m).
          { eapply descendant_keeps; [|done]. by apply keeps_shape_childList. }
          destruct (Hin2 c' m Hc' Hm1) as (om1 & Hom1 & Hom2).
          destruct Ha1 as [Ha1 _].
          destruct (Ha1 m) as [E|(om & Hom & E)].
          -- exists om1. split; [congruence|]. done.
          -- exists om. split; [done|]. rewrite E in Hom1.
             apply (inj Some) in Hom1. subst om1.
             destruct Hom2 as [Hom2|(om0 & Heq & Hom2)].
             ++ left. by rewrite f_twice in Hom2.
             ++ left. done.
      + intros m Hm. rewrite Hout2.
        * apply Hout1. apply Hm. by left.
        * intros c' Hc'. apply (not_descendant_keeps s0).
          -- by apply keeps_shape_childList.
          -- apply Hm. by right. }
  rewrite Hrun. simpl.
  assert (Ha01 : applied s s1) by by eapply applied_trans.
  assert (Hh1 : Inv s1) by by apply (Inv_applied s).
  assert (exists o1, deref n s1 = Some o1) as (o1 & Hn1).
  { destruct (applied_to s s1 n o Ha01 Hn); eauto. }
  destruct (post_spec n s1 o1 Hh1 Hn1) as (s2 & -> & Hobjs & Hsc).
  exists s2.
  assert (Hd : forall m, deref m s2 = deref m s1)
    by (intros m; unfold deref; by rewrite Hobjs).
  split; [done|]. split_and!.
  - split.
    + intros m. rewrite Hd. apply Ha01.
    + eapply outer_trans; [apply Ha01|done].
  - intros m Hm. rewrite Hd.
    apply descendant_inv in Hm as [->|(o' & c & Hn' & Hc & Hm)].
    + exists o. split; [done|].
      apply (applied_done s0); [done|apply deref_store_eq].
    + assert (o' = o) as -> by congruence.
      assert (Hm0 : descendant s0 c m).
      { eapply descendant_keeps; [|done].
        by apply keeps_shape_childList, applied_keeps. }
      destruct (Hin c m Hc Hm0) as (om0 & Hom0 & Hom1). unfold s0 in Hom0.
      destruct (decide (m = n)) as [->|Hmn].
      * exists o. split; [done|]. rewrite deref_store_eq in Hom0.
        apply (inj Some) in Hom0. subst om0.
        destruct Hom1 as [Hom1|(om' & Heq & Hom1)]; [|done].
        by rewrite f_twice in Hom1.
      * rewrite deref_store_ne in Hom0 by done. exists om0.
        split; [done|]. destruct Hom1 as [Hom1|(om' & Heq & Hom1)]; [done|].
        subst om0. by rewrite f_twice.
  - intros m Hm. rewrite Hd.
    assert (m <> n) as Hmn by (intros ->; apply Hm; constructor).
    rewrite Hout; [by apply deref_store_ne|].
    intros c Hc Hd'. apply Hm.
    apply (descendant_step s n o c m Hn Hc).
    eapply descendant_keeps; [|done].
    by apply keeps_sym, keeps_shape_childList, applied_keeps.
Qed.

End Cascade.

Lemma applied_housed (f : Obj (T:=T) -> Obj (T:=T)) s s' :
  (forall o, shape (f o) = shape o) ->
  applied f s s' -> housed s -> housed s'.
Proof.
  intros Hf Ha. apply housed_keeps; [|apply Ha].
  by apply keeps_shape_scene, (applied_keeps f).
Qed.

Lemma flag_value_Some fl b : flag_value fl (Some b) = b.
Proof. by destruct fl, b. Qed.

Lemma get_put_flag fl b o : get_flag fl (put_flag fl b o) = b.
Proof. by destruct fl. Qed.

Lemma set_flag_value fuel fl v n s :
  set_flag fuel fl v n s = set_flag fuel fl (Some (flag_value fl v)) n s.
Proof. destruct fuel; [done|]. simpl. by rewrite flag_value_Some. Qed.

Lemma modify_scene_objs n g s o :
  (forall sc, registers (g sc) = registers sc) ->
  housed s -> deref n s = Some o ->
  exists s', modify_scene n g s = Some s' /\ objs s' = objs s /\ outer s s'.
Proof.
  intros Hg Hh Hn. unfold modify_scene. rewrite Hn. simpl.
  destruct (housed_lookup s n o Hh Hn) as (sc & Hsc). rewrite Hsc. simpl.
  eexists. split; [done|]. split; [done|]. split; [|done]. intros i. simpl.
  destruct (decide (scene o = i)) as [<-|Hne].
  - rewrite lookup_insert_eq, Hsc. simpl. by rewrite Hg.
  - by rewrite lookup_insert_ne.
Qed.

Lemma set_flag_spec fuel fl v n s :
  subtree_ok fuel n s = true -> housed s ->
  exists s', set_flag fuel fl v n s = Some s' /\
    applied (put_flag fl (flag_value fl v)) s s' /\
    (forall m, descendant s n m ->
       exists om, deref m s = Some om /\
         deref m s' = Some (put_flag fl (flag_value fl v) om)) /\
    (forall m, ~ descendant s n m -> deref m s' = deref m s).
Proof.
  intros Hsub Hh. rewrite set_flag_value.
  set (b := flag_value fl v).
  apply (cascade_spec (put_flag fl b)
           (fun k n s => set_flag k fl (Some b) n s)
           (fun n s1 =>
              match flag_hook fl with
              | Some hook =>
                  o1 ← deref n s1;
                  match etruthy (_entityType o1) with
                  | Some _ => modify_scene n (hook n (id o1) b) s1
                  | None => Some s1
                  end
              | None => Some s1
              end) housed); try done.
  - intros k n0 s0. simpl. by rewrite flag_value_Some.
  - intros o. by destruct fl.
  - intros o. by destruct fl.
  - intros s0 s1. apply applied_housed. intros o. by destruct fl.
  - intros n0 s0 o Hh0 Hn0.
    destruct (flag_hook fl) as [hook|] eqn:Hhook; [|by eauto using outer_refl].
    rewrite Hn0. simpl.
    destruct (etruthy _); [|by eauto using outer_refl].
    apply (modify_scene_objs n0 _ s0 o); [|done..].
    intros sc0. by destruct fl; simplify_eq/=.
Qed.

(** X11.  A boolean state set on a node is set on the whole subtree:
    each of the eleven setters ([visible], [culled], [pickable],
    [clippable], [collidable], [castShadow], [receiveShadow], [outlined],
    [ghosted], [highlighted], [selected]) returns on a hierarchy of bounded
    depth, leaves the value in the node and in every node below it, and
    touches nothing else in them and no other object.  The value stored for
    an undefined argument is true for [visible], [pickable], [clippable] and
    [collidable], false for the others. *)
Theorem a_state_is_set_on_the_whole_subtree fuel fl v n s :
  subtree_ok fuel n s = true -> housed s ->
  exists s', set_flag fuel fl v n s = Some s' /\
    (forall m, descendant s n m ->
       exists om om', deref m s = Some om /\ deref m s' = Some om' /\
         om' = put_flag fl (flag_value fl v) om /\
         get_flag fl om' = flag_value fl v) /\
    (forall m, ~ descendant s n m -> deref m s' = deref m s) /\
    flag_value fl None =
      match fl with
      | Visible | Pickable | Clippable | Collidable => true
      | _ => false
      end.
Proof.
  intros Hsub Hh.
  destruct (set_flag_spec fuel fl v n s Hsub Hh) as (s' & Hrun & _ & Hin & Hout).
  exists s'. split_and!; try done.
  intros m Hm. destruct (Hin m Hm) as (om & Hom & Hom').
  eexists om, _. split_and!; try done. apply get_put_flag.
Qed.

(** What the [colorize] setter and the [opacity] setter store in an
    object. *)
Lemma set_colorize_spec fuel rgb n s :
  subtree_ok fuel n s = true ->
  let f := fun o : Obj (T:=T) =>
    with_colorize
      (Some (let '(r, g, b) := default (num1, num1, num1) rgb in
             let '(_, _, _, a) :=
               default (num0, num0, num0, num1) (_colorize o) in
             (r, g, b, a))) o in
  exists s', set_colorize fuel rgb n s = Some s' /\ applied f s s' /\
    (forall m, descendant s n m ->
       exists om, deref m s = Some om /\ deref m s' = Some (f om)) /\
    (forall m, ~ descendant s n m -> deref m s' = deref m s).
Proof.
  intros Hsub f.
  assert (Hv : forall k n s,
    set_colorize k rgb n s
    = set_colorize k (Some (default (num1, num1, num1) rgb)) n s).
  { intros [|k] n0 s0; [done|]. simpl.
    by destruct (default (num1, num1, num1) rgb) as [[r g] b]. }
  rewrite Hv.
  destruct (cascade_spec f
              (fun k n s =>
                 set_colorize k (Some (default (num1, num1, num1) rgb)) n s)
              (fun _ s1 => Some s1) (fun _ => True)) with (k := fuel) (n := n)
    (s := s) as (s' & Hrun & Ha & Hin & Hout); try done.
  - intros k n0 s0. simpl. destruct (deref n0 s0) as [o|]; [|done]. simpl.
    unfold f. destruct (default (num1, num1, num1) rgb) as [[r g] b].
    destruct (default (num0, num0, num0, num1) (_colorize o)) as [[[? ?] ?] a].
    by destruct (for_each _ _ _).
  - intros o. unfold f. simpl.
    destruct (default (num1, num1, num1) rgb) as [[r g] b].
    by destruct (default (num0, num0, num0, num1) (_colorize o))
      as [[[? ?] ?] a].
  - intros n0 s0 o _ _. by eauto using outer_refl.
  - by exists s'.
Qed.

Lemma set_opacity_spec fuel a n s :
  subtree_ok fuel n s = true ->
  let f := fun o : Obj (T:=T) =>
    with_colorize
      (Some (let '(r, g, b, _) :=
               default (num1, num1, num1, num0) (_colorize o) in
             (r, g, b, default num1 a))) o in
  exists s', set_opacity fuel a n s = Some s' /\ applied f s s' /\
    (forall m, descendant s n m ->
       exists om, deref m s = Some om /\ deref m s' = Some (f om)) /\
    (forall m, ~ descendant s n m -> deref m s' = deref m s).
Proof.
  intros Hsub f.
  destruct (cascade_spec f (fun k n s => set_opacity k a n s)
              (fun _ s1 => Some s1) (fun _ => True)) with (k := fuel) (n := n)
    (s := s) as (s' & Hrun & Ha & Hin & Hout); try done.
  - intros k n0 s0. simpl. destruct (deref n0 s0) as [o|]; [|done]. simpl.
    unfold f.
    destruct (default (num1, num1, num1, num0) (_colorize o)) as [[[? ?] ?] ?].
    by destruct (for_each _ _ _).
  - intros o. unfold f. simpl.
    by destruct (default (num1, num1, num1, num0) (_colorize o))
      as [[[? ?] ?] ?].
  - intros n0 s0 o _ _. by eauto using outer_refl.
  - by exists s'.
Qed.

(** X12.  [colorize] and [opacity] share one array and do not disturb
    each other: [colorize = rgb] leaves, on the node and on every node below
    it, the colour [rgb] ([1,1,1] for an undefined value) with the opacity
    the object had (1 if it had none), and [opacity = a] leaves the opacity
    [a] (1 for an undefined value) with the colour the object had ([1,1,1]
    if it had none); nothing else changes in these objects, and no other
    object changes. *)
Theorem colorize_and_opacity_share_one_array fuel n s :
  subtree_ok fuel n s = true ->
  (forall rgb, exists s',
     set_colorize fuel rgb n s = Some s' /\
     (forall m, descendant s n m ->
        exists om om', deref m s = Some om /\ deref m s' = Some om' /\
          colorize om' = Some (default (num1, num1, num1) rgb) /\
          opacity om' = Some (default num1 (opacity om)) /\
          with_colorize None om' = with_colorize None om) /\
     (forall m, ~ descendant s n m -> deref m s' = deref m s))
  /\
  (forall a, exists s',
     set_opacity fuel a n s = Some s' /\
     (forall m, descendant s n m ->
        exists om om', deref m s = Some om /\ deref m s' = Some om' /\
          opacity om' = Some (default num1 a) /\
          colorize om' = Some (default (num1, num1, num1) (colorize om)) /\
          with_colorize None om' = with_colorize None om) /\
     (forall m, ~ descendant s n m -> deref m s' = deref m s)).
Proof.
  intros Hsub. split.
  - intros rgb.
    destruct (set_colorize_spec fuel rgb n s Hsub)
      as (s' & Hrun & _ & Hin & Hout).
    exists s'. split_and!; try done.
    intros m Hm. destruct (Hin m Hm) as (om & Hom & Hom').
    eexists om, _. split; [done|]. split; [exact Hom'|].
    unfold colorize, opacity. simpl.
    destruct (default (num1, num1, num1) rgb) as [[r g] b].
    by destruct (_colorize om) as [[[[? ?] ?] ?]|].
  - intros a.
    destruct (set_opacity_spec fuel a n s Hsub)
      as (s' & Hrun & _ & Hin & Hout).
    exists s'. split_and!; try done.
    intros m Hm. destruct (Hin m Hm) as (om & Hom & Hom').
    eexists om, _. split; [done|]. split; [exact Hom'|].
    unfold colorize, opacity. simpl.
    by destruct (_colorize om) as [[[[? ?] ?] ?]|].
Qed.

(** *** Adding a child *)

Lemma descendant_agree s s' c m :
  (forall x, descendant s c x ->
     _childList <$> deref x s' = _childList <$> deref x s) ->
  descendant s' c m <-> descendant s c m.
Proof.
  intros Hag. split.
  - intros Hd. induction Hd as [|x o' y Hx IH Hx' Hy]; [constructor|].
    pose proof (Hag x IH) as Hv. rewrite Hx' in Hv.
    destruct (deref x s) as [o|] eqn:Hxs; [|done].
    apply (inj Some) in Hv. eapply descendant_child; [done..|].
    by rewrite <- Hv.
  - intros Hd. induction Hd as [|x o y Hx IH Hx' Hy]; [constructor|].
    pose proof (Hag x Hx) as Hv. rewrite Hx' in Hv.
    destruct (deref x s') as [o'|] eqn:Hxs; [|done].
    apply (inj Some) in Hv. eapply descendant_child; [done..|].
    by rewrite Hv.
Qed.

Lemma subtree_ok_agree k : forall c s s',
  (forall x, descendant s c x ->
     _childList <$> deref x s' = _childList <$> deref x s) ->
  subtree_ok k c s' = subtree_ok k c s.
Proof.
  induction k as [|k IH]; intros c s s' Hag; [done|]. simpl.
  pose proof (Hag c (descendant_self s c)) as Hv.
  destruct (deref c s') as [o'|], (deref c s) as [o|] eqn:Hc;
    simplify_eq/=; try done.
  rewrite Hv.
  assert (Hkids : forall y, y ∈ _childList o ->
            subtree_ok k y s' = subtree_ok k y s).
  { intros y Hy. apply IH. intros x Hx. apply Hag.
    by eapply descendant_step. }
  clear Hv Hc. induction (_childList o) as [|y l IHl]; [done|]. simpl.
  rewrite Hkids by (by left). rewrite IHl; [done|].
  intros z Hz. apply Hkids. by right.
Qed.

Lemma has_ancestors_agree anc : forall n s s',
  (forall x, x ∈ n :: anc -> _parent <$> deref x s' = _parent <$> deref x s) ->
  has_ancestors s' n anc = has_ancestors s n anc.
Proof.
  induction anc as [|p anc IH]; intros n s s' Hag; simpl;
    pose proof (Hag n ltac:(by left)) as Hn;
    destruct (deref n s') as [o'|], (deref n s) as [o|]; simplify_eq/=; try done.
  - by rewrite Hn.
  - rewrite Hn. rewrite (IH p s s'); [done|].
    intros x Hx. apply Hag. by right.
Qed.

Lemma has_ancestors_chain_ok anc : forall n s k,
  has_ancestors s n anc = true -> length anc < k ->
  chain_ok k (Some n) s = true.
Proof.
  induction anc as [|p anc IH]; intros n s k Hanc Hk;
    (destruct k as [|k]; [simpl in Hk; lia|]); simpl in *;
    destruct (deref n s) as [o|]; try done.
  - apply bool_decide_eq_true in Hanc. rewrite Hanc. by destruct k.
  - apply andb_prop in Hanc as [Hp Hanc]. apply bool_decide_eq_true in Hp.
    rewrite Hp. apply (IH p s k Hanc). lia.
Qed.

Lemma keeps_bare_shape s s' : keeps bare s s' -> keeps shape s s'.
Proof. by apply (keeps_weaken bare shape shape). Qed.

Lemma keeps_bare_mark_world s s' :
  keeps bare s s' -> keeps (fun o => bare (mark_world o)) s s'.
Proof.
  by apply (keeps_weaken bare (fun o => bare (mark_world o)) mark_world).
Qed.

Lemma applied_bare (f : Obj (T:=T) -> Obj (T:=T)) s s' :
  (forall o, bare (f o) = bare o) -> applied f s s' -> keeps bare s s'.
Proof.
  intros Hf [Ha _] m. destruct (Ha m) as [->|(om & -> & ->)]; [done|].
  simpl. by rewrite Hf.
Qed.

Lemma inheriting_refl fuel this c me oc s :
  deref this s = Some me -> deref c s = Some oc ->
  subtree_ok fuel c s = true -> housed s -> ~ descendant s c this ->
  inheriting fuel this c me oc s s.
Proof.
  intros. by split_and!.
Qed.

(** One step on the way: a setter that descends from [c]. *)
Lemma inheriting_step (f : Obj (T:=T) -> Obj (T:=T)) fuel this c me oc s0 si sj :
  (forall o, bare (f o) = bare o) ->
  inheriting fuel this c me oc s0 si ->
  applied f si sj ->
  (forall m, descendant si c m ->
     exists om, deref m si = Some om /\ deref m sj = Some (f om)) ->
  (forall m, ~ descendant si c m -> deref m sj = deref m si) ->
  inheriting fuel this c me (f oc) s0 sj.
Proof.
  intros Hf (Hthis & Hc & Hsub & Hh & Hnd & Hkb & Ho & Hout) Ha Hin Hout'.
  pose proof (applied_bare f si sj Hf Ha) as Hkb'.
  pose proof (keeps_bare_shape _ _ Hkb') as Hks'.
  split_and!.
  - by rewrite Hout'.
  - destruct (Hin c) as (om & Hom & Hom'); [constructor|]. congruence.
  - by rewrite (subtree_ok_keeps fuel c _ _ (keeps_shape_childList _ _ Hks')).
  - apply (housed_keeps si); [by apply keeps_shape_scene|apply Ha|done].
  - apply (not_descendant_keeps si); [by apply keeps_shape_childList|done].
  - by eapply keeps_trans.
  - eapply outer_trans; [done|apply Ha].
  - intros m Hm. rewrite Hout'; [by apply Hout|].
    apply (not_descendant_keeps s0); [|done].
    by apply keeps_shape_childList, keeps_bare_shape.
Qed.

Lemma inheriting_flag fl fuel this c me oc s0 si :
  inheriting fuel this c me oc s0 si ->
  exists sj, inherit_flag fuel fl this c si = Some sj /\
    inheriting fuel this c me (put_flag fl (get_flag fl me) oc) s0 sj.
Proof.
  intros Hi. pose proof Hi as (Hthis & Hc & Hsub & Hh & _).
  unfold inherit_flag. rewrite Hthis. simpl.
  destruct (set_flag_spec fuel fl (Some (get_flag fl me)) c si Hsub Hh)
    as (sj & -> & Ha & Hin & Hout).
  rewrite flag_value_Some in *. exists sj. split; [done|].
  apply (inheriting_step (put_flag fl (get_flag fl me)) fuel this c me oc
           s0 si sj); try done.
  intros o. by destruct fl.
Qed.

Lemma inheriting_highlited fuel this c me oc s0 si :
  inheriting fuel this c me oc s0 si ->
  exists sj,
    (me ← deref this si;
     modify c (with_highlited (Some (_highlighted me))) si) = Some sj /\
    inheriting fuel this c me
      (with_highlited (Some (_highlighted me)) oc) s0 sj.
Proof.
  intros Hi. pose proof Hi as (Hthis & Hc & Hsub & Hh & Hnd & _).
  rewrite Hthis. simpl. unfold modify. rewrite Hc. simpl.
  eexists. split; [done|].
  assert (c <> this) as Hne by (intros ->; apply Hnd; constructor).
  destruct Hi as (_ & _ & _ & _ & _ & Hkb & Ho & Hout).
  assert (Hkb' : keeps bare si
            (store c (with_highlited (Some (_highlighted me)) oc) si))
    by by apply (keeps_store _ c oc).
  pose proof (keeps_bare_shape _ _ Hkb') as Hks'.
  split_and!.
  - by rewrite deref_store_ne.
  - apply deref_store_eq.
  - by rewrite (subtree_ok_keeps fuel c _ _ (keeps_shape_childList _ _ Hks')).
  - apply (housed_keeps si); [by apply keeps_shape_scene|by split|done].
  - apply (not_descendant_keeps si); [by apply keeps_shape_childList|done].
  - by eapply keeps_trans.
  - done.
  - intros m Hm. assert (m <> c) as Hmc by (intros ->; apply Hm; constructor).
    rewrite deref_store_ne by done. by apply Hout.
Qed.

Lemma inheriting_colorize fuel this c me oc s0 si rgb :
  colorize me = Some rgb ->
  inheriting fuel this c me oc s0 si ->
  exists sj oc',
    (me ← deref this si; c0 ← colorize me;
     set_colorize fuel (Some c0) c si) = Some sj /\
    inheriting fuel this c me oc' s0 sj /\
    colorize oc' = Some rgb /\
    with_colorize None oc' = with_colorize None oc.
Proof.
  intros Hrgb Hi. pose proof Hi as (Hthis & Hc & Hsub & Hh & _).
  rewrite Hthis. simpl. rewrite Hrgb. simpl.
  destruct (set_colorize_spec fuel (Some rgb) c si Hsub)
    as (sj & -> & Ha & Hin & Hout).
  match type of Ha with applied ?g _ _ => set (f := g) in * end.
  exists sj, (f oc). split; [done|]. split; [|split].
  - by apply (inheriting_step f fuel this c me oc s0 si sj).
  - unfold f, colorize. simpl. destruct rgb as [[r g] b].
    by destruct (_colorize oc) as [[[[? ?] ?] ?]|].
  - done.
Qed.

Lemma inheriting_opacity fuel this c me oc s0 si a :
  opacity me = Some a ->
  inheriting fuel this c me oc s0 si ->
  exists sj oc',
    (me ← deref this si; a0 ← opacity me;
     set_opacity fuel (Some a0) c si) = Some sj /\
    inheriting fuel this c me oc' s0 sj /\
    opacity oc' = Some a /\
    colorize oc' = Some (default (num1, num1, num1) (colorize oc)) /\
    with_colorize None oc' = with_colorize None oc.
Proof.
  intros Hop Hi. pose proof Hi as (Hthis & Hc & Hsub & Hh & _).
  rewrite Hthis. simpl. rewrite Hop. simpl.
  destruct (set_opacity_spec fuel (Some a) c si Hsub)
    as (sj & -> & Ha & Hin & Hout).
  match type of Ha with applied ?g _ _ => set (f := g) in * end.
  exists sj, (f oc). split; [done|]. split; [|split_and!].
  - by apply (inheriting_step f fuel this c me oc s0 si sj).
  - unfold f, opacity. simpl.
    by destruct (_colorize oc) as [[[[? ?] ?] ?]|].
  - unfold f, colorize. simpl.
    by destruct (_colorize oc) as [[[[? ?] ?] ?]|].
  - done.
Qed.

Lemma uncoloured_flag fl (a b : Obj (T:=T)) :
  with_colorize None a = with_colorize None b -> get_flag fl a = get_flag fl b.
Proof.
  intros Heq.
  destruct fl;
    lazymatch goal with
    | |- get_flag ?f _ = _ => exact (f_equal (get_flag f) Heq)
    end.
Qed.

Lemma uncoloured_bare (a b : Obj (T:=T)) :
  with_colorize None a = with_colorize None b -> bare a = bare b.
Proof. intros Heq. exact (f_equal bare Heq). Qed.

Lemma uncoloured_highlited (a b : Obj (T:=T)) :
  with_colorize None a = with_colorize None b -> highlited a = highlited b.
Proof. intros Heq. exact (f_equal highlited Heq). Qed.

Ltac inherit_step :=
  lazymatch goal with
  | Hi : inheriting _ _ _ _ _ _ ?si
    |- context [inherit_flag ?fuel ?fl ?this ?c ?si] =>
      let sj := fresh "s" in
      let Hj := fresh "Hi" in
      destruct (inheriting_flag fl _ _ _ _ _ _ _ Hi) as (sj & -> & Hj);
      clear Hi; cbn [mbind option_bind]
  end.

(** The thirteen assignments of [addChild]: the child has the states of
    the parent, but for [highlighted]. *)
Lemma inherit_states_spec fuel this c me oc s0 rgba :
  _colorize me = Some rgba ->
  inheriting fuel this c me oc s0 s0 ->
  exists s4 oc4,
    inherit_states fuel this c s0 = Some s4 /\
    inheriting fuel this c me oc4 s0 s4 /\
    (forall fl, fl <> Highlighted -> get_flag fl oc4 = get_flag fl me) /\
    get_flag Highlighted oc4 = get_flag Highlighted oc /\
    highlited oc4 = Some (_highlighted me) /\
    colorize oc4 = colorize me /\ opacity oc4 = opacity me /\
    bare oc4 = bare oc.
Proof.
  intros Hcol Hi. unfold inherit_states.
  do 3 inherit_step.
  lazymatch goal with
  | Hi : inheriting _ _ _ _ _ _ ?si |- _ =>
      destruct (inheriting_highlited _ _ _ _ _ _ _ Hi) as (sh & -> & Hih);
      clear Hi; cbn [mbind option_bind]
  end.
  do 7 inherit_step.
  destruct rgba as [[[r g] b] a].
  assert (Hrgb : colorize me = Some (r, g, b))
    by (unfold colorize; by rewrite Hcol).
  assert (Hop : opacity me = Some a) by (unfold opacity; by rewrite Hcol).
  lazymatch goal with
  | Hi : inheriting _ _ _ _ ?x _ ?si |- _ =>
      destruct (inheriting_colorize _ _ _ _ _ _ _ _ Hrgb Hi)
        as (sc1 & oc1 & -> & Hic & Hc1 & Hu1);
      clear Hi; cbn [mbind option_bind];
      destruct (inheriting_opacity _ _ _ _ _ _ _ _ Hop Hic)
        as (sc2 & oc2 & -> & Hio & Ho2 & Hc2 & Hu2);
      set (o11 := x) in *
  end.
  exists sc2, oc2. split; [done|]. split; [done|].
  assert (Hu : with_colorize None oc2 = with_colorize None o11)
    by congruence.
  split_and!.
  - intros fl Hfl. rewrite (uncoloured_flag fl _ _ Hu).
    by destruct fl.
  - by rewrite (uncoloured_flag Highlighted _ _ Hu).
  - by rewrite (uncoloured_highlited _ _ Hu).
  - rewrite Hc2, Hc1. done.
  - congruence.
  - by rewrite (uncoloured_bare _ _ Hu).
Qed.

Lemma outside_scenes_diag s s' :
  outside s' = outside s -> scenes s' = scenes s /\ diag s' = diag s.
Proof. unfold outside. intros Heq. by injection Heq as -> -> _ _ _ _ _. Qed.

Lemma only_objs_scenes_diag s s' :
  only_objs s s' -> scenes s' = scenes s /\ diag s' = diag s.
Proof. intros Ho. by apply outside_scenes_diag, only_objs_outside. Qed.

Lemma outer_diag s s' : outer s s' -> diag s' = diag s.
Proof. intros [_ Hr]. unfold rest in Hr. by injection Hr as _ -> _ _ _ _ _ _ _. Qed.

(** [addChild] of a root [c] of the same scene, which is not above
    [this]. *)
Lemma addChild_root_spec fuel this c me oc sc anc inh s :
  deref this s = Some me -> deref c s = Some oc ->
  _parent oc = None -> scene oc = scene me ->
  scenes s !! scene me = Some sc ->
  ~ descendant s c this -> subtree_ok fuel c s = true ->
  has_ancestors s this anc = true -> c ∉ anc -> length anc + 1 < fuel ->
  housed s -> (inh <> Some false -> is_Some (_colorize me)) ->
  exists s' me' oc' oc4 sc',
    addChild fuel this (ArgObject c) inh s = Some (Some c, s') /\
    deref this s' = Some me' /\ deref c s' = Some oc' /\
    boundary_view me' = boundary_view (with_child (id oc) c me) /\
    mark_world oc' = mark_world oc4 /\ all_dirty oc' = true /\
    bare oc4 = bare (with_parent (Some this) oc) /\
    (inh = Some false -> oc4 = with_parent (Some this) oc) /\
    (inh <> Some false ->
       (forall fl, fl <> Highlighted -> get_flag fl oc4 = get_flag fl me) /\
       get_flag Highlighted oc4 = get_flag Highlighted oc /\
       highlited oc4 = Some (_highlighted me) /\
       colorize oc4 = colorize me /\ opacity oc4 = opacity me) /\
    (forall m, descendant s c m ->
       exists om', deref m s' = Some om' /\ all_dirty om' = true) /\
    (forall m, descendant s c m -> m <> c ->
       bare <$> (mark_world <$> deref m s')
       = bare <$> (mark_world <$> deref m s)) /\
    (forall m, ~ descendant s c m -> m <> this ->
       boundary_view <$> deref m s' = boundary_view <$> deref m s) /\
    (forall m, m <> this -> m <> c ->
       shape <$> deref m s' = shape <$> deref m s) /\
    scenes s' !! scene me = Some sc' /\
    registers sc' = (objects sc, delete (id oc) (rootObjects sc)) /\
    (forall i, i <> scene me ->
       registers <$> scenes s' !! i = registers <$> scenes s !! i) /\
    diag s' = diag s.
Proof.
  intros Hthis Hc Hroot Hscene Hsc Hnd Hsub Hanc Hcanc Hfuel Hh Hcol.
  assert (Hne : c <> this) by (intros ->; apply Hnd; constructor).
  unfold addChild. rewrite Hc. cbn [mbind option_bind]. rewrite Hroot.
  unfold attach. rewrite Hc, Hthis. cbn [mbind option_bind].
  rewrite decide_True by done.
  unfold modify_scene. rewrite Hthis. cbn [mbind option_bind].
  rewrite Hsc. cbn [mbind option_bind]. unfold modify.
  set (scL := with_rootObjects (delete (id oc) (rootObjects sc)) sc).
  set (sa := with_scenes (<[scene me := scL]> (scenes s)) s).
  change (deref this sa) with (deref this s). rewrite Hthis.
  cbn [mbind option_bind].
  fold (with_child (id oc) c me). set (me1 := with_child (id oc) c me).
  rewrite deref_store_ne by done. change (deref c sa) with (deref c s).
  rewrite Hc. cbn [mbind option_bind].
  set (oc1 := with_parent (Some this) oc).
  set (sl := store c oc1 (store this me1 sa)).
  assert (HLthis : deref this sl = Some me1).
  { unfold sl. rewrite deref_store_ne by done. apply deref_store_eq. }
  assert (HLc : deref c sl = Some oc1) by apply deref_store_eq.
  assert (HLrest : forall m, m <> this -> m <> c -> deref m sl = deref m s).
  { intros m Hm1 Hm2. unfold sl. by rewrite !deref_store_ne. }
  assert (Hag : forall x, descendant s c x ->
            _childList <$> deref x sl = _childList <$> deref x s).
  { intros x Hx. destruct (decide (x = c)) as [->|Hxc].
    - by rewrite HLc, Hc.
    - rewrite HLrest; [done| |done]. intros ->. by apply Hnd. }
  assert (Hdesc : forall m, descendant sl c m <-> descendant s c m)
    by (intros m; by apply descendant_agree).
  assert (HsubL : subtree_ok fuel c sl = true)
    by by rewrite (subtree_ok_agree fuel c s sl).
  assert (HscL : forall i, is_Some (scenes s !! i) -> is_Some (scenes sl !! i)).
  { intros i Hi. change (scenes sl) with (<[scene me := scL]> (scenes s)).
    destruct (decide (scene me = i)) as [<-|Hi'].
    - rewrite lookup_insert_eq. eauto.
    - by rewrite lookup_insert_ne. }
  assert (HhL : housed sl).
  { intros m om Hm. change (deref m sl = Some om) in Hm. apply HscL.
    destruct (decide (m = c)) as [->|Hmc].
    { rewrite HLc in Hm. simplify_eq. by apply (Hh c oc). }
    destruct (decide (m = this)) as [->|Hmt].
    { rewrite HLthis in Hm. simplify_eq. by apply (Hh this me). }
    rewrite HLrest in Hm by done. by apply (Hh m om). }
  assert (HndL : ~ descendant sl c this) by by rewrite Hdesc.
  pose proof (inheriting_refl fuel this c me1 oc1 sl HLthis HLc HsubL HhL HndL)
    as Hi0.
  assert (exists s4 oc4,
    (if decide (inh = Some false) then Some sl
     else inherit_states fuel this c sl) = Some s4 /\
    inheriting fuel this c me1 oc4 sl s4 /\ bare oc4 = bare oc1 /\
    (inh = Some false -> oc4 = oc1) /\
    (inh <> Some false ->
       (forall fl, fl <> Highlighted -> get_flag fl oc4 = get_flag fl me) /\
       get_flag Highlighted oc4 = get_flag Highlighted oc /\
       highlited oc4 = Some (_highlighted me) /\
       colorize oc4 = colorize me /\ opacity oc4 = opacity me))
    as (s4 & oc4 & -> & Hi4 & Hb4 & Hoff & Hon).
  { destruct (decide (inh = Some false)) as [Hinh|Hinh].
    - exists sl, oc1. by split_and!.
    - destruct (Hcol Hinh) as [rgba Hrgba].
      destruct (inherit_states_spec fuel this c me1 oc1 sl rgba)
        as (s4 & oc4 & Hrun & Hi4 & Hfl & Hhl & Hlit & Hco & Hop & Hb);
        try done.
      exists s4, oc4. split_and!; try done; intros _; by split_and!. }
  cbn [mbind option_bind].
  destruct Hi4 as (Hthis4 & Hc4 & Hsub4 & Hh4 & Hnd4 & Hkb4 & Ho4 & Hout4).
  pose proof (keeps_bare_shape _ _ Hkb4) as Hks4.
  destruct (_setWorldMatrixDirty_spec fuel c s4 Hsub4)
    as (s5 & Hrun5 & Hk5 & Hd5 & Ho5 & Hdesc5).
  rewrite Hrun5. cbn [mbind option_bind].
  pose proof (keeps_world_shape _ _ Hk5) as Hks5.
  assert (HancL : has_ancestors sl c (this :: anc) = true).
  { simpl. rewrite HLc. simpl. rewrite bool_decide_eq_true_2 by done. simpl.
    rewrite <- Hanc. apply has_ancestors_agree. intros x Hx.
    destruct (decide (x = this)) as [->|Hxt]; [by rewrite HLthis, Hthis|].
    rewrite HLrest; [done..|]. intros ->.
    apply elem_of_cons in Hx as [?|Hx]; done. }
  destruct (_setBoundaryDirty_spec fuel c s5) as (s6 & Hrun6 & Hk6 & Hd6 & Ho6).
  { by rewrite (subtree_ok_keeps fuel c _ _ (keeps_shape_childList _ _ Hks5)). }
  { apply (has_ancestors_chain_ok (this :: anc)); [|simpl; lia].
    rewrite (has_ancestors_keeps _ c sl s5); [done|].
    apply keeps_shape_parent. by eapply keeps_trans. }
  rewrite Hrun6. cbn [mbind option_bind].
  assert (Hk46 : keeps mark_world s4 s6)
    by exact (keeps_trans _ _ _ _ Hk5 (keeps_boundary_world _ _ Hk6)).
  assert (exists me6, deref this s6 = Some me6 /\
            boundary_view me6 = boundary_view me1) as (me6 & Hthis6 & Hme6).
  { pose proof (Hk6 this) as Hv.
    rewrite (_setWorldMatrixDirty_outside fuel c s4 s5 this Hrun5 Hnd4),
      Hthis4 in Hv.
    destruct (deref this s6) as [me6|]; [|done].
    exists me6. split; [done|]. simpl in Hv. by apply (inj Some) in Hv. }
  destruct (Hdesc5 c (descendant_self _ _)) as (oc5 & Hc5 & Hdc5).
  destruct (Hd6 c oc5 Hc5 Hdc5) as (oc6 & Hc6 & Hdc6).
  destruct (only_objs_scenes_diag _ _ Ho5) as [Hsc5 Hdg5].
  destruct (outside_scenes_diag _ _ Ho6) as [Hsc6 Hdg6].
  assert (Hreg : forall i,
    registers <$> scenes s6 !! i = registers <$> scenes sl !! i).
  { intros i. rewrite Hsc6, Hsc5. apply Ho4. }
  pose proof (Hreg (scene me)) as Hregme.
  change (scenes sl) with (<[scene me := scL]> (scenes s)) in Hregme.
  rewrite lookup_insert_eq in Hregme.
  destruct (scenes s6 !! scene me) as [sc6|] eqn:Hsc6me; [|done].
  exists s6, me6, oc6, oc4, sc6. split; [done|]. split_and!; try done.
  - pose proof (Hk46 c) as Hv. rewrite Hc6, Hc4 in Hv. simpl in Hv.
    by apply (inj Some) in Hv.
  - intros m Hm.
    destruct (Hdesc5 m) as (om5 & Hm5 & Hdm5).
    { eapply descendant_keeps; [by apply keeps_shape_childList, Hks4|].
      by apply Hdesc. }
    by apply (Hd6 m om5).
  - intros m Hm Hmc. rewrite (Hk46 m).
    pose proof (keeps_bare_mark_world _ _ Hkb4 m) as Hv.
    rewrite <- !option_fmap_compose. unfold compose at 1. etrans; [exact Hv|].
    rewrite HLrest; [done| |done]. intros ->. by apply Hnd.
  - intros m Hm Hmt.
    assert (Hmc : m <> c) by (intros ->; apply Hm; constructor).
    assert (HmL : ~ descendant sl c m) by by rewrite Hdesc.
    rewrite (Hk6 m).
    rewrite (_setWorldMatrixDirty_outside fuel c s4 s5 m Hrun5).
    + rewrite Hout4 by done. by rewrite HLrest.
    + apply (not_descendant_keeps sl); [|done].
      by apply keeps_shape_childList.
  - intros m Hmt Hmc. rewrite <- (HLrest m Hmt Hmc).
    apply (keeps_trans _ _ _ _ Hks4). by apply keeps_world_shape.
  - simpl in Hregme. apply (inj Some) in Hregme. by rewrite Hregme.
  - intros i Hi. rewrite Hreg.
    change (scenes sl) with (<[scene me := scL]> (scenes s)).
    by rewrite lookup_insert_ne.
  - rewrite Hdg6, Hdg5. by rewrite (outer_diag _ _ Ho4).
Qed.

Lemma keeps_boundary_world_obj (a b : Obj (T:=T)) :
  boundary_view a = boundary_view b -> mark_world a = mark_world b.
Proof.
  intros Heq. apply (f_equal mark_world) in Heq.
  unfold boundary_view in Heq. by destruct (_aabbDirty a), (_aabbDirty b).
Qed.

Lemma mark_world_flag fl (a b : Obj (T:=T)) :
  mark_world a = mark_world b -> get_flag fl a = get_flag fl b.
Proof.
  intros Heq.
  destruct fl;
    lazymatch goal with
    | |- get_flag ?f _ = _ => exact (f_equal (get_flag f) Heq)
    end.
Qed.

Lemma bare_parent_flag (a b : Obj (T:=T)) :
  bare a = bare b -> _parent a = _parent b /\ _childList a = _childList b.
Proof.
  intros Heq. split;
    [exact (f_equal _parent Heq)|exact (f_equal _childList Heq)].
Qed.

(** X13.  [addChild] hangs a root under its new parent: given a root
    [c] of the same scene that is not above [this] in the hierarchy,
    [this.addChild(c)] returns [c]; afterwards [c] is the last element of
    the parent's child list and is in its child map under its id, the
    parent of [c] is [this], [c] is off the root objects of the scene, the
    World matrix of [c] is marked dirty, nothing was reported, and every
    other object hangs where it hung. *)
Theorem addChild_hangs_a_root_under_its_parent
    fuel this c me oc sc anc inh s :
  deref this s = Some me -> deref c s = Some oc ->
  _parent oc = None -> scene oc = scene me ->
  scenes s !! scene me = Some sc ->
  ~ descendant s c this -> subtree_ok fuel c s = true ->
  has_ancestors s this anc = true -> c ∉ anc -> length anc + 1 < fuel ->
  housed s -> (inh <> Some false -> is_Some (_colorize me)) ->
  exists s' me' oc' sc',
    addChild fuel this (ArgObject c) inh s = Some (Some c, s') /\
    deref this s' = Some me' /\
    _childList me' = (_childList me ++ [c])%list /\
    _childMap me' = <[id oc := c]> (_childMap me) /\
    _parent me' = _parent me /\
    deref c s' = Some oc' /\
    _parent oc' = Some this /\ _childList oc' = _childList oc /\
    _worldMatrixDirty oc' = true /\
    scenes s' !! scene me = Some sc' /\
    rootObjects sc' = delete (id oc) (rootObjects sc) /\
    objects sc' = objects sc /\
    diag s' = diag s /\
    (forall m, m <> this -> m <> c ->
       shape <$> deref m s' = shape <$> deref m s).
Proof.
  intros Hthis Hc Hroot Hscene Hsc Hnd Hsub Hanc Hcanc Hfuel Hh Hcol.
  destruct (addChild_root_spec fuel this c me oc sc anc inh s)
    as (s' & me' & oc' & oc4 & sc' & Hrun & Hthis' & Hc' & Hme' & Hoc' & Hd'
        & Hb4 & _ & _ & _ & _ & _ & Hshape & Hsc' & Hreg & _ & Hdiag);
    try done.
  apply keeps_boundary_world_obj in Hme'.
  exists s', me', oc', sc'. split_and!; try done.
  - exact (f_equal _childList Hme').
  - exact (f_equal _childMap Hme').
  - exact (f_equal _parent Hme').
  - transitivity (_parent oc4); [exact (f_equal _parent Hoc')|].
    exact (f_equal _parent Hb4).
  - transitivity (_childList oc4); [exact (f_equal _childList Hoc')|].
    exact (f_equal _childList Hb4).
  - by apply all_dirty_world in Hd' as (? & _).
  - by injection Hreg.
  - by injection Hreg.
Qed.

(** X14.  What [addChild] hands down: unless [inheritStates] is
    [false], the child that was added has the parent's [visible], [culled],
    [ghosted], [selected], [outlined], [clippable], [pickable],
    [collidable], [castShadow] and [receiveShadow], its colour and its
    opacity, while [highlighted] is as it was on the child (the parent's
    value goes to a property [highlited]); with [inheritStates] false every
    state of the child is as it was. *)
Theorem addChild_hands_down_the_states fuel this c me oc sc anc inh s :
  deref this s = Some me -> deref c s = Some oc ->
  _parent oc = None -> scene oc = scene me ->
  scenes s !! scene me = Some sc ->
  ~ descendant s c this -> subtree_ok fuel c s = true ->
  has_ancestors s this anc = true -> c ∉ anc -> length anc + 1 < fuel ->
  housed s -> (inh <> Some false -> is_Some (_colorize me)) ->
  exists s' oc',
    addChild fuel this (ArgObject c) inh s = Some (Some c, s') /\
    deref c s' = Some oc' /\
    (inh <> Some false ->
       (forall fl, fl <> Highlighted -> get_flag fl oc' = get_flag fl me) /\
       colorize oc' = colorize me /\ opacity oc' = opacity me /\
       get_flag Highlighted oc' = get_flag Highlighted oc /\
       highlited oc' = Some (_highlighted me)) /\
    (inh = Some false ->
       (forall fl, get_flag fl oc' = get_flag fl oc) /\
       _colorize oc' = _colorize oc /\ highlited oc' = highlited oc).
Proof.
  intros Hthis Hc Hroot Hscene Hsc Hnd Hsub Hanc Hcanc Hfuel Hh Hcol.
  destruct (addChild_root_spec fuel this c me oc sc anc inh s)
    as (s' & me' & oc' & oc4 & sc' & Hrun & Hthis' & Hc' & Hme' & Hoc' & Hd'
        & Hb4 & Hoff & Hon & _); try done.
  exists s', oc'. split_and!; try done.
  - intros Hinh. destruct (Hon Hinh) as (Hfl & Hhl & Hlit & Hco & Hop).
    split_and!.
    + intros fl Hne. rewrite (mark_world_flag fl _ _ Hoc'). by apply Hfl.
    + rewrite <- Hco. exact (f_equal colorize Hoc').
    + rewrite <- Hop. exact (f_equal opacity Hoc').
    + by rewrite (mark_world_flag Highlighted _ _ Hoc').
    + rewrite <- Hlit. exact (f_equal highlited Hoc').
  - intros Hinh. rewrite (Hoff Hinh) in Hoc'. split_and!.
    + intros fl. rewrite (mark_world_flag fl _ _ Hoc'). by destruct fl.
    + exact (f_equal _colorize Hoc').
    + exact (f_equal highlited Hoc').
Qed.

(** X15.  [addChild] keeps the hierarchy sound: if every object is listed
    by its parent and the cached World matrices are coherent, they are so
    again after a root has been added under a parent. *)
Theorem addChild_keeps_the_hierarchy_sound fuel this c me oc sc anc inh s :
  deref this s = Some me -> deref c s = Some oc ->
  _parent oc = None -> scene oc = scene me ->
  scenes s !! scene me = Some sc ->
  ~ descendant s c this -> subtree_ok fuel c s = true ->
  has_ancestors s this anc = true -> c ∉ anc -> length anc + 1 < fuel ->
  housed s -> (inh <> Some false -> is_Some (_colorize me)) ->
  listed s -> coherent composeMat4 mulMat4 s ->
  exists s',
    addChild fuel this (ArgObject c) inh s = Some (Some c, s') /\
    listed s' /\ coherent composeMat4 mulMat4 s'.
Proof.
  intros Hthis Hc Hroot Hscene Hsc Hnd Hsub Hanc Hcanc Hfuel Hh Hcol Hl Hco.
  destruct (addChild_root_spec fuel this c me oc sc anc inh s)
    as (s' & me' & oc' & oc4 & sc' & Hrun & Hthis' & Hc' & Hme' & Hoc' & Hd'
        & Hb4 & _ & _ & Hin & _ & Hout & Hshape & _); try done.
  assert (Hne : c <> this) by (intros ->; apply Hnd; constructor).
  pose proof (keeps_boundary_world_obj _ _ Hme') as Hme''.
  assert (Hcl' : _childList me' = (_childList me ++ [c])%list)
    by exact (f_equal _childList Hme'').
  assert (Hpar' : _parent me' = _parent me) by exact (f_equal _parent Hme'').
  assert (Hcpar : _parent oc' = Some this).
  { transitivity (_parent oc4); [exact (f_equal _parent Hoc')|].
    exact (f_equal _parent Hb4). }
  assert (Hccl : _childList oc' = _childList oc).
  { transitivity (_childList oc4); [exact (f_equal _childList Hoc')|].
    exact (f_equal _childList Hb4). }
  exists s'. split; [done|]. split.
  - intros m om' Hm'. change (deref m s' = Some om') in Hm'.
    unfold linked. destruct (_parent om') as [p|] eqn:Hp; [|done].
    assert (forall q x, x ∈ default [] (_childList <$> deref q s) ->
              x ∈ default [] (_childList <$> deref q s')) as Hmore.
    { intros q x Hx. destruct (decide (q = this)) as [->|Hqt].
      { rewrite Hthis', Hthis in *. simpl in *. rewrite Hcl'.
        apply elem_of_app. by left. }
      destruct (decide (q = c)) as [->|Hqc].
      { rewrite Hc', Hc in *. simpl in *. by rewrite Hccl. }
      pose proof (Hshape q Hqt Hqc) as Hv.
      destruct (deref q s') as [a|], (deref q s) as [b|]; simplify_eq/=;
        try done.
      congruence. }
    destruct (decide (m = c)) as [->|Hmc].
    { rewrite Hc' in Hm'. simplify_eq. rewrite Hthis'.
      apply bool_decide_eq_true. rewrite Hcl'. apply elem_of_app.
      right. by left. }
    assert (exists om, deref m s = Some om /\ _parent om = Some p)
      as (om & Hm & Hpm).
    { destruct (decide (m = this)) as [->|Hmt].
      - rewrite Hthis' in Hm'. simplify_eq. exists me. split; congruence.
      - pose proof (Hshape m Hmt Hmc) as Hv. rewrite Hm' in Hv.
        destruct (deref m s) as [om|]; [|done]. exists om. split; [done|].
        simpl in Hv. apply (inj Some) in Hv. injection Hv as Hv _ _.
        congruence. }
    destruct (listed_parent s m om p Hl Hm Hpm) as (po & Hpo & Hin0).
    specialize (Hmore p m). rewrite Hpo in Hmore. simpl in Hmore.
    specialize (Hmore Hin0).
    destruct (deref p s') as [po'|]; [|by apply elem_of_nil in Hmore].
    by apply bool_decide_eq_true.
  - apply (coherent_after_cached s s' c); try done.
    + intros m Hm. destruct (Hin m Hm) as (om & Hom & Hd).
      apply all_dirty_world in Hd as (? & _). eauto.
    + intros m Hm. destruct (decide (m = this)) as [->|Hmt].
      * rewrite Hthis', Hthis. simpl. f_equal.
        rewrite <- (cached_boundary me'), Hme', cached_boundary. done.
      * by apply boundary_cached, Hout.
Qed.

(** *** Giving up, and removing *)



Lemma find_child_stranger i l s :
  Forall (fun c => exists oc, deref c s = Some oc /\ id oc <> i) l ->
  find_child i l s = Some None.
Proof.
  induction 1 as [|c l (oc & Hc & Hid) _ IH]; [done|]. simpl.
  rewrite Hc. simpl. by rewrite decide_False.
Qed.

(** X20.  [removeChild] of an object that is not a child does nothing:
    when no element of the child list has the id of the object, the store
    is as before, nothing is reported and no event is fired, whatever the
    depth of the hierarchy. *)
Theorem removeChild_of_a_stranger_does_nothing fuel this object me o s :
  deref this s = Some me -> deref object s = Some o ->
  Forall (fun c => exists oc, deref c s = Some oc /\ id oc <> id o)
    (_childList me) ->
  removeChild fuel this object s = Some s.
Proof.
  intros Hthis Ho Hall. unfold removeChild. rewrite Ho, Hthis. simpl.
  by rewrite (find_child_stranger _ _ _ Hall).
Qed.

Lemma subtree_ok_mono k : forall n s,
  subtree_ok k n s = true -> subtree_ok (S k) n s = true.
Proof.
  induction k as [|k IH]; intros n s Hok; [done|].
  simpl in Hok. change (subtree_ok (S (S k)) n s)
    with (match deref n s with
          | None => false
          | Some o => forallb (fun c => subtree_ok (S k) c s) (_childList o)
          end).
  destruct (deref n s) as [o|]; [|done].
  induction (_childList o) as [|c l IHl]; [done|]. simpl in *.
  apply andb_prop in Hok as [Hc Hl]. by rewrite (IH c s Hc), IHl.
Qed.

Lemma subtree_ok_not_self k : forall n s o,
  subtree_ok k n s = true -> deref n s = Some o -> n ∉ _childList o.
Proof.
  induction k as [|k IH]; intros n s o Hok Hn Hin; [done|].
  simpl in Hok. rewrite Hn in Hok.
  assert (Hk : subtree_ok k n s = true).
  { clear Hn. induction (_childList o) as [|c l IHl];
      [by apply elem_of_nil in Hin|].
    simpl in Hok. apply andb_prop in Hok as [Hc Hl].
    apply elem_of_cons in Hin as [->|Hin]; auto. }
  by apply (IH n s o Hk Hn).
Qed.

Lemma chain_ok_cut k : forall (q : option ref) s s',
  (forall m, _parent <$> deref m s' = _parent <$> deref m s \/
             _parent <$> deref m s' = (fun _ => None) <$> deref m s) ->
  chain_ok k q s = true -> chain_ok k q s' = true.
Proof.
  induction k as [|k IH]; intros [r|] s s' Hcut Hok; try done.
  simpl in *. destruct (deref r s) as [o|] eqn:Hr; [|done].
  destruct (Hcut r) as [Hv|Hv]; rewrite Hr in Hv;
    destruct (deref r s') as [o'|]; simplify_eq/=.
  - rewrite Hv. by apply (IH _ s).
  - rewrite Hv. by destruct k.
Qed.

Lemma keeps_orphaned_shape s s' :
  keeps orphaned s s' ->
  keeps (fun o => (id o, _childList o, scene o)) s s'.
Proof.
  by apply (keeps_weaken orphaned (fun o => (id o, _childList o, scene o))
              (fun o => (id o, _childList o, scene o))).
Qed.

Lemma keeps_orphaned_childList s s' :
  keeps orphaned s s' -> keeps _childList s s'.
Proof. by apply (keeps_weaken orphaned _childList _childList). Qed.

Lemma keeps_mark_world_orphaned s s' :
  keeps mark_world s s' -> keeps orphaned s s'.
Proof.
  by apply (keeps_weaken mark_world orphaned (fun o => with_parent None o)).
Qed.

(** One turn of the loop of [removeChildren]. *)
Lemma removeChildren_turn fuel this c me oc sc s :
  deref this s = Some me -> deref c s = Some oc ->
  scenes s !! scene me = Some sc -> subtree_ok fuel c s = true ->
  exists s' oc',
    (s1 ← modify c (with_parent None) s;
     s2 ← modify_scene this (fun sc =>
            with_rootObjects (<[id oc := c]> (rootObjects sc)) sc) s1;
     s3 ← _setWorldMatrixDirty fuel c s2;
     _setBoundaryDirty fuel c s3) = Some s' /\
    keeps orphaned s s' /\
    (forall m, m <> c -> _parent <$> deref m s' = _parent <$> deref m s) /\
    deref c s' = Some oc' /\ _parent oc' = None /\
    scenes s' = <[scene me := with_rootObjects
                                (<[id oc := c]> (rootObjects sc)) sc]>
                  (scenes s) /\
    diag s' = diag s.
Proof.
  intros Hthis Hc Hsc Hsub. unfold modify. rewrite Hc.
  cbn [mbind option_bind].
  set (sa := store c (with_parent None oc) s).
  assert (Hka : keeps orphaned s sa) by by apply (keeps_store _ c oc).
  assert (exists me', deref this sa = Some me' /\ scene me' = scene me)
    as (me' & Hthis' & Hscene').
  { destruct (decide (this = c)) as [->|Hne].
    - exists (with_parent None oc). split; [apply deref_store_eq|].
      by simplify_eq.
    - exists me. split; [|done]. unfold sa. by rewrite deref_store_ne. }
  unfold modify_scene. rewrite Hthis'. cbn [mbind option_bind].
  rewrite Hscene'. change (scenes sa) with (scenes s). rewrite Hsc.
  cbn [mbind option_bind].
  match goal with
  | |- context [_setWorldMatrixDirty fuel c ?x] => set (sb := x)
  end.
  assert (Hkb : keeps orphaned s sb) by done.
  destruct (_setWorldMatrixDirty_spec fuel c sb)
    as (s3 & -> & Hk3 & Hd3 & Ho3 & _).
  { by rewrite (subtree_ok_keeps fuel c s sb (keeps_orphaned_childList _ _ Hkb)). }
  cbn [mbind option_bind].
  destruct (_setBoundaryDirty_spec fuel c s3) as (s4 & -> & Hk4 & Hd4 & Ho4).
  { rewrite (subtree_ok_keeps fuel c sb s3 (keeps_childList _ _ Hk3)).
    by rewrite (subtree_ok_keeps fuel c s sb (keeps_orphaned_childList _ _ Hkb)). }
  { destruct fuel as [|fuel]; [done|]. simpl.
    destruct (keeps_lookup _ _ _ _ _ (keeps_world_shape _ _ Hk3)
                (deref_store_eq c (with_parent None oc) s)) as (o3 & -> & Hv).
    injection Hv as -> _ _. by destruct fuel. }
  assert (Hk24 : keeps mark_world sb s4)
    by exact (keeps_trans _ _ _ _ Hk3 (keeps_boundary_world _ _ Hk4)).
  destruct (keeps_lookup _ _ _ _ _ (keeps_world_shape _ _ Hk24)
              (deref_store_eq c (with_parent None oc) s)) as (o4 & Hc4 & Hv4).
  exists s4, o4. split; [done|]. split_and!.
  - eapply keeps_trans; [exact Hkb|]. by apply keeps_mark_world_orphaned.
  - intros m Hm.
    rewrite (keeps_shape_parent _ _ (keeps_world_shape _ _ Hk24) m).
    change (deref m sb) with (deref m sa). unfold sa.
    by rewrite deref_store_ne.
  - done.
  - by injection Hv4.
  - destruct (outside_scenes_diag _ _ Ho4) as [-> _].
    by destruct (only_objs_scenes_diag _ _ Ho3) as [-> _].
  - destruct (outside_scenes_diag _ _ Ho4) as [_ ->].
    by destruct (only_objs_scenes_diag _ _ Ho3) as [_ ->].
Qed.

Lemma enrolled_keeps s s' l : forall roots,
  keeps id s s' -> enrolled s' l roots = enrolled s l roots.
Proof.
  intros roots Hk. revert roots. induction l as [|c l IH]; intros roots; [done|].
  simpl. pose proof (Hk c) as Hv.
  destruct (deref c s') as [a|], (deref c s) as [b|]; simplify_eq/=;
    try done.
  by rewrite Hv.
Qed.

Lemma with_rootObjects_same (sc : Scene) :
  with_rootObjects (rootObjects sc) sc = sc.
Proof. by destruct sc. Qed.

Lemma removeChildren_loop fuel this i : forall l s sc,
  (exists me, deref this s = Some me /\ scene me = i) ->
  scenes s !! i = Some sc ->
  Forall (fun c => subtree_ok fuel c s = true) l ->
  exists s1,
    for_each (fun object s =>
      o ← deref object s;
      s1 ← modify object (with_parent None) s;
      s2 ← modify_scene this (fun sc =>
             with_rootObjects (<[id o := object]> (rootObjects sc)) sc) s1;
      s3 ← _setWorldMatrixDirty fuel object s2;
      _setBoundaryDirty fuel object s3) l s = Some s1 /\
    keeps orphaned s s1 /\
    (forall m, m ∉ l -> _parent <$> deref m s1 = _parent <$> deref m s) /\
    (forall c, c ∈ l -> exists oc', deref c s1 = Some oc' /\ _parent oc' = None) /\
    scenes s1 = <[i := with_rootObjects (enrolled s l (rootObjects sc)) sc]>
                  (scenes s) /\
    diag s1 = diag s.
Proof.
  induction l as [|c l IH]; intros s sc (me & Hthis & Hscene) Hsc Hall.
  - exists s. simpl. split_and!; try done.
    + intros c Hc. by apply elem_of_nil in Hc.
    + rewrite with_rootObjects_same. by rewrite insert_id.
  - inversion_clear Hall as [|? ? Hc Hl]. cbn [for_each].
    destruct (deref c s) as [oc|] eqn:Hcs;
      [|by destruct fuel; simpl in Hc; rewrite ?Hcs in Hc].
    cbn [mbind option_bind]. subst i.
    destruct (removeChildren_turn fuel this c me oc sc s)
      as (s' & oc' & -> & Hk' & Hpar' & Hc' & Hnone' & Hsc' & Hdiag');
      try done.
    cbn [mbind option_bind].
    pose proof (keeps_orphaned_shape _ _ Hk') as Hks'.
    destruct (IH s' (with_rootObjects (<[id oc := c]> (rootObjects sc)) sc))
      as (s1 & -> & Hk1 & Hpar1 & Hnone1 & Hsc1 & Hdiag1).
    { destruct (keeps_lookup _ _ _ _ _ Hks' Hthis) as (me' & Hthis' & Hv).
      exists me'. split; [done|]. by injection Hv. }
    { rewrite Hsc'. apply lookup_insert_eq. }
    { eapply Forall_impl; [|exact Hl]. intros x Hx. simpl in Hx.
      by rewrite (subtree_ok_keeps fuel x s s'
                    (keeps_orphaned_childList _ _ Hk')). }
    exists s1. split; [done|]. split_and!.
    + by eapply keeps_trans.
    + intros m Hm. apply not_elem_of_cons in Hm as [Hmc Hml].
      rewrite Hpar1 by done. by apply Hpar'.
    + intros x Hx. destruct (decide (x ∈ l)) as [Hin|Hnin]; [by apply Hnone1|].
      apply elem_of_cons in Hx as [->|Hx]; [|done].
      pose proof (Hpar1 c Hnin) as Hv. rewrite Hc' in Hv.
      destruct (deref c s1) as [o1|]; [|done].
      exists o1. split; [done|]. simpl in Hv. apply (inj Some) in Hv.
      congruence.
    + rewrite Hsc1, Hsc', insert_insert_eq. simpl. rewrite Hcs.
      rewrite (enrolled_keeps s s'); [by destruct sc|].
      eapply keeps_weaken with (g := fun v : _ * list ref * _ => v.1.1);
        [|exact Hks']. done.
    + congruence.
Qed.

(** X21.  [removeChildren] detaches every child: on a hierarchy
    of bounded depth it returns, the object has no children left (an empty
    list and an empty map), every former child has no parent and is entered
    among the root objects of the scene under its id, the object keeps its
    own parent, every other object hangs where it hung, and nothing is
    reported. *)
Theorem removeChildren_detaches_every_child fuel this me sc s :
  deref this s = Some me -> scenes s !! scene me = Some sc ->
  subtree_ok fuel this s = true -> chain_ok fuel (Some this) s = true ->
  exists s' me' sc',
    removeChildren fuel this s = Some s' /\
    deref this s' = Some me' /\
    _childList me' = [] /\ _childMap me' = ∅ /\ _parent me' = _parent me /\
    (forall c, c ∈ _childList me ->
       exists oc', deref c s' = Some oc' /\ _parent oc' = None) /\
    scenes s' !! scene me = Some sc' /\
    rootObjects sc' = enrolled s (_childList me) (rootObjects sc) /\
    (forall m, m <> this -> m ∉ _childList me ->
       shape <$> deref m s' = shape <$> deref m s) /\
    diag s' = diag s.
Proof.
  intros Hthis Hsc Hsub Hchain. unfold removeChildren. rewrite Hthis.
  cbn [mbind option_bind].
  pose proof (subtree_ok_not_self fuel this s me Hsub Hthis) as Hself.
  destruct (removeChildren_loop fuel this (scene me) (_childList me) s sc)
    as (s1 & -> & Hk1 & Hpar1 & Hnone1 & Hsc1 & Hdiag1); try done.
  { by exists me. }
  { destruct fuel as [|fuel]; [done|]. simpl in Hsub. rewrite Hthis in Hsub.
    apply Forall_forall. intros c Hc. apply subtree_ok_mono.
    rewrite forallb_forall in Hsub. by apply Hsub. }
  cbn [mbind option_bind].
  pose proof (keeps_orphaned_shape _ _ Hk1) as Hks1.
  destruct (keeps_lookup _ _ _ _ _ Hk1 Hthis) as (me1 & Hthis1 & Hv1).
  pose proof (Hpar1 this Hself) as Hp1. rewrite Hthis1, Hthis in Hp1.
  simpl in Hp1. apply (inj Some) in Hp1.
  unfold modify. rewrite Hthis1. cbn [mbind option_bind].
  set (me2 := with_childIDs None (with_childMap ∅ (with_childList [] me1))).
  set (s2 := store this me2 s1).
  destruct (_setBoundaryDirty_spec fuel this s2) as (s3 & -> & Hk3 & Hd3 & Ho3).
  { destruct fuel as [|fuel]; [done|]. simpl. unfold s2.
    by rewrite deref_store_eq. }
  { apply (chain_ok_cut fuel (Some this) s); [|done]. intros m.
    destruct (decide (m = this)) as [->|Hmt].
    { left. unfold s2. rewrite deref_store_eq, Hthis. simpl. by rewrite Hp1. }
    unfold s2. rewrite deref_store_ne by done.
    destruct (decide (m ∈ _childList me)) as [Hin|Hnin]; [|left; by apply Hpar1].
    right. destruct (Hnone1 m Hin) as (om & Hom & Hnone). rewrite Hom.
    simpl. rewrite Hnone.
    pose proof (Hks1 m) as Hv. rewrite Hom in Hv.
    by destruct (deref m s). }
  destruct (outside_scenes_diag _ _ Ho3) as [Hsc3 Hdg3].
  pose proof (keeps_boundary_world _ _ Hk3) as Hkw3.
  destruct (keeps_lookup _ _ _ _ _ Hkw3 (deref_store_eq this me2 s1))
    as (me3 & Hthis3 & Hv3).
  eexists s3, me3, _. split; [done|]. split; [done|]. split_and!.
  - exact (f_equal _childList Hv3).
  - exact (f_equal _childMap Hv3).
  - rewrite <- Hp1. exact (f_equal _parent Hv3).
  - intros c Hc. destruct (Hnone1 c Hc) as (oc1 & Hc1 & Hnone).
    assert (c <> this) as Hct by (intros ->; by apply Hself).
    pose proof (Hkw3 c) as Hv. unfold s2 in Hv.
    rewrite deref_store_ne, Hc1 in Hv by done.
    destruct (deref c s3) as [oc3|]; [|done]. exists oc3. split; [done|].
    simpl in Hv. apply (inj Some) in Hv. rewrite <- Hnone.
    exact (f_equal _parent Hv).
  - rewrite Hsc3. change (scenes s2) with (scenes s1). rewrite Hsc1.
    apply lookup_insert_eq.
  - done.
  - intros m Hmt Hmc. pose proof (keeps_world_shape _ _ Hkw3 m) as Hv.
    unfold s2 in Hv. rewrite deref_store_ne in Hv by done. rewrite Hv.
    pose proof (Hks1 m) as Hv'. pose proof (Hpar1 m Hmc) as Hp.
    destruct (deref m s1) as [a|], (deref m s) as [b|]; simplify_eq/=;
      try done.
    unfold shape. congruence.
  - rewrite Hdg3. change (diag s2) with (diag s1). done.
Qed.

(** An object that no object lists as a child is below itself only. *)
Lemma unlisted_not_descendant s n c :
  n <> c -> map_Forall (fun _ o => c ∉ _childList o) (objs s) ->
  ~ descendant s n c.
Proof.
  intros Hne Hall Hd. inversion Hd as [|m o c' _ Hm Hc]; subst; [done|].
  by apply (Hall m o Hm).
Qed.

(** *** What a run that returns has left alone *)

Section Frame.
Context {A : Type} (view : Obj (T:=T) -> A).
Hypothesis view_flag : forall fl b o, view (put_flag fl b o) = view o.

Lemma set_flag_frame fuel fl : forall v n s s',
  set_flag fuel fl v n s = Some s' -> keeps view s s'.
Proof using view_flag.
  induction fuel as [|fuel IH]; intros v n s s' Hrun; [by simpl in Hrun|].
  simpl in Hrun. apply bind_Some in Hrun as (o & Ho & Hrun).
  apply bind_Some in Hrun as (s1 & Hs1 & Hrun).
  eapply keeps_trans;
    [apply (keeps_store _ n o (put_flag fl (flag_value fl v) o));
     [done|by rewrite view_flag]|].
  eapply keeps_trans;
    [eapply keeps_for_each; [|exact Hs1]; intros c s2 s3; apply IH|].
  destruct (flag_hook fl); [|simplify_eq; apply keeps_refl].
  apply bind_Some in Hrun as (o1 & Ho1 & Hrun).
  destruct (etruthy (_entityType _)); [|simplify_eq; apply keeps_refl].
  by eapply keeps_modify_scene.
Qed.

End Frame.

(** *** A hierarchy with a cycle *)

Lemma forallb_agree {B : Type} (f g : B -> bool) (l : list B) :
  (forall x, f x = g x) -> forallb f l = forallb g l.
Proof.
  intros Hfg. induction l as [|x l IH]; [done|]. simpl. by rewrite Hfg, IH.
Qed.

Lemma for_each_bounded (body : ref -> State -> option State) k l :
  (forall c s s', body c s = Some s' -> subtree_ok k c s = true) ->
  (forall c s s', body c s = Some s' -> keeps _childList s s') ->
  forall s s', for_each body l s = Some s' ->
    forallb (fun c => subtree_ok k c s) l = true.
Proof.
  intros Hok Hk. induction l as [|c l IH]; intros s s' Hrun; [done|].
  simpl in Hrun. apply bind_Some in Hrun as (s1 & Hc & Hrun). simpl.
  rewrite (Hok c s s1 Hc). simpl.
  rewrite <- (IH s1 s' Hrun). apply forallb_agree. intros x.
  symmetry. apply subtree_ok_keeps. by eapply Hk.
Qed.

Lemma forallb_subtree_ok_store k n o o' l s :
  deref n s = Some o -> _childList o' = _childList o ->
  forallb (fun c => subtree_ok k c (store n o' s)) l
  = forallb (fun c => subtree_ok k c s) l.
Proof.
  intros Hn Hl. apply forallb_agree. intros x. apply subtree_ok_keeps.
  by apply (keeps_store _ n o).
Qed.

(** A recursive setter returns on hierarchies of bounded depth only. *)
Lemma set_flag_bounded fuel fl : forall v n s s',
  set_flag fuel fl v n s = Some s' -> subtree_ok fuel n s = true.
Proof.
  induction fuel as [|fuel IH]; intros v n s s' Hrun; [by simpl in Hrun|].
  simpl in Hrun. apply bind_Some in Hrun as (o & Ho & Hrun).
  apply bind_Some in Hrun as (s1 & Hs1 & _). simpl. rewrite Ho.
  rewrite <- (forallb_subtree_ok_store fuel n o
                (put_flag fl (flag_value fl v) o)); [|done|by destruct fl].
  eapply for_each_bounded; [| |exact Hs1].
  - intros c s2 s3. apply IH.
  - intros c s2 s3. apply set_flag_frame. by intros []; intros.
Qed.

Lemma _setWorldMatrixDirty_bounded fuel : forall n s s',
  _setWorldMatrixDirty fuel n s = Some s' -> subtree_ok fuel n s = true.
Proof.
  induction fuel as [|fuel IH]; intros n s s' Hrun; [by simpl in Hrun|].
  simpl in Hrun. apply bind_Some in Hrun as (o & Ho & Hrun). simpl.
  rewrite Ho.
  rewrite <- (forallb_subtree_ok_store fuel n o (mark_world o)); [|done..].
  eapply for_each_bounded; [| |exact Hrun].
  - intros c s2 s3. apply IH.
  - intros c s2 s3 Hc.
    by eapply keeps_childList, _setWorldMatrixDirty_keeps.
Qed.

Lemma subtree_ok_below k n s m :
  subtree_ok k n s = true -> descendant s n m ->
  exists j, j <= k /\ subtree_ok j m s = true.
Proof.
  intros Hok Hd. induction Hd as [|m o c _ IH Hm Hc]; [by exists k|].
  destruct IH as (j & Hj & Hokm). destruct j as [|j]; [done|].
  simpl in Hokm. rewrite Hm in Hokm. rewrite forallb_forall in Hokm.
  exists j. split; [lia|]. by apply Hokm, list_elem_of_In.
Qed.

(** No bound fits an object that is a child of an object below it. *)
Lemma cycle_unbounded s c this me :
  descendant s c this -> deref this s = Some me -> c ∈ _childList me ->
  forall k, subtree_ok k c s = false.
Proof.
  intros Hd Hme Hc k. induction k as [k IH] using lt_wf_ind.
  destruct (subtree_ok k c s) eqn:Hok; [exfalso|done].
  destruct (subtree_ok_below k c s this Hok Hd) as (j & Hj & Hokt).
  destruct j as [|j]; [done|]. simpl in Hokt. rewrite Hme in Hokt.
  rewrite forallb_forall in Hokt.
  specialize (Hokt c ltac:(by apply list_elem_of_In)).
  rewrite (IH j) in Hokt; [done|lia].
Qed.

Lemma descendant_grow s s' n m :
  (forall x o, deref x s = Some o ->
     exists o', deref x s' = Some o' /\ _childList o ⊆ _childList o') ->
  descendant s n m -> descendant s' n m.
Proof.
  intros Hg Hd. induction Hd as [|m o c _ IH Hm Hc]; [constructor|].
  destruct (Hg m o Hm) as (o' & Hm' & Hsub).
  eapply descendant_child; [done..|]. by apply Hsub.
Qed.

(** X17.  [addChild] does not guard against cycles: called to add an
    object of the same scene that has no parent and is the parent-to-be
    itself, or is above it in the hierarchy, it never returns, whatever
    depth of recursion is allowed: the descent through the children, which
    now lead back to the object, has no end. *)
Theorem addChild_of_an_ancestor_never_returns fuel this c me oc inh s :
  deref this s = Some me -> deref c s = Some oc ->
  _parent oc = None -> scene oc = scene me ->
  descendant s c this ->
  addChild fuel this (ArgObject c) inh s = None.
Proof.
  intros Hme Hoc Hpar Hscene Hd. unfold addChild. rewrite Hoc.
  cbn [mbind option_bind]. rewrite Hpar. unfold attach. rewrite Hoc, Hme.
  cbn [mbind option_bind]. rewrite decide_True by done.
  destruct (modify_scene this _ s) as [s1|] eqn:Hs1; [|done].
  cbn [mbind option_bind].
  assert (Hobjs1 : objs s1 = objs s).
  { unfold modify_scene in Hs1. apply bind_Some in Hs1 as (o & _ & Hs1).
    apply bind_Some in Hs1 as (sc & _ & Hs1). by simplify_eq. }
  assert (Hd1 : forall x, deref x s1 = deref x s)
    by (intros x; unfold deref; by rewrite Hobjs1).
  unfold modify. rewrite (Hd1 this), Hme. cbn [mbind option_bind].
  set (me2 := with_childIDs None _).
  set (s2 := store this me2 s1).
  destruct (deref c s2) as [oc2|] eqn:Hoc2; [|done].
  cbn [mbind option_bind].
  set (s3 := store c (with_parent (Some this) oc2) s2).
  assert (Hgrow : forall x o, deref x s = Some o ->
            exists o', deref x s3 = Some o' /\ _childList o ⊆ _childList o').
  { intros x o Hx. unfold s3.
    destruct (decide (x = c)) as [->|Hxc].
    - rewrite deref_store_eq. eexists. split; [done|].
      change (_childList (with_parent (Some this) oc2)) with (_childList oc2).
      unfold s2 in Hoc2. destruct (decide (c = this)) as [->|Hct].
      + rewrite deref_store_eq in Hoc2. apply (inj Some) in Hoc2.
        subst oc2. assert (o = me) as -> by congruence.
        change (_childList me2) with (_childList me ++ [this])%list.
        set_solver.
      + rewrite deref_store_ne, Hd1, Hx in Hoc2 by done.
        by apply (inj Some) in Hoc2 as ->.
    - rewrite deref_store_ne by done. unfold s2.
      destruct (decide (x = this)) as [->|Hxt].
      + rewrite deref_store_eq. eexists. split; [done|].
        assert (o = me) as -> by congruence.
        change (_childList me2) with (_childList me ++ [c])%list.
        set_solver.
      + rewrite deref_store_ne, Hd1, Hx by done. by eexists. }
  assert (Hloop : forall k, subtree_ok k c s3 = false).
  { destruct (Hgrow this me Hme) as (me3 & Hme3 & Hsub3).
    assert (c ∈ _childList me3) as Hin.
    { unfold s3 in Hme3. destruct (decide (this = c)) as [->|Htc].
      - rewrite deref_store_eq in Hme3. apply (inj Some) in Hme3.
        subst me3.
        change (_childList (with_parent (Some c) oc2)) with (_childList oc2).
        unfold s2 in Hoc2. rewrite deref_store_eq in Hoc2.
        apply (inj Some) in Hoc2. subst oc2.
        change (_childList me2) with (_childList me ++ [c])%list.
        set_solver.
      - rewrite deref_store_ne in Hme3 by done. unfold s2 in Hme3.
        rewrite deref_store_eq in Hme3. apply (inj Some) in Hme3.
        subst me3.
        change (_childList me2) with (_childList me ++ [c])%list.
        set_solver. }
    apply (cycle_unbounded s3 c this me3); [|done..].
    by apply (descendant_grow s). }
  destruct (decide (inh = Some false)).
  - cbn [mbind option_bind].
    destruct (_setWorldMatrixDirty fuel c s3) as [s5|] eqn:Hs5;
      [|reflexivity].
    apply _setWorldMatrixDirty_bounded in Hs5. by rewrite Hloop in Hs5.
  - unfold inherit_states, inherit_flag.
    destruct (deref this s3) as [me3|]; [|reflexivity].
    cbn [mbind option_bind].
    destruct (set_flag fuel Visible _ c s3) as [s4|] eqn:Hs4;
      [|reflexivity].
    apply set_flag_bounded in Hs4. by rewrite Hloop in Hs4.
Qed.

(** *** Construction *)

Lemma single_descendant this o s0 s m :
  single this o s0 s -> descendant s this m -> m = this.
Proof.
  intros (Ho & _ & Hch & _) Hd.
  induction Hd as [|m o' c _ IH Hm Hc]; [done|].
  subst m. rewrite Ho in Hm. apply (inj Some) in Hm as <-.
  rewrite Hch in Hc. by apply elem_of_nil in Hc.
Qed.

Lemma single_bounded k this o s0 s :
  single this o s0 s ->
  subtree_ok (S k) this s = true /\ chain_ok (S k) (Some this) s = true.
Proof.
  intros (Ho & Hpar & Hch & _). simpl. rewrite Ho, Hch, Hpar.
  split; [done|by destruct k].
Qed.

Lemma housed_store n o o1 s :
  deref n s = Some o -> scene o1 = scene o -> housed s ->
  housed (store n o1 s).
Proof.
  intros Hn Hsc Hh. unfold housed, store. simpl.
  apply map_Forall_insert_2; [|done]. rewrite Hsc. by apply (Hh n o).
Qed.

Lemma single_store this o o1 s0 s :
  single this o s0 s -> shape o1 = shape o ->
  single this o1 s0 (store this o1 s).
Proof.
  intros (Ho & Hpar & Hch & Hh & Hrest) Hshape.
  injection Hshape as Hp Hc Hs. split_and!.
  - apply deref_store_eq.
  - congruence.
  - congruence.
  - by apply (housed_store this o).
  - intros m Hm. rewrite deref_store_ne by done. by apply Hrest.
Qed.

Lemma single_scene this o s0 s g :
  single this o s0 s ->
  exists s', modify_scene this g s = Some s' /\ single this o s0 s'.
Proof.
  intros (Ho & Hpar & Hch & Hh & Hrest). unfold modify_scene. rewrite Ho.
  cbn [mbind option_bind].
  destruct (housed_lookup s this o Hh Ho) as (sc & Hsc). rewrite Hsc.
  cbn [mbind option_bind]. eexists. split; [done|]. split_and!; try done.
  intros n on Hn. simpl. apply lookup_insert_is_Some'. right.
  by apply (Hh n on).
Qed.

Lemma single_flag k fl v this o s0 s :
  single this o s0 s ->
  exists s', set_flag (S k) fl v this s = Some s' /\
    single this (put_flag fl (flag_value fl v) o) s0 s'.
Proof.
  intros Hs. pose proof Hs as (Ho & Hpar & Hch & Hh & Hrest).
  simpl. rewrite Ho. cbn [mbind option_bind]. rewrite Hch.
  cbn [for_each mbind option_bind].
  assert (Hs1 : single this (put_flag fl (flag_value fl v) o) s0
                  (store this (put_flag fl (flag_value fl v) o) s))
    by (apply (single_store this o); [done|by destruct fl]).
  destruct (flag_hook fl) as [hook|]; [|by eexists].
  rewrite deref_store_eq. cbn [mbind option_bind].
  destruct (etruthy _); [|by eexists]. by apply single_scene.
Qed.

Lemma single_colorize k rgb this o s0 s :
  single this o s0 s ->
  exists s', set_colorize (S k) rgb this s = Some s' /\
    single this (tinted rgb o) s0 s'.
Proof.
  intros Hs. pose proof Hs as (Ho & Hpar & Hch & Hh & Hrest).
  simpl. rewrite Ho. cbn [mbind option_bind]. unfold tinted.
  destruct (default (num0, num0, num0, num1) (_colorize o)) as [[[? ?] ?] a].
  destruct (default (num1, num1, num1) rgb) as [[r g] b].
  rewrite Hch. cbn [for_each]. eexists. split; [done|].
  by apply (single_store this o).
Qed.

Lemma single_opacity k a this o s0 s :
  single this o s0 s ->
  exists s', set_opacity (S k) a this s = Some s' /\
    single this (faded a o) s0 s'.
Proof.
  intros Hs. pose proof Hs as (Ho & Hpar & Hch & Hh & Hrest).
  simpl. rewrite Ho. cbn [mbind option_bind]. unfold faded.
  destruct (default (num1, num1, num1, num0) (_colorize o)) as [[[r g] b] ?].
  rewrite Hch. cbn [for_each]. eexists. split; [done|].
  by apply (single_store this o).
Qed.

Lemma with_entityType_same o : with_entityType (_entityType o) o = o.
Proof. by destruct o. Qed.

Lemma single_entityType e this o s0 s :
  single this o s0 s ->
  exists s', set_entityType e this s = Some s' /\
    single this (with_entityType e o) s0 s'.
Proof.
  intros Hs. pose proof Hs as (Ho & Hpar & Hch & Hh & Hrest).
  unfold set_entityType. rewrite Ho. cbn [mbind option_bind].
  case_decide as He.
  { exists s. split; [done|]. by rewrite <- He, with_entityType_same. }
  assert (exists s1,
    match etruthy (_entityType o) with
    | Some old => modify_scene this (_entityTypeRemoved this (id o) old) s
    | None => Some s
    end = Some s1 /\ single this o s0 s1) as (s1 & -> & Hs1).
  { destruct (etruthy (_entityType o)); [by apply single_scene|by eexists]. }
  cbn [mbind option_bind]. unfold modify.
  destruct Hs1 as (Ho1 & Hrest1). rewrite Ho1. cbn [mbind option_bind].
  assert (Hs2 : single this (with_entityType e o) s0
                  (store this (with_entityType e o) s1))
    by (by apply (single_store this o)).
  destruct (etruthy e); by apply single_scene.
Qed.

Lemma housed_insert s s' i sc :
  keeps scene s s' -> scenes s' = <[i := sc]> (scenes s) -> housed s ->
  housed s'.
Proof.
  intros Hk Hsc Hh n o' Hn'. change (deref n s' = Some o') in Hn'.
  pose proof (Hk n) as Hv. rewrite Hn' in Hv.
  destruct (deref n s) as [o|] eqn:Hn; [|done].
  apply (inj Some) in Hv. rewrite Hv, Hsc.
  apply lookup_insert_is_Some'. right. by apply (Hh n o).
Qed.

Lemma single_changed k this o o1 s0 s :
  single this o s0 s -> shape o1 = shape o ->
  exists s', transform_changed (S k) this (store this o1 s) = Some s' /\
    single this (touched o1) s0 s'.
Proof.
  intros Hs Hshape. pose proof Hs as (Ho & Hpar & Hch & Hh & Hrest).
  destruct (single_bounded k this o s0 s Hs) as [Hsub Hchain].
  destruct (housed_lookup s this o Hh Ho) as (sc & Hsc).
  destruct (transform_changed_touch (S k) this s (store this o1 s) o o1 sc)
    as (s3 & Hrun & Hk & Hks & Hin & Hout & Hscenes);
    [done|apply deref_store_eq|done
    |by intros ? ?; rewrite deref_store_ne|done..|].
  exists s3. split; [done|].
  destruct (Hin this) as (o3 & Hn3 & Hd3); [constructor|].
  pose proof (Hk this) as Hv. rewrite deref_store_eq, Hn3 in Hv.
  apply (inj Some) in Hv. rewrite (all_dirty_fix _ Hd3) in Hv.
  injection Hshape as Hp Hc Hsn.
  split_and!.
  - by rewrite Hn3, Hv.
  - by rewrite <- Hpar, <- Hp.
  - by rewrite <- Hch, <- Hc.
  - unfold outside in Hscenes. simpl in Hscenes.
    injection Hscenes as Hscenes _ _ _ _ _ _.
    apply (housed_insert s s3 (scene o) (with_imageDirty true sc));
      [by apply keeps_shape_scene|done..].
  - intros m Hm. rewrite Hout; [by apply Hrest|].
    intros Hd. by apply Hm, (single_descendant this o s0 s).
Qed.

Lemma single_matrix k this o o1 s0 s :
  single this o s0 s -> shape o1 = shape o ->
  exists s',
    (s2 ← _setWorldMatrixDirty (S k) this (store this o1 s);
     s3 ← _setBoundaryDirty (S k) this s2;
     renderer_imageDirty this s3) = Some s' /\
    single this (mark_world o1) s0 s'.
Proof.
  intros Hs Hshape. pose proof Hs as (Ho & Hpar & Hch & Hh & Hrest).
  destruct (single_bounded k this o s0 s Hs) as [Hsub Hchain].
  destruct (housed_lookup s this o Hh Ho) as (sc & Hsc).
  destruct (dirtied (S k) this s (store this o1 s) o o1 sc)
    as (s1 & s2 & s3 & Hrun1 & Hrun2 & Hrun3 & Hk & Hks & Hin & Hout
        & Hscenes);
    [done|apply deref_store_eq|done
    |by intros ? ?; rewrite deref_store_ne|done..|].
  exists s3. split.
  { rewrite Hrun1. cbn [mbind option_bind]. rewrite Hrun2.
    cbn [mbind option_bind]. exact Hrun3. }
  destruct (Hin this) as (o3 & Hn3 & Hd3); [constructor|].
  pose proof (Hk this) as Hv. rewrite deref_store_eq, Hn3 in Hv.
  apply (inj Some) in Hv. rewrite (all_dirty_fix _ Hd3) in Hv.
  injection Hshape as Hp Hc Hsn.
  split_and!.
  - by rewrite Hn3, Hv.
  - by rewrite <- Hpar, <- Hp.
  - by rewrite <- Hch, <- Hc.
  - unfold outside in Hscenes. simpl in Hscenes.
    injection Hscenes as Hscenes _ _ _ _ _ _.
    apply (housed_insert s s3 (scene o) (with_imageDirty true sc));
      [by apply keeps_shape_scene|done..].
  - intros m Hm. rewrite Hout; [by apply Hrest|].
    intros Hd. by apply Hm, (single_descendant this o s0 s).
Qed.

Lemma shape_with_scale v o : shape (with_scale v o) = shape o.
Proof. done. Qed.

Lemma shape_with_position v o : shape (with_position v o) = shape o.
Proof. done. Qed.

Lemma shape_with_rotation q e o :
  shape (with_quaternion q (with_rotation e o)) = shape o.
Proof. done. Qed.

Lemma shape_with_plain l st b so o : shape (with_plain l st b so o) = shape o.
Proof. done. Qed.

(** [_init] up to the children: the object is on its own. *)
Lemma init_alone k this (cfg : Cfg (T:=T)) o s :
  deref this s = Some o -> housed s ->
  exists s1 s2 s3 s4,
    modify this (init_fields (cfg_guid cfg)) s = Some s1 /\
    set_entityType (cfg_entityType cfg) this s1 = Some s2 /\
    init_transform decomposeMat4 eulerToQuaternion (S k) this cfg s2
      = Some s3 /\
    init_properties (S k) this cfg s3 = Some s4 /\
    single this
      (init_dressed cfg
         (init_moved decomposeMat4 eulerToQuaternion cfg
            (with_entityType (cfg_entityType cfg)
               (init_fields (cfg_guid cfg) o)))) s s4.
Proof.
  intros Ho Hh. unfold modify. rewrite Ho. cbn [mbind option_bind].
  set (o1 := init_fields (cfg_guid cfg) o).
  assert (Hs1 : single this o1 s (store this o1 s)).
  { split_and!; try done.
    - apply deref_store_eq.
    - by apply (housed_store this o).
    - intros m Hm. by rewrite deref_store_ne. }
  destruct (single_entityType (cfg_entityType cfg) this o1 s _ Hs1)
    as (s2 & Hrun2 & Hs2).
  set (o2 := with_entityType (cfg_entityType cfg) o1) in *.
  assert (exists s3,
    init_transform decomposeMat4 eulerToQuaternion (S k) this cfg s2
      = Some s3 /\
    single this (init_moved decomposeMat4 eulerToQuaternion cfg o2) s s3)
    as (s3 & Hrun3 & Hs3).
  { unfold init_transform, init_moved.
    destruct (cfg_matrix cfg) as [m|].
    - unfold set_matrix, modify. destruct Hs2 as (Ho2 & Hs2').
      rewrite Ho2. cbn [mbind option_bind].
      change (default identityMat4 (Some m)) with m.
      destruct (decomposeMat4 m) as [[p q] sc].
      apply (single_matrix k this o2); [by split|done].
    - unfold set_scale, set_position, set_rotation, modify.
      pose proof Hs2 as (Ho2 & _). rewrite Ho2. cbn [mbind option_bind].
      destruct (single_changed k this o2
                  (with_scale (default (num1, num1, num1) (cfg_scale cfg)) o2)
                  s s2 Hs2 (shape_with_scale _ _)) as (sa & -> & Hsa).
      cbn [mbind option_bind].
      pose proof Hsa as (Hoa & _). rewrite Hoa. cbn [mbind option_bind].
      lazymatch type of Hsa with
      | single _ ?oa _ _ =>
          destruct (single_changed k this oa
                      (with_position
                         (default (num0, num0, num0) (cfg_position cfg)) oa)
                      s sa Hsa (shape_with_position _ _))
            as (sb & -> & Hsb)
      end.
      cbn [mbind option_bind].
      destruct (cfg_quaternion cfg); [by exists sb|].
      pose proof Hsb as (Hob & _). rewrite Hob. cbn [mbind option_bind].
      lazymatch type of Hsb with
      | single _ ?ob _ _ =>
          apply (single_changed k this ob);
            [exact Hsb|apply shape_with_rotation]
      end. }
  exists (store this o1 s), s2, s3.
  unfold init_properties, init_dressed, init_flag, set_visible, set_culled,
    set_pickable, set_clippable, set_collidable, set_castShadow,
    set_receiveShadow, set_outlined, set_ghosted, set_highlighted,
    set_selected, cfg_flag.
  repeat lazymatch goal with
  | Hl : single this ?oa s ?sa |- context [set_flag (S k) ?fl ?v this ?sa] =>
      let sb := fresh "s" in let Hb := fresh "Hs" in
      destruct (single_flag k fl v this oa s sa Hl) as (sb & -> & Hb);
      clear Hl; cbn [mbind option_bind]
  | Hl : single this ?oa s ?sa |- context [modify this ?f ?sa] =>
      let Hb := fresh "Hs" in
      pose proof (single_store this oa (f oa) s sa Hl
                    (shape_with_plain _ _ _ _ _)) as Hb;
      unfold modify; rewrite (proj1 Hl); clear Hl; cbn [mbind option_bind]
  | Hl : single this ?oa s ?sa
    |- context [set_colorize (S k) ?v this ?sa] =>
      let sb := fresh "s" in let Hb := fresh "Hs" in
      destruct (single_colorize k v this oa s sa Hl) as (sb & -> & Hb);
      clear Hl; cbn [mbind option_bind]
  end.
  lazymatch goal with
  | Hl : single this ?oa s ?sa |- context [set_opacity (S k) ?v this ?sa] =>
      destruct (single_opacity k v this oa s sa Hl) as (sb & Hrun & Hb)
  end.
  exists sb. by split_and!.
Qed.

Lemma get_flag_tinted fl rgb o : get_flag fl (tinted rgb o) = get_flag fl o.
Proof.
  unfold tinted.
  destruct (default (num0, num0, num0, num1) (_colorize o)) as [[[? ?] ?] ?].
  destruct (default (num1, num1, num1) rgb) as [[? ?] ?]. by destruct fl.
Qed.

Lemma get_flag_faded fl a o : get_flag fl (faded a o) = get_flag fl o.
Proof.
  unfold faded.
  destruct (default (num1, num1, num1, num0) (_colorize o)) as [[[? ?] ?] ?].
  by destruct fl.
Qed.


Lemma undressed_faded a o : undressed (faded a o) = undressed o.
Proof.
  unfold faded.
  by destruct (default (num1, num1, num1, num0) (_colorize o))
    as [[[? ?] ?] ?].
Qed.

Lemma undressed_tinted rgb o : undressed (tinted rgb o) = undressed o.
Proof.
  unfold tinted.
  destruct (default (num0, num0, num0, num1) (_colorize o)) as [[[? ?] ?] ?].
  by destruct (default (num1, num1, num1) rgb) as [[? ?] ?].
Qed.

Lemma undressed_flag fl b o : undressed (put_flag fl b o) = undressed o.
Proof. by destruct fl. Qed.

Lemma undressed_plain l st b so o :
  undressed (with_plain l st b so o) = undressed o.
Proof. done. Qed.

Lemma undressed_dressed (cfg : Cfg (T:=T)) o :
  undressed (init_dressed cfg o) = undressed o.
Proof.
  unfold init_dressed, init_flag.
  by rewrite undressed_faded, undressed_tinted, !undressed_flag,
    undressed_plain, !undressed_flag.
Qed.

Lemma get_flag_dressed fl (cfg : Cfg (T:=T)) o :
  get_flag fl (init_dressed cfg o) = flag_value fl (cfg_flag fl cfg).
Proof.
  unfold init_dressed. rewrite get_flag_faded, get_flag_tinted.
  by destruct fl.
Qed.

Lemma undressed_moved (cfg : Cfg (T:=T)) o :
  shape (init_moved decomposeMat4 eulerToQuaternion cfg o) = shape o /\
  id (init_moved decomposeMat4 eulerToQuaternion cfg o) = id o /\
  all_dirty (init_moved decomposeMat4 eulerToQuaternion cfg o) = true.
Proof.
  unfold init_moved. destruct (cfg_matrix cfg) as [m|].
  - by destruct (decomposeMat4 m) as [[? ?] ?].
  - by destruct (cfg_quaternion cfg).
Qed.

Lemma dressed_facts (cfg : Cfg (T:=T)) x o4 :
  o4 = init_dressed cfg x ->
  shape o4 = shape x /\ id o4 = id x /\ all_dirty o4 = all_dirty x /\
  _position o4 = _position x /\ _quaternion o4 = _quaternion x /\
  _scale o4 = _scale x /\ _rotation o4 = _rotation x /\
  _localMatrix o4 = _localMatrix x /\
  _localMatrixDirty o4 = _localMatrixDirty x.
Proof.
  intros ->. pose proof (undressed_dressed cfg x) as Hu.
  unfold undressed in Hu.
  apply pair_equal_spec in Hu as [Hu Hloc].
  apply pair_equal_spec in Hloc as [Hm Hd].
  apply pair_equal_spec in Hu as [Hu Htr].
  apply pair_equal_spec in Htr as [Htr Hr].
  apply pair_equal_spec in Htr as [Htr Hs].
  apply pair_equal_spec in Htr as [Hp Hq].
  apply pair_equal_spec in Hu as [Hu Hdirty].
  apply pair_equal_spec in Hu as [Hshape Hid].
  by split_and!.
Qed.

Local Abbreviation _init' := (_init decomposeMat4 eulerToQuaternion).

(** [_init] of an object without children: all but the last step. *)
Lemma init_single fuel this (cfg : Cfg (T:=T)) o s :
  0 < fuel -> deref this s = Some o -> housed s ->
  cfg_children cfg = None ->
  exists s4 o4,
    _init' fuel this cfg s
    = match cfg_parent cfg with
      | Some p => snd <$> addChild fuel p (ArgObject this) None s4
      | None => Some s4
      end /\
    single this o4 s s4 /\
    o4 = init_dressed cfg
           (init_moved decomposeMat4 eulerToQuaternion cfg
              (with_entityType (cfg_entityType cfg)
                 (init_fields (cfg_guid cfg) o))).
Proof.
  intros Hfuel Ho Hh Hchildren. destruct fuel as [|k]; [lia|].
  destruct (init_alone k this cfg o s Ho Hh)
    as (s1 & s2 & s3 & s4 & Hr1 & Hr2 & Hr3 & Hr4 & Hs4).
  eexists s4, _. split; [|by split]. unfold _init.
  rewrite Hr1. cbn [mbind option_bind]. rewrite Hr2.
  cbn [mbind option_bind]. rewrite Hr3. cbn [mbind option_bind].
  rewrite Hr4. cbn [mbind option_bind]. rewrite Hchildren.
  reflexivity.
Qed.


(** X23.  Where a new object is placed.  A matrix in the configuration
    comes first: position, quaternion and scale are what [decomposeMat4]
    makes of it, the Euler angles stay [0,0,0], the Local matrix is the
    matrix itself, marked clean, and the scale, position, quaternion and
    rotation of the configuration are not looked at.  Without a matrix the
    scale ([1,1,1] if undefined) and the position ([0,0,0] if undefined) are
    those of the configuration; the rotation is the configured one with its
    quaternion, unless the configuration has a quaternion: then both stay
    at no rotation. *)
Theorem init_places_the_object fuel this (cfg : Cfg (T:=T)) o s :
  0 < fuel -> deref this s = Some o -> housed s ->
  cfg_children cfg = None -> cfg_parent cfg = None ->
  exists s' o',
    _init' fuel this cfg s = Some s' /\ deref this s' = Some o' /\
    match cfg_matrix cfg with
    | Some m =>
        (_position o', _quaternion o', _scale o') = decomposeMat4 m /\
        _rotation o' = math_vec3 /\
        _localMatrix o' = m /\ _localMatrixDirty o' = false
    | None =>
        _scale o' = default (num1, num1, num1) (cfg_scale cfg) /\
        _position o' = default (num0, num0, num0) (cfg_position cfg) /\
        (_rotation o', _quaternion o')
        = match cfg_quaternion cfg with
          | Some _ => (math_vec3, identityQuaternion)
          | None =>
              (default (num0, num0, num0) (cfg_rotation cfg),
               eulerToQuaternion
                 (default (num0, num0, num0) (cfg_rotation cfg)))
          end /\
        _localMatrixDirty o' = true
    end.
Proof.
  intros Hfuel Ho Hh Hchildren Hparent.
  destruct (init_single fuel this cfg o s Hfuel Ho Hh Hchildren)
    as (s4 & o4 & Hrun & (Ho4 & _) & Heq).
  rewrite Hparent in Hrun. exists s4, o4. split; [done|]. split; [done|].
  destruct (dressed_facts cfg _ o4 Heq)
    as (_ & _ & _ & Hp & Hq & Hs & Hr & Hm & Hd).
  rewrite Hp, Hq, Hs, Hr, Hm, Hd. clear. unfold init_moved.
  destruct (cfg_matrix cfg) as [m|].
  - by destruct (decomposeMat4 m) as [[? ?] ?].
  - by destruct (cfg_quaternion cfg).
Qed.

Lemma boundary_view_flag fl (a b : Obj (T:=T)) :
  boundary_view a = boundary_view b -> get_flag fl a = get_flag fl b.
Proof. intros Heq. by apply mark_world_flag, keeps_boundary_world_obj. Qed.

(** X24.  A parent in the configuration overrides the configured
    states: [_init] ends with [cfg.parent.addChild(this)], which hands down
    the parent's states.  For a configuration without children and a parent
    of the same scene, the new object hangs under the parent with the
    parent's [visible], [culled], [ghosted], [selected], [outlined],
    [clippable], [pickable], [collidable], [castShadow] and
    [receiveShadow], its colour and its opacity, whatever the configuration
    says of them; only [highlighted] is as configured. *)
Theorem a_parent_in_the_configuration_overrides_the_states
    fuel this p (cfg : Cfg (T:=T)) o pa anc s :
  deref this s = Some o -> deref p s = Some pa -> p <> this ->
  scene pa = scene o -> housed s ->
  has_ancestors s p anc = true -> this ∉ anc -> length anc + 1 < fuel ->
  is_Some (_colorize pa) ->
  cfg_children cfg = None -> cfg_parent cfg = Some p ->
  exists s' o',
    _init' fuel this cfg s = Some s' /\ deref this s' = Some o' /\
    _parent o' = Some p /\
    (forall fl, fl <> Highlighted -> get_flag fl o' = get_flag fl pa) /\
    colorize o' = colorize pa /\ opacity o' = opacity pa /\
    get_flag Highlighted o'
    = flag_value Highlighted (cfg_highlighted cfg).
Proof.
  intros Ho Hp Hne Hscene Hh Hanc Hnin Hfuel Hcol Hchildren Hparent.
  destruct (init_single fuel this cfg o s ltac:(lia) Ho Hh Hchildren)
    as (s4 & o4 & Hrun & Hs4 & Heq).
  rewrite Hparent in Hrun.
  pose proof Hs4 as (Ho4 & Hpar4 & Hch4 & Hh4 & Hrest4).
  pose proof (Hrest4 p Hne) as Hvp. rewrite Hp in Hvp.
  destruct (deref p s4) as [pa4|] eqn:Hp4; [|done].
  apply (inj Some) in Hvp.
  assert (scene o4 = scene o) as Hscene4.
  { destruct (dressed_facts cfg _ o4 Heq) as (Hshape & _).
    destruct (undressed_moved cfg
                (with_entityType (cfg_entityType cfg)
                   (init_fields (cfg_guid cfg) o))) as (Hshape' & _).
    rewrite Hshape' in Hshape. by injection Hshape. }
  assert (scene pa4 = scene pa) as Hscenep.
  { apply (f_equal scene) in Hvp. unfold boundary_view in Hvp.
    by destruct (_aabbDirty pa4), (_aabbDirty pa). }
  assert (_colorize pa4 = _colorize pa) as Hcolp.
  { apply (f_equal _colorize) in Hvp. unfold boundary_view in Hvp.
    by destruct (_aabbDirty pa4), (_aabbDirty pa). }
  destruct (housed_lookup s4 p pa4 Hh4 Hp4) as (sc4 & Hsc4).
  destruct fuel as [|k]; [lia|].
  destruct (single_bounded k this o4 s s4 Hs4) as [Hsub4 _].
  destruct (addChild_root_spec (S k) p this pa4 o4 sc4 anc None s4)
    as (s' & me' & oc' & oc4 & sc' & Hadd & Hthis' & Hc' & Hme' & Hoc' & Hd'
        & Hb4 & _ & Hon & _); try done.
  { congruence. }
  { intros Hd. by apply Hne, (single_descendant this o4 s s4). }
  { rewrite <- Hanc. apply has_ancestors_agree. intros x Hx.
    assert (x <> this) as Hxt.
    { intros ->. apply elem_of_cons in Hx as [?|?]; [by apply Hne|done]. }
    pose proof (Hrest4 x Hxt) as Hv.
    destruct (deref x s4) as [a|], (deref x s) as [b|]; simplify_eq/=;
      try done.
    f_equal. rewrite <- (boundary_view_parent a), <- (boundary_view_parent b).
    by rewrite Hv. }
  { intros _. by rewrite Hcolp. }
  destruct Hon as (Hfl & Hhl & _ & Hco & Hop); [done|].
  exists s', oc'. split_and!.
  - rewrite Hrun, Hadd. reflexivity.
  - exact Hc'.
  - destruct (bare_parent_flag _ _ Hb4) as [Hpar _].
    transitivity (_parent oc4); [exact (f_equal _parent Hoc')|exact Hpar].
  - intros fl Hfne. rewrite (mark_world_flag fl _ _ Hoc'), (Hfl fl Hfne).
    by apply boundary_view_flag.
  - transitivity (colorize oc4); [exact (f_equal colorize Hoc')|].
    rewrite Hco. unfold colorize. by rewrite Hcolp.
  - transitivity (opacity oc4); [exact (f_equal opacity Hoc')|].
    rewrite Hop. unfold opacity. by rewrite Hcolp.
  - rewrite (mark_world_flag Highlighted _ _ Hoc'), Hhl, Heq.
    apply (get_flag_dressed Highlighted).
Qed.

(** *** Moving a child to another parent *)

Lemma find_child_first i l s c :
  c ∈ l ->
  (forall x, x ∈ l -> exists ox, deref x s = Some ox /\ (id ox = i <-> x = c)) ->
  find_child i l s = Some (Some c).
Proof.
  intros Hin Hl. induction l as [|x l IH]; [by apply elem_of_nil in Hin|].
  simpl. destruct (Hl x ltac:(by left)) as (ox & -> & Hx).
  cbn [mbind option_bind]. case_decide as Hid.
  - by rewrite (proj1 Hx Hid).
  - apply IH.
    + apply elem_of_cons in Hin as [->|Hin]; [|done].
      by destruct Hid; apply Hx.
    + intros y Hy. apply Hl. by right.
Qed.

(** [removeChild] of a child: the three assignments, then dirty flags. *)
Lemma removeChild_run fuel q c qo oc sc s :
  deref q s = Some qo -> deref c s = Some oc -> q <> c ->
  find_child (id oc) (_childList qo) s = Some (Some c) ->
  scenes s !! scene qo = Some sc ->
  let sx :=
    with_scenes
      (<[scene qo := with_rootObjects (<[id oc := c]> (rootObjects sc)) sc]>
         (scenes s))
      (store q (with_childIDs None
                  (with_childMap (delete (id oc) (_childMap qo))
                     (with_childList [c] qo)))
         (store c (with_parent None oc) s)) in
  subtree_ok fuel c sx = true -> subtree_ok fuel q sx = true ->
  chain_ok fuel (Some q) sx = true ->
  exists s', removeChild fuel q c s = Some s' /\
    keeps mark_world sx s' /\ scenes s' = scenes sx /\ diag s' = diag sx /\
    exists oc', deref c s' = Some oc' /\ all_dirty oc' = true.
Proof.
  intros Hq Hc Hne Hfind Hsc sx Hsubc Hsubq Hchain.
  unfold removeChild. rewrite Hc. cbn [mbind option_bind]. rewrite Hq.
  cbn [mbind option_bind]. rewrite Hfind. cbn [mbind option_bind].
  unfold modify. rewrite Hc. cbn [mbind option_bind].
  rewrite deref_store_ne, Hq by done. cbn [mbind option_bind].
  unfold modify_scene. rewrite deref_store_eq. cbn [mbind option_bind].
  lazymatch goal with
  | |- context [scenes ?x !! scene ?y] =>
      change (scenes x !! scene y) with (scenes s !! scene qo)
  end.
  rewrite Hsc. cbn [mbind option_bind].
  lazymatch goal with
  | |- context [_setWorldMatrixDirty fuel c ?x] => change x with sx
  end.
  destruct (_setWorldMatrixDirty_spec fuel c sx Hsubc)
    as (s3 & -> & Hk3 & _ & Ho3 & Hall3).
  cbn [mbind option_bind].
  pose proof (keeps_childList _ _ Hk3) as Hl3.
  pose proof (keeps_shape_parent _ _ (keeps_world_shape _ _ Hk3)) as Hp3.
  assert (Hcx : deref c sx = Some (with_parent None oc)).
  { unfold sx. change (deref c (with_scenes ?a ?b)) with (deref c b).
    by rewrite deref_store_ne, deref_store_eq. }
  destruct (_setBoundaryDirty_spec fuel c s3) as (s4 & -> & Hk4 & Hd4 & Ho4).
  { by rewrite (subtree_ok_keeps fuel c sx s3 Hl3). }
  { destruct fuel as [|k]; [done|]. simpl.
    destruct (keeps_lookup _ _ _ _ _ Hp3 Hcx) as (o3 & -> & Hv).
    rewrite Hv. by destruct k. }
  cbn [mbind option_bind].
  pose proof (keeps_boundary_world _ _ Hk4) as Hw4.
  assert (Hk34 : keeps mark_world sx s4) by (by eapply keeps_trans).
  pose proof (keeps_childList _ _ Hk34) as Hl4.
  pose proof (keeps_shape_parent _ _ (keeps_world_shape _ _ Hk34)) as Hp4.
  destruct (_setBoundaryDirty_spec fuel q s4) as (s5 & -> & Hk5 & Hd5 & Ho5).
  { by rewrite (subtree_ok_keeps fuel q sx s4 Hl4). }
  { by rewrite (chain_ok_keeps fuel (Some q) sx s4 Hp4). }
  exists s5. split; [done|].
  destruct (only_objs_scenes_diag _ _ Ho3) as [Hsc3 Hdg3].
  destruct (outside_scenes_diag _ _ Ho4) as [Hsc4 Hdg4].
  destruct (outside_scenes_diag _ _ Ho5) as [Hsc5 Hdg5].
  split_and!.
  - eapply keeps_trans; [exact Hk34|]. by apply keeps_boundary_world.
  - congruence.
  - congruence.
  - destruct (Hall3 c ltac:(constructor)) as (o3 & Ho3' & Hdirty3).
    destruct (Hd4 c o3 Ho3' Hdirty3) as (o4 & Ho4' & Hdirty4).
    by apply (Hd5 c o4).
Qed.

Lemma mark_world_eq_fields (a b : Obj (T:=T)) :
  mark_world a = mark_world b ->
  shape a = shape b /\ id a = id b /\ _childMap a = _childMap b /\
  _colorize a = _colorize b.
Proof.
  intros Heq. split_and!;
    [exact (f_equal shape Heq)|exact (f_equal id Heq)
    |exact (f_equal _childMap Heq)|exact (f_equal _colorize Heq)].
Qed.

(** X18.  Moving a child to another parent: [addChild(c)], where [c] is a
    child of another object [q] of the same scene, first takes [c] off [q]
    with [removeChild] and then adds it.  In a hierarchy of bounded depth
    without cycles, where no other child of [q] has the id of [c], it
    returns [c], which then hangs under the new parent, at the end of its
    child list; [c] is off the child map of [q], but the child list of [q]
    is left holding exactly [c]: what [splice] returned.  Nothing is
    reported. *)
Theorem addChild_moves_a_child_and_leaves_it_listed
    fuel this c q me oc qo anc inh s :
  deref this s = Some me -> deref c s = Some oc -> deref q s = Some qo ->
  _parent oc = Some q -> id qo <> id me -> scene oc = scene me ->
  c ∈ _childList qo ->
  (forall x, x ∈ _childList qo ->
     exists ox, deref x s = Some ox /\ (id ox = id oc <-> x = c)) ->
  housed s ->
  subtree_ok fuel q s = true -> chain_ok fuel (Some q) s = true ->
  ~ descendant s c this -> ~ descendant s c q ->
  has_ancestors s this anc = true -> c ∉ anc -> length anc + 1 < fuel ->
  (inh <> Some false -> is_Some (_colorize me)) ->
  exists s' me' oc' q',
    addChild fuel this (ArgObject c) inh s = Some (Some c, s') /\
    deref this s' = Some me' /\
    _childList me' = (_childList me ++ [c])%list /\
    deref c s' = Some oc' /\ _parent oc' = Some this /\
    deref q s' = Some q' /\
    _childList q' = [c] /\ _childMap q' = delete (id oc) (_childMap qo) /\
    diag s' = diag s.
Proof.
  intros Hme Hoc Hqo Hpar Hid Hscene Hin Hids Hh Hsubq Hchainq Hndt Hndq
    Hanc Hcanc Hfuel Hcol.
  assert (this <> c) as Htc by (intros ->; apply Hndt; constructor).
  assert (q <> c) as Hqc by (intros ->; apply Hndq; constructor).
  assert (q <> this) as Hqt by (intros ->; congruence).
  destruct (housed_lookup s q qo Hh Hqo) as (sc & Hsc).
  set (qx := with_childIDs None
               (with_childMap (delete (id oc) (_childMap qo))
                  (with_childList [c] qo))).
  set (sx := with_scenes
               (<[scene qo := with_rootObjects
                                (<[id oc := c]> (rootObjects sc)) sc]>
                  (scenes s))
               (store q qx (store c (with_parent None oc) s))).
  assert (Hdx : forall m, deref m sx
                = if decide (m = q) then Some qx
                  else if decide (m = c) then Some (with_parent None oc)
                  else deref m s).
  { intros m. unfold sx.
    change (deref m (with_scenes ?a ?b)) with (deref m b).
    destruct (decide (m = q)) as [->|Hmq]; [apply deref_store_eq|].
    rewrite deref_store_ne by done.
    destruct (decide (m = c)) as [->|Hmc]; [apply deref_store_eq|].
    by rewrite deref_store_ne. }
  assert (Hlx : forall m, descendant s c m ->
            _childList <$> deref m sx = _childList <$> deref m s).
  { intros m Hd. rewrite Hdx.
    destruct (decide (m = q)) as [->|Hmq]; [done|].
    destruct (decide (m = c)) as [->|Hmc]; [by rewrite Hoc|done]. }
  assert (Hpx : forall m, m <> c ->
            _parent <$> deref m sx = _parent <$> deref m s).
  { intros m Hmc. rewrite Hdx.
    destruct (decide (m = q)) as [->|Hmq]; [by rewrite Hqo|].
    by rewrite decide_False. }
  destruct fuel as [|k]; [lia|].
  assert (Hsubc : forall j, subtree_ok j c sx = subtree_ok j c s)
    by (intros j; by apply subtree_ok_agree).
  assert (Hck : subtree_ok k c s = true).
  { simpl in Hsubq. rewrite Hqo in Hsubq. rewrite forallb_forall in Hsubq.
    by apply Hsubq, list_elem_of_In. }
  destruct (removeChild_run (S k) q c qo oc sc s) as
    (s1 & Hrun1 & Hk1 & Hsc1 & Hdg1 & _); try done.
  { by apply find_child_first. }
  { fold qx sx. rewrite Hsubc. by apply subtree_ok_mono. }
  { fold qx sx. simpl. rewrite Hdx, decide_True by done. simpl.
    by rewrite Hsubc, Hck. }
  { fold qx sx. apply (chain_ok_cut (S k) (Some q) s); [|done].
    intros m. destruct (decide (m = c)) as [->|Hmc]; [|left; by apply Hpx].
    right. rewrite Hdx, decide_False, decide_True, Hoc by done. done. }
  fold qx sx in Hk1, Hsc1, Hdg1.
  pose proof (keeps_world_shape _ _ Hk1) as Hks1.
  pose proof (keeps_shape_childList _ _ Hks1) as Hl1.
  pose proof (keeps_shape_parent _ _ Hks1) as Hp1.
  (* the three objects after the removal *)
  assert (Hmex : deref this sx = Some me)
    by (by rewrite Hdx, !decide_False).
  assert (Hcx : deref c sx = Some (with_parent None oc))
    by (by rewrite Hdx, decide_False, decide_True).
  assert (Hqx : deref q sx = Some qx) by (by rewrite Hdx, decide_True).
  destruct (keeps_lookup _ _ _ _ _ Hk1 Hmex) as (me1 & Hme1 & Hvme).
  destruct (keeps_lookup _ _ _ _ _ Hk1 Hcx) as (oc1 & Hoc1 & Hvoc).
  destruct (keeps_lookup _ _ _ _ _ Hk1 Hqx) as (q1 & Hq1 & Hvq).
  destruct (mark_world_eq_fields _ _ Hvme) as (Hshme & Hidme & _ & Hcolme).
  destruct (mark_world_eq_fields _ _ Hvoc) as (Hshoc & Hidoc & _ & _).
  destruct (mark_world_eq_fields _ _ Hvq) as (Hshq & _ & Hmapq & _).
  injection Hshme as Hpme Hlme Hscme.
  injection Hshoc as Hpoc Hloc Hscoc.
  injection Hshq as Hpq Hlq Hscq.
  assert (Hh1 : housed s1).
  { apply (housed_insert s s1 (scene qo)
             (with_rootObjects (<[id oc := c]> (rootObjects sc)) sc));
      [|done..].
    intros m. rewrite (keeps_shape_scene _ _ Hks1 m), Hdx.
    destruct (decide (m = q)) as [->|Hmq]; [by rewrite Hqo|].
    destruct (decide (m = c)) as [->|Hmc]; [by rewrite Hoc|done]. }
  destruct (housed_lookup s1 this me1 Hh1 Hme1) as (sc1 & Hsc1').
  assert (Hagree : forall m, descendant s c m ->
            _childList <$> deref m s1 = _childList <$> deref m s).
  { intros m Hd. by rewrite (Hl1 m), Hlx. }
  destruct (addChild_root_spec (S k) this c me1 oc1 sc1 anc inh s1)
    as (s' & me' & oc' & oc4 & sc' & Hadd & Hthis' & Hc' & Hme' & Hoc' & Hd'
        & Hb4 & _ & _ & _ & _ & Hout & Hrest); try done.
  { congruence. }
  { intros Hd. by apply Hndt, (descendant_agree s s1 c this Hagree). }
  { rewrite (subtree_ok_agree (S k) c s s1 Hagree). by apply subtree_ok_mono. }
  { rewrite <- Hanc. apply has_ancestors_agree. intros x Hx.
    assert (x <> c) as Hxc.
    { intros ->. apply elem_of_cons in Hx as [?|?]; [by apply Htc|done]. }
    by rewrite (Hp1 x), Hpx. }
  { intros Hinh. rewrite Hcolme. by apply Hcol. }
  assert (Hq' : boundary_view <$> deref q s' = boundary_view <$> deref q s1).
  { apply Hout; [|done].
    intros Hd. by apply Hndq, (descendant_agree s s1 c q Hagree). }
  rewrite Hq1 in Hq'. destruct (deref q s') as [q'|] eqn:Hqs'; [|done].
  apply (inj Some) in Hq'. apply keeps_boundary_world_obj in Hq'.
  destruct (mark_world_eq_fields _ _ Hq') as (Hshq' & _ & Hmapq' & _).
  injection Hshq' as _ Hlq' _.
  exists s', me', oc', q'. split_and!.
  - unfold addChild. rewrite Hoc. cbn [mbind option_bind]. rewrite Hpar, Hqo.
    cbn [mbind option_bind]. rewrite Hme. cbn [mbind option_bind].
    rewrite decide_False by done. rewrite Hrun1. cbn [mbind option_bind].
    unfold addChild in Hadd. rewrite Hoc1 in Hadd.
    cbn [mbind option_bind] in Hadd. by rewrite Hpoc in Hadd.
  - exact Hthis'.
  - apply keeps_boundary_world_obj in Hme'.
    destruct (mark_world_eq_fields _ _ Hme') as (Hsh & _).
    injection Hsh as _ Hl _. rewrite Hl. simpl. by rewrite Hlme.
  - exact Hc'.
  - destruct (bare_parent_flag _ _ Hb4) as [Hp4 _].
    transitivity (_parent oc4); [exact (f_equal _parent Hoc')|exact Hp4].
  - exact Hqs'.
  - by rewrite Hlq', Hlq.
  - by rewrite Hmapq', Hmapq.
  - destruct Hrest as (_ & _ & _ & _ & ->). by rewrite Hdg1.
Qed.

(** X19.  [removeChild] of a child: on a hierarchy of bounded
    depth it returns; the child has no parent, is entered among the root
    objects of the scene under its id and is off the child map of the
    object, its World matrix is marked dirty, and nothing is reported.
    The child list of the object is left holding exactly the removed child
    (the array which [splice] returned).  The object keeps its own parent,
    and every other object hangs where it hung. *)
Theorem removeChild_cuts_the_child_off fuel q c qo oc sc s :
  deref q s = Some qo -> deref c s = Some oc ->
  c ∈ _childList qo ->
  (forall x, x ∈ _childList qo ->
     exists ox, deref x s = Some ox /\ (id ox = id oc <-> x = c)) ->
  scenes s !! scene qo = Some sc ->
  subtree_ok fuel q s = true -> chain_ok fuel (Some q) s = true ->
  ~ descendant s c q ->
  exists s' q' oc' sc',
    removeChild fuel q c s = Some s' /\
    deref c s' = Some oc' /\ _parent oc' = None /\
    _worldMatrixDirty oc' = true /\
    deref q s' = Some q' /\
    _childList q' = [c] /\ _childMap q' = delete (id oc) (_childMap qo) /\
    _parent q' = _parent qo /\
    scenes s' !! scene qo = Some sc' /\
    rootObjects sc' = <[id oc := c]> (rootObjects sc) /\
    (forall m, m <> q -> m <> c ->
       shape <$> deref m s' = shape <$> deref m s) /\
    diag s' = diag s.
Proof.
  intros Hqo Hoc Hin Hids Hsc Hsubq Hchainq Hndq.
  assert (q <> c) as Hqc by (intros ->; apply Hndq; constructor).
  set (qx := with_childIDs None
               (with_childMap (delete (id oc) (_childMap qo))
                  (with_childList [c] qo))).
  set (sx := with_scenes
               (<[scene qo := with_rootObjects
                                (<[id oc := c]> (rootObjects sc)) sc]>
                  (scenes s))
               (store q qx (store c (with_parent None oc) s))).
  assert (Hdx : forall m, deref m sx
                = if decide (m = q) then Some qx
                  else if decide (m = c) then Some (with_parent None oc)
                  else deref m s).
  { intros m. unfold sx.
    change (deref m (with_scenes ?a ?b)) with (deref m b).
    destruct (decide (m = q)) as [->|Hmq]; [apply deref_store_eq|].
    rewrite deref_store_ne by done.
    destruct (decide (m = c)) as [->|Hmc]; [apply deref_store_eq|].
    by rewrite deref_store_ne. }
  assert (Hlx : forall m, descendant s c m ->
            _childList <$> deref m sx = _childList <$> deref m s).
  { intros m Hd. rewrite Hdx.
    destruct (decide (m = q)) as [->|Hmq]; [done|].
    destruct (decide (m = c)) as [->|Hmc]; [by rewrite Hoc|done]. }
  destruct fuel as [|k]; [done|].
  assert (Hsubc : forall j, subtree_ok j c sx = subtree_ok j c s)
    by (intros j; by apply subtree_ok_agree).
  assert (Hck : subtree_ok k c s = true).
  { simpl in Hsubq. rewrite Hqo in Hsubq. rewrite forallb_forall in Hsubq.
    by apply Hsubq, list_elem_of_In. }
  destruct (removeChild_run (S k) q c qo oc sc s) as
    (s1 & Hrun1 & Hk1 & Hsc1 & Hdg1 & oc1' & Hoc1' & Hdirty1); try done.
  { by apply find_child_first. }
  { fold qx sx. rewrite Hsubc. by apply subtree_ok_mono. }
  { fold qx sx. simpl. rewrite Hdx, decide_True by done. simpl.
    by rewrite Hsubc, Hck. }
  { fold qx sx. apply (chain_ok_cut (S k) (Some q) s); [|done].
    intros m. rewrite Hdx.
    destruct (decide (m = q)) as [->|Hmq]; [left; by rewrite Hqo|].
    destruct (decide (m = c)) as [->|Hmc]; [right; by rewrite Hoc|by left]. }
  fold qx sx in Hk1, Hsc1, Hdg1.
  assert (Hcx : deref c sx = Some (with_parent None oc))
    by (by rewrite Hdx, decide_False, decide_True).
  assert (Hqx : deref q sx = Some qx) by (by rewrite Hdx, decide_True).
  destruct (keeps_lookup _ _ _ _ _ Hk1 Hcx) as (oc1 & Hoc1 & Hvoc).
  destruct (keeps_lookup _ _ _ _ _ Hk1 Hqx) as (q1 & Hq1 & Hvq).
  destruct (mark_world_eq_fields _ _ Hvoc) as (Hshoc & _).
  destruct (mark_world_eq_fields _ _ Hvq) as (Hshq & _ & Hmapq & _).
  injection Hshoc as Hpoc _ _. injection Hshq as Hpq Hlq _.
  eexists s1, q1, oc1, _. split_and!; try done.
  - assert (oc1' = oc1) as -> by congruence.
    apply all_dirty_world in Hdirty1. by destruct Hdirty1.
  - rewrite Hsc1. apply lookup_insert_eq.
  - done.
  - intros m Hmq Hmc. rewrite (keeps_world_shape _ _ Hk1 m), Hdx.
    by rewrite !decide_False.
Qed.

End MoreProperties.

(** ** The properties at work on the example stores *)

Lemma setWorldMatrixDirty_stays_in_the_subtree_witness :
  exists s', _setWorldMatrixDirty 2 child lineup = Some s' /\
    (forall m, ~ descendant lineup child m -> deref m s' = deref m lineup) /\
    keeps mark_world lineup s' /\ only_objs lineup s'.
Proof.
  apply (setWorldMatrixDirty_stays_in_the_subtree 2 child lineup).
  reflexivity.
Defined.

Lemma worldMatrix_is_read_once_witness :
  exists W s', worldMatrix composeMat4R mulMat4R 3 grandchild lineup
                 = Some (W, s') /\
    (forall fuel', worldMatrix composeMat4R mulMat4R fuel' grandchild s'
                     = Some (W, s')) /\
    (forall m, m ∉ [grandchild; child; root] ->
       deref m s' = deref m lineup) /\
    only_objs lineup s'.
Proof.
  apply (worldMatrix_is_read_once composeMat4R mulMat4R [child; root]
           grandchild lineup 3); [reflexivity|simpl; lia].
Defined.

Lemma worldMatrix_is_the_product_down_the_chain_witness :
  exists W s', worldMatrix composeMat4R mulMat4R 3 grandchild lineup
                 = Some (W, s') /\
    worldOfChain composeMat4R mulMat4R lineup grandchild [child; root]
      = Some W /\
    coherent composeMat4R mulMat4R s' /\
    keeps (placement composeMat4R) lineup s' /\ only_objs lineup s'.
Proof.
  apply (worldMatrix_is_the_product_down_the_chain composeMat4R mulMat4R
           [child; root] grandchild lineup 3);
    [|reflexivity|simpl; lia].
  apply unread_coherent, (bool_decide_unpack _). vm_compute. exact I.
Defined.

Lemma moves_keep_the_world_matrices_coherent_witness :
  exists s',
    move decomposeMat4R eulerToQuaternionR quaternionToEulerR
      angleAxisToQuaternionR mulQuaternionsR DEGTORAD_R
      vec3ApplyQuaternionR mulVec3ScalarR addVec3R
      2 (Translate (0, 1, 0)%R 5%R) child lineup = Some s' /\
    coherent composeMat4R mulMat4R s' /\ listed s' /\
    keeps shape lineup s' /\
    forall m, descendant lineup child m ->
      exists om, deref m s' = Some om /\ _worldMatrixDirty om = true.
Proof.
  apply (moves_keep_the_world_matrices_coherent composeMat4R mulMat4R
           decomposeMat4R eulerToQuaternionR quaternionToEulerR
           angleAxisToQuaternionR mulQuaternionsR DEGTORAD_R
           vec3ApplyQuaternionR mulVec3ScalarR addVec3R
           2 (Translate (0, 1, 0)%R 5%R) child child_node
           scene_registry lineup); try reflexivity.
  - apply (bool_decide_unpack _). vm_compute. exact I.
  - apply unread_coherent, (bool_decide_unpack _). vm_compute. exact I.
Defined.

Lemma rotation_and_quaternion_stay_in_step_witness :
  exists s' o',
    set_rotation eulerToQuaternionR 2 (Some (0, 90, 0)%R) child lineup
      = Some s' /\
    deref child s' = Some o' /\
    _rotation o' = (0, 90, 0)%R /\
    _quaternion o' = eulerToQuaternionR (0, 90, 0)%R.
Proof.
  destruct (rotation_and_quaternion_stay_in_step eulerToQuaternionR
              quaternionToEulerR 2 child child_node scene_registry lineup
              eq_refl eq_refl eq_refl eq_refl) as [Hrotation _].
  destruct (Hrotation (Some (0, 90, 0)%R))
    as (s' & o' & Hrun & Ho' & Hr & Hq & _).
  exists s', o'. split_and!; [exact Hrun|exact Ho'|exact Hr|exact Hq].
Defined.

Lemma matrix_is_stored_as_given_witness :
  exists s' o',
    set_matrix decomposeMat4R 2 None child lineup = Some s' /\
    deref child s' = Some o' /\
    matrix composeMat4R child s' = Some (identityMat4, s') /\
    (_position o', _quaternion o', _scale o') = decomposeMat4R identityMat4 /\
    _rotation o' = _rotation child_node /\
    _localMatrixDirty o' = false /\ _worldMatrixDirty o' = true.
Proof.
  apply (matrix_is_stored_as_given composeMat4R decomposeMat4R 2 child
           child_node scene_registry None lineup); reflexivity.
Defined.

Lemma translate_moves_along_the_turned_axis_witness :
  exists s' o',
    translate vec3ApplyQuaternionR mulVec3ScalarR addVec3R 2 child
      (1, 0, 0)%R 3%R lineup = Some (child, s') /\
    deref child s' = Some o' /\
    _position o' =
      addVec3R (0, 2, 0)%R
        (mulVec3ScalarR (vec3ApplyQuaternionR (0, 0, 0, 1)%R (1, 0, 0)%R) 3%R).
Proof.
  destruct (translate_moves_along_the_turned_axis vec3ApplyQuaternionR
              mulVec3ScalarR addVec3R 2 child child_node scene_registry
              lineup eq_refl eq_refl eq_refl eq_refl) as [Hmove _].
  destruct (Hmove (1, 0, 0)%R 3%R) as (s' & o' & Hrun & Ho' & Hp & _).
  exists s', o'. split_and!; [exact Hrun|exact Ho'|exact Hp].
Defined.

Lemma matrix_follows_position_and_scale_witness :
  exists s' o' s'',
    set_position 2 (Some (0, 5, 0)%R) child lineup = Some s' /\
    deref child s' = Some o' /\
    _position o' = (0, 5, 0)%R /\
    matrix composeMat4R child s'
      = Some (composeMat4R (0, 5, 0)%R (0, 0, 0, 1)%R (1, 1, 1)%R, s'').
Proof.
  destruct (matrix_follows_position_and_scale composeMat4R 2 child
              child_node scene_registry lineup eq_refl eq_refl eq_refl
              eq_refl) as [Hposition _].
  destruct (Hposition (Some (0, 5, 0)%R))
    as (s' & o' & s'' & Hrun & Ho' & Hp & _ & _ & _ & Hm & _).
  exists s', o', s''. split_and!; [exact Hrun|exact Ho'|exact Hp|exact Hm].
Defined.

Lemma rotations_pile_up_on_the_right_witness :
  exists s1 s2 s3 o3,
    rotateX quaternionToEulerR angleAxisToQuaternionR mulQuaternionsR
      DEGTORAD_R 2 child 90%R lineup = Some (child, s1) /\
    rotateY quaternionToEulerR angleAxisToQuaternionR mulQuaternionsR
      DEGTORAD_R 2 child 45%R s1 = Some (child, s2) /\
    rotateZ quaternionToEulerR angleAxisToQuaternionR mulQuaternionsR
      DEGTORAD_R 2 child 30%R s2 = Some (child, s3) /\
    deref child s3 = Some o3 /\
    _quaternion o3 =
      mulQuaternionsR
        (mulQuaternionsR
           (mulQuaternionsR (0, 0, 0, 1)%R
              (angleAxisToQuaternionR (1, 0, 0, 90 * DEGTORAD_R)%R))
           (angleAxisToQuaternionR (0, 1, 0, 45 * DEGTORAD_R)%R))
        (angleAxisToQuaternionR (0, 0, 1, 30 * DEGTORAD_R)%R) /\
    _rotation o3 = quaternionToEulerR (_quaternion o3).
Proof.
  exact (rotations_pile_up_on_the_right quaternionToEulerR
           angleAxisToQuaternionR mulQuaternionsR DEGTORAD_R 2 child
           child_node scene_registry 90%R 45%R 30%R lineup
           eq_refl eq_refl eq_refl eq_refl).
Defined.

Lemma worldNormalMatrix_is_the_inverse_transposed_witness :
  exists W s' o',
    worldOfChain composeMat4R mulMat4R lineup grandchild [child; root]
      = Some W /\
    worldNormalMatrix composeMat4R mulMat4R inverseMat4R transposeMat4R
      3 grandchild lineup = Some (transposeMat4R (inverseMat4R W), s') /\
    worldNormalMatrix composeMat4R mulMat4R inverseMat4R transposeMat4R
      3 grandchild s' = Some (transposeMat4R (inverseMat4R W), s') /\
    deref grandchild s' = Some o' /\ _worldMatrix o' = W /\
    _worldMatrixDirty o' = false /\ _worldNormalMatrixDirty o' = false /\
    coherent composeMat4R mulMat4R s'.
Proof.
  apply (worldNormalMatrix_is_the_inverse_transposed composeMat4R mulMat4R
           inverseMat4R transposeMat4R [child; root] grandchild lineup 3
           grandchild_node); [|reflexivity|simpl; lia|reflexivity..].
  apply unread_coherent, (bool_decide_unpack _). vm_compute. exact I.
Defined.

Lemma a_state_is_set_on_the_whole_subtree_witness :
  exists s', set_flag 2 Visible (Some false) child lineup = Some s' /\
    (forall m, descendant lineup child m ->
       exists om om', deref m lineup = Some om /\ deref m s' = Some om' /\
         om' = put_flag Visible false om /\ get_flag Visible om' = false) /\
    (forall m, ~ descendant lineup child m -> deref m s' = deref m lineup).
Proof.
  destruct (a_state_is_set_on_the_whole_subtree 2 Visible (Some false) child
              lineup eq_refl) as (s' & Hrun & Hin & Hout & _).
  { apply (bool_decide_unpack _). vm_compute. exact I. }
  exists s'. split_and!; [exact Hrun|exact Hin|exact Hout].
Defined.

Lemma colorize_and_opacity_share_one_array_witness :
  exists s',
    set_opacity 2 (Some (1 / 2)%R) child lineup = Some s' /\
    (forall m, descendant lineup child m ->
       exists om om', deref m lineup = Some om /\ deref m s' = Some om' /\
         opacity om' = Some (1 / 2)%R /\
         colorize om' = Some (default (1, 1, 1)%R (colorize om)) /\
         with_colorize None om' = with_colorize None om) /\
    (forall m, ~ descendant lineup child m -> deref m s' = deref m lineup).
Proof.
  destruct (colorize_and_opacity_share_one_array 2 child lineup eq_refl)
    as [_ Hopacity].
  apply (Hopacity (Some (1 / 2)%R)).
Defined.

Lemma addChild_hangs_a_root_under_its_parent_witness :
  exists s' me' oc',
    addChild 3 root (ArgObject child) None loose = Some (Some child, s') /\
    deref root s' = Some me' /\ _childList me' = [child] /\
    deref child s' = Some oc' /\ _parent oc' = Some root /\
    diag s' = [].
Proof.
  destruct (addChild_hangs_a_root_under_its_parent 3 root child
              (node "root" "scene" None [] (0, 0, 0)%R (1, 1, 1)%R None false)
              (node "child" "scene" None [] (0, 0, 0)%R (1, 1, 1)%R None false)
              (registry [("root", root); ("child", child);
                         ("grandchild", grandchild)]
                        [("root", root); ("child", child);
                         ("grandchild", grandchild)])
              [] None loose)
    as (s' & me' & oc' & sc' & Hrun & Hme & Hlist & _ & _ & Hoc & Hpar & _ & _
        & _ & _ & _ & Hdiag & _); try reflexivity.
  - apply unlisted_not_descendant; [done|].
    apply (bool_decide_unpack _). vm_compute. exact I.
  - apply not_elem_of_nil.
  - simpl. lia.
  - apply (bool_decide_unpack _). vm_compute. exact I.
  - intros _. by eexists.
  - exists s', me', oc'.
    split_and!; [exact Hrun|exact Hme|exact Hlist|exact Hoc|exact Hpar|
                 exact Hdiag].
Defined.

Lemma addChild_hands_down_the_states_witness :
  exists s' oc',
    addChild 3 table (ArgObject chair) None showroom = Some (Some chair, s') /\
    deref chair s' = Some oc' /\
    get_flag Selected oc' = true /\ get_flag Highlighted oc' = false /\
    highlited oc' = Some true.
Proof.
  destruct (addChild_hands_down_the_states 3 table chair
              (node "table" "showroom" None
                 [("redLeg", redLeg); ("greenLeg", greenLeg)]
                 (0, 0, 0)%R (1, 1, 1)%R (Some [-5; -9; -5; 5; -3; -3]%R) true)
              (node "chair" "showroom" None [] (8, 0, 0)%R (1, 1, 1)%R None
                 false)
              (registry [("table", table); ("redLeg", redLeg);
                         ("greenLeg", greenLeg); ("chair", chair)]
                        [("table", table); ("chair", chair)])
              [] None showroom)
    as (s' & oc' & Hrun & Hoc & Hgiven & _); try reflexivity.
  - apply unlisted_not_descendant; [done|].
    apply (bool_decide_unpack _). vm_compute. exact I.
  - apply not_elem_of_nil.
  - simpl. lia.
  - apply (bool_decide_unpack _). vm_compute. exact I.
  - intros _. by eexists.
  - destruct Hgiven as (Hflags & _ & _ & Hlit & Hhighlited); [done|].
    exists s', oc'.
    split_and!; [exact Hrun|exact Hoc|exact (Hflags Selected ltac:(done))|
                 exact Hlit|exact Hhighlited].
Defined.

Lemma addChild_keeps_the_hierarchy_sound_witness :
  exists s',
    addChild 3 root (ArgObject child) None loose = Some (Some child, s') /\
    listed s' /\ coherent composeMat4R mulMat4R s'.
Proof.
  apply (addChild_keeps_the_hierarchy_sound composeMat4R mulMat4R 3 root child
           (node "root" "scene" None [] (0, 0, 0)%R (1, 1, 1)%R None false)
           (node "child" "scene" None [] (0, 0, 0)%R (1, 1, 1)%R None false)
           (registry [("root", root); ("child", child);
                      ("grandchild", grandchild)]
                     [("root", root); ("child", child);
                      ("grandchild", grandchild)])
           [] None loose); try reflexivity.
  - apply unlisted_not_descendant; [done|].
    apply (bool_decide_unpack _). vm_compute. exact I.
  - apply not_elem_of_nil.
  - simpl. lia.
  - apply (bool_decide_unpack _). vm_compute. exact I.
  - intros _. by eexists.
  - apply (bool_decide_unpack _). vm_compute. exact I.
  - apply unread_coherent, (bool_decide_unpack _). vm_compute. exact I.
Defined.


Lemma removeChild_of_a_stranger_does_nothing_witness :
  removeChild 3 table chair showroom = Some showroom.
Proof.
  apply (removeChild_of_a_stranger_does_nothing 3 table chair
           (node "table" "showroom" None
              [("redLeg", redLeg); ("greenLeg", greenLeg)]
              (0, 0, 0)%R (1, 1, 1)%R (Some [-5; -9; -5; 5; -3; -3]%R) true)
           (node "chair" "showroom" None [] (8, 0, 0)%R (1, 1, 1)%R None
              false)
           showroom); [reflexivity..|].
  repeat constructor; eexists; (split; [reflexivity|discriminate]).
Defined.

Lemma removeChildren_detaches_every_child_witness :
  exists s' me' sc',
    removeChildren 3 child lineup = Some s' /\
    deref child s' = Some me' /\
    _childList me' = [] /\ _childMap me' = ∅ /\ _parent me' = Some root /\
    (forall c, c ∈ [grandchild] ->
       exists oc', deref c s' = Some oc' /\ _parent oc' = None) /\
    scenes s' !! "scene" = Some sc' /\
    rootObjects sc' = <["grandchild" := grandchild]> (rootObjects scene_registry).
Proof.
  destruct (removeChildren_detaches_every_child 3 child child_node
              scene_registry lineup eq_refl eq_refl eq_refl eq_refl)
    as (s' & me' & sc' & Hrun & Hme & Hlist & Hmap & Hpar & Hkids & Hsc
        & Hroots & _).
  exists s', me', sc'.
  split_and!; [exact Hrun|exact Hme|exact Hlist|exact Hmap|exact Hpar|
               exact Hkids|exact Hsc|exact Hroots].
Defined.

Lemma addChild_of_an_ancestor_never_returns_witness :
  addChild 7 root (ArgObject root) None loose = None.
Proof.
  apply (addChild_of_an_ancestor_never_returns 7 root root
           (node "root" "scene" None [] (0, 0, 0)%R (1, 1, 1)%R None false)
           (node "root" "scene" None [] (0, 0, 0)%R (1, 1, 1)%R None false)
           None loose); try reflexivity.
  constructor.
Defined.


Lemma init_places_the_object_witness :
  exists s' o',
    _init decomposeMat4R eulerToQuaternionR 1 top
      (cfg_at (Some shifted) None None) unborn = Some s' /\
    deref top s' = Some o' /\
    (_position o', _quaternion o', _scale o') = decomposeMat4R shifted /\
    _rotation o' = (0, 0, 0)%R /\
    _localMatrix o' = shifted /\ _localMatrixDirty o' = false.
Proof.
  destruct (init_places_the_object decomposeMat4R eulerToQuaternionR 1 top
              (cfg_at (Some shifted) None None) (blank "top" "scene") unborn)
    as (s' & o' & Hrun & Ho' & Hplace);
    [lia|reflexivity| |reflexivity..|].
  { apply (bool_decide_unpack _). vm_compute. exact I. }
  exists s', o'. split; [exact Hrun|]. split; [exact Ho'|]. exact Hplace.
Defined.

Lemma a_parent_in_the_configuration_overrides_the_states_witness :
  exists s' o',
    _init decomposeMat4R eulerToQuaternionR 3 stool
      (cfg_at None (Some false) (Some table)) expecting = Some s' /\
    deref stool s' = Some o' /\ _parent o' = Some table /\
    get_flag Visible o' = true /\ get_flag Selected o' = true /\
    get_flag Highlighted o' = false.
Proof.
  destruct (a_parent_in_the_configuration_overrides_the_states
              decomposeMat4R eulerToQuaternionR 3 stool table
              (cfg_at None (Some false) (Some table))
              (blank "stool" "showroom")
              (node "table" "showroom" None
                 [("redLeg", redLeg); ("greenLeg", greenLeg)]
                 (0, 0, 0)%R (1, 1, 1)%R (Some [-5; -9; -5; 5; -3; -3]%R) true)
              [] expecting)
    as (s' & o' & Hrun & Ho' & Hpar & Hfl & _ & _ & Hhl);
    try reflexivity.
  - discriminate.
  - apply (bool_decide_unpack _). vm_compute. exact I.
  - apply not_elem_of_nil.
  - simpl. lia.
  - by eexists.
  - exists s', o'.
    split_and!; [exact Hrun|exact Ho'|exact Hpar
                |exact (Hfl Visible ltac:(discriminate))
                |exact (Hfl Selected ltac:(discriminate))|exact Hhl].
Defined.

Lemma addChild_moves_a_child_and_leaves_it_listed_witness :
  exists s' me' oc' q',
    addChild 3 chair (ArgObject redLeg) None showroom
      = Some (Some redLeg, s') /\
    deref chair s' = Some me' /\ _childList me' = [redLeg] /\
    deref redLeg s' = Some oc' /\ _parent oc' = Some chair /\
    deref table s' = Some q' /\
    _childList q' = [redLeg] /\
    _childMap q' = delete "redLeg"
                     (list_to_map [("redLeg", redLeg); ("greenLeg", greenLeg)]) /\
    diag s' = [].
Proof.
  apply (addChild_moves_a_child_and_leaves_it_listed 3 chair redLeg table
           (node "chair" "showroom" None [] (8, 0, 0)%R (1, 1, 1)%R None
              false)
           (node "redLeg" "showroom" (Some table) []
              (-4, -6, -4)%R (1, 3, 1)%R
              (Some [-5; -9; -5; -3; -3; -3]%R) true)
           (node "table" "showroom" None
              [("redLeg", redLeg); ("greenLeg", greenLeg)]
              (0, 0, 0)%R (1, 1, 1)%R (Some [-5; -9; -5; 5; -3; -3]%R) true)
           [] None showroom); try reflexivity.
  - discriminate.
  - by left.
  - intros x Hx. apply elem_of_cons in Hx as [->|Hx].
    + eexists. split; [reflexivity|]. by split.
    + apply list_elem_of_singleton in Hx as ->. eexists.
      split; [reflexivity|]. split; intros; discriminate.
  - apply (bool_decide_unpack _). vm_compute. exact I.
  - apply unlisted_not_descendant; [done|].
    apply (bool_decide_unpack _). vm_compute. exact I.
  - apply unlisted_not_descendant; [done|].
    apply (bool_decide_unpack _). vm_compute. exact I.
  - apply not_elem_of_nil.
  - simpl. lia.
  - intros _. by eexists.
Defined.

Lemma removeChild_cuts_the_child_off_witness :
  exists s' q' oc' sc',
    removeChild 3 table redLeg showroom = Some s' /\
    deref redLeg s' = Some oc' /\ _parent oc' = None /\
    _worldMatrixDirty oc' = true /\
    deref table s' = Some q' /\
    _childList q' = [redLeg] /\
    _childMap q' = delete "redLeg"
                     (list_to_map [("redLeg", redLeg); ("greenLeg", greenLeg)]) /\
    _parent q' = None /\
    scenes s' !! "showroom" = Some sc' /\
    rootObjects sc'
    = <["redLeg" := redLeg]>
        (list_to_map [("table", table); ("chair", chair)]).
Proof.
  destruct (removeChild_cuts_the_child_off 3 table redLeg
              (node "table" "showroom" None
                 [("redLeg", redLeg); ("greenLeg", greenLeg)]
                 (0, 0, 0)%R (1, 1, 1)%R (Some [-5; -9; -5; 5; -3; -3]%R) true)
              (node "redLeg" "showroom" (Some table) []
                 (-4, -6, -4)%R (1, 3, 1)%R
                 (Some [-5; -9; -5; -3; -3; -3]%R) true)
              (registry [("table", table); ("redLeg", redLeg);
                         ("greenLeg", greenLeg); ("chair", chair)]
                        [("table", table); ("chair", chair)])
              showroom)
    as (s' & q' & oc' & sc' & Hrun & Hoc & Hpar & Hdirty & Hq & Hlist & Hmap
        & Hparq & Hsc & Hroots & _); try reflexivity.
  - by left.
  - intros x Hx. apply elem_of_cons in Hx as [->|Hx].
    + eexists. split; [reflexivity|]. by split.
    + apply list_elem_of_singleton in Hx as ->. eexists.
      split; [reflexivity|]. split; intros; discriminate.
  - apply unlisted_not_descendant; [done|].
    apply (bool_decide_unpack _). vm_compute. exact I.
  - exists s', q', oc', sc'.
    split_and!; [exact Hrun|exact Hoc|exact Hpar|exact Hdirty|exact Hq
                |exact Hlist|exact Hmap|exact Hparq|exact Hsc|exact Hroots].
Defined.
